(** * OpenQL list scheduler: a shallow embedding of [src/scheduler.cc]

    The development follows the source file top-down: the arithmetic used
    for arc weights, the dependence-graph builder ([Scheduler::init]), the
    cycle solver ([set_cycle]), the criticality oracle, the
    resource-constrained list scheduler, the uniforming pass and the two
    kernel entry points.  Definitions keep the names of the C++ functions
    they embed. *)

From Stdlib Require Import Strings.Ascii.
From stdpp Require Import base numbers list gmap strings.

Open Scope Z_scope.

(** ** Machine arithmetic *)

(** [size_t] is a 64-bit unsigned integer; additions and subtractions on
    it wrap around. *)
Definition wrap64 (x : Z) : Z := x mod 2 ^ 64.

(** *** Single-precision rounding

    [add_dep] and the uniforming pass compute
    [std::ceil(static_cast<float>(duration) / cycle_time)].  The values
    involved are non-negative and far from the overflow and underflow
    thresholds of binary32, so a float is represented by a mantissa and an
    exponent, value [f_m * 2 ^ f_e], and the only rounding is to 24
    significant bits, ties to even. *)
Record f32 := F32 { f_m : Z; f_e : Z }.

(** Nearest integer to [n / d], ties to even. *)
Definition rne (n d : Z) : Z :=
  let q := n / d in
  let r := n mod d in
  if 2 * r <? d then q
  else if d <? 2 * r then q + 1
  else if Z.even q then q else q + 1.

(** The binary32 value nearest to the positive rational [n / d]. *)
Definition f32_round (n d : Z) : f32 :=
  if n <=? 0 then F32 0 0 else
  let l := Z.log2 n - Z.log2 d in
  let ge := if 0 <=? l then d * 2 ^ l <=? n else d <=? n * 2 ^ (- l) in
  let p := if ge then l - 23 else l - 24 in
  if 0 <=? p then F32 (rne n (d * 2 ^ p)) p
  else F32 (rne (n * 2 ^ (- p)) d) p.

(** Numerator and denominator of the exact value of a float. *)
Definition f32_num (x : f32) : Z :=
  if 0 <=? f_e x then f_m x * 2 ^ f_e x else f_m x.
Definition f32_den (x : f32) : Z :=
  if 0 <=? f_e x then 1 else 2 ^ (- f_e x).

(** [static_cast<float>(n)] for an unsigned [n]. *)
Definition f32_of_Z (n : Z) : f32 := f32_round n 1.

(** Single-precision division. *)
Definition f32_div (x y : f32) : f32 :=
  f32_round (f32_num x * f32_den y) (f32_den x * f32_num y).

(** [std::ceil], converted to an integer. *)
Definition f32_ceil (x : f32) : Z := - ((- f32_num x) / f32_den x).

(** The number of cycles a gate of the given duration occupies, as
    [add_dep] computes it: [cycle_time] is a [size_t] and is converted to
    [float] by the usual arithmetic conversions. *)
Definition duration_in_cycles (duration cycle_time : Z) : Z :=
  f32_ceil (f32_div (f32_of_Z duration) (f32_of_Z cycle_time)).

(** The integer formula that [add_dep] keeps in a comment and that
    [get_dot] uses: the exact ceiling of the quotient. *)
Definition div_ceil (duration cycle_time : Z) : Z :=
  (duration + cycle_time - 1) / cycle_time.

(** ** Gates, arcs and the scheduler object *)

(** The gate kinds the scheduler tells apart ([gate_type_t]); every other
    kind of the gate library behaves like [other_gate] here. *)
Inductive gate_type_t :=
  | dummy_gate | classical_gate | wait_gate | remap_gate | other_gate.

Global Instance gate_type_eq_dec : EqDecision gate_type_t.
Proof. solve_decision. Defined.

(** A gate object.  The scheduler reads every field and writes only
    [cycle]. *)
Record gate := Gate {
  name : string;
  type : gate_type_t;
  operands : list nat;
  creg_operands : list nat;
  duration : Z;
  cycle : Z }.

Definition with_cycle (c : Z) (g : gate) : gate :=
  Gate (name g) (type g) (operands g) (creg_operands g) (duration g) c.

(** Everything of a gate but its cycle slot. *)
Definition frame (g : gate) : gate := with_cycle 0 g.

Inductive DepTypes := RAW | WAW | WAR | RAR | RAD | DAR | DAD | WAD | DAW.

Global Instance DepTypes_eq_dec : EqDecision DepTypes.
Proof. solve_decision. Defined.

Inductive scheduling_direction_t := forward_scheduling | backward_scheduling.

Global Instance direction_eq_dec : EqDecision scheduling_direction_t.
Proof. solve_decision. Defined.

(** An arc of the dependence graph with the values of the arc maps
    [weight], [cause] and [depType]. *)
Record Arc := mkArc {
  a_src : nat;
  a_tgt : nat;
  weight : Z;
  cause : nat;
  depType : DepTypes }.

(** Declarations of [gate.h] and [scheduler.h] that the source file uses:
    the two cycle sentinels and the durations of the SOURCE and SINK dummy
    gates.  They are parameters of the model. *)
Class Decls := {
  MAX_CYCLE : Z;
  ALAP_SINK_CYCLE : Z;
  SOURCE_duration : Z;
  SINK_duration : Z }.

(** The process-wide options the scheduler consults. *)
Record Options := {
  opt_scheduler : string;
  opt_scheduler_uniform : string;
  opt_scheduler_commute : string;
  opt_print_dot_graphs : string;
  opt_prescheduler : string }.

Record quantum_platform := {
  pf_cycle_time : Z;
  pf_qubit_number : nat }.

(** The [Scheduler] object.  Nodes are the ids LEMON hands out, 0, 1, ...
    in creation order; [arcs] lists the arcs most recent first, which is
    the order in which LEMON's [InArcIt] and [OutArcIt] visit them;
    [instruction] is the node map to the gate objects, and [circp] holds
    the circuit as the sequence of its gates, each named by its node. *)
Record Scheduler := mkScheduler {
  arcs : list Arc;
  instruction : list gate;
  circp : list nat;
  s : nat;
  t : nat;
  remaining : gmap nat Z;
  cycle_time : Z;
  qubit_count : nat;
  creg_count : nat }.

Definition with_instruction (ins : list gate) (sc : Scheduler) : Scheduler :=
  mkScheduler (arcs sc) ins (circp sc) (s sc) (t sc) (remaining sc)
    (cycle_time sc) (qubit_count sc) (creg_count sc).
Definition with_circp (c : list nat) (sc : Scheduler) : Scheduler :=
  mkScheduler (arcs sc) (instruction sc) c (s sc) (t sc) (remaining sc)
    (cycle_time sc) (qubit_count sc) (creg_count sc).
Definition with_remaining (r : gmap nat Z) (sc : Scheduler) : Scheduler :=
  mkScheduler (arcs sc) (instruction sc) (circp sc) (s sc) (t sc) r
    (cycle_time sc) (qubit_count sc) (creg_count sc).

(** Arc iterators. *)
Definition in_arcs (g : list Arc) (n : nat) : list Arc :=
  filter (λ a, a_tgt a = n) g.
Definition out_arcs (g : list Arc) (n : nat) : list Arc :=
  filter (λ a, a_src a = n) g.

(** [instruction[n]->cycle] and the assignment to it. *)
Definition cyc (ins : list gate) (n : nat) : Z :=
  from_option cycle 0 (ins !! n).
Definition set_cyc (n : nat) (c : Z) (ins : list gate) : list gate :=
  alter (with_cycle c) n ins.
Definition dur (ins : list gate) (n : nat) : Z :=
  from_option duration 0 (ins !! n).

(** ** Outcomes

    [FATAL] throws; indexing a vector out of its range has no defined
    behaviour and is kept apart. *)
Inductive result (A : Type) :=
  | Ok (a : A)
  | Fatal (msg : string)
  | Undefined.
Arguments Ok {A} a.
Arguments Fatal {A} msg.
Arguments Undefined {A}.

Global Instance result_ret : MRet result := λ A a, Ok a.
Global Instance result_bind : MBind result := λ A B f m,
  match m with Ok a => f a | Fatal msg => Fatal msg | Undefined => Undefined end.

Definition vec_get {A} (v : list A) (i : nat) : result A :=
  match v !! i with Some x => Ok x | None => Undefined end.

Fixpoint for_each {A S} (f : A → S → result S) (l : list A) (st : S) : result S :=
  match l with
  | [] => Ok st
  | x :: l => st' ← f x st; for_each f l st'
  end.

(** ** Dependence graph construction *)

(** [stripname]: the gate name up to its first blank. *)
Fixpoint stripname (nm : string) : string :=
  match nm with
  | EmptyString => EmptyString
  | String c r => if Ascii.eqb c " "%char then EmptyString else String c (stripname r)
  end.

Section init.
Context `{Decls}.

Definition SOURCE : gate := Gate "SOURCE" dummy_gate [] [] SOURCE_duration MAX_CYCLE.
Definition SINK : gate := Gate "SINK" dummy_gate [] [] SINK_duration MAX_CYCLE.

(** [add_dep]: a new arc, linked in front of the older ones. *)
Definition add_dep (ins : list gate) (ct : Z)
    (srcID tgtID : nat) (deptype : DepTypes) (operand : nat)
    (g : list Arc) : list Arc :=
  mkArc srcID tgtID (duration_in_cycles (dur ins srcID) ct) operand deptype :: g.

(** [for (auto &readerID : list) add_dep(readerID, consID, dt, operand)] *)
Definition add_deps (ins : list gate) (ct : Z)
    (srcs : list nat) (tgtID : nat) (deptype : DepTypes) (operand : nat)
    (g : list Arc) : list Arc :=
  foldl (λ g r, add_dep ins ct r tgtID deptype operand g) g srcs.

(** The builder's local state: the graph so far and the three
    bookkeeping vectors. *)
Record builder := mkBuilder {
  b_arcs : list Arc;
  LastWriter : list nat;
  LastReaders : list (list nat);
  LastDs : list (list nat) }.

Definition with_arcs (g : list Arc) (b : builder) : builder :=
  mkBuilder g (LastWriter b) (LastReaders b) (LastDs b).

Section gate_rules.
Variables (ins : list gate) (ct : Z) (commute : string) (consID : nat).

(** Write access: WAW, WAR and WAD dependences. *)
Definition dep_W (operand : nat) (b : builder) : result builder :=
  w ← vec_get (LastWriter b) operand;
  rs ← vec_get (LastReaders b) operand;
  ds ← vec_get (LastDs b) operand;
  Ok (with_arcs
        (add_deps ins ct ds consID WAD operand
           (add_deps ins ct rs consID WAR operand
              (add_dep ins ct w consID WAW operand (b_arcs b)))) b).

(** Write access to a classical register by [measure]: the loop over
    [LastDs] is absent there. *)
Definition dep_W_creg_measure (operand : nat) (b : builder) : result builder :=
  w ← vec_get (LastWriter b) operand;
  rs ← vec_get (LastReaders b) operand;
  Ok (with_arcs
        (add_deps ins ct rs consID WAR operand
           (add_dep ins ct w consID WAW operand (b_arcs b))) b).

Definition upd_W (operand : nat) (b : builder) : builder :=
  mkBuilder (b_arcs b) (<[operand := consID]> (LastWriter b))
    (<[operand := []]> (LastReaders b)) (<[operand := []]> (LastDs b)).

Definition upd_W_creg_measure (operand : nat) (b : builder) : builder :=
  mkBuilder (b_arcs b) (<[operand := consID]> (LastWriter b))
    (<[operand := []]> (LastReaders b)) (LastDs b).

(** Control operand of a CNOT. *)
Definition dep_R_cnot (operand : nat) (b : builder) : result builder :=
  w ← vec_get (LastWriter b) operand;
  rs ← vec_get (LastReaders b) operand;
  ds ← vec_get (LastDs b) operand;
  let g1 := add_dep ins ct w consID RAW operand (b_arcs b) in
  let g2 := if String.eqb commute "no"
            then add_deps ins ct rs consID RAR operand g1 else g1 in
  Ok (with_arcs (add_deps ins ct ds consID RAD operand g2) b).

(** Target operand of a CNOT. *)
Definition dep_D_cnot (operand : nat) (b : builder) : result builder :=
  w ← vec_get (LastWriter b) operand;
  rs ← vec_get (LastReaders b) operand;
  ds ← vec_get (LastDs b) operand;
  let g1 := add_dep ins ct w consID DAW operand (b_arcs b) in
  let g2 := if String.eqb commute "no"
            then add_deps ins ct ds consID DAD operand g1 else g1 in
  Ok (with_arcs (add_deps ins ct rs consID DAR operand g2) b).

(** Operand of a CZ or CPHASE. *)
Definition dep_R_cz (operand : nat) (b : builder) : result builder :=
  w ← vec_get (LastWriter b) operand;
  rs ← vec_get (LastReaders b) operand;
  ds ← vec_get (LastDs b) operand;
  let g1 := if String.eqb commute "no"
            then add_deps ins ct rs consID RAR operand (b_arcs b) else b_arcs b in
  let g2 := add_dep ins ct w consID RAW operand g1 in
  Ok (with_arcs (add_deps ins ct ds consID RAD operand g2) b).

Definition upd_R (operand : nat) (b : builder) : builder :=
  let rs := default [] (LastReaders b !! operand) in
  mkBuilder (b_arcs b) (LastWriter b)
    (<[operand := rs ++ [consID]]> (LastReaders b))
    (<[operand := []]> (LastDs b)).

Definition upd_D (operand : nat) (b : builder) : builder :=
  let ds := default [] (LastDs b !! operand) in
  mkBuilder (b_arcs b) (LastWriter b)
    (<[operand := []]> (LastReaders b))
    (<[operand := ds ++ [consID]]> (LastDs b)).

(** The CZ branch clears [LastDs] first and then records the reader. *)
Definition upd_R_cz (operand : nat) (b : builder) : builder :=
  let rs := default [] (LastReaders b !! operand) in
  mkBuilder (b_arcs b) (LastWriter b)
    (<[operand := rs ++ [consID]]> (LastReaders b))
    (<[operand := []]> (LastDs b)).

(** A loop that counts its iterations in [operandNo]. *)
Fixpoint for_each_no {S} (f : nat → nat → S → result S)
    (operandNo : nat) (l : list nat) (st : S) : result S :=
  match l with
  | [] => Ok st
  | x :: l => st' ← f operandNo x st; for_each_no f (Datatypes.S operandNo) l st'
  end.

Definition pure {S} (f : nat → S → S) : nat → S → result S :=
  λ x st, Ok (f x st).
End gate_rules.

(** The body of the loop over the circuit, after the node [consID] for
    the gate [g] has been added: the if-chain on the gate's signature. *)
Definition add_gate_deps (ins : list gate) (ct : Z) (commute : string)
    (qubit_count qubit_creg_count : nat) (consID : nat) (g : gate)
    (b : builder) : result builder :=
  let iname := stripname (name g) in
  let cregs := (λ c, qubit_count + c)%nat <$> creg_operands g in
  if String.eqb iname "measure" then
    b ← for_each (dep_W ins ct consID) (operands g) b;
    b ← for_each (dep_W_creg_measure ins ct consID) cregs b;
    b ← for_each (pure (upd_W consID)) (operands g) b;
    for_each (pure (upd_W_creg_measure consID)) cregs b
  else if String.eqb iname "display" then
    b ← for_each (dep_W ins ct consID) (seq 0 qubit_creg_count) b;
    for_each (pure (upd_W consID)) (seq 0 qubit_creg_count) b
  else if decide (type g = classical_gate) then
    b ← for_each (dep_W ins ct consID) cregs b;
    for_each (pure (upd_W consID)) cregs b
  else if String.eqb iname "cnot" then
    b ← for_each_no
           (λ operandNo operand b,
              if decide (operandNo = 0%nat)
              then dep_R_cnot ins ct commute consID operand b
              else dep_D_cnot ins ct commute consID operand b)
           0 (operands g) b;
    for_each_no
      (λ operandNo operand b,
         Ok (if decide (operandNo = 0%nat)
             then upd_R consID operand b else upd_D consID operand b))
      0 (operands g) b
  else if String.eqb iname "cz" || String.eqb iname "cphase" then
    b ← for_each (dep_R_cz ins ct commute consID) (operands g) b;
    for_each (pure (upd_R_cz consID)) (operands g) b
  else
    b ← for_each
           (λ operand b, b ← dep_W ins ct consID operand b;
                         Ok (upd_W consID operand b))
           (operands g) b;
    for_each
      (λ operand b, b ← dep_W ins ct consID operand b;
                    Ok (upd_W consID operand b))
      cregs b.

(** The loop over the circuit: gate number [i] of the circuit becomes
    node [i + 1]. *)
Fixpoint add_gates (ins : list gate) (ct : Z) (commute : string)
    (qubit_count qubit_creg_count : nat) (consID : nat) (ckt : list gate)
    (b : builder) : result builder :=
  match ckt with
  | [] => Ok b
  | g :: ckt =>
      b ← add_gate_deps ins ct commute qubit_count qubit_creg_count consID g b;
      add_gates ins ct commute qubit_count qubit_creg_count (Datatypes.S consID) ckt b
  end.

(** The nodes one arc away from a node of [us]. *)
Definition successors (g : list Arc) (us : list nat) : list nat :=
  remove_dups (a_tgt <$> filter (λ a, a_src a ∈ us) g).

(** Is there a path of at most [fuel] arcs, and at least one, from a
    node of [us] to [v]? *)
Fixpoint reaches (g : list Arc) (fuel : nat) (us : list nat) (v : nat) : bool :=
  match fuel with
  | O => false
  | Datatypes.S fuel =>
      let vs := successors g us in
      if bool_decide (v ∈ vs) then true else reaches g fuel vs v
  end.

(** Modelled from the spec: LEMON's [dag] is not part of the repository;
    it decides whether the directed graph is acyclic.  In a graph of [n]
    nodes that is: no node reaches itself within [n] arcs. *)
Definition dag (g : list Arc) (n : nat) : bool :=
  forallb (λ v, negb (reaches g n [v] v)) (seq 0 n).

(** [Scheduler::init]. *)
Definition init (opts : Options) (ckt : list gate) (platform : quantum_platform)
    (qcount ccount : nat) : result Scheduler :=
  let qubit_creg_count := (qcount + ccount)%nat in
  let ct := pf_cycle_time platform in
  let ins := SOURCE :: ckt ++ [SINK] in
  let srcID := 0%nat in
  let b0 := mkBuilder [] (replicate qubit_creg_count srcID)
              (replicate qubit_creg_count []) (replicate qubit_creg_count []) in
  b ← add_gates ins ct (opt_scheduler_commute opts) qcount qubit_creg_count 1 ckt b0;
  let consID := Datatypes.S (length ckt) in
  b ← for_each (dep_W ins ct consID) (seq 0 qubit_creg_count) b;
  b ← for_each (pure (upd_W consID)) (seq 0 qubit_creg_count) b;
  if dag (b_arcs b) (length ins)
  then Ok (mkScheduler (b_arcs b) ins (seq 1 (length ckt)) srcID consID ∅
             ct qcount ccount)
  else Fatal "The dependence graph is not a DAG.".
End init.

(** ** Sorting

    [std::stable_sort] and [std::list::sort] are stable; for a comparison
    that is a strict weak order the result is the one stable arrangement,
    which insertion from the right computes. *)
Fixpoint insert_sorted {A} (lt : A → A → bool) (x : A) (l : list A) : list A :=
  match l with
  | [] => [x]
  | y :: l' => if lt y x then y :: insert_sorted lt x l' else x :: l
  end.

Definition stable_sort {A} (lt : A → A → bool) (l : list A) : list A :=
  foldr (insert_sorted lt) [] l.

(** The same with a comparison that may fail to return. *)
Fixpoint insert_sorted_opt {A} (lt : A → A → option bool) (x : A) (l : list A)
    : option (list A) :=
  match l with
  | [] => Some [x]
  | y :: l' =>
      b ← lt y x;
      if b : bool then l'' ← insert_sorted_opt lt x l'; Some (y :: l'')
      else Some (x :: l)
  end.

Fixpoint stable_sort_opt {A} (lt : A → A → option bool) (l : list A)
    : option (list A) :=
  match l with
  | [] => Some []
  | x :: l => l' ← stable_sort_opt lt l; insert_sorted_opt lt x l'
  end.

(** [l.back()] of a list of nodes. *)
Definition back (l : list nat) : nat := default 0%nat (last l).

(** ** Cycle solver *)

Section solver.
Context `{Decls}.

(** [set_cycle_gate]. *)
Definition set_cycle_gate (g : list Arc) (n : nat)
    (dir : scheduling_direction_t) (ins : list gate) : list gate :=
  let currCycle :=
    match dir with
    | forward_scheduling =>
        foldl (λ c a, Z.max c (wrap64 (cyc ins (a_src a) + weight a)))
          0 (in_arcs g n)
    | backward_scheduling =>
        foldl (λ c a, Z.min c (wrap64 (cyc ins (a_tgt a) - weight a)))
          MAX_CYCLE (out_arcs g n)
    end in
  set_cyc n currCycle ins.

(** The loop that moves every cycle down by [SOURCECycle]. *)
Definition readjust (sc : Scheduler) (ins : list gate) : list gate :=
  let SOURCECycle := cyc ins (s sc) in
  let ins := set_cyc (t sc) (wrap64 (cyc ins (t sc) - SOURCECycle)) ins in
  let ins := foldl (λ ins gp, set_cyc gp (wrap64 (cyc ins gp - SOURCECycle)) ins)
               ins (circp sc) in
  set_cyc (s sc) (wrap64 (cyc ins (s sc) - SOURCECycle)) ins.

(** [set_cycle]. *)
Definition set_cycle (dir : scheduling_direction_t) (sc : Scheduler) : Scheduler :=
  match dir with
  | forward_scheduling =>
      let ins := set_cyc (s sc) 0 (instruction sc) in
      let ins := foldl (λ ins gp, set_cycle_gate (arcs sc) gp dir ins) ins (circp sc) in
      with_instruction (set_cycle_gate (arcs sc) (t sc) dir ins) sc
  | backward_scheduling =>
      let ins := set_cyc (t sc) ALAP_SINK_CYCLE (instruction sc) in
      let ins := foldl (λ ins gp, set_cycle_gate (arcs sc) gp dir ins)
                   ins (reverse (circp sc)) in
      let ins := set_cycle_gate (arcs sc) (s sc) dir ins in
      with_instruction (readjust sc ins) sc
  end.

Definition cycle_lessthan (ins : list gate) (gp1 gp2 : nat) : bool :=
  cyc ins gp1 <? cyc ins gp2.

(** [sort_by_cycle]. *)
Definition sort_by_cycle (sc : Scheduler) : Scheduler :=
  with_circp (stable_sort (cycle_lessthan (instruction sc)) (circp sc)) sc.

(** [schedule_asap] and [schedule_alap] without resource constraints.
    The DOT rendering they may produce is an output only. *)
Definition schedule_asap (sc : Scheduler) : Scheduler :=
  sort_by_cycle (set_cycle forward_scheduling sc).
Definition schedule_alap (sc : Scheduler) : Scheduler :=
  sort_by_cycle (set_cycle backward_scheduling sc).

(** [get_dot(std::string &)]: as far as the scheduler object goes, an
    ASAP cycle assignment and a sort. *)
Definition get_dot (sc : Scheduler) : Scheduler :=
  sort_by_cycle (set_cycle forward_scheduling sc).

(** ** Criticality *)

(** [remaining[n]]: a missing key reads as 0. *)
Definition rem (r : gmap nat Z) (n : nat) : Z := default 0 (r !! n).

(** [set_remaining_gate]. *)
Definition set_remaining_gate (g : list Arc) (n : nat)
    (dir : scheduling_direction_t) (r : gmap nat Z) : gmap nat Z :=
  let currRemain :=
    match dir with
    | forward_scheduling =>
        foldl (λ c a, Z.max c (wrap64 (rem r (a_tgt a) + weight a))) 0 (out_arcs g n)
    | backward_scheduling =>
        foldl (λ c a, Z.max c (wrap64 (rem r (a_src a) + weight a))) 0 (in_arcs g n)
    end in
  <[n := currRemain]> r.

(** [set_remaining]. *)
Definition set_remaining (dir : scheduling_direction_t) (sc : Scheduler) : Scheduler :=
  match dir with
  | forward_scheduling =>
      let r := <[t sc := 0]> (∅ : gmap nat Z) in
      let r := foldl (λ r gp, set_remaining_gate (arcs sc) gp dir r) r
                 (reverse (circp sc)) in
      with_remaining (set_remaining_gate (arcs sc) (s sc) dir r) sc
  | backward_scheduling =>
      let r := <[s sc := 0]> (∅ : gmap nat Z) in
      let r := foldl (λ r gp, set_remaining_gate (arcs sc) gp dir r) r (circp sc) in
      with_remaining (set_remaining_gate (arcs sc) (t sc) dir r) sc
  end.

(** The node an arc makes depend on the other, and that other node, for
    a scheduling direction. *)
Definition depending (dir : scheduling_direction_t) (a : Arc) : nat :=
  match dir with forward_scheduling => a_tgt a | backward_scheduling => a_src a end.
Definition depended (dir : scheduling_direction_t) (a : Arc) : nat :=
  match dir with forward_scheduling => a_src a | backward_scheduling => a_tgt a end.
Definition dep_arcs (g : list Arc) (dir : scheduling_direction_t) (n : nat) : list Arc :=
  match dir with
  | forward_scheduling => out_arcs g n
  | backward_scheduling => in_arcs g n
  end.

(** [get_depending_nodes]: the successors (forward) or predecessors
    (backward) of [n], appended to [ln] without duplicates. *)
Definition get_depending_nodes (g : list Arc) (n : nat)
    (dir : scheduling_direction_t) (ln : list nat) : list nat :=
  foldl (λ ln a, if decide (depending dir a ∈ ln) then ln else ln ++ [depending dir a])
    ln (dep_arcs g dir n).

(** [criticality_lessthan].  The recursion of the source is bounded here
    by [fuel]; [None] stands for a call that did not return within it. *)
Fixpoint criticality_lessthan (fuel : nat) (g : list Arc) (r : gmap nat Z)
    (n1 n2 : nat) (dir : scheduling_direction_t) : option bool :=
  match fuel with
  | O => None
  | Datatypes.S fuel =>
      if decide (n1 = n2) then Some false
      else if rem r n1 <? rem r n2 then Some true
      else if rem r n2 <? rem r n1 then Some false
      else
        let ln1 := get_depending_nodes g n1 dir [] in
        let ln2 := get_depending_nodes g n2 dir [] in
        if bool_decide (ln2 = []) then Some false
        else if bool_decide (ln1 = []) then Some true
        else
          let ln1 := stable_sort (λ d1 d2, rem r d1 <? rem r d2) ln1 in
          let ln2 := stable_sort (λ d1 d2, rem r d1 <? rem r d2) ln2 in
          let crit_dep_n1 := rem r (back ln1) in
          let crit_dep_n2 := rem r (back ln2) in
          if crit_dep_n1 <? crit_dep_n2 then Some true
          else if crit_dep_n2 <? crit_dep_n1 then Some false
          else
            let ln1 := filter (λ n, ¬ rem r n < crit_dep_n1) ln1 in
            let ln2 := filter (λ n, ¬ rem r n < crit_dep_n2) ln2 in
            if (length ln1 <? length ln2)%nat then Some true
            else if (length ln2 <? length ln1)%nat then Some false
            else
              ln1 ← stable_sort_opt (λ d1 d2, criticality_lessthan fuel g r d1 d2 dir) ln1;
              ln2 ← stable_sort_opt (λ d1 d2, criticality_lessthan fuel g r d1 d2 dir) ln2;
              criticality_lessthan fuel g r (back ln1) (back ln2) dir
  end.
End solver.

(** ** Resource-constrained list scheduler *)

(** The resource manager is a collaborator of the scheduler
    ([arch::resource_manager_t]): it is created for a platform and a
    direction, answers [available] and records [reserve]. *)
Class resource_manager_t (R : Type) := {
  rm_new : quantum_platform → scheduling_direction_t → R;
  available : R → Z → gate → quantum_platform → bool;
  reserve : R → Z → gate → quantum_platform → R }.

Global Instance gate_inhabited : Inhabited gate :=
  populate (Gate "" other_gate [] [] 0 0).

(** The variables of [Scheduler::schedule] that its loop updates, next to
    the gates' cycle slots. *)
Record rc_state (R : Type) := mkRc {
  rc_ins : list gate;
  rc_avlist : list nat;
  rc_scheduled : gmap nat bool;
  rc_curr_cycle : Z;
  rc_rm : R }.
Arguments mkRc {R}.
Arguments rc_ins {R}.
Arguments rc_avlist {R}.
Arguments rc_scheduled {R}.
Arguments rc_curr_cycle {R}.
Arguments rc_rm {R}.

(** The outcome of a loop that may not end: its result, unless it takes
    more rounds than the fuel given. *)
Inductive run (A : Type) :=
  | Returns (a : A)
  | OutOfFuel.
Arguments Returns {A} a.
Arguments OutOfFuel {A}.

Section list_scheduler.
Context `{Decls} {R : Type} `{resource_manager_t R}.

(** [init_available]. *)
Definition init_available (sc : Scheduler) (dir : scheduling_direction_t)
    (ins : list gate) : list gate * list nat * Z :=
  match dir with
  | forward_scheduling => (set_cyc (s sc) 0 ins, [s sc], 0)
  | backward_scheduling =>
      (set_cyc (t sc) ALAP_SINK_CYCLE ins, [t sc], ALAP_SINK_CYCLE)
  end.

(** The comparison [MakeAvailable] orders the available list with.  The
    depth of the recursion of [criticality_lessthan] is bounded by the
    number of nodes of an acyclic graph. *)
Definition less_critical (sc : Scheduler) (dir : scheduling_direction_t)
    (n1 n2 : nat) : bool :=
  default false
    (criticality_lessthan (length (instruction sc)) (arcs sc) (remaining sc) n1 n2 dir).

(** Insertion just before the first element of lower criticality, at
    the end when there is none. *)
Fixpoint insert_before_lower (lower : nat → bool) (n : nat) (avlist : list nat)
    : list nat :=
  match avlist with
  | [] => [n]
  | x :: l => if lower x then n :: x :: l else x :: insert_before_lower lower n l
  end.

(** [MakeAvailable]. *)
Definition MakeAvailable (sc : Scheduler) (n : nat) (dir : scheduling_direction_t)
    (st : list gate * list nat) : list gate * list nat :=
  let '(ins, avlist) := st in
  let already_in_avlist := bool_decide (n ∈ avlist) in
  if already_in_avlist then (ins, avlist)
  else (set_cycle_gate (arcs sc) n dir ins,
        insert_before_lower (λ inp, less_critical sc dir inp n) n avlist).

Definition is_scheduled (scheduled : gmap nat bool) (n : nat) : bool :=
  default false (scheduled !! n).

(** The arcs over which a node waits, for a scheduling direction. *)
Definition wait_arcs (g : list Arc) (dir : scheduling_direction_t) (n : nat) : list Arc :=
  match dir with
  | forward_scheduling => in_arcs g n
  | backward_scheduling => out_arcs g n
  end.

(** [TakeAvailable]. *)
Definition TakeAvailable (sc : Scheduler) (n : nat) (dir : scheduling_direction_t)
    (ins : list gate) (avlist : list nat) (scheduled : gmap nat bool)
    : list gate * list nat * gmap nat bool :=
  let scheduled := <[n := true]> scheduled in
  let avlist := filter (λ x, x ≠ n) avlist in
  (foldl (λ st a,
            let m := depending dir a in
            let schedulable :=
              forallb (λ a', is_scheduled scheduled (depended dir a'))
                (wait_arcs (arcs sc) dir m) in
            if schedulable then MakeAvailable sc m dir st else st)
     (ins, avlist) (dep_arcs (arcs sc) dir n),
   scheduled).

(** [AdvanceCurrCycle]. *)
Definition AdvanceCurrCycle (dir : scheduling_direction_t) (curr_cycle : Z) : Z :=
  match dir with
  | forward_scheduling => wrap64 (curr_cycle + 1)
  | backward_scheduling => wrap64 (curr_cycle - 1)
  end.

(** Gates that bypass the resource manager. *)
Definition bypasses_resources (sc : Scheduler) (n : nat) (gp : gate) : bool :=
  bool_decide (n = s sc) || bool_decide (n = t sc)
  || bool_decide (type gp = dummy_gate)
  || bool_decide (type gp = classical_gate)
  || bool_decide (type gp = wait_gate)
  || bool_decide (type gp = remap_gate).

(** [immediately_schedulable]. *)
Definition immediately_schedulable (sc : Scheduler) (n : nat)
    (dir : scheduling_direction_t) (curr_cycle : Z)
    (platform : quantum_platform) (rm : R) (ins : list gate) : bool :=
  let gp := ins !!! n in
  if match dir with
     | forward_scheduling => cycle gp <=? curr_cycle
     | backward_scheduling => curr_cycle <=? cycle gp
     end
  then
    if bypasses_resources sc n gp then true
    else available rm curr_cycle gp platform
  else false.

(** [SelectAvailable]: the first immediately schedulable node. *)
Definition SelectAvailable (sc : Scheduler) (avlist : list nat)
    (dir : scheduling_direction_t) (curr_cycle : Z)
    (platform : quantum_platform) (rm : R) (ins : list gate) : option nat :=
  snd <$> list_find
    (λ n, immediately_schedulable sc n dir curr_cycle platform rm ins = true) avlist.

(** One round of the loop of [schedule]. *)
Definition schedule_step (sc : Scheduler) (dir : scheduling_direction_t)
    (platform : quantum_platform) (st : rc_state R) : rc_state R :=
  match SelectAvailable sc (rc_avlist st) dir (rc_curr_cycle st) platform
          (rc_rm st) (rc_ins st) with
  | None =>
      mkRc (rc_ins st) (rc_avlist st) (rc_scheduled st)
        (AdvanceCurrCycle dir (rc_curr_cycle st)) (rc_rm st)
  | Some selected_node =>
      let ins := set_cyc selected_node (rc_curr_cycle st) (rc_ins st) in
      let gp := ins !!! selected_node in
      let rm := if bypasses_resources sc selected_node gp then rc_rm st
                else reserve (rc_rm st) (rc_curr_cycle st) gp platform in
      let '(ins, avlist, scheduled) :=
        TakeAvailable sc selected_node dir ins (rc_avlist st) (rc_scheduled st) in
      mkRc ins avlist scheduled (rc_curr_cycle st) rm
  end.

(** [while (!avlist.empty())]. *)
Fixpoint schedule_loop (fuel : nat) (sc : Scheduler) (dir : scheduling_direction_t)
    (platform : quantum_platform) (st : rc_state R) : run (rc_state R) :=
  match rc_avlist st with
  | [] => Returns st
  | _ :: _ =>
      match fuel with
      | O => OutOfFuel
      | Datatypes.S fuel => schedule_loop fuel sc dir platform (schedule_step sc dir platform st)
      end
  end.

(** The state the loop starts from. *)
Definition schedule_init (sc : Scheduler) (dir : scheduling_direction_t) (rm : R)
    : rc_state R :=
  let scheduled : gmap nat bool :=
    list_to_map ((λ n, (n, false)) <$> seq 0 (length (instruction sc))) in
  let '(ins, avlist, curr_cycle) := init_available sc dir (instruction sc) in
  mkRc ins avlist scheduled curr_cycle rm.

(** [Scheduler::schedule]: the scheduler after the run, and the
    resource manager. *)
Definition schedule (fuel : nat) (sc : Scheduler) (dir : scheduling_direction_t)
    (platform : quantum_platform) (rm : R) : run (Scheduler * R) :=
  let st0 := schedule_init sc dir rm in
  let sc := set_remaining dir sc in
  match schedule_loop fuel sc dir platform st0 with
  | OutOfFuel => OutOfFuel
  | Returns st =>
      let sc := sort_by_cycle (with_instruction (rc_ins st) sc) in
      let sc := match dir with
                | forward_scheduling => sc
                | backward_scheduling => with_instruction (readjust sc (instruction sc)) sc
                end in
      Returns (sc, rc_rm st)
  end.

Definition schedule_asap_rc (fuel : nat) (sc : Scheduler)
    (rm : R) (platform : quantum_platform) : run (Scheduler * R) :=
  schedule fuel sc forward_scheduling platform rm.
Definition schedule_alap_rc (fuel : nat) (sc : Scheduler)
    (rm : R) (platform : quantum_platform) : run (Scheduler * R) :=
  schedule fuel sc backward_scheduling platform rm.
End list_scheduler.

(** ** Uniforming pass *)

Section uniform.
Context `{Decls}.

(** [gates_per_cycle[c]]: a missing key reads as the empty list. *)
Definition bundle (gpc : gmap Z (list nat)) (c : Z) : list nat :=
  default [] (gpc !! c).

(** The variables the backward scan updates. *)
Record uniform_state := mkUniform {
  u_ins : list gate;
  gates_per_cycle : gmap Z (list nat);
  non_empty_bundle_count : Z;
  gate_count : Z }.

(** [double(size) < double(gate_count) / non_empty_bundle_count], which
    for fewer than 2^26 gates is the comparison of the exact values. *)
Definition below_average (size gate_count non_empty_bundle_count : Z) : bool :=
  size * non_empty_bundle_count <? gate_count.

(** The test on one candidate [predgp] of the bundle at [pred_cycle]:
    moved to [curr_cycle], it must complete no later than SINK starts
    and no later than any of its successors starts. *)
Definition forward_predgp (sc : Scheduler) (cycle_count curr_cycle : Z)
    (ins : list gate) (predgp : nat) : bool :=
  let predgp_completion_cycle :=
    wrap64 (curr_cycle + duration_in_cycles (dur ins predgp) (cycle_time sc)) in
  if wrap64 (cycle_count + 1) <? predgp_completion_cycle then false
  else forallb (λ arc, negb (cyc ins (a_tgt arc) <? predgp_completion_cycle))
         (out_arcs (arcs sc) predgp).

(** The scan of the bundle at [pred_cycle] for the candidate of lowest
    [remaining]. *)
Definition best_predgp (sc : Scheduler) (cycle_count curr_cycle : Z)
    (ins : list gate) (bundle_pred : list nat) : option nat :=
  snd (foldl
         (λ acc predgp,
            if forward_predgp sc cycle_count curr_cycle ins predgp
               && (rem (remaining sc) predgp <? fst acc)
            then (rem (remaining sc) predgp, Some predgp) else acc)
         (MAX_CYCLE, None) bundle_pred).

(** The move of [predgp] from [pred_cycle] to [curr_cycle]. *)
Definition move_gate (pred_cycle curr_cycle : Z) (predgp : nat)
    (st : uniform_state) : uniform_state :=
  let gpc := <[pred_cycle := filter (λ x, x ≠ predgp) (bundle (gates_per_cycle st) pred_cycle)]>
               (gates_per_cycle st) in
  let ne := if bool_decide (bundle gpc pred_cycle = [])
            then wrap64 (non_empty_bundle_count st - 1)
            else non_empty_bundle_count st in
  let ne := if bool_decide (bundle gpc curr_cycle = []) then wrap64 (ne + 1) else ne in
  mkUniform (set_cyc predgp curr_cycle (u_ins st))
    (<[curr_cycle := bundle gpc curr_cycle ++ [predgp]]> gpc) ne (gate_count st).

(** The [while] loop that fills the bundle at [curr_cycle].  [pred] is
    [pred_cycle], which the loop only decreases; between two decrements
    every round moves one gate out of the bundle at [pred_cycle], so the
    rounds at one value of [pred_cycle] are at most the size [k] that
    bundle had when the scan reached it, and one more that finds no
    candidate. *)
Fixpoint fill_bundle (sc : Scheduler) (cycle_count curr_cycle : Z) (pred : nat)
    (st : uniform_state) {struct pred} : uniform_state :=
  match pred with
  | O => st
  | Datatypes.S pred' =>
      let pred_cycle := Z.of_nat pred in
      (fix rounds (k : nat) (st : uniform_state) {struct k} : uniform_state :=
         if below_average (Z.of_nat (length (bundle (gates_per_cycle st) curr_cycle)))
              (gate_count st) (non_empty_bundle_count st)
         then
           match best_predgp sc cycle_count curr_cycle (u_ins st)
                   (bundle (gates_per_cycle st) pred_cycle) with
           | Some predgp =>
               let st := move_gate pred_cycle curr_cycle predgp st in
               if non_empty_bundle_count st =? 0 then st
               else match k with
                    | O => st
                    | Datatypes.S k => rounds k st
                    end
           | None => fill_bundle sc cycle_count curr_cycle pred' st
           end
         else st)
        (length (bundle (gates_per_cycle st) pred_cycle)) st
  end.

(** The backward scan [for (curr_cycle = cycle_count; curr_cycle >= 1;
    curr_cycle--)]. *)
Fixpoint backward_scan (sc : Scheduler) (cycle_count : Z) (curr : nat)
    (st : uniform_state) : uniform_state :=
  match curr with
  | O => st
  | Datatypes.S pred =>
      let curr_cycle := Z.of_nat curr in
      if non_empty_bundle_count st =? 0 then st
      else
        let st := fill_bundle sc cycle_count curr_cycle pred st in
        let size := Z.of_nat (length (bundle (gates_per_cycle st) curr_cycle)) in
        let st := mkUniform (u_ins st) (gates_per_cycle st)
                    (if size =? 0 then non_empty_bundle_count st
                     else wrap64 (non_empty_bundle_count st - 1))
                    (wrap64 (gate_count st - size)) in
        backward_scan sc cycle_count pred st
  end.

(** [schedule_alap_uniform]. *)
Definition schedule_alap_uniform (sc : Scheduler) : Scheduler :=
  let sc := set_cycle forward_scheduling sc in
  let cycle_count := wrap64 (cyc (instruction sc) (t sc) - 1) in
  let sc := set_remaining forward_scheduling sc in
  let gpc := foldl (λ gpc gp,
                      <[cyc (instruction sc) gp := bundle gpc (cyc (instruction sc) gp) ++ [gp]]> gpc)
               (∅ : gmap Z (list nat)) (circp sc) in
  let cycles := (λ c, Z.of_nat c) <$> seq 1 (Z.to_nat cycle_count) in
  let ne := Z.of_nat (length (filter (λ c, bundle gpc c ≠ []) cycles)) in
  let gc := foldl (λ n c, n + Z.of_nat (length (bundle gpc c))) 0 cycles in
  let st := backward_scan sc cycle_count (Z.to_nat cycle_count)
              (mkUniform (instruction sc) gpc ne gc) in
  sort_by_cycle (with_instruction (u_ins st) sc).
End uniform.

(** ** Kernels and the entry points *)

Record quantum_kernel := mkKernel {
  k_name : string;
  c : list gate;
  k_qubit_count : nat;
  k_creg_count : nat;
  cycles_valid : bool }.

Definition with_cycles_valid (b : bool) (k : quantum_kernel) : quantum_kernel :=
  mkKernel (k_name k) (c k) (k_qubit_count k) (k_creg_count k) b.

(** The kernel's circuit as the scheduler leaves it: the gates in the
    order of [circp], with the cycles written to them. *)
Definition with_circuit_of (sc : Scheduler) (k : quantum_kernel) : quantum_kernel :=
  mkKernel (k_name k) ((λ n, instruction sc !!! n) <$> circp sc)
    (k_qubit_count k) (k_creg_count k) (cycles_valid k).

Section entry_points.
Context `{Decls}.

(** [schedule_kernel]: the kernel as the call leaves it, returning or
    throwing. *)
Definition schedule_kernel (opts : Options) (kernel : quantum_kernel)
    (platform : quantum_platform) : quantum_kernel * result () :=
  match init opts (c kernel) platform (k_qubit_count kernel) (k_creg_count kernel) with
  | Fatal msg => (kernel, Fatal msg)
  | Undefined => (kernel, Undefined)
  | Ok sched =>
      let sched := if String.eqb (opt_print_dot_graphs opts) "yes"
                   then get_dot sched else sched in
      if String.eqb (opt_scheduler_uniform opts) "yes" then
        (with_cycles_valid true (with_circuit_of (schedule_alap_uniform sched) kernel), Ok ())
      else if String.eqb (opt_scheduler opts) "ASAP" then
        (with_cycles_valid true (with_circuit_of (schedule_asap sched) kernel), Ok ())
      else if String.eqb (opt_scheduler opts) "ALAP" then
        (with_cycles_valid true (with_circuit_of (schedule_alap sched) kernel), Ok ())
      else
        (with_circuit_of sched kernel,
         Fatal ("Not supported scheduler option: scheduler=" +:+ opt_scheduler opts))
  end.

(** The loop over the kernels of a program; a throw ends it. *)
Fixpoint for_kernels (f : quantum_kernel → quantum_kernel * result ())
    (kernels : list quantum_kernel) : list quantum_kernel * result () :=
  match kernels with
  | [] => ([], Ok ())
  | k :: ks =>
      match f k with
      | (k', Ok _) => let '(ks', r) := for_kernels f ks in (k' :: ks', r)
      | (k', r) => (k' :: ks, r)
      end
  end.

(** [schedule]: the entry to the scheduler without resource
    constraints.  The reports it writes are outputs only. *)
Definition schedule_program (opts : Options) (kernels : list quantum_kernel)
    (platform : quantum_platform) : list quantum_kernel * result () :=
  if String.eqb (opt_prescheduler opts) "yes"
  then for_kernels (λ k, schedule_kernel opts k platform) kernels
  else (kernels, Ok ()).

Context {R : Type} `{resource_manager_t R}.

(** [rcschedule_kernel]; [fuel] bounds the rounds of the scheduling
    loop, and [None] stands for a run that takes more. *)
Definition rcschedule_kernel (fuel : nat) (opts : Options) (kernel : quantum_kernel)
    (platform : quantum_platform) (nqubits ncreg : nat)
    : option (quantum_kernel * result ()) :=
  let schedopt := opt_scheduler opts in
  let go (dir : scheduling_direction_t) :=
    match init opts (c kernel) platform nqubits ncreg with
    | Fatal msg => Some (kernel, Fatal msg)
    | Undefined => Some (kernel, Undefined)
    | Ok sched =>
        match schedule fuel sched dir platform (rm_new platform dir) with
        | OutOfFuel => None
        | Returns (sched, _) => Some (with_circuit_of sched kernel, Ok ())
        end
    end in
  if String.eqb schedopt "ASAP" then go forward_scheduling
  else if String.eqb schedopt "ALAP" then go backward_scheduling
  else Some (kernel, Fatal ("Not supported scheduler option: scheduler=" +:+ schedopt)).

(** [rcschedule]: the entry to the resource-constrained scheduler. *)
Fixpoint rcschedule (fuel : nat) (opts : Options) (kernels : list quantum_kernel)
    (platform : quantum_platform) : option (list quantum_kernel * result ()) :=
  match kernels with
  | [] => Some ([], Ok ())
  | kernel :: ks =>
      if bool_decide (c kernel ≠ []) then
        match rcschedule_kernel fuel opts kernel platform
                (pf_qubit_number platform) (k_creg_count kernel) with
        | None => None
        | Some (kernel', Ok _) =>
            match rcschedule fuel opts ks platform with
            | None => None
            | Some (ks', r) => Some (with_cycles_valid true kernel' :: ks', r)
            end
        | Some (kernel', r) => Some (kernel' :: ks, r)
        end
      else
        match rcschedule fuel opts ks platform with
        | None => None
        | Some (ks', r) => Some (kernel :: ks', r)
        end
  end.
End entry_points.

(** * Specification *)

(** ** Vocabulary of the properties *)

(** What the model asks of the declarations it takes as parameters: the
    sentinels are cycle values, and SINK's start cycle for ALAP does not
    exceed the largest cycle. *)
Definition decls_ok `{Decls} : Prop :=
  0 ≤ ALAP_SINK_CYCLE ∧ ALAP_SINK_CYCLE ≤ MAX_CYCLE ∧ MAX_CYCLE < 2 ^ 64.

(** The declarations as OpenQL's headers give them: [MAX_CYCLE] is
    [INT_MAX], ALAP starts SINK at half of it, and both dummy gates last
    one time unit.  They serve for the concrete runs below. *)
Definition openql_decls : Decls :=
  {| MAX_CYCLE := 2147483647; ALAP_SINK_CYCLE := 1073741823;
     SOURCE_duration := 1; SINK_duration := 1 |}.

(** A dependence is honoured by a cycle assignment when the target starts
    no earlier than [weight] cycles after the source. *)
Definition honours (ins : list gate) (a : Arc) : Prop :=
  cyc ins (a_src a) + weight a ≤ cyc ins (a_tgt a).
Definition honoured (sc : Scheduler) : Prop :=
  ∀ a, a ∈ arcs sc → honours (instruction sc) a.

(** ** Sample inputs *)

(** A resource manager without resources: every gate is always allowed. *)
Definition rm_free : resource_manager_t () :=
  {| rm_new := λ _ _, (); available := λ _ _ _ _, true; reserve := λ _ _ _ _, () |}.

(** A resource manager with one resource that every gate uses for the
    cycle in which it starts. *)
Definition rm_one : resource_manager_t (list Z) :=
  {| rm_new := λ _ _, [];
     available := λ r cy _ _, negb (bool_decide (cy ∈ r));
     reserve := λ r cy _ _, cy :: r |}.

Definition sample_options (scheduler uniform commute : string) : Options :=
  {| opt_scheduler := scheduler; opt_scheduler_uniform := uniform;
     opt_scheduler_commute := commute; opt_print_dot_graphs := "no";
     opt_prescheduler := "yes" |}.

Definition sample_platform : quantum_platform :=
  {| pf_cycle_time := 20; pf_qubit_number := 3 |}.

(** A gate of the catch-all kind, fresh from the gate library. *)
Definition sample_gate (nm : string) (ops : list nat) (duration : Z) : gate :=
  Gate nm other_gate ops [] duration 2147483647.

Definition sample_kernel (ckt : list gate) : quantum_kernel :=
  mkKernel "k" ckt 3 0 false.

(** The dependence graph of [h q0; h q1] on two qubits, with unit
    weights: SOURCE is node 0, the gates are nodes 1 and 2, SINK is
    node 3. *)
Definition sample_graph : list Arc :=
  [mkArc 2 3 1 1 WAW; mkArc 1 3 1 0 WAW; mkArc 0 2 1 1 WAW; mkArc 0 1 1 0 WAW].

(** ** The key that [criticality_lessthan] compares

    Before it recurses, [criticality_lessthan] compares four numbers of
    each node in turn: its [remaining], whether it has depending nodes,
    the largest [remaining] among these, and how many of them reach it. *)
Definition deps (g : list Arc) (dir : scheduling_direction_t) (n : nat) : list nat :=
  get_depending_nodes g n dir [].

Definition by_remaining (r : gmap nat Z) (d1 d2 : nat) : bool :=
  rem r d1 <? rem r d2.

Definition crit_dep (g : list Arc) (r : gmap nat Z) (dir : scheduling_direction_t)
    (n : nat) : Z :=
  rem r (back (stable_sort (by_remaining r) (deps g dir n))).

(** The depending nodes of the largest [remaining]. *)
Definition tops (g : list Arc) (r : gmap nat Z) (dir : scheduling_direction_t)
    (n : nat) : list nat :=
  filter (λ d, ¬ rem r d < crit_dep g r dir n)
    (stable_sort (by_remaining r) (deps g dir n)).

Definition key (g : list Arc) (r : gmap nat Z) (dir : scheduling_direction_t)
    (n : nat) : Z * Z * Z * Z :=
  if bool_decide (deps g dir n = []) then (rem r n, 0, 0, 0)
  else (rem r n, 1, crit_dep g r dir n, Z.of_nat (length (tops g r dir n))).

(** Lexicographic order on keys. *)
Definition key_lt (k1 k2 : Z * Z * Z * Z) : Prop :=
  let '(a1, b1, c1, d1) := k1 in
  let '(a2, b2, c2, d2) := k2 in
  a1 < a2 ∨ (a1 = a2 ∧ (b1 < b2 ∨ (b1 = b2 ∧ (c1 < c2 ∨ (c1 = c2 ∧ d1 < d2))))).

Global Instance key_lt_dec k1 k2 : Decision (key_lt k1 k2).
Proof. destruct k1 as [[[??]?]?], k2 as [[[??]?]?]. unfold key_lt. apply _. Defined.

(** The recursive part: the most critical of the top depending nodes of
    each side are compared. *)
Definition deeper (lt : nat → nat → option bool) (g : list Arc) (r : gmap nat Z)
    (dir : scheduling_direction_t) (n1 n2 : nat) : option bool :=
  ln1 ← stable_sort_opt lt (tops g r dir n1);
  ln2 ← stable_sort_opt lt (tops g r dir n2);
  lt (back ln1) (back ln2).

(** Two nodes neither of which is less critical than the other. *)
Definition equally_critical (g : list Arc) (r : gmap nat Z)
    (dir : scheduling_direction_t) (fuel : nat) (n1 n2 : nat) : Prop :=
  criticality_lessthan fuel g r n1 n2 dir = Some false ∧
  criticality_lessthan fuel g r n2 n1 dir = Some false.

(** ** Well-formed scheduler objects

    What [init] establishes and the schedulers rely on.  SOURCE is node
    0, the gates of the circuit are the nodes 1 to [n], SINK is node
    [n + 1]; every arc leads to a higher node; [circp] lists the gates in
    an order in which every gate comes after the gates it depends on;
    the weight of an arc is the duration of its source in cycles; apart
    from SOURCE every node that an arc leaves is reached by one, and apart
    from SINK every node that an arc reaches is left by one. *)
Record wf_sched (sc : Scheduler) : Prop := {
  wf_s : s sc = 0%nat;
  wf_t : t sc = Datatypes.S (length (circp sc));
  wf_instruction : length (instruction sc) = Datatypes.S (Datatypes.S (length (circp sc)));
  wf_circp : circp sc ≡ₚ seq 1 (length (circp sc));
  wf_arcs : ∀ a, a ∈ arcs sc → (a_src a < a_tgt a ≤ t sc)%nat;
  wf_topo : ∀ P v Q a, circp sc = P ++ v :: Q → a ∈ arcs sc →
            (a_tgt a = v → a_src a = s sc ∨ a_src a ∈ P) ∧
            (a_src a = v → a_tgt a = t sc ∨ a_tgt a ∈ Q);
  wf_weight : ∀ a, a ∈ arcs sc →
              weight a = duration_in_cycles (dur (instruction sc) (a_src a)) (cycle_time sc);
  wf_weight_nonneg : ∀ a, a ∈ arcs sc → 0 ≤ weight a;
  wf_in : ∀ a, a ∈ arcs sc → a_src a ≠ s sc → ∃ a', a' ∈ arcs sc ∧ a_tgt a' = a_src a;
  wf_out : ∀ a, a ∈ arcs sc → a_tgt a ≠ t sc → ∃ a', a' ∈ arcs sc ∧ a_src a' = a_tgt a }.

(** No computation of a cycle overflows when the weights are at most [W]
    and a chain through all nodes fits below SINK's ALAP start cycle. *)
Definition weights_fit `{Decls} (sc : Scheduler) (W : Z) : Prop :=
  (∀ a, a ∈ arcs sc → weight a ≤ W) ∧ 0 ≤ W ∧
  (Z.of_nat (t sc) + 1) * W ≤ ALAP_SINK_CYCLE.

(** The depth of the circuit: the length in cycles of its longest chain
    of dependences from SOURCE to SINK, which is the cycle the forward
    pass of [set_cycle] gives SINK. *)
Definition circuit_depth `{Decls} (sc : Scheduler) : Z :=
  cyc (instruction (set_cycle forward_scheduling sc)) (t sc).

(** The nodes that hold a gate object whose cycle a scheduler writes. *)
Definition nodes (sc : Scheduler) : list nat := s sc :: circp sc ++ [t sc].

(** The state of a forward pass over the nodes: the nodes of [D] have
    their cycle, within bounds, every arc into a node of [D] is honoured,
    and the cycle of a node of [D] is the least that honours them. *)
Definition forward_inv (sc : Scheduler) (W : Z) (D : nat → Prop) (ins : list gate) : Prop :=
  length ins = length (instruction sc) ∧
  (∀ x, D x → 0 ≤ cyc ins x ≤ Z.of_nat x * W) ∧
  (∀ a, a ∈ arcs sc → D (a_tgt a) → honours ins a) ∧
  (∀ x, D x → cyc ins x = 0 ∨
              ∃ a, a ∈ arcs sc ∧ a_tgt a = x ∧ cyc ins x = cyc ins (a_src a) + weight a).

(** The same for a backward pass, which starts from SINK at
    [ALAP_SINK_CYCLE]; a node no arc leaves is left at [MAX_CYCLE]. *)
Definition backward_inv `{Decls} (sc : Scheduler) (W : Z) (D : nat → Prop)
    (ins : list gate) : Prop :=
  length ins = length (instruction sc) ∧
  (∀ x, D x → ALAP_SINK_CYCLE - (Z.of_nat (t sc) - Z.of_nat x) * W ≤ cyc ins x ≤ MAX_CYCLE) ∧
  (∀ a, a ∈ arcs sc → D (a_src a) → honours ins a) ∧
  (∀ x, D x → x = t sc ∨ cyc ins x = MAX_CYCLE ∨
              ∃ a, a ∈ arcs sc ∧ a_src a = x ∧ cyc ins x = cyc ins (a_tgt a) - weight a).

(** The cycles of the backward pass of [set_cycle] before they are moved
    down. *)
Definition alap_cycles `{Decls} (sc : Scheduler) : list gate :=
  set_cycle_gate (arcs sc) (s sc) backward_scheduling
    (foldl (λ ins gp, set_cycle_gate (arcs sc) gp backward_scheduling ins)
       (set_cyc (t sc) ALAP_SINK_CYCLE (instruction sc)) (reverse (circp sc))).

(** The state of the uniforming pass between two moves: every arc is
    honoured, the gates of the bundle of a cycle are gates of the circuit
    at that cycle, those above cycle 0 are left by an arc, and SINK
    is at [T]. *)
Definition uniform_inv `{Decls} (sc : Scheduler) (T : Z) (st : uniform_state) : Prop :=
  length (u_ins st) = length (instruction sc) ∧
  (∀ x, dur (u_ins st) x = dur (instruction sc) x) ∧
  (∀ a, a ∈ arcs sc → honours (u_ins st) a) ∧
  (∀ cy x, x ∈ bundle (gates_per_cycle st) cy →
           x ∈ circp sc ∧ cyc (u_ins st) x = cy ∧
           (1 ≤ cy → ∃ a, a ∈ arcs sc ∧ a_src a = x)) ∧
  cyc (u_ins st) (t sc) = T.

(** ** The state of the list scheduler *)

(** The node a run starts from. *)
Definition start_node (sc : Scheduler) (dir : scheduling_direction_t) : nat :=
  match dir with forward_scheduling => s sc | backward_scheduling => t sc end.

(** The cycles a run in direction [dir] has passed when it is at
    [curr_cycle], and the cycles it can be at after [k] rounds. *)
Definition cycle_within `{Decls} (dir : scheduling_direction_t) (curr_cycle cy : Z) : Prop :=
  match dir with
  | forward_scheduling => 0 ≤ cy ≤ curr_cycle
  | backward_scheduling => curr_cycle ≤ cy ≤ ALAP_SINK_CYCLE
  end.
Definition curr_within `{Decls} (dir : scheduling_direction_t) (k curr_cycle : Z) : Prop :=
  match dir with
  | forward_scheduling => 0 ≤ curr_cycle ≤ k
  | backward_scheduling => ALAP_SINK_CYCLE - k ≤ curr_cycle ≤ ALAP_SINK_CYCLE
  end.

(** The invariant of the loop of [schedule] after at most [k] rounds: the
    scheduled nodes have their cycle; a node is scheduled only after the
    nodes it waits for, and the arcs between them are honoured; an
    available node is not scheduled, the nodes it waits for are, and the
    cycle [MakeAvailable] gave it honours the arcs from them; and a node
    that waits for scheduled nodes only is available. *)
Record rc_inv `{Decls} {R : Type} (sc : Scheduler) (dir : scheduling_direction_t)
    (k : Z) (st : rc_state R) : Prop := {
  rc_len : length (rc_ins st) = length (instruction sc);
  rc_curr : curr_within dir k (rc_curr_cycle st);
  rc_sched_cycle : ∀ x, is_scheduled (rc_scheduled st) x = true →
                   (x ≤ t sc)%nat ∧ cycle_within dir (rc_curr_cycle st) (cyc (rc_ins st) x);
  rc_sched : ∀ a, a ∈ arcs sc → is_scheduled (rc_scheduled st) (depending dir a) = true →
             is_scheduled (rc_scheduled st) (depended dir a) = true ∧ honours (rc_ins st) a;
  rc_avail : ∀ x, x ∈ rc_avlist st →
             is_scheduled (rc_scheduled st) x = false ∧ (x ≤ t sc)%nat ∧
             ∀ a, a ∈ arcs sc → depending dir a = x →
                  is_scheduled (rc_scheduled st) (depended dir a) = true ∧
                  honours (rc_ins st) a;
  rc_complete : ∀ x, (x ≤ t sc)%nat → is_scheduled (rc_scheduled st) x = false →
                (x = start_node sc dir ∨ ∃ a, a ∈ arcs sc ∧ depending dir a = x) →
                (∀ a, a ∈ arcs sc → depending dir a = x →
                      is_scheduled (rc_scheduled st) (depended dir a) = true) →
                x ∈ rc_avlist st }.

(** The state of the loop of [TakeAvailable] over the arcs of the node
    just scheduled, [scheduled] and the cycles [ins0] of the scheduled
    nodes being fixed: the cycles of scheduled nodes are as they were,
    and the available nodes are as [rc_inv] wants them. *)
Definition take_inv (sc : Scheduler) (dir : scheduling_direction_t)
    (scheduled : gmap nat bool) (ins0 : list gate) (st : list gate * list nat) : Prop :=
  length st.1 = length ins0 ∧
  (∀ x, is_scheduled scheduled x = true → cyc st.1 x = cyc ins0 x) ∧
  (∀ x, x ∈ st.2 →
        is_scheduled scheduled x = false ∧ (x ≤ t sc)%nat ∧
        ∀ a, a ∈ arcs sc → depending dir a = x →
             is_scheduled scheduled (depended dir a) = true ∧ honours st.1 a).

(** The cycles the loop of [schedule] has assigned when it ends, before
    the gates are sorted and, for ALAP, the cycles are moved down. *)
Definition rc_cycles `{Decls} {R : Type} `{resource_manager_t R} (fuel : nat)
    (sc : Scheduler) (dir : scheduling_direction_t) (platform : quantum_platform)
    (rm : R) : list gate :=
  match schedule_loop fuel (set_remaining dir sc) dir platform (schedule_init sc dir rm) with
  | Returns st => rc_ins st
  | OutOfFuel => instruction sc
  end.

(** ** The state of the graph builder *)

(** The kinds of access of a gate to an operand that [init] knows: the
    dependences it adds for each, and the update of the bookkeeping. *)
Inductive access := acc_W | acc_W_creg | acc_R | acc_D | acc_R_cz.

Definition dep_of (ins : list gate) (ct : Z) (commute : string) (consID : nat)
    (k : access) : nat → builder → result builder :=
  match k with
  | acc_W => dep_W ins ct consID
  | acc_W_creg => dep_W_creg_measure ins ct consID
  | acc_R => dep_R_cnot ins ct commute consID
  | acc_D => dep_D_cnot ins ct commute consID
  | acc_R_cz => dep_R_cz ins ct commute consID
  end.

Definition upd_of (consID : nat) (k : access) : nat → builder → builder :=
  match k with
  | acc_W => upd_W consID
  | acc_W_creg => upd_W_creg_measure consID
  | acc_R => upd_R consID
  | acc_D => upd_D consID
  | acc_R_cz => upd_R_cz consID
  end.

(** The accesses of a CNOT to its operands, counted from [operandNo]. *)
Fixpoint cnot_accesses (operandNo : nat) (l : list nat) : list (access * nat) :=
  match l with
  | [] => []
  | q :: l =>
      ((if decide (operandNo = 0%nat) then acc_R else acc_D), q)
      :: cnot_accesses (Datatypes.S operandNo) l
  end.

(** The two loops most branches of [init] run for a gate: first the
    dependences of all accesses, then the updates. *)
Definition phase (ins : list gate) (ct : Z) (commute : string) (consID : nat)
    (l : list (access * nat)) (b : builder) : result builder :=
  b ← for_each (λ kq, dep_of ins ct commute consID kq.1 kq.2) l b;
  for_each (λ kq b, Ok (upd_of consID kq.1 kq.2 b)) l b.

(** The nodes the bookkeeping holds for operand [q]. *)
Definition slotW (b : builder) (q : nat) : list nat := option_list (LastWriter b !! q).
Definition slotR (b : builder) (q : nat) : list nat := default [] (LastReaders b !! q).
Definition slotD (b : builder) (q : nat) : list nat := default [] (LastDs b !! q).
Definition slots (b : builder) (q : nat) : list nat := slotW b q ++ slotR b q ++ slotD b q.
Definition held (b : builder) (x : nat) : Prop := ∃ q, x ∈ slots b q.

(** The nodes an update for an access of kind [k] drops from the
    bookkeeping of [q]. *)
Definition removed (k : access) (b : builder) (q : nat) : list nat :=
  match k with
  | acc_W => slots b q
  | acc_W_creg => slotW b q ++ slotR b q
  | acc_R | acc_R_cz => slotD b q
  | acc_D => slotR b q
  end.

(** The invariant of the construction while the nodes below [N] are
    added, for [n] operands: the arcs lead from a node to one that is not
    lower, their weight is the duration of the source in cycles, the
    source of an arc is SOURCE or is reached by an arc, the target of an
    arc is left by an arc or held in the bookkeeping, and what the
    bookkeeping holds is SOURCE or reached by an arc. *)
Record binv (ins : list gate) (ct : Z) (n N : nat) (b : builder) : Prop := {
  binv_len : length (LastWriter b) = n ∧ length (LastReaders b) = n ∧
             length (LastDs b) = n;
  binv_arcs : ∀ a, a ∈ b_arcs b →
              (a_src a ≤ a_tgt a < N)%nat ∧
              weight a = duration_in_cycles (dur ins (a_src a)) ct;
  binv_in : ∀ a, a ∈ b_arcs b →
            a_src a = 0%nat ∨ ∃ a', a' ∈ b_arcs b ∧ a_tgt a' = a_src a;
  binv_out : ∀ a, a ∈ b_arcs b →
             (∃ a', a' ∈ b_arcs b ∧ a_src a' = a_tgt a) ∨ held b (a_tgt a);
  binv_held : ∀ x, held b x →
              (x < N)%nat ∧ (x = 0%nat ∨ ∃ a, a ∈ b_arcs b ∧ a_tgt a = x) }.

(** ** Further functions of the sources *)

(** A list in non-decreasing order of a key. *)
Fixpoint nondecreasing {A} (f : A → Z) (l : list A) : Prop :=
  match l with
  | [] => True
  | x :: l' => Forall (λ y, f x ≤ f y) l' ∧ nondecreasing f l'
  end.

(** [Scheduler::find_mostcritical]: the first gate of the list with the
    most remaining cycles, when that is more than none; [None] is the
    null pointer it returns otherwise.  A gate is named by its node. *)
Definition find_mostcritical (r : gmap nat Z) (lg : list nat) : option nat :=
  fst (foldl (λ '(mostCriticalGate, maxRemain) gp,
                let gr := rem r gp in
                if maxRemain <? gr then (Some gp, gr)
                else (mostCriticalGate, maxRemain))
         (None, 0) lg).

(** [Scheduler::write_dependence_matrix]: [Matrix[srcID][dstID]] is set
    for every arc, and the rows written are those of the gates, SOURCE
    and SINK left out, row [i] holding [Matrix[j][i]] for the gates [j].
    [opened] tells whether the file could be opened; without it nothing
    is written.  The bounds [totalInstructions - 1] of the loops are
    computed in [size_t], so a graph without nodes is out of the
    function's domain. *)
Definition Matrix_entry (g : list Arc) (srcID dstID : nat) : bool :=
  bool_decide (Exists (λ a, a_src a = srcID ∧ a_tgt a = dstID) g).

Definition write_dependence_matrix (opened : bool) (sc : Scheduler)
    : result (option (list (list bool))) :=
  if negb opened then Ok None
  else
    let totalInstructions := length (instruction sc) in
    match totalInstructions with
    | O => Undefined
    | _ =>
        Ok (Some ((λ i, (λ j, Matrix_entry (arcs sc) j i)
                          <$> seq 1 (totalInstructions - 2))
                    <$> seq 1 (totalInstructions - 2)))
    end.

(** The text of a row: every entry as [0] or [1] followed by a tab, and
    a line end. *)
Definition dependence_matrix_row (row : list bool) : string :=
  foldr (λ (b : bool) rest, (if b then "1" else "0") +:+ String "009"%char rest)
    (String "010"%char EmptyString) row.

(** *** [ir::prim::Matrix]

    A matrix holds its elements row by row; [UInt] is a 64-bit unsigned
    integer.  [utils::Vec] is not among the sources: an element outside
    the vector is [Undefined] here. *)
Record Matrix (T : Type) := mkMatrix {
  m_data : list T;
  m_nrows : Z;
  m_ncols : Z }.
Arguments mkMatrix {T} _ _ _.
Arguments m_data {T} _.
Arguments m_nrows {T} _.
Arguments m_ncols {T} _.

Section Matrix.
Context {T : Type}.

(** [Matrix(ncols)]: a row vector of [ncols] default elements. *)
Definition Matrix_row (zero : T) (ncols : Z) : Matrix T :=
  mkMatrix (replicate (Z.to_nat ncols) zero) 1 ncols.

(** [Matrix(nrows, ncols)]: the zero-initialized matrix. *)
Definition Matrix_zero (zero : T) (nrows ncols : Z) : Matrix T :=
  mkMatrix (replicate (Z.to_nat (wrap64 (nrows * ncols))) zero) nrows ncols.

(** [Matrix(data)]: a column vector. *)
Definition Matrix_column (data : list T) : Matrix T :=
  mkMatrix data (Z.of_nat (length data)) 1.

(** [Matrix(data, ncols)]: the number of rows is inferred, by a division
    that is undefined for no columns. *)
Definition Matrix_of_data (data : list T) (ncols : Z) : result (Matrix T) :=
  if decide (ncols = 0) then Undefined
  else if decide (Z.of_nat (length data) mod ncols ≠ 0)
       then Fatal "invalid matrix shape"
       else Ok (mkMatrix data (Z.of_nat (length data) / ncols) ncols).

Definition size_rows (m : Matrix T) : Z := m_nrows m.
Definition size_cols (m : Matrix T) : Z := m_ncols m.
Definition get_data (m : Matrix T) : list T := m_data m.

(** [at(row, col)], rows and columns counted from 1. *)
Definition Matrix_at (m : Matrix T) (row col : Z) : result T :=
  if (row <? 1) || (m_nrows m <? row) || (col <? 1) || (m_ncols m <? col)
  then Fatal "matrix index out of range"
  else vec_get (m_data m) (Z.to_nat (wrap64 (wrap64 (wrap64 (row - 1) * m_ncols m) + col - 1))).
End Matrix.

(** *** Metrics ([ql/com/metrics.cc])

    The counters are [UInt]s. *)
Definition ClassicalOperationCount_process_gate (g : gate) (value : Z) : Z :=
  if decide (type g = classical_gate) then wrap64 (value + 1) else value.

Definition QuantumGateCount_process_gate (g : gate) (value : Z) : Z :=
  match type g with
  | classical_gate | wait_gate => value
  | _ => wrap64 (value + 1)
  end.

Definition MultiQubitGateCount_process_gate (g : gate) (value : Z) : Z :=
  match type g with
  | classical_gate | wait_gate => value
  | _ => if decide (1 < length (operands g))%nat then wrap64 (value + 1) else value
  end.

(** [Latency::process_kernel]: the kernel's gates, the platform's cycle
    time and the value so far. *)
Definition Latency_process_kernel `{Decls} (gates : list gate) (cycle_time : Z)
    (value : Z) : Z :=
  match last gates with
  | Some back =>
      if decide (cycle back ≠ MAX_CYCLE)
      then foldl (λ value g,
                    Z.max value (wrap64 (cycle g + div_ceil (duration g) cycle_time)))
             value gates
      else value
  | None => value
  end.

(** ** A sample circuit

    [h q0; cnot q0,q1; x q2] on the sample platform, and the scheduler
    object [init] builds for it with OpenQL's declarations. *)
Definition sample_circuit : list gate :=
  [sample_gate "h" [0%nat] 20; sample_gate "cnot" [0%nat; 1%nat] 40;
   sample_gate "x" [2%nat] 20].

Definition sample_sched : Scheduler :=
  match init (H := openql_decls) (sample_options "ASAP" "no" "yes") sample_circuit
          sample_platform 3 0 with
  | Ok sc => sc
  | _ => mkScheduler [] [] [] 0 0 ∅ 0 0 0
  end.

(** ** The phases of a gate

    What [init] does for a gate, branch by branch, as the list of its
    phases: every branch but the catch-all one runs the dependences of
    all accesses and then the updates; the catch-all branch does both
    operand by operand. *)
Definition gate_phases (qubit_count qubit_creg_count : nat) (g : gate)
    : list (list (access * nat)) :=
  let iname := stripname (name g) in
  let cregs := (λ c, qubit_count + c)%nat <$> creg_operands g in
  if String.eqb iname "measure" then
    [(pair acc_W <$> operands g) ++ (pair acc_W_creg <$> cregs)]
  else if String.eqb iname "display" then
    [pair acc_W <$> seq 0 qubit_creg_count]
  else if decide (type g = classical_gate) then
    [pair acc_W <$> cregs]
  else if String.eqb iname "cnot" then
    [cnot_accesses 0 (operands g)]
  else if String.eqb iname "cz" || String.eqb iname "cphase" then
    [pair acc_R_cz <$> operands g]
  else
    (λ q, [(acc_W, q)]) <$> (operands g ++ cregs).

(** The gates the catch-all branch handles. *)
Definition catch_all (g : gate) : Prop :=
  String.eqb (stripname (name g)) "measure" = false ∧
  String.eqb (stripname (name g)) "display" = false ∧
  type g ≠ classical_gate ∧
  String.eqb (stripname (name g)) "cnot" = false ∧
  String.eqb (stripname (name g)) "cz" = false ∧
  String.eqb (stripname (name g)) "cphase" = false.

(** The operands of a gate are qubits and classical registers of the
    kernel. *)
Definition operands_in_range (qcount ccount : nat) (g : gate) : Prop :=
  (∀ q, q ∈ operands g → (q < qcount)%nat) ∧
  (∀ c, c ∈ creg_operands g → (c < ccount)%nat).

(** The bookkeeping of [init] has an entry for each of [n] operands. *)
Definition lens (n : nat) (b : builder) : Prop :=
  length (LastWriter b) = n ∧ length (LastReaders b) = n ∧ length (LastDs b) = n.

(** The invariant of the construction that makes the acyclicity check
    pass, while the nodes below [N] are added: every arc leads to a
    higher node, and the bookkeeping holds nodes below [N] only. *)
Definition strict_inv (n N : nat) (b : builder) : Prop :=
  lens n b ∧
  (∀ a, a ∈ b_arcs b → (a_src a < a_tgt a)%nat) ∧
  (∀ q x, x ∈ slots b q → (x < N)%nat).

(** A list in which no element is lower than a later one, for a strict
    comparison [lt]: the order of the available list, from high to low
    criticality. *)
Fixpoint high_to_low {A} (lt : A → A → bool) (l : list A) : Prop :=
  match l with
  | [] => True
  | x :: l' => Forall (λ y, lt x y = false) l' ∧ high_to_low lt l'
  end.

(** ** The list scheduler without resource conflicts *)

(** A resource manager that never refuses a gate. *)
Definition never_refuses {R : Type} `{resource_manager_t R} : Prop :=
  ∀ (rm : R) cy g platform, available rm cy g platform = true.

(** The cycles the passes without resource constraints compute, ASAP
    for forward and ALAP from SINK's start cycle for backward
    scheduling. *)
Definition ref_cycles `{Decls} (sc : Scheduler) (dir : scheduling_direction_t)
    : list gate :=
  match dir with
  | forward_scheduling => instruction (set_cycle forward_scheduling sc)
  | backward_scheduling => alap_cycles sc
  end.

(** A cycle the run has not passed yet. *)
Definition ahead (dir : scheduling_direction_t) (curr_cycle cy : Z) : Prop :=
  match dir with
  | forward_scheduling => curr_cycle ≤ cy
  | backward_scheduling => cy ≤ curr_cycle
  end.

(** The cycles the run can still advance before it has passed all
    cycles of the circuit. *)
Definition slack `{Decls} (sc : Scheduler) (dir : scheduling_direction_t)
    (curr_cycle : Z) : Z :=
  match dir with
  | forward_scheduling => circuit_depth sc - curr_cycle
  | backward_scheduling => curr_cycle - (ALAP_SINK_CYCLE - circuit_depth sc)
  end.

(** The number of nodes not scheduled yet. *)
Definition unscheduled (sc : Scheduler) (scheduled : gmap nat bool) : nat :=
  length (filter (λ x, is_scheduled scheduled x = false) (seq 0 (Datatypes.S (t sc)))).

(** The state of the loop of [schedule] when the resource manager never
    refuses: the nodes scheduled or available have the cycle of the pass
    without resource constraints, the run has not passed the cycle of an
    available node, and an available node is the node the run starts
    from or waits for a node. *)
Record exact_inv `{Decls} {R : Type} (sc : Scheduler) (dir : scheduling_direction_t)
    (st : rc_state R) : Prop := {
  ex_cyc : ∀ x, is_scheduled (rc_scheduled st) x = true ∨ x ∈ rc_avlist st →
                cyc (rc_ins st) x = cyc (ref_cycles sc dir) x;
  ex_ahead : ∀ x, x ∈ rc_avlist st → ahead dir (rc_curr_cycle st) (cyc (rc_ins st) x);
  ex_touched : ∀ x, x ∈ rc_avlist st →
                    x = start_node sc dir ∨ ∃ a, a ∈ arcs sc ∧ depending dir a = x }.

(** The state of the loop of [TakeAvailable] over the arcs of the node
    just scheduled: the nodes scheduled or available have their cycle,
    the run has not passed the cycle of an available node, and an
    available node is the start node or waits for a node. *)
Definition take_exact `{Decls} (sc : Scheduler) (dir : scheduling_direction_t)
    (scheduled : gmap nat bool) (curr_cycle : Z) (st : list gate * list nat) : Prop :=
  length st.1 = length (instruction sc) ∧
  (∀ x, is_scheduled scheduled x = true ∨ x ∈ st.2 →
        cyc st.1 x = cyc (ref_cycles sc dir) x) ∧
  (∀ x, x ∈ st.2 → ahead dir curr_cycle (cyc st.1 x)) ∧
  (∀ x, x ∈ st.2 → x = start_node sc dir ∨ ∃ a, a ∈ arcs sc ∧ depending dir a = x).

(** * Proofs *)

(** ** Arc weights *)

Lemma rne_ge n d k : 0 < d → k * d ≤ n → k ≤ rne n d.
Proof.
  intros Hd Hk. unfold rne.
  assert (k ≤ n / d) by (apply Z.div_le_lower_bound; lia).
  repeat case_match; lia.
Qed.

(** The mantissa of a rounded positive quotient is positive: the exponent
    is chosen so that the scaled quotient is at least [2 ^ 23]. *)
Lemma f32_round_pos n d : 0 < n → 0 < d → 0 < f_m (f32_round n d).
Proof.
  intros Hn Hd. unfold f32_round.
  destruct (Z.leb_spec n 0) as [?|_]; [lia|].
  pose proof (Z.log2_spec n Hn) as [Hn1 Hn2].
  pose proof (Z.log2_spec d Hd) as [Hd1 Hd2].
  pose proof (Z.log2_nonneg n) as Hln.
  pose proof (Z.log2_nonneg d) as Hld.
  set (ln := Z.log2 n) in *. set (ld := Z.log2 d) in *.
  rewrite Z.pow_succ_r in Hn2, Hd2 by done.
  assert (Hkey : ∀ p, p ≤ ln - ld - 23 →
            0 < f_m (if 0 <=? p then F32 (rne n (d * 2 ^ p)) p
                     else F32 (rne (n * 2 ^ (- p)) d) p)).
  { intros p Hp. destruct (Z.leb_spec 0 p) as [H0|H0]; simpl.
    - apply (Z.lt_le_trans _ 1); [lia|].
      apply rne_ge; [by apply Z.mul_pos_pos; [|apply Z.pow_pos_nonneg]|].
      rewrite Z.mul_1_l.
      assert (2 ^ p ≤ 2 ^ (ln - ld - 23)) by (apply Z.pow_le_mono_r; lia).
      assert (2 ^ (ln - ld - 23) * 2 ^ (ld + 1) ≤ 2 ^ ln).
      { rewrite <- Z.pow_add_r by lia. apply Z.pow_le_mono_r; lia. }
      rewrite Z.pow_add_r, Z.pow_1_r in * by lia.
      assert (0 < 2 ^ p) by (apply Z.pow_pos_nonneg; lia).
      assert (0 < 2 ^ ld) by (apply Z.pow_pos_nonneg; lia).
      nia.
    - apply (Z.lt_le_trans _ 1); [lia|]. apply rne_ge; [done|].
      rewrite Z.mul_1_l.
      assert (0 < 2 ^ (- p)) by (apply Z.pow_pos_nonneg; lia).
      destruct (Z.le_gt_cases ld ln).
      + assert (2 ^ ld ≤ 2 ^ ln) by (apply Z.pow_le_mono_r; lia).
        assert (2 ≤ 2 ^ (- p))
          by (change 2 with (2 ^ 1) at 1; apply Z.pow_le_mono_r; lia).
        nia.
      + assert (2 ^ (ld + 1 - ln) ≤ 2 ^ (- p)) by (apply Z.pow_le_mono_r; lia).
        assert (2 ^ (ld + 1) = 2 ^ (ld + 1 - ln) * 2 ^ ln).
        { rewrite <- Z.pow_add_r by lia. f_equal. lia. }
        rewrite Z.pow_add_r, Z.pow_1_r in * by lia.
        assert (0 < 2 ^ ln) by (apply Z.pow_pos_nonneg; lia).
        nia. }
  cbv zeta. apply Hkey. repeat case_match; lia.
Qed.

Lemma f32_num_pos x : 0 < f_m x → 0 < f32_num x.
Proof.
  intros. unfold f32_num. case_match; [|done].
  apply Z.mul_pos_pos; [done|]. apply Z.pow_pos_nonneg; lia.
Qed.

Lemma f32_den_pos x : 0 < f32_den x.
Proof.
  unfold f32_den. destruct (Z.leb_spec 0 (f_e x)); [lia|].
  apply Z.pow_pos_nonneg; lia.
Qed.

Lemma f32_ceil_pos x : 0 < f_m x → 0 < f32_ceil x.
Proof.
  intros Hm. unfold f32_ceil.
  pose proof (f32_num_pos x Hm). pose proof (f32_den_pos x).
  assert (- f32_num x / f32_den x < 0); [|lia].
  apply Z.div_lt_upper_bound; lia.
Qed.

(** A gate that lasts occupies at least one cycle. *)
Lemma duration_in_cycles_pos d ct : 0 < d → 0 < ct → 0 < duration_in_cycles d ct.
Proof.
  intros Hd Hc. unfold duration_in_cycles, f32_div, f32_of_Z.
  apply f32_ceil_pos, f32_round_pos.
  - apply Z.mul_pos_pos; [apply f32_num_pos, f32_round_pos; lia|apply f32_den_pos].
  - apply Z.mul_pos_pos; [apply f32_den_pos|apply f32_num_pos, f32_round_pos; lia].
Qed.

Lemma duration_in_cycles_0 ct : duration_in_cycles 0 ct = 0.
Proof. reflexivity. Qed.

Lemma duration_in_cycles_nonneg d ct : 0 ≤ d → 0 < ct → 0 ≤ duration_in_cycles d ct.
Proof.
  intros Hd Hc. destruct (decide (d = 0)) as [->|].
  - by rewrite duration_in_cycles_0.
  - pose proof (duration_in_cycles_pos d ct). lia.
Qed.

(** Known binary32 values: 1/3 is [0x3EAAAAAB], 1/10 is [0x3DCCCCCD], and
    2^24 + 1 is the first integer that has no float of its own. *)
Example f32_third : f32_div (f32_of_Z 1) (f32_of_Z 3) = F32 11184811 (-25).
Proof. reflexivity. Qed.
Example f32_tenth : f32_div (f32_of_Z 1) (f32_of_Z 10) = F32 13421773 (-27).
Proof. reflexivity. Qed.
Example f32_2p24_1 : f32_of_Z 16777217 = f32_of_Z 16777216.
Proof. reflexivity. Qed.

#[local] Set Warnings "-clear-no-such-hyp".
(** ** The outcome monad *)

Lemma bind_Ok_inv {A B} (f : A → result B) (m : result A) (b : B) :
  m ≫= f = Ok b → ∃ a, m = Ok a ∧ f a = Ok b.
Proof. destruct m; simpl; intros; simplify_eq; eauto. Qed.

Lemma for_each_app {A S} (f : A → S → result S) l1 l2 st :
  for_each f (l1 ++ l2) st = for_each f l1 st ≫= for_each f l2.
Proof.
  revert st; induction l1 as [|x l1 IH]; intros st; simpl; [done|].
  destruct (f x st); simpl; auto.
Qed.

Lemma for_each_pure {S} (f : nat → S → S) l st :
  for_each (pure f) l st = Ok (foldl (λ st x, f x st) st l).
Proof. revert st; induction l; intros; simpl; auto. Qed.

(** A loop whose body preserves an invariant preserves it. *)
Lemma for_each_inv {A S} (P : S → Prop) (f : A → S → result S) l st st' :
  (∀ x st st', x ∈ l → P st → f x st = Ok st' → P st') →
  P st → for_each f l st = Ok st' → P st'.
Proof.
  revert st; induction l as [|x l IH]; intros st Hf HP Hr; simpl in *.
  - by simplify_eq.
  - apply bind_Ok_inv in Hr as (st1 & H1 & H2).
    eapply IH; [|eapply Hf; [left|done..]|done].
    intros; eapply Hf; eauto. by right.
Qed.

(** ** Acyclicity check *)

Lemma elem_of_successors g us v :
  v ∈ successors g us ↔ ∃ a, a ∈ g ∧ a_src a ∈ us ∧ a_tgt a = v.
Proof.
  unfold successors. rewrite elem_of_remove_dups, list_elem_of_fmap.
  setoid_rewrite list_elem_of_filter. naive_solver.
Qed.

Lemma reaches_increasing g fuel us v :
  (∀ a, a ∈ g → (a_src a < a_tgt a)%nat) →
  (∀ u, u ∈ us → (v ≤ u)%nat) →
  reaches g fuel us v = false.
Proof.
  intros Hg. revert us; induction fuel as [|fuel IH]; intros us Hus; simpl; [done|].
  assert (Hvs : ∀ x, x ∈ successors g us → (v < x)%nat).
  { intros x (a & Ha & Hsrc & <-)%elem_of_successors.
    specialize (Hg a Ha). specialize (Hus _ Hsrc). lia. }
  rewrite bool_decide_false; [|intros Hv%Hvs; lia].
  apply IH. intros u Hu%Hvs. lia.
Qed.

(** A graph whose arcs all lead to a higher node passes the check. *)
Lemma dag_increasing g n :
  (∀ a, a ∈ g → (a_src a < a_tgt a)%nat) → dag g n = true.
Proof.
  intros Hg. unfold dag. apply forallb_forall. intros v _.
  rewrite (reaches_increasing g n [v] v Hg); [done|].
  intros u ->%list_elem_of_singleton. lia.
Qed.

(** A graph with an arc from a node to itself fails it. *)
Lemma dag_no_self_loop g n a :
  dag g n = true → a ∈ g → (a_src a < n)%nat → a_src a ≠ a_tgt a.
Proof.
  unfold dag. intros Hd Ha Hn Heq.
  rewrite forallb_forall in Hd.
  specialize (Hd (a_src a)). rewrite <- list_elem_of_In, elem_of_seq in Hd.
  specialize (Hd ltac:(lia)).
  destruct n as [|n]; [lia|]. simpl in Hd.
  rewrite bool_decide_true in Hd; [done|].
  apply elem_of_successors. exists a. split_and!; [done|by left|done].
Qed.

(** A loop whose body succeeds under an invariant it preserves
    succeeds. *)
Lemma for_each_total {A S} (P : S → Prop) (f : A → S → result S) l st :
  (∀ x st, x ∈ l → P st → ∃ st', f x st = Ok st' ∧ P st') →
  P st → ∃ st', for_each f l st = Ok st' ∧ P st'.
Proof.
  revert st; induction l as [|x l IH]; intros st Hf HP; simpl.
  - eauto.
  - destruct (Hf x st) as (st1 & -> & HP1); [by left|done|]. simpl.
    apply IH; [|done]. intros; apply Hf; [by right|done].
Qed.

Section entry_point_facts.
Context `{Decls}.

Lemma elem_of_add_deps ins ct srcs tgt dt o g a :
  a ∈ add_deps ins ct srcs tgt dt o g ↔
  a ∈ g ∨ ∃ r, r ∈ srcs ∧ a = mkArc r tgt (duration_in_cycles (dur ins r) ct) o dt.
Proof.
  unfold add_deps. revert g; induction srcs as [|r srcs IH]; intros g; simpl.
  - split; [auto|]. intros [?|(r & Hr & _)]; [done|]. by apply elem_of_nil in Hr.
  - rewrite IH. unfold add_dep. rewrite elem_of_cons.
    setoid_rewrite elem_of_cons. naive_solver.
Qed.

(** The graph of a circuit without gates: SOURCE and SINK, and one arc
    between them for every operand. *)
Lemma init_empty opts platform qcount ccount :
  ∃ g, init opts [] platform qcount ccount
       = Ok (mkScheduler g [SOURCE; SINK] [] 0 1 ∅ (pf_cycle_time platform) qcount ccount).
Proof.
  unfold init. simpl add_gates. simpl mbind at 1.
  set (qcc := (qcount + ccount)%nat).
  set (b0 := mkBuilder _ _ _ _).
  set (P := λ b : builder,
         LastWriter b = replicate qcc 0%nat ∧ LastReaders b = replicate qcc [] ∧
         LastDs b = replicate qcc [] ∧
         ∀ a, a ∈ b_arcs b → (a_src a < a_tgt a)%nat).
  change (SOURCE :: [] ++ [SINK]) with [SOURCE; SINK].
  change (Datatypes.S (length (@nil gate))) with 1%nat.
  destruct (for_each_total P
              (dep_W [SOURCE; SINK] (pf_cycle_time platform) 1) (seq 0 qcc) b0)
    as (b1 & -> & HP1).
  - intros o b Ho%elem_of_seq (Hw & Hr & Hd & Ha). unfold dep_W, vec_get.
    rewrite Hw, Hr, Hd, !lookup_replicate_2 by lia. simpl.
    eexists; split; [done|]. split_and!; [done..|]. simpl.
    intros a. unfold add_dep. rewrite elem_of_cons.
    intros [->|?]; simpl; auto with lia.
  - split_and!; [done..|]. intros a []%elem_of_nil.
  - simpl mbind. rewrite for_each_pure. simpl mbind.
    set (b2 := foldl _ _ _).
    assert (b_arcs b2 = b_arcs b1) as Hb2.
    { unfold b2. generalize (seq 0 qcc) b1. clear. intros l; induction l; intros b; simpl; [done|].
      by rewrite IHl. }
    rewrite Hb2, dag_increasing by apply HP1. eauto.
Qed.
End entry_point_facts.

(** ** Entry points *)

Section entry_points_proofs.
Context `{Decls}.

(** What [init] fixes of the scheduler whatever the arcs are. *)
Lemma init_shape opts ckt platform qcount ccount sc :
  init opts ckt platform qcount ccount = Ok sc →
  instruction sc = SOURCE :: ckt ++ [SINK] ∧ circp sc = seq 1 (length ckt) ∧
  s sc = 0%nat ∧ t sc = Datatypes.S (length ckt) ∧ remaining sc = ∅ ∧
  cycle_time sc = pf_cycle_time platform ∧
  qubit_count sc = qcount ∧ creg_count sc = ccount.
Proof.
  unfold init. intros (b1 & _ & (b2 & _ & (b3 & _ & Hd)%bind_Ok_inv)%bind_Ok_inv)%bind_Ok_inv.
  destruct (dag _ _); simplify_eq. done.
Qed.

(** The circuit read back from a scheduler that has only been
    initialised is the circuit it was initialised with. *)
Lemma with_circuit_of_init opts platform qcount ccount sc kernel :
  init opts (c kernel) platform qcount ccount = Ok sc →
  with_circuit_of sc kernel = kernel.
Proof.
  intros (Hi & Hc & _)%init_shape. unfold with_circuit_of. rewrite Hi, Hc.
  destruct kernel as [nm ckt q cc v]; simpl. f_equal.
  apply list_eq. intros i. rewrite list_lookup_fmap.
  destruct (decide (i < length ckt)%nat) as [Hlt|Hge].
  - rewrite lookup_seq_lt by done. simpl.
    rewrite lookup_total_app_l by done.
    symmetry. by apply list_lookup_lookup_total_lt.
  - rewrite lookup_seq_ge, lookup_ge_None_2 by lia. done.
Qed.

Lemma for_kernels_valid f kernels kernels' :
  (∀ k k', f k = (k', Ok ()) → cycles_valid k' = true) →
  for_kernels f kernels = (kernels', Ok ()) →
  Forall (λ k, cycles_valid k = true) kernels'.
Proof.
  intros Hf. revert kernels'; induction kernels as [|k ks IH]; intros ks' Hr; simpl in Hr.
  - by simplify_eq.
  - destruct (f k) as [k' [[]| |]] eqn:Hk; simplify_eq.
    destruct (for_kernels f ks) as [ks1 r]; simplify_eq.
    constructor; eauto.
Qed.
End entry_points_proofs.

(** C8 (as amended).  [schedule_kernel] sets [cycles_valid] whenever it
    returns, and for ASAP and ALAP it returns on the empty circuit, with
    the empty circuit; [rcschedule] sets the flag of every kernel whose
    circuit has gates and leaves a kernel with an empty circuit as it
    found it. *)
Theorem cycles_valid_on_completion `{Decls} {R : Type} `{resource_manager_t R} :
  (∀ opts kernel platform kernel',
     schedule_kernel opts kernel platform = (kernel', Ok ()) →
     cycles_valid kernel' = true) ∧
  (∀ opts kernels platform kernels',
     schedule_program opts kernels platform = (kernels', Ok ()) →
     opt_prescheduler opts = "yes" →
     Forall (λ k, cycles_valid k = true) kernels') ∧
  (∀ opts kernel platform,
     c kernel = [] → opt_scheduler_uniform opts ≠ "yes" →
     opt_scheduler opts = "ASAP" ∨ opt_scheduler opts = "ALAP" →
     schedule_kernel opts kernel platform = (with_cycles_valid true kernel, Ok ())) ∧
  (∀ fuel opts kernels platform kernels',
     rcschedule fuel opts kernels platform = Some (kernels', Ok ()) →
     Forall2 (λ k k', if bool_decide (c k = []) then k' = k
                      else cycles_valid k' = true) kernels kernels').
Proof.
  assert (Hk : ∀ opts kernel platform kernel',
            schedule_kernel opts kernel platform = (kernel', Ok ()) →
            cycles_valid kernel' = true).
  { intros opts kernel platform kernel'. unfold schedule_kernel.
    destruct (init _ _ _ _ _); [|intros; simplify_eq..].
    repeat case_match; intros; by simplify_eq. }
  split_and!.
  - done.
  - intros opts kernels platform kernels'. unfold schedule_program.
    intros Hr Hp. rewrite Hp in Hr. simpl in Hr.
    eapply for_kernels_valid; [|done]. simpl. eauto.
  - intros opts [nm ckt q cc v] platform Hc Hu Hs; simpl in Hc; subst ckt.
    unfold schedule_kernel; simpl.
    destruct (init_empty opts platform q cc) as [g ->].
    rewrite (proj2 (String.eqb_neq _ _) Hu).
    assert (∀ sc, circp sc = [] →
              with_cycles_valid true (with_circuit_of sc (mkKernel nm [] q cc v))
              = mkKernel nm [] q cc true) as Hw.
    { intros sc Hsc. unfold with_circuit_of. by rewrite Hsc. }
    unfold with_cycles_valid at 3; simpl.
    destruct Hs as [-> | ->]; simpl; repeat case_match; by rewrite Hw.
  - intros fuel opts kernels. induction kernels as [|k ks IH]; intros platform ks' Hr; simpl in Hr.
    + simplify_eq. constructor.
    + destruct (decide (c k = [])) as [Hc|Hc].
      * rewrite bool_decide_false in Hr by naive_solver.
        destruct (rcschedule fuel opts ks platform) as [[ks1 r]|] eqn:Hks; simplify_eq.
        constructor; [by rewrite bool_decide_true|]. eauto.
      * rewrite bool_decide_true in Hr by done.
        destruct (rcschedule_kernel _ _ _ _ _ _) as [[k1 [[]| |]]|]; simplify_eq.
        destruct (rcschedule fuel opts ks platform) as [[ks1 r]|] eqn:Hks; simplify_eq.
        constructor; [by rewrite bool_decide_false|]. eauto.
Qed.

(** The claim of C8 as stated fails for [rcschedule]: a kernel without
    gates whose flag is not set goes through the run, which completes,
    with the flag still not set. *)
Lemma rcschedule_skips_empty_kernel :
  ¬ (∀ fuel opts kernels platform kernels',
       @rcschedule openql_decls () rm_free fuel opts kernels platform
         = Some (kernels', Ok ()) →
       Forall (λ k, cycles_valid k = true) kernels').
Proof.
  intros Hall.
  specialize (Hall 0%nat (sample_options "ASAP" "no" "yes") [sample_kernel []]
                sample_platform [sample_kernel []] eq_refl).
  by apply Forall_cons_1 in Hall as [[=] _].
Qed.




(** ** The available list *)

Arguments MakeAvailable : simpl never.
Arguments TakeAvailable : simpl never.
Arguments set_cycle_gate : simpl never.

Section avlist.
Context `{Decls} {R : Type} `{resource_manager_t R}.

Lemma insert_before_lower_Permutation lower n avlist :
  insert_before_lower lower n avlist ≡ₚ n :: avlist.
Proof.
  induction avlist as [|x l IH]; simpl; [done|].
  destruct (lower x); [done|]. rewrite IH. apply Permutation_swap.
Qed.

(** [MakeAvailable] adds the node, once, unless it is there. *)
Lemma MakeAvailable_avlist sc n dir ins avlist :
  (n ∈ avlist ∧ MakeAvailable sc n dir (ins, avlist) = (ins, avlist)) ∨
  ((n ∉ avlist) ∧ ∃ avlist',
     MakeAvailable sc n dir (ins, avlist) = (set_cycle_gate (arcs sc) n dir ins, avlist') ∧
     avlist' ≡ₚ n :: avlist).
Proof.
  unfold MakeAvailable. case_bool_decide; [left; done|right].
  split; [done|]. eexists; split; [done|]. apply insert_before_lower_Permutation.
Qed.

Lemma MakeAvailable_NoDup sc n dir st :
  NoDup st.2 → NoDup (MakeAvailable sc n dir st).2.
Proof.
  destruct st as [ins avlist]. intros Hnd. cbn [snd] in Hnd.
  destruct (MakeAvailable_avlist sc n dir ins avlist)
    as [[_ ->]|(Hn & avlist' & -> & Hp)]; cbn [snd]; [done|].
  rewrite Hp. by constructor.
Qed.

Lemma TakeAvailable_NoDup sc n dir ins avlist scheduled :
  NoDup avlist → NoDup (TakeAvailable sc n dir ins avlist scheduled).1.2.
Proof.
  intros Hnd. unfold TakeAvailable; cbn [fst snd].
  assert (NoDup (ins, filter (λ x, x ≠ n) avlist).2) as Hst
    by by apply NoDup_filter.
  revert Hst. generalize (ins, filter (λ x, x ≠ n) avlist).
  induction (dep_arcs (arcs sc) dir n) as [|a l IH]; intros st Hst; simpl; [done|].
  apply IH. case_match; [by apply MakeAvailable_NoDup|done].
Qed.

Lemma schedule_step_NoDup sc dir platform st :
  NoDup (rc_avlist st) → NoDup (rc_avlist (schedule_step sc dir platform st)).
Proof.
  intros Hnd. unfold schedule_step.
  destruct (SelectAvailable _ _ _ _ _ _ _) as [n|]; [|done].
  pose proof (TakeAvailable_NoDup sc n dir
                (set_cyc n (rc_curr_cycle st) (rc_ins st)) (rc_avlist st)
                (rc_scheduled st) Hnd) as Ht.
  by destruct (TakeAvailable _ _ _ _ _ _) as [[??]?].
Qed.

Lemma schedule_init_NoDup sc dir (rm : R) : NoDup (rc_avlist (schedule_init sc dir rm)).
Proof. unfold schedule_init. destruct dir; simpl; apply NoDup_singleton. Qed.
End avlist.

(** C9.  The available list never holds a node twice: it starts with one
    node, [MakeAvailable] and [TakeAvailable] keep its elements distinct,
    and so they are distinct after any number of rounds of the loop of
    [schedule]. *)
Theorem avlist_NoDup `{Decls} {R : Type} `{resource_manager_t R}
    (sc : Scheduler) (dir : scheduling_direction_t) (platform : quantum_platform) :
  (∀ ins, NoDup (init_available sc dir ins).1.2) ∧
  (∀ n st, NoDup st.2 → NoDup (MakeAvailable sc n dir st).2) ∧
  (∀ n ins avlist scheduled,
     NoDup avlist → NoDup (TakeAvailable sc n dir ins avlist scheduled).1.2) ∧
  (∀ (rm : R) rounds,
     NoDup (rc_avlist (Nat.iter rounds (schedule_step sc dir platform)
                         (schedule_init sc dir rm)))).
Proof.
  split_and!.
  - intros ins. destruct dir; simpl; apply NoDup_singleton.
  - intros. by apply MakeAvailable_NoDup.
  - intros. by apply TakeAvailable_NoDup.
  - intros rm rounds. induction rounds as [|k IH]; simpl.
    + apply schedule_init_NoDup.
    + by apply schedule_step_NoDup.
Qed.

(** ** Criticality *)

Lemma insert_sorted_Permutation {A} (lt : A → A → bool) x l :
  insert_sorted lt x l ≡ₚ x :: l.
Proof.
  induction l as [|y l IH]; simpl; [done|].
  destruct (lt y x); [|done]. rewrite IH. apply Permutation_swap.
Qed.

Lemma stable_sort_Permutation {A} (lt : A → A → bool) l : stable_sort lt l ≡ₚ l.
Proof.
  induction l as [|x l IH]; simpl; [done|].
  fold (stable_sort lt l). by rewrite insert_sorted_Permutation, IH.
Qed.

Lemma insert_sorted_opt_Some {A} (lt : A → A → option bool) x l :
  (∀ y, y ∈ l → is_Some (lt y x)) →
  ∃ l', insert_sorted_opt lt x l = Some l' ∧ l' ≡ₚ x :: l.
Proof.
  induction l as [|y l IH]; intros Hlt; simpl; [eauto|].
  destruct (Hlt y) as [[|] ->]; [by left| |]; simpl; [|eauto].
  destruct IH as (l' & -> & Hp); [intros; apply Hlt; by right|]. simpl.
  eexists; split; [done|]. rewrite Hp. apply Permutation_swap.
Qed.

(** Sorting with a comparison that returns on every pair of elements
    returns, with a rearrangement of the list. *)
Lemma stable_sort_opt_Some {A} (lt : A → A → option bool) l :
  (∀ x y, x ∈ l → y ∈ l → is_Some (lt x y)) →
  ∃ l', stable_sort_opt lt l = Some l' ∧ l' ≡ₚ l.
Proof.
  induction l as [|x l IH]; intros Hlt; simpl; [eauto|].
  destruct IH as (l1 & -> & Hp1); [intros; apply Hlt; by right|]. simpl.
  destruct (insert_sorted_opt_Some lt x l1) as (l2 & -> & Hp2).
  - intros y Hy. rewrite Hp1 in Hy. apply Hlt; [by right|by left].
  - eexists; split; [done|]. by rewrite Hp2, Hp1.
Qed.

Lemma back_elem_of l : l ≠ [] → back l ∈ l.
Proof.
  intros Hl. unfold back. destruct (last l) as [x|] eqn:Hx; simpl.
  - rewrite last_lookup in Hx. by eapply list_elem_of_lookup_2.
  - by apply last_None in Hx.
Qed.

Lemma elem_of_get_depending_nodes g n dir ln d :
  d ∈ get_depending_nodes g n dir ln ↔
  d ∈ ln ∨ ∃ a, a ∈ dep_arcs g dir n ∧ depending dir a = d.
Proof.
  unfold get_depending_nodes. revert ln.
  induction (dep_arcs g dir n) as [|a l IH]; intros ln; simpl.
  - split; [auto|]. intros [?|(a & Ha & _)]; [done|]. by apply elem_of_nil in Ha.
  - rewrite IH. setoid_rewrite elem_of_cons. case_decide.
    + naive_solver.
    + rewrite elem_of_app, list_elem_of_singleton. naive_solver.
Qed.

Lemma elem_of_dep_arcs g dir n a :
  a ∈ dep_arcs g dir n ↔ a ∈ g ∧ depended dir a = n.
Proof.
  destruct dir; simpl; unfold out_arcs, in_arcs; rewrite list_elem_of_filter; tauto.
Qed.

Lemma elem_of_deps g dir n d :
  d ∈ deps g dir n ↔ ∃ a, a ∈ g ∧ depended dir a = n ∧ depending dir a = d.
Proof.
  unfold deps. rewrite elem_of_get_depending_nodes.
  setoid_rewrite elem_of_dep_arcs. split.
  - intros [[]%elem_of_nil|?]. naive_solver.
  - naive_solver.
Qed.

Lemma tops_subseteq g r dir n d : d ∈ tops g r dir n → d ∈ deps g dir n.
Proof.
  unfold tops. rewrite list_elem_of_filter, stable_sort_Permutation. tauto.
Qed.

(** With depending nodes there is one of the largest [remaining]. *)
Lemma tops_nonempty g r dir n : deps g dir n ≠ [] → tops g r dir n ≠ [].
Proof.
  intros Hd. unfold tops.
  set (l := stable_sort (by_remaining r) (deps g dir n)).
  assert (l ≠ []) as Hl.
  { intros Hl. apply Hd. apply Permutation_nil_r. rewrite <- Hl.
    unfold l. by rewrite stable_sort_Permutation. }
  intros Hf. apply back_elem_of in Hl.
  assert (back l ∈ filter (λ d, ¬ rem r d < crit_dep g r dir n) l) as Hin.
  { apply list_elem_of_filter. split; [|done]. unfold crit_dep. fold l. lia. }
  rewrite Hf in Hin. by apply elem_of_nil in Hin.
Qed.

(** *** The order of keys *)

Lemma key_lt_irrefl k : ¬ key_lt k k.
Proof. destruct k as [[[??]?]?]. unfold key_lt. lia. Qed.

Lemma key_lt_trans k1 k2 k3 : key_lt k1 k2 → key_lt k2 k3 → key_lt k1 k3.
Proof.
  destruct k1 as [[[??]?]?], k2 as [[[??]?]?], k3 as [[[??]?]?]. unfold key_lt. lia.
Qed.

Lemma key_lt_trichotomy k1 k2 : key_lt k1 k2 ∨ k1 = k2 ∨ key_lt k2 k1.
Proof.
  destruct k1 as [[[a1 b1] c1] d1], k2 as [[[a2 b2] c2] d2]. unfold key_lt.
  destruct (decide (a1 = a2)), (decide (b1 = b2)), (decide (c1 = c2)),
    (decide (d1 = d2)); subst; try (right; left; reflexivity); lia.
Qed.

Lemma key_eq_deps g r dir n1 n2 :
  key g r dir n1 = key g r dir n2 → (deps g dir n1 = [] ↔ deps g dir n2 = []).
Proof. unfold key. repeat case_bool_decide; naive_solver. Qed.

(** *** One level of [criticality_lessthan] *)

Lemma criticality_lessthan_S fuel g r n1 n2 dir :
  criticality_lessthan (Datatypes.S fuel) g r n1 n2 dir =
  if decide (n1 = n2) then Some false
  else if decide (key_lt (key g r dir n1) (key g r dir n2)) then Some true
  else if decide (key_lt (key g r dir n2) (key g r dir n1)) then Some false
  else if decide (deps g dir n2 = []) then Some false
  else deeper (λ d1 d2, criticality_lessthan fuel g r d1 d2 dir) g r dir n1 n2.
Proof.
  simpl. fold (deps g dir n1) (deps g dir n2) (by_remaining r).
  fold (crit_dep g r dir n1) (crit_dep g r dir n2).
  fold (tops g r dir n1) (tops g r dir n2).
  destruct (decide (n1 = n2)); [done|].
  unfold key.
  destruct (Z.ltb_spec (rem r n1) (rem r n2)).
  { rewrite decide_True; [done|]. repeat case_bool_decide; unfold key_lt; lia. }
  destruct (Z.ltb_spec (rem r n2) (rem r n1)).
  { rewrite decide_False, decide_True; [done| |];
      repeat case_bool_decide; unfold key_lt; lia. }
  case_bool_decide as H2.
  { rewrite decide_False; [|case_bool_decide; unfold key_lt; lia].
    case_match; [done|]. by rewrite decide_True. }
  case_bool_decide as H1.
  { rewrite decide_True; [done|]. unfold key_lt; lia. }
  destruct (Z.ltb_spec (crit_dep g r dir n1) (crit_dep g r dir n2)).
  { rewrite decide_True; [done|]. unfold key_lt; lia. }
  destruct (Z.ltb_spec (crit_dep g r dir n2) (crit_dep g r dir n1)).
  { rewrite decide_False, decide_True; [done| |]; unfold key_lt; lia. }
  destruct (Nat.ltb_spec (length (tops g r dir n1)) (length (tops g r dir n2))).
  { rewrite decide_True; [done|]. unfold key_lt; lia. }
  destruct (Nat.ltb_spec (length (tops g r dir n2)) (length (tops g r dir n1))).
  { rewrite decide_False, decide_True; [done| |]; unfold key_lt; lia. }
  rewrite !decide_False; [done|done|unfold key_lt; lia..].
Qed.

Section criticality.
Variables (g : list Arc) (r : gmap nat Z) (dir : scheduling_direction_t).

#[local] Abbreviation clt fuel n1 n2 := (criticality_lessthan fuel g r n1 n2 dir).
#[local] Abbreviation cltf fuel := (λ d1 d2, criticality_lessthan fuel g r d1 d2 dir).
#[local] Abbreviation K := (key g r dir).
#[local] Abbreviation equally_critical := (equally_critical g r dir).

Lemma deeper_Some lt n1 n2 b :
  deeper lt g r dir n1 n2 = Some b ↔
  ∃ ln1 ln2, stable_sort_opt lt (tops g r dir n1) = Some ln1 ∧
             stable_sort_opt lt (tops g r dir n2) = Some ln2 ∧
             lt (back ln1) (back ln2) = Some b.
Proof.
  unfold deeper. split.
  - destruct (stable_sort_opt lt (tops g r dir n1)) as [ln1|]; [|done]; simpl.
    destruct (stable_sort_opt lt (tops g r dir n2)) as [ln2|]; [|done]; simpl.
    eauto.
  - intros (ln1 & ln2 & -> & -> & Hb). done.
Qed.

(** When the call returns true, and when it returns false. *)
Lemma criticality_lessthan_true fuel n1 n2 :
  clt (Datatypes.S fuel) n1 n2 = Some true ↔
  n1 ≠ n2 ∧ (key_lt (K n1) (K n2) ∨
             (K n1 = K n2 ∧ deps g dir n2 ≠ [] ∧
              deeper (cltf fuel) g r dir n1 n2 = Some true)).
Proof.
  rewrite criticality_lessthan_S.
  destruct (decide (n1 = n2)); [split; [done|by intros [? _]]|].
  destruct (key_lt_trichotomy (K n1) (K n2)) as [Hlt|[Heq|Hgt]].
  - rewrite decide_True by done. split; auto.
  - rewrite Heq. pose proof (key_lt_irrefl (K n2)).
    do 2 rewrite decide_False by done.
    destruct (decide (deps g dir n2 = [])).
    + split; [done|]. intros [_ [?|(_ & ? & _)]]; done.
    + split; [auto|]. intros [_ [?|(_ & _ & ?)]]; done.
  - assert (¬ key_lt (K n1) (K n2)) by (intros ?; eapply key_lt_irrefl, key_lt_trans; done).
    assert (K n1 ≠ K n2) by (intros Heq; rewrite Heq in Hgt; by eapply key_lt_irrefl).
    rewrite decide_False, decide_True by done.
    split; [done|]. intros [_ [?|(? & _)]]; done.
Qed.

Lemma criticality_lessthan_false fuel n1 n2 :
  clt (Datatypes.S fuel) n1 n2 = Some false ↔
  n1 = n2 ∨ key_lt (K n2) (K n1) ∨
  (K n1 = K n2 ∧ (deps g dir n2 = [] ∨ deeper (cltf fuel) g r dir n1 n2 = Some false)).
Proof.
  rewrite criticality_lessthan_S.
  destruct (decide (n1 = n2)); [split; [by left|done]|].
  destruct (key_lt_trichotomy (K n1) (K n2)) as [Hlt|[Heq|Hgt]].
  - assert (¬ key_lt (K n2) (K n1)) by (intros ?; eapply key_lt_irrefl, key_lt_trans; done).
    assert (K n1 ≠ K n2) by (intros Heq; rewrite Heq in Hlt; by eapply key_lt_irrefl).
    rewrite decide_True by done.
    split; [done|]. intros [?|[?|[? _]]]; done.
  - rewrite Heq. pose proof (key_lt_irrefl (K n2)).
    do 2 rewrite decide_False by done.
    destruct (decide (deps g dir n2 = [])); [split; auto|].
    split; [auto|]. intros [?|[?|[_ [?|?]]]]; done.
  - case_decide; [exfalso; eapply key_lt_irrefl, key_lt_trans; done|].
    rewrite decide_True by done. split; auto.
Qed.

(** *** Strict weak order *)

Lemma criticality_lessthan_irrefl fuel n : clt (Datatypes.S fuel) n n = Some false.
Proof. apply criticality_lessthan_false. by left. Qed.

Lemma criticality_lessthan_asym fuel n1 n2 :
  clt fuel n1 n2 = Some true → clt fuel n2 n1 = Some false.
Proof.
  revert n1 n2. induction fuel as [|fuel IH]; intros n1 n2; [done|].
  rewrite criticality_lessthan_true, criticality_lessthan_false.
  intros [Hne [Hlt|(Heq & Hd & (ln1 & ln2 & H1 & H2 & Hb)%deeper_Some)]]; [auto|].
  right; right. split; [done|]. right. apply deeper_Some.
  eexists _, _. split_and!; [done..|]. by apply IH.
Qed.

Lemma criticality_lessthan_trans fuel n1 n2 n3 :
  clt fuel n1 n2 = Some true → clt fuel n2 n3 = Some true → clt fuel n1 n3 = Some true.
Proof.
  revert n1 n2 n3. induction fuel as [|fuel IH]; intros n1 n2 n3; [done|].
  intros H12 H23.
  assert (n1 ≠ n3) as Hne.
  { intros ->. apply criticality_lessthan_asym in H12. congruence. }
  revert H12 H23. rewrite !criticality_lessthan_true.
  intros [_ H12] [_ H23]. split; [done|].
  destruct H12 as [H12|(E12 & D2 & (l1 & l2 & S1 & S2 & B12)%deeper_Some)],
           H23 as [H23|(E23 & D3 & (l2' & l3 & S2' & S3 & B23)%deeper_Some)].
  - left. by eapply key_lt_trans.
  - left. by rewrite <- E23.
  - left. by rewrite E12.
  - right. split_and!; [congruence|done|]. apply deeper_Some.
    simplify_eq. eexists _, _. split_and!; [done..|]. by eapply IH.
Qed.

Lemma equally_critical_key fuel n1 n2 :
  equally_critical (Datatypes.S fuel) n1 n2 →
  n1 = n2 ∨
  (K n1 = K n2 ∧
   (deps g dir n2 = [] ∨
    ∃ l1 l2, stable_sort_opt (cltf fuel) (tops g r dir n1) = Some l1 ∧
             stable_sort_opt (cltf fuel) (tops g r dir n2) = Some l2 ∧
             equally_critical fuel (back l1) (back l2))).
Proof.
  unfold equally_critical. rewrite !criticality_lessthan_false.
  intros [[->|H12] [?|H21]]; auto.
  destruct H12 as [H12|[E12 H12]], H21 as [H21|[E21 H21]].
  - exfalso. eapply key_lt_irrefl, key_lt_trans; done.
  - exfalso. rewrite E21 in H12. by eapply key_lt_irrefl.
  - exfalso. rewrite E12 in H21. by eapply key_lt_irrefl.
  - right. split; [done|].
    destruct H12 as [?|(l1 & l2 & S1 & S2 & B12)%deeper_Some]; [by left|].
    destruct H21 as [Hd|(l2' & l1' & S2' & S1' & B21)%deeper_Some].
    + left. by apply (key_eq_deps g r dir n1 n2).
    + right. simplify_eq. eauto 10.
Qed.

Lemma equally_critical_trans fuel n1 n2 n3 :
  equally_critical fuel n1 n2 → equally_critical fuel n2 n3 →
  equally_critical fuel n1 n3.
Proof.
  revert n1 n2 n3. induction fuel as [|fuel IH]; intros n1 n2 n3; [by intros [? _]|].
  intros H12 H23.
  destruct (decide (n1 = n3)) as [->|Hne].
  { split; apply criticality_lessthan_irrefl. }
  apply equally_critical_key in H12 as [->|[E12 H12]]; [done|].
  pose proof H23 as H23'.
  apply equally_critical_key in H23 as [->|[E23 H23]].
  { clear H23'. unfold equally_critical. rewrite !criticality_lessthan_false.
    destruct H12 as [Hd|(l1 & l2 & S1 & S2 & [B12 B21])].
    - split; right; right; (split; [done|]); left; [done|].
      by apply (key_eq_deps g r dir n1 n3).
    - split; right; right; (split; [done|]); right; apply deeper_Some; eauto 10. }
  assert (K n1 = K n3) as E13 by congruence.
  unfold equally_critical. rewrite !criticality_lessthan_false.
  destruct H23 as [Hd3|(l2' & l3 & S2' & S3 & H23)].
  { split; right; right; (split; [done|]); left; [done|].
    by apply (key_eq_deps g r dir n1 n3). }
  destruct H12 as [Hd2|(l1 & l2 & S1 & S2 & H12)].
  { assert (deps g dir n3 = []) by by apply (key_eq_deps g r dir n2 n3).
    split; right; right; (split; [done|]); left; [done|].
    by apply (key_eq_deps g r dir n1 n3). }
  simplify_eq.
  destruct (IH _ _ _ H12 H23) as [B13 B31].
  split; right; right; (split; [done|]); right; apply deeper_Some; eauto 10.
Qed.

(** *** Termination *)

(** [h] bounds the length of the chains of depending nodes that start
    at a node: the graph is acyclic. *)
Lemma criticality_lessthan_terminates (h : nat → nat) fuel n1 n2 :
  (∀ a, a ∈ g → (h (depending dir a) < h (depended dir a))%nat) →
  (h n1 < fuel)%nat → (h n2 < fuel)%nat →
  is_Some (clt fuel n1 n2).
Proof.
  intros Hdag. revert n1 n2.
  induction fuel as [|fuel IH]; intros n1 n2 H1 H2; [lia|].
  rewrite criticality_lessthan_S.
  repeat case_decide; try by eexists.
  assert (Htops : ∀ n d, (h n < Datatypes.S fuel)%nat → d ∈ tops g r dir n → (h d < fuel)%nat).
  { intros n d Hn (a & Ha & <- & <-)%tops_subseteq%elem_of_deps.
    specialize (Hdag a Ha). lia. }
  assert (Hsort : ∀ n, (h n < Datatypes.S fuel)%nat → deps g dir n ≠ [] →
            ∃ l, stable_sort_opt (cltf fuel) (tops g r dir n) = Some l ∧
                 (h (back l) < fuel)%nat).
  { intros n Hn Hd.
    destruct (stable_sort_opt_Some (cltf fuel) (tops g r dir n)) as (l & Hl & Hp).
    { intros x y Hx Hy. apply IH; eapply Htops; done. }
    exists l. split; [done|]. eapply (Htops n); [done|]. rewrite <- Hp.
    apply back_elem_of. intros ->.
    apply Permutation_nil_l in Hp. by apply (tops_nonempty g r dir n). }
  assert (deps g dir n1 ≠ []) as Hd1.
  { intros Hd1. assert (K n1 = K n2) as HK.
    { destruct (key_lt_trichotomy (K n1) (K n2)) as [?|[?|?]]; done. }
    by apply (key_eq_deps g r dir n1 n2) in HK as [HK _]; auto. }
  destruct (Hsort n1) as (l1 & S1 & Hl1); [done..|].
  destruct (Hsort n2) as (l2 & S2 & Hl2); [done..|].
  unfold deeper. rewrite S1, S2. simpl. by apply IH.
Qed.
End criticality.

(** C6.  On an acyclic dependence graph, in either direction,
    [criticality_lessthan] returns on every pair of nodes and is a strict
    weak order: irreflexive, asymmetric, transitive, and with a
    transitive incomparability.  The graph is acyclic when some [h]
    decreases along every arc in the direction of the depending node;
    the depth of the recursion is then bounded by the values of [h],
    which is what [fuel] has to exceed. *)
Theorem criticality_lessthan_strict_weak_order
    (g : list Arc) (r : gmap nat Z) (dir : scheduling_direction_t)
    (h : nat → nat) (fuel : nat) :
  (∀ a, a ∈ g → (h (depending dir a) < h (depended dir a))%nat) →
  (∀ n, (h n < fuel)%nat) →
  let lt n1 n2 := criticality_lessthan fuel g r n1 n2 dir in
  (∀ n1 n2, is_Some (lt n1 n2)) ∧
  (∀ n, lt n n = Some false) ∧
  (∀ n1 n2, lt n1 n2 = Some true → lt n2 n1 = Some false) ∧
  (∀ n1 n2 n3, lt n1 n2 = Some true → lt n2 n3 = Some true → lt n1 n3 = Some true) ∧
  (∀ n1 n2 n3,
     equally_critical g r dir fuel n1 n2 → equally_critical g r dir fuel n2 n3 →
     equally_critical g r dir fuel n1 n3).
Proof.
  intros Hdag Hfuel lt. split_and!.
  - intros n1 n2. by apply (criticality_lessthan_terminates g r dir h).
  - intros n. destruct fuel as [|fuel]; [specialize (Hfuel 0%nat); lia|].
    apply criticality_lessthan_irrefl.
  - apply criticality_lessthan_asym.
  - apply criticality_lessthan_trans.
  - apply equally_critical_trans.
Qed.

Lemma criticality_lessthan_strict_weak_order_witness :
  let h := λ n : nat, (3 - n)%nat in
  let lt n1 n2 := criticality_lessthan 4 sample_graph ∅ n1 n2 forward_scheduling in
  (∀ a, a ∈ sample_graph →
        (h (depending forward_scheduling a) < h (depended forward_scheduling a))%nat) ∧
  (∀ n, (h n < 4)%nat) ∧
  (∀ n1 n2, is_Some (lt n1 n2)) ∧
  (∀ n1 n2, lt n1 n2 = Some true → lt n2 n1 = Some false).
Proof.
  intros h lt.
  assert (H1 : ∀ a, a ∈ sample_graph →
            (h (depending forward_scheduling a) < h (depended forward_scheduling a))%nat).
  { apply Forall_forall. unfold sample_graph, h. repeat constructor. }
  assert (H2 : ∀ n, (h n < 4)%nat) by (intros n; unfold h; lia).
  pose proof (criticality_lessthan_strict_weak_order sample_graph ∅
                forward_scheduling h 4 H1 H2) as (T1 & T2 & T3 & T4 & T5).
  split_and!; [exact H1|exact H2|exact T1|exact T3].
Defined.

(** ** Cycle slots *)

Lemma wrap64_range x : 0 ≤ wrap64 x < 2 ^ 64.
Proof. unfold wrap64. apply Z.mod_pos_bound. lia. Qed.

Lemma wrap64_small x : 0 ≤ x < 2 ^ 64 → wrap64 x = x.
Proof. unfold wrap64. apply Z.mod_small. Qed.

Lemma cyc_set_cyc_eq n c' ins : (n < length ins)%nat → cyc (set_cyc n c' ins) n = c'.
Proof.
  intros Hn. unfold cyc, set_cyc.
  destruct (lookup_lt_is_Some_2 ins n Hn) as [g Hg].
  by rewrite list_lookup_alter_eq, Hg.
Qed.

Lemma cyc_set_cyc_ne n m c' ins : n ≠ m → cyc (set_cyc n c' ins) m = cyc ins m.
Proof. intros Hn. unfold cyc, set_cyc. by rewrite list_lookup_alter_ne. Qed.

Lemma length_set_cyc n c' ins : length (set_cyc n c' ins) = length ins.
Proof. apply length_alter. Qed.

Lemma dur_set_cyc n c' ins m : dur (set_cyc n c' ins) m = dur ins m.
Proof.
  unfold dur, set_cyc. destruct (decide (n = m)) as [->|Hne].
  - rewrite list_lookup_alter_eq. by destruct (ins !! m).
  - by rewrite list_lookup_alter_ne.
Qed.

(** Writing a cycle leaves every other field of every gate alone. *)
Lemma frame_set_cyc n c' ins : frame <$> set_cyc n c' ins = frame <$> ins.
Proof.
  unfold set_cyc. apply list_eq. intros i. rewrite !list_lookup_fmap.
  destruct (decide (n = i)) as [->|Hne].
  - rewrite list_lookup_alter_eq. by destruct (ins !! i).
  - by rewrite list_lookup_alter_ne.
Qed.

(** ** Maxima and minima over arcs *)

Lemma foldl_max_spec {A} (f : A → Z) (l : list A) (c0 : Z) :
  let m := foldl (λ c a, Z.max c (f a)) c0 l in
  c0 ≤ m ∧ (∀ a, a ∈ l → f a ≤ m) ∧ (m = c0 ∨ ∃ a, a ∈ l ∧ m = f a).
Proof.
  revert c0. induction l as [|x l IH]; intros c0; simpl.
  - split_and!; [lia| |by left]. intros a Ha. by apply elem_of_nil in Ha.
  - destruct (IH (Z.max c0 (f x))) as (H1 & H2 & H3). split_and!.
    + lia.
    + intros a [->|Ha]%elem_of_cons; [lia|by apply H2].
    + destruct H3 as [H3|(a & Ha & H3)].
      * destruct (Z.max_spec c0 (f x)) as [[? Hm]|[? Hm]].
        -- right. exists x. split; [by left|lia].
        -- left. lia.
      * right. exists a. split; [by right|done].
Qed.

Lemma foldl_min_spec {A} (f : A → Z) (l : list A) (c0 : Z) :
  let m := foldl (λ c a, Z.min c (f a)) c0 l in
  m ≤ c0 ∧ (∀ a, a ∈ l → m ≤ f a) ∧ (m = c0 ∨ ∃ a, a ∈ l ∧ m = f a).
Proof.
  revert c0. induction l as [|x l IH]; intros c0; simpl.
  - split_and!; [lia| |by left]. intros a Ha. by apply elem_of_nil in Ha.
  - destruct (IH (Z.min c0 (f x))) as (H1 & H2 & H3). split_and!.
    + lia.
    + intros a [->|Ha]%elem_of_cons; [lia|by apply H2].
    + destruct H3 as [H3|(a & Ha & H3)].
      * destruct (Z.min_spec c0 (f x)) as [[? Hm]|[? Hm]].
        -- left. lia.
        -- right. exists x. split; [by left|lia].
      * right. exists a. split; [by right|done].
Qed.

Lemma elem_of_in_arcs g n a : a ∈ in_arcs g n ↔ a ∈ g ∧ a_tgt a = n.
Proof. unfold in_arcs. rewrite list_elem_of_filter. tauto. Qed.

Lemma elem_of_out_arcs g n a : a ∈ out_arcs g n ↔ a ∈ g ∧ a_src a = n.
Proof. unfold out_arcs. rewrite list_elem_of_filter. tauto. Qed.

(** ** [set_cycle_gate] *)

Section set_cycle_gate.
Context `{Decls}.

(** The cycle [set_cycle_gate] computes for a node. *)
Lemma set_cycle_gate_forward g n ins :
  set_cycle_gate g n forward_scheduling ins =
  set_cyc n (foldl (λ c a, Z.max c (wrap64 (cyc ins (a_src a) + weight a))) 0 (in_arcs g n)) ins.
Proof. done. Qed.

Lemma set_cycle_gate_backward g n ins :
  set_cycle_gate g n backward_scheduling ins =
  set_cyc n (foldl (λ c a, Z.min c (wrap64 (cyc ins (a_tgt a) - weight a)))
               MAX_CYCLE (out_arcs g n)) ins.
Proof. done. Qed.

Lemma length_set_cycle_gate g n dir ins :
  length (set_cycle_gate g n dir ins) = length ins.
Proof. unfold set_cycle_gate. apply length_set_cyc. Qed.

Lemma cyc_set_cycle_gate_ne g n dir ins m :
  n ≠ m → cyc (set_cycle_gate g n dir ins) m = cyc ins m.
Proof. unfold set_cycle_gate. apply cyc_set_cyc_ne. Qed.

Lemma frame_set_cycle_gate g n dir ins :
  frame <$> set_cycle_gate g n dir ins = frame <$> ins.
Proof. unfold set_cycle_gate. apply frame_set_cyc. Qed.

Lemma dur_set_cycle_gate g n dir ins m :
  dur (set_cycle_gate g n dir ins) m = dur ins m.
Proof. unfold set_cycle_gate. apply dur_set_cyc. Qed.
End set_cycle_gate.

(** ** Well-formed schedulers *)

Section wf_facts.
Context `{Decls}.
Variables (sc : Scheduler) (W : Z).
Hypothesis Hwf : wf_sched sc.

Lemma wf_elem_of_circp x :
  x ∈ circp sc ↔ (1 ≤ x ≤ length (circp sc))%nat.
Proof.
  pose proof (wf_circp sc Hwf) as Hp. split; intros Hx.
  - rewrite Hp in Hx. apply elem_of_seq in Hx. lia.
  - rewrite Hp. apply elem_of_seq. lia.
Qed.

Lemma wf_NoDup_circp : NoDup (circp sc).
Proof. rewrite (wf_circp sc Hwf). apply NoDup_seq. Qed.

Lemma forward_inv_ext (D D' : nat → Prop) ins :
  (∀ x, D' x ↔ D x) → forward_inv sc W D ins → forward_inv sc W D' ins.
Proof.
  intros HD (Hl & Hb & Hh & Ht). split_and!; [done| | |].
  - intros x Hx%HD. by apply Hb.
  - intros a Ha Hx%HD. by apply Hh.
  - intros x Hx%HD. by apply Ht.
Qed.

Lemma wf_s_not_circp : s sc ∉ circp sc.
Proof. rewrite wf_elem_of_circp, (wf_s sc Hwf). lia. Qed.

Lemma wf_t_not_circp : t sc ∉ circp sc.
Proof. rewrite wf_elem_of_circp, (wf_t sc Hwf). lia. Qed.

Lemma wf_s_ne_t : s sc ≠ t sc.
Proof. rewrite (wf_s sc Hwf), (wf_t sc Hwf). lia. Qed.

Lemma wf_elem_of_nodes x : x ∈ nodes sc ↔ (x ≤ t sc)%nat.
Proof.
  unfold nodes. rewrite elem_of_cons, elem_of_app, list_elem_of_singleton,
    wf_elem_of_circp, (wf_s sc Hwf), (wf_t sc Hwf). lia.
Qed.

Lemma wf_nodes_lt x : x ∈ nodes sc → (x < length (instruction sc))%nat.
Proof. rewrite wf_elem_of_nodes, (wf_instruction sc Hwf), (wf_t sc Hwf). lia. Qed.

Lemma wf_arc_src a : a ∈ arcs sc → a_src a = s sc ∨ a_src a ∈ circp sc.
Proof.
  intros Ha. pose proof (wf_arcs sc Hwf a Ha).
  rewrite wf_elem_of_circp, (wf_s sc Hwf). rewrite (wf_t sc Hwf) in *. lia.
Qed.

Lemma wf_arc_tgt a : a ∈ arcs sc → a_tgt a = t sc ∨ a_tgt a ∈ circp sc.
Proof.
  intros Ha. pose proof (wf_arcs sc Hwf a Ha).
  rewrite wf_elem_of_circp. rewrite (wf_t sc Hwf) in *. lia.
Qed.

(** Every node an arc touches is reached from SOURCE and reaches SINK,
    along arcs. *)
Lemma wf_chain_from_source (P : nat → Prop) :
  P (s sc) →
  (∀ a, a ∈ arcs sc → P (a_src a) → P (a_tgt a)) →
  ∀ a, a ∈ arcs sc → P (a_src a) ∧ P (a_tgt a).
Proof.
  intros Hs Hstep.
  assert (Hsrc : ∀ k a, a ∈ arcs sc → (a_src a < k)%nat → P (a_src a)).
  { induction k as [|k IH]; intros a Ha Hk; [lia|].
    destruct (decide (a_src a = s sc)) as [->|Hne]; [done|].
    destruct (wf_in sc Hwf a Ha Hne) as (a' & Ha' & Heq).
    rewrite <- Heq. apply Hstep; [done|]. apply IH; [done|].
    pose proof (wf_arcs sc Hwf a' Ha'). lia. }
  intros a Ha. assert (P (a_src a)) by (eapply Hsrc; [done|apply Nat.lt_succ_diag_r]).
  split; [done|]. by apply Hstep.
Qed.

Lemma wf_chain_to_sink (P : nat → Prop) :
  P (t sc) →
  (∀ a, a ∈ arcs sc → P (a_tgt a) → P (a_src a)) →
  ∀ a, a ∈ arcs sc → P (a_src a) ∧ P (a_tgt a).
Proof.
  intros Ht Hstep.
  assert (Htgt : ∀ k a, a ∈ arcs sc → (t sc - a_tgt a < k)%nat → P (a_tgt a)).
  { induction k as [|k IH]; intros a Ha Hk; [lia|].
    destruct (decide (a_tgt a = t sc)) as [->|Hne]; [done|].
    destruct (wf_out sc Hwf a Ha Hne) as (a' & Ha' & Heq).
    rewrite <- Heq. apply Hstep; [done|]. apply IH; [done|].
    pose proof (wf_arcs sc Hwf a' Ha'). pose proof (wf_arcs sc Hwf a Ha). lia. }
  intros a Ha. assert (P (a_tgt a)) by (eapply Htgt; [done|apply Nat.lt_succ_diag_r]).
  split; [by apply Hstep|done].
Qed.
End wf_facts.

(** ** The forward pass: ASAP *)

Section forward.
Context `{Decls}.
Variables (sc : Scheduler) (W : Z).
Hypothesis Hok : decls_ok.
Hypothesis Hwf : wf_sched sc.
Hypothesis Hfit : weights_fit sc W.

Lemma fit_node_bound x : (x ≤ t sc)%nat → 0 ≤ Z.of_nat x * W ≤ ALAP_SINK_CYCLE.
Proof. destruct Hfit as (_ & HW & Ht). intros Hx. nia. Qed.

Lemma fit_weight a : a ∈ arcs sc → 0 ≤ weight a ≤ W.
Proof.
  intros Ha. split; [by apply (wf_weight_nonneg sc Hwf)|by apply (proj1 Hfit)].
Qed.

(** One node more has its cycle. *)
Lemma forward_step D v ins :
  forward_inv sc W D ins →
  (v ≤ t sc)%nat → ¬ D v →
  (∀ a, a ∈ arcs sc → a_tgt a = v → D (a_src a)) →
  (∀ a, a ∈ arcs sc → D (a_tgt a) → a_src a ≠ v) →
  forward_inv sc W (λ x, D x ∨ x = v) (set_cycle_gate (arcs sc) v forward_scheduling ins).
Proof.
  intros (Hlen & Hb & Hh & Htight) Hv HDv Hin Hout.
  destruct Hok as (HA0 & HAM & HM).
  rewrite set_cycle_gate_forward.
  set (f := λ a, wrap64 (cyc ins (a_src a) + weight a)).
  destruct (foldl_max_spec f (in_arcs (arcs sc) v) 0) as (Hm0 & Hmge & Hmeq).
  set (m := foldl _ _ _) in *.
  assert (Hf : ∀ a, a ∈ in_arcs (arcs sc) v →
            f a = cyc ins (a_src a) + weight a ∧ 0 ≤ f a ≤ Z.of_nat v * W).
  { intros a [Ha Ht]%elem_of_in_arcs. unfold f.
    pose proof (Hb _ (Hin a Ha Ht)). pose proof (fit_weight a Ha).
    pose proof (wf_arcs sc Hwf a Ha). pose proof (fit_node_bound v Hv).
    assert (cyc ins (a_src a) + weight a ≤ Z.of_nat v * W) by nia.
    rewrite wrap64_small by lia. lia. }
  assert (v < length ins)%nat as Hvl.
  { rewrite Hlen, (wf_instruction sc Hwf). rewrite (wf_t sc Hwf) in Hv. lia. }
  split_and!.
  - by rewrite length_set_cyc.
  - intros x [Hx| ->].
    + rewrite cyc_set_cyc_ne by (intros ->; done). by apply Hb.
    + rewrite cyc_set_cyc_eq by done. split; [done|].
      destruct Hmeq as [->|(a & Ha & ->)]; [pose proof (fit_node_bound v Hv); lia|].
      by apply Hf.
  - intros a Ha [Hx|Hx]; unfold honours.
    + assert (v ≠ a_tgt a) by (intros Heq; by rewrite <- Heq in Hx).
      assert (v ≠ a_src a) by (intros Heq; by eapply Hout).
      rewrite !cyc_set_cyc_ne by done. by apply Hh.
    + pose proof (wf_arcs sc Hwf a Ha).
      rewrite Hx, cyc_set_cyc_eq, cyc_set_cyc_ne by (done || lia).
      assert (a ∈ in_arcs (arcs sc) v) as Hia by by apply elem_of_in_arcs.
      specialize (Hmge a Hia). apply Hf in Hia. fold m. lia.
  - intros x [Hx| ->].
    + rewrite cyc_set_cyc_ne by (intros ->; done).
      destruct (Htight x Hx) as [?|(a & Ha & Ht & Hc)]; [by left|right].
      exists a. split_and!; [done..|].
      rewrite cyc_set_cyc_ne; [done|]. intros Heq. eapply Hout; [done| |done].
      by rewrite Ht.
    + rewrite cyc_set_cyc_eq by done. fold m.
      destruct Hmeq as [?|(a & Ha & Hma)]; [by left|right].
      pose proof Ha as [Ha' Ht]%elem_of_in_arcs.
      exists a. split_and!; [done..|].
      pose proof (wf_arcs sc Hwf a Ha').
      rewrite cyc_set_cyc_ne by lia. rewrite Hma. by apply Hf.
Qed.

(** The loop over the circuit. *)
Lemma forward_loop P Q ins :
  circp sc = P ++ Q →
  forward_inv sc W (λ x, x = s sc ∨ x ∈ P) ins →
  forward_inv sc W (λ x, x = s sc ∨ x ∈ circp sc)
    (foldl (λ ins gp, set_cycle_gate (arcs sc) gp forward_scheduling ins) ins Q).
Proof.
  revert P ins. induction Q as [|v Q IH]; intros P ins HPQ Hinv; simpl.
  - rewrite app_nil_r in HPQ. by rewrite HPQ.
  - pose proof (wf_NoDup_circp sc Hwf) as Hnd. rewrite HPQ in Hnd.
    apply NoDup_app in Hnd as (HndP & HPv & [HvQ HndQ]%NoDup_cons).
    assert (v ∈ circp sc) as Hvc by (rewrite HPQ; set_solver).
    apply (IH (P ++ [v])); [by rewrite <- app_assoc|].
    eapply (forward_inv_ext); [|apply forward_step; try done].
    + intros x. rewrite elem_of_app, list_elem_of_singleton. tauto.
    + apply (wf_elem_of_circp sc Hwf) in Hvc. rewrite (wf_t sc Hwf). lia.
    + intros [->|HvP]; [by apply (wf_s_not_circp sc Hwf)|].
      apply (HPv v HvP). by left.
    + intros a Ha Ht. by apply (wf_topo sc Hwf P v Q a HPQ Ha).
    + intros a Ha [Ht|Ht] Hs.
      * pose proof (wf_arcs sc Hwf a Ha). rewrite (wf_s sc Hwf) in Ht. lia.
      * destruct (proj2 (wf_topo sc Hwf P v Q a HPQ Ha) Hs) as [Ht'|Ht'].
        -- rewrite Ht' in Ht. apply (wf_t_not_circp sc Hwf). rewrite HPQ. set_solver.
        -- apply (HPv _ Ht). by right.
Qed.
End forward.

Section asap.
Context `{Decls}.
Variables (sc : Scheduler) (W : Z).
Hypothesis Hok : decls_ok.
Hypothesis Hwf : wf_sched sc.
Hypothesis Hfit : weights_fit sc W.

(** [set_cycle] leaves the graph and the circuit alone. *)
Lemma set_cycle_fields dir :
  arcs (set_cycle dir sc) = arcs sc ∧ circp (set_cycle dir sc) = circp sc ∧
  s (set_cycle dir sc) = s sc ∧ t (set_cycle dir sc) = t sc ∧
  cycle_time (set_cycle dir sc) = cycle_time sc ∧
  remaining (set_cycle dir sc) = remaining sc.
Proof. by destruct dir. Qed.

(** After the forward pass every node has its cycle and every arc is
    honoured. *)
Lemma set_cycle_forward_inv :
  forward_inv sc W (λ x, (x ≤ t sc)%nat)
    (instruction (set_cycle forward_scheduling sc)).
Proof.
  unfold set_cycle. cbn [instruction with_instruction].
  set (ins0 := set_cyc (s sc) 0 (instruction sc)).
  assert (forward_inv sc W (λ x, x = s sc ∨ x ∈ []) ins0) as H0.
  { assert (cyc ins0 (s sc) = 0) as Hs0.
    { unfold ins0. rewrite cyc_set_cyc_eq; [done|apply (wf_nodes_lt sc Hwf); by left]. }
    split_and!.
    - apply length_set_cyc.
    - intros x [->|[]%elem_of_nil]. rewrite Hs0, (wf_s sc Hwf). lia.
    - intros a Ha [Hs|[]%elem_of_nil].
      pose proof (wf_arcs sc Hwf a Ha). rewrite (wf_s sc Hwf) in Hs. lia.
    - intros x [->|[]%elem_of_nil]. by left. }
  apply (forward_loop sc W Hok Hwf Hfit [] (circp sc) ins0 eq_refl) in H0.
  set (ins1 := foldl _ _ _) in *.
  eapply forward_inv_ext; [|apply (forward_step sc W Hok Hwf Hfit _ (t sc) ins1 H0)].
  - intros x. simpl. rewrite (wf_elem_of_circp sc Hwf), (wf_s sc Hwf), (wf_t sc Hwf). lia.
  - done.
  - intros [Hst|Ht]; [by apply (wf_s_ne_t sc Hwf)|by apply (wf_t_not_circp sc Hwf)].
  - intros a Ha _. by apply (wf_arc_src sc Hwf).
  - intros a Ha _ Hs. pose proof (wf_arcs sc Hwf a Ha). lia.
Qed.

Lemma set_cycle_forward_honoured : honoured (set_cycle forward_scheduling sc).
Proof.
  destruct set_cycle_forward_inv as (_ & _ & Hh & _).
  intros a Ha. apply Hh; [done|]. by apply (wf_arcs sc Hwf).
Qed.

Lemma circuit_depth_bounds : 0 ≤ circuit_depth sc ≤ ALAP_SINK_CYCLE.
Proof.
  destruct set_cycle_forward_inv as (_ & Hb & _ & _).
  specialize (Hb (t sc) ltac:(done)). unfold circuit_depth.
  destruct Hfit as (_ & ? & ?). nia.
Qed.
End asap.

(** ** The backward pass: ALAP *)

Section backward.
Context `{Decls}.
Variables (sc : Scheduler) (W : Z).
Hypothesis Hok : decls_ok.
Hypothesis Hwf : wf_sched sc.
Hypothesis Hfit : weights_fit sc W.

Lemma backward_inv_ext (D D' : nat → Prop) ins :
  (∀ x, D' x ↔ D x) → backward_inv sc W D ins → backward_inv sc W D' ins.
Proof.
  intros HD (Hl & Hb & Hh & Ht). split_and!; [done| | |].
  - intros x Hx%HD. by apply Hb.
  - intros a Ha Hx%HD. by apply Hh.
  - intros x Hx%HD. by apply Ht.
Qed.

Lemma backward_step D v ins :
  backward_inv sc W D ins →
  (v ≤ t sc)%nat → ¬ D v →
  (∀ a, a ∈ arcs sc → a_src a = v → D (a_tgt a)) →
  (∀ a, a ∈ arcs sc → D (a_src a) → a_tgt a ≠ v) →
  backward_inv sc W (λ x, D x ∨ x = v) (set_cycle_gate (arcs sc) v backward_scheduling ins).
Proof.
  intros (Hlen & Hb & Hh & Htight) Hv HDv Hout Hin.
  destruct Hok as (HA0 & HAM & HM). destruct Hfit as (HWa & HW0 & HtW).
  rewrite set_cycle_gate_backward.
  set (f := λ a, wrap64 (cyc ins (a_tgt a) - weight a)).
  destruct (foldl_min_spec f (out_arcs (arcs sc) v) MAX_CYCLE) as (Hm0 & Hmle & Hmeq).
  set (m := foldl _ _ _) in *.
  assert (Hf : ∀ a, a ∈ out_arcs (arcs sc) v →
            f a = cyc ins (a_tgt a) - weight a ∧
            ALAP_SINK_CYCLE - (Z.of_nat (t sc) - Z.of_nat v) * W ≤ f a ≤ MAX_CYCLE).
  { intros a [Ha Hs]%elem_of_out_arcs. unfold f.
    pose proof (Hb _ (Hout a Ha Hs)). pose proof (fit_weight sc W Hwf Hfit a Ha).
    pose proof (wf_arcs sc Hwf a Ha).
    assert (ALAP_SINK_CYCLE - (Z.of_nat (t sc) - Z.of_nat v) * W
            ≤ cyc ins (a_tgt a) - weight a) by nia.
    assert (0 ≤ ALAP_SINK_CYCLE - (Z.of_nat (t sc) - Z.of_nat v) * W) by nia.
    rewrite wrap64_small by lia. lia. }
  assert (v < length ins)%nat as Hvl.
  { rewrite Hlen, (wf_instruction sc Hwf). rewrite (wf_t sc Hwf) in Hv. lia. }
  split_and!.
  - by rewrite length_set_cyc.
  - intros x [Hx| ->].
    + rewrite cyc_set_cyc_ne by (intros ->; done). by apply Hb.
    + rewrite cyc_set_cyc_eq by done. split; [|done].
      destruct Hmeq as [->|(a & Ha & ->)]; [nia|]. by apply Hf.
  - intros a Ha [Hx|Hx]; unfold honours.
    + assert (v ≠ a_src a) by (intros Heq; by rewrite <- Heq in Hx).
      assert (v ≠ a_tgt a) by (intros Heq; by eapply Hin).
      rewrite !cyc_set_cyc_ne by done. by apply Hh.
    + pose proof (wf_arcs sc Hwf a Ha).
      rewrite Hx, cyc_set_cyc_eq, cyc_set_cyc_ne by (done || lia).
      assert (a ∈ out_arcs (arcs sc) v) as Hoa by by apply elem_of_out_arcs.
      specialize (Hmle a Hoa). apply Hf in Hoa. fold m. lia.
  - intros x [Hx| ->].
    + rewrite cyc_set_cyc_ne by (intros ->; done).
      destruct (Htight x Hx) as [?|[?|(a & Ha & Hs & Hc)]]; [by left|by right; left|].
      right; right. exists a. split_and!; [done..|].
      rewrite cyc_set_cyc_ne; [done|]. intros Heq. eapply Hin; [done| |done].
      by rewrite Hs.
    + rewrite cyc_set_cyc_eq by done. fold m. right.
      destruct Hmeq as [?|(a & Ha & Hma)]; [by left|right].
      pose proof Ha as [Ha' Hs]%elem_of_out_arcs.
      exists a. split_and!; [done..|].
      pose proof (wf_arcs sc Hwf a Ha').
      rewrite cyc_set_cyc_ne by lia. rewrite Hma. by apply Hf.
Qed.

(** The loop over the circuit, last gate first. *)
Lemma backward_loop P Q ins :
  circp sc = P ++ Q →
  backward_inv sc W (λ x, x = t sc ∨ x ∈ Q) ins →
  backward_inv sc W (λ x, x = t sc ∨ x ∈ circp sc)
    (foldl (λ ins gp, set_cycle_gate (arcs sc) gp backward_scheduling ins) ins (reverse P)).
Proof.
  revert Q ins. induction P as [|v P IH] using rev_ind; intros Q ins HPQ Hinv.
  - simpl in *. by rewrite HPQ.
  - rewrite reverse_snoc. simpl.
    rewrite <- app_assoc in HPQ. simpl in HPQ.
    pose proof (wf_NoDup_circp sc Hwf) as Hnd. rewrite HPQ in Hnd.
    apply NoDup_app in Hnd as (HndP & HPv & [HvQ HndQ]%NoDup_cons).
    assert (v ∈ circp sc) as Hvc by (rewrite HPQ; set_solver).
    apply (IH (v :: Q)); [done|].
    eapply backward_inv_ext; [|apply backward_step; try done].
    + intros x. rewrite elem_of_cons. tauto.
    + apply (wf_elem_of_circp sc Hwf) in Hvc. rewrite (wf_t sc Hwf). lia.
    + intros [->|HvP]; [by apply (wf_t_not_circp sc Hwf)|done].
    + intros a Ha Hs. by apply (wf_topo sc Hwf P v Q a HPQ Ha).
    + intros a Ha [Hs|Hs] Ht.
      * pose proof (wf_arcs sc Hwf a Ha). lia.
      * destruct (proj1 (wf_topo sc Hwf P v Q a HPQ Ha) Ht) as [Hs'|Hs'].
        -- rewrite Hs' in Hs. apply (wf_s_not_circp sc Hwf). rewrite HPQ. set_solver.
        -- apply (HPv _ Hs'). by right.
Qed.

Lemma alap_cycles_inv : backward_inv sc W (λ x, (x ≤ t sc)%nat) (alap_cycles sc).
Proof.
  unfold alap_cycles.
  set (ins0 := set_cyc (t sc) ALAP_SINK_CYCLE (instruction sc)).
  destruct Hok as (HA0 & HAM & HM).
  assert (backward_inv sc W (λ x, x = t sc ∨ x ∈ []) ins0) as H0.
  { split_and!.
    - apply length_set_cyc.
    - intros x [->|[]%elem_of_nil]. unfold ins0.
      rewrite cyc_set_cyc_eq; [lia|]. apply (wf_nodes_lt sc Hwf), (wf_elem_of_nodes sc Hwf). lia.
    - intros a Ha [Hs|[]%elem_of_nil].
      pose proof (wf_arcs sc Hwf a Ha). lia.
    - intros x [->|[]%elem_of_nil]. by left. }
  apply (backward_loop (circp sc) [] ins0) in H0; [|by rewrite app_nil_r].
  set (ins1 := foldl _ _ _) in *.
  eapply backward_inv_ext; [|apply (backward_step _ (s sc) ins1 H0)].
  - intros x. simpl. rewrite (wf_elem_of_circp sc Hwf), (wf_s sc Hwf), (wf_t sc Hwf). lia.
  - rewrite (wf_s sc Hwf). lia.
  - intros [Hst|Hs]; [by apply (wf_s_ne_t sc Hwf)|by apply (wf_s_not_circp sc Hwf)].
  - intros a Ha _. by apply (wf_arc_tgt sc Hwf).
  - intros a Ha _ Ht. pose proof (wf_arcs sc Hwf a Ha). rewrite (wf_s sc Hwf) in Ht. lia.
Qed.
End backward.

(** ** Moving the cycles down *)

Lemma foldl_shift SC l ins :
  NoDup l → (∀ x, x ∈ l → (x < length ins)%nat) →
  let ins' := foldl (λ ins gp, set_cyc gp (wrap64 (cyc ins gp - SC)) ins) ins l in
  length ins' = length ins ∧
  (∀ x, x ∈ l → cyc ins' x = wrap64 (cyc ins x - SC)) ∧
  (∀ x, x ∉ l → cyc ins' x = cyc ins x).
Proof.
  revert ins. induction l as [|v l IH]; intros ins Hnd Hlt; simpl.
  - split_and!; [done| |done]. intros x []%elem_of_nil.
  - apply NoDup_cons in Hnd as [Hv Hnd].
    destruct (IH (set_cyc v (wrap64 (cyc ins v - SC)) ins) Hnd) as (Hl & Hin & Hout).
    { intros x Hx. rewrite length_set_cyc. apply Hlt. by right. }
    split_and!.
    + by rewrite Hl, length_set_cyc.
    + intros x [->|Hx]%elem_of_cons.
      * rewrite Hout by done. apply cyc_set_cyc_eq, Hlt. by left.
      * rewrite Hin by done. rewrite cyc_set_cyc_ne; [done|]. by intros ->.
    + intros x [Hxv Hx]%not_elem_of_cons. rewrite Hout by done.
      by rewrite cyc_set_cyc_ne.
Qed.

Lemma frame_foldl_set_cyc (f : list gate → nat → Z) l ins :
  frame <$> foldl (λ ins gp, set_cyc gp (f ins gp) ins) ins l = frame <$> ins.
Proof.
  revert ins. induction l as [|v l IH]; intros ins; simpl; [done|].
  by rewrite IH, frame_set_cyc.
Qed.

(** [readjust] takes the cycle SOURCE had off the cycle of every node,
    in [size_t] arithmetic, and leaves everything else alone.  It visits
    the gates in the order of [circp], which does not matter. *)
Lemma readjust_nodes (sc : Scheduler) ins :
  NoDup (circp sc) → s sc ∉ circp sc → t sc ∉ circp sc → s sc ≠ t sc →
  (∀ x, x ∈ nodes sc → (x < length ins)%nat) →
  length (readjust sc ins) = length ins ∧
  frame <$> readjust sc ins = frame <$> ins ∧
  (∀ x, x ∈ nodes sc → cyc (readjust sc ins) x = wrap64 (cyc ins x - cyc ins (s sc))) ∧
  (∀ x, x ∉ nodes sc → cyc (readjust sc ins) x = cyc ins x).
Proof.
  intros Hnd Hs Ht Hst Hlt. unfold readjust.
  set (SC := cyc ins (s sc)).
  set (ins1 := set_cyc (t sc) (wrap64 (cyc ins (t sc) - SC)) ins).
  destruct (foldl_shift SC (circp sc) ins1 Hnd) as (Hl & Hin & Hout).
  { intros x Hx. unfold ins1. rewrite length_set_cyc. apply Hlt.
    unfold nodes. set_solver. }
  set (ins2 := foldl _ _ _) in *.
  assert (length ins2 = length ins) as Hl2 by (by rewrite Hl; unfold ins1; rewrite length_set_cyc).
  split_and!.
  - by rewrite length_set_cyc.
  - rewrite frame_set_cyc. unfold ins2.
    rewrite (frame_foldl_set_cyc (λ ins gp, wrap64 (cyc ins gp - SC))).
    apply frame_set_cyc.
  - intros x Hx. unfold nodes in Hx.
    apply elem_of_cons in Hx as [->|[Hx| ->%list_elem_of_singleton]%elem_of_app].
    + rewrite cyc_set_cyc_eq by (rewrite Hl2; apply Hlt; by left).
      rewrite Hout by done. unfold ins1. by rewrite cyc_set_cyc_ne.
    + rewrite cyc_set_cyc_ne by (intros ?; by subst). rewrite Hin by done.
      unfold ins1. rewrite cyc_set_cyc_ne; [done|]. intros ?; by subst.
    + rewrite cyc_set_cyc_ne by done. rewrite Hout by done.
      unfold ins1. rewrite cyc_set_cyc_eq; [done|]. apply Hlt. unfold nodes. set_solver.
  - intros x Hx. unfold nodes in Hx.
    apply not_elem_of_cons in Hx as [Hxs [Hxc Hxt%not_elem_of_cons]%not_elem_of_app].
    rewrite cyc_set_cyc_ne by done. rewrite Hout by done.
    unfold ins1. rewrite cyc_set_cyc_ne; [done|]. naive_solver.
Qed.

Section readjust.
Context `{Decls}.
Variables (sc : Scheduler).
Hypothesis Hwf : wf_sched sc.

Lemma readjust_spec ins :
  length ins = length (instruction sc) →
  length (readjust sc ins) = length ins ∧
  frame <$> readjust sc ins = frame <$> ins ∧
  (∀ x, x ∈ nodes sc → cyc (readjust sc ins) x = wrap64 (cyc ins x - cyc ins (s sc))) ∧
  (∀ x, x ∉ nodes sc → cyc (readjust sc ins) x = cyc ins x).
Proof.
  intros Hlen. apply readjust_nodes.
  - apply (wf_NoDup_circp sc Hwf).
  - apply (wf_s_not_circp sc Hwf).
  - apply (wf_t_not_circp sc Hwf).
  - apply (wf_s_ne_t sc Hwf).
  - intros x Hx. rewrite Hlen. by apply (wf_nodes_lt sc Hwf).
Qed.
End readjust.

(** ** Least and greatest schedules *)

Section extremal.
Context `{Decls}.
Variables (sc : Scheduler) (W : Z).
Hypothesis Hok : decls_ok.
Hypothesis Hwf : wf_sched sc.
Hypothesis Hfit : weights_fit sc W.

(** Along the arcs cycles do not decrease. *)
Lemma honoured_from_source ins a :
  (∀ a, a ∈ arcs sc → honours ins a) → a ∈ arcs sc →
  cyc ins (s sc) ≤ cyc ins (a_src a) ∧ cyc ins (s sc) ≤ cyc ins (a_tgt a).
Proof.
  intros Hh. apply (wf_chain_from_source sc Hwf (λ x, cyc ins (s sc) ≤ cyc ins x)); [done|].
  intros a' Ha' Hs. specialize (Hh a' Ha'). unfold honours in Hh.
  pose proof (wf_weight_nonneg sc Hwf a' Ha'). lia.
Qed.

Lemma honoured_to_sink ins a :
  (∀ a, a ∈ arcs sc → honours ins a) → a ∈ arcs sc →
  cyc ins (a_src a) ≤ cyc ins (t sc) ∧ cyc ins (a_tgt a) ≤ cyc ins (t sc).
Proof.
  intros Hh. apply (wf_chain_to_sink sc Hwf (λ x, cyc ins x ≤ cyc ins (t sc))); [done|].
  intros a' Ha' Hs. specialize (Hh a' Ha'). unfold honours in Hh.
  pose proof (wf_weight_nonneg sc Hwf a' Ha'). lia.
Qed.

Lemma wf_sink_reached : arcs sc ≠ [] → ∃ a, a ∈ arcs sc ∧ a_tgt a = t sc.
Proof.
  assert (Hk : ∀ k a, a ∈ arcs sc → (t sc - a_tgt a < k)%nat →
            ∃ a', a' ∈ arcs sc ∧ a_tgt a' = t sc).
  { induction k as [|k IH]; intros a Ha Hk; [lia|].
    destruct (decide (a_tgt a = t sc)) as [Heq|Hne]; [eauto|].
    destruct (wf_out sc Hwf a Ha Hne) as (a' & Ha' & Heq).
    apply (IH a' Ha').
    pose proof (wf_arcs sc Hwf a' Ha'). pose proof (wf_arcs sc Hwf a Ha). lia. }
  intros Hne. destruct (arcs sc) as [|a0 l] eqn:Harcs; [done|]. rewrite <- Harcs in *.
  eapply (Hk _ a0); [rewrite Harcs; by left|apply Nat.lt_succ_diag_r].
Qed.

Lemma wf_source_left : arcs sc ≠ [] → ∃ a, a ∈ arcs sc ∧ a_src a = s sc.
Proof.
  assert (Hk : ∀ k a, a ∈ arcs sc → (a_src a < k)%nat →
            ∃ a', a' ∈ arcs sc ∧ a_src a' = s sc).
  { induction k as [|k IH]; intros a Ha Hk; [lia|].
    destruct (decide (a_src a = s sc)) as [Heq|Hne]; [eauto|].
    destruct (wf_in sc Hwf a Ha Hne) as (a' & Ha' & Heq).
    apply (IH a' Ha').
    pose proof (wf_arcs sc Hwf a' Ha'). lia. }
  intros Hne. destruct (arcs sc) as [|a0 l] eqn:Harcs; [done|]. rewrite <- Harcs in *.
  eapply (Hk _ a0); [rewrite Harcs; by left|apply Nat.lt_succ_diag_r].
Qed.

(** The forward pass gives every node the least cycle over SOURCE's that
    a schedule honouring the dependences can give it. *)
Lemma asap_least ins x :
  (∀ a, a ∈ arcs sc → honours ins a) →
  (x ≤ t sc)%nat → (x = s sc ∨ ∃ a, a ∈ arcs sc ∧ a_tgt a = x) →
  cyc (instruction (set_cycle forward_scheduling sc)) x ≤ cyc ins x - cyc ins (s sc).
Proof.
  intros Hh. destruct (set_cycle_forward_inv sc W Hok Hwf Hfit) as (_ & Hb & _ & Htight).
  set (asap := instruction _) in *.
  induction x as [x IH] using lt_wf_ind. intros Hx Hconn.
  assert (cyc ins (s sc) ≤ cyc ins x) as Hsx.
  { destruct Hconn as [->|(a & Ha & <-)]; [done|]. by apply honoured_from_source. }
  destruct (Htight x Hx) as [->|(a & Ha & Ht & ->)]; [lia|].
  pose proof (wf_arcs sc Hwf a Ha). specialize (Hh a Ha). unfold honours in Hh.
  rewrite Ht in Hh.
  assert (asapsrc : cyc asap (a_src a) ≤ cyc ins (a_src a) - cyc ins (s sc)); [|lia].
  apply IH; [lia|lia|].
  destruct (decide (a_src a = s sc)) as [?|Hne]; [by left|right].
  destruct (wf_in sc Hwf a Ha Hne) as (a' & Ha' & Heq). eauto.
Qed.

(** The backward pass gives every node the greatest cycle below SINK's
    that a schedule honouring the dependences can give it. *)
Lemma alap_greatest ins x :
  (∀ a, a ∈ arcs sc → honours ins a) →
  (x ≤ t sc)%nat → (x = t sc ∨ ∃ a, a ∈ arcs sc ∧ a_src a = x) →
  ALAP_SINK_CYCLE - (cyc ins (t sc) - cyc ins x) ≤ cyc (alap_cycles sc) x.
Proof.
  intros Hh. destruct (alap_cycles_inv sc W Hok Hwf Hfit) as (_ & Hb & _ & Htight).
  destruct Hok as (HA0 & HAM & HM).
  remember (t sc - x)%nat as k eqn:Hk. revert x Hk.
  induction k as [k IH] using lt_wf_ind. intros x Hk Hx Hconn.
  assert (cyc ins x ≤ cyc ins (t sc)) as Hxt.
  { destruct Hconn as [->|(a & Ha & <-)]; [done|]. by apply honoured_to_sink. }
  destruct (Htight x Hx) as [->|[->|(a & Ha & Hs & ->)]].
  - pose proof (Hb (t sc) ltac:(done)) as Hbt. clear -Hbt. lia.
  - lia.
  - pose proof (wf_arcs sc Hwf a Ha). specialize (Hh a Ha). unfold honours in Hh.
    rewrite Hs in Hh.
    assert (ALAP_SINK_CYCLE - (cyc ins (t sc) - cyc ins (a_tgt a))
            ≤ cyc (alap_cycles sc) (a_tgt a)); [|lia].
    apply (IH (t sc - a_tgt a)%nat); [lia|done|lia|].
    destruct (decide (a_tgt a = t sc)) as [?|Hne]; [by left|right].
    destruct (wf_out sc Hwf a Ha Hne) as (a' & Ha' & Heq). eauto.
Qed.

Lemma set_cycle_backward_eq :
  instruction (set_cycle backward_scheduling sc) = readjust sc (alap_cycles sc).
Proof. done. Qed.

(** The cycles of the backward pass agree with SINK's start cycle, and
    SOURCE has the smallest cycle of the nodes that arcs touch. *)
Lemma alap_cycles_sink : cyc (alap_cycles sc) (t sc) = ALAP_SINK_CYCLE.
Proof.
  unfold alap_cycles.
  assert (∀ l ins, t sc ∉ l →
            cyc (foldl (λ ins gp, set_cycle_gate (arcs sc) gp backward_scheduling ins) ins l)
              (t sc) = cyc ins (t sc)) as Hfold.
  { induction l as [|v l IH]; intros ins [Hv Hl]%not_elem_of_cons || intros ins _; simpl; [done|].
    rewrite IH by done. by rewrite cyc_set_cycle_gate_ne. }
  rewrite cyc_set_cycle_gate_ne by apply (wf_s_ne_t sc Hwf).
  rewrite Hfold.
  - apply cyc_set_cyc_eq, (wf_nodes_lt sc Hwf), (wf_elem_of_nodes sc Hwf). lia.
  - rewrite elem_of_reverse. apply (wf_t_not_circp sc Hwf).
Qed.

Lemma alap_cycles_honoured a : a ∈ arcs sc → honours (alap_cycles sc) a.
Proof.
  intros Ha. destruct (alap_cycles_inv sc W Hok Hwf Hfit) as (_ & _ & Hh & _).
  apply Hh; [done|]. pose proof (wf_arcs sc Hwf a Ha). lia.
Qed.

Lemma alap_cycles_range x :
  (x ≤ t sc)%nat → 0 ≤ cyc (alap_cycles sc) x ≤ MAX_CYCLE.
Proof.
  intros Hx. destruct (alap_cycles_inv sc W Hok Hwf Hfit) as (_ & Hb & _ & _).
  specialize (Hb x Hx). destruct Hfit as (_ & HW & HtW). split; [|lia]. nia.
Qed.

(** After the backward pass of [set_cycle] every arc is honoured. *)
Lemma set_cycle_backward_honoured : honoured (set_cycle backward_scheduling sc).
Proof.
  intros a Ha. unfold honours.
  replace (arcs (set_cycle backward_scheduling sc)) with (arcs sc) in Ha by done.
  rewrite set_cycle_backward_eq.
  destruct (readjust_spec sc Hwf (alap_cycles sc)) as (_ & _ & Hn & _).
  { by destruct (alap_cycles_inv sc W Hok Hwf Hfit) as (? & _). }
  pose proof (wf_arcs sc Hwf a Ha) as Hlt.
  rewrite !Hn by (apply (wf_elem_of_nodes sc Hwf); lia).
  destruct (honoured_from_source (alap_cycles sc) a alap_cycles_honoured Ha) as [Hs1 Hs2].
  pose proof (alap_cycles_range (a_src a) ltac:(lia)).
  pose proof (alap_cycles_range (a_tgt a) ltac:(lia)).
  pose proof (alap_cycles_range (s sc) ltac:(rewrite (wf_s sc Hwf); lia)).
  pose proof (alap_cycles_honoured a Ha) as Hh. unfold honours in Hh.
  destruct Hok as (HA0 & HAM & HM).
  rewrite !wrap64_small by lia. lia.
Qed.

(** The depth of the circuit is the distance the backward pass leaves
    between SOURCE and SINK. *)
Lemma alap_depth :
  arcs sc ≠ [] →
  ALAP_SINK_CYCLE - cyc (alap_cycles sc) (s sc) = circuit_depth sc.
Proof.
  intros Hne. unfold circuit_depth.
  destruct (wf_sink_reached Hne) as (at' & Hat & Htt).
  destruct (wf_source_left Hne) as (as' & Has & Hss).
  pose proof (asap_least (alap_cycles sc) (t sc) alap_cycles_honoured ltac:(done)
                ltac:(eauto)) as H1.
  pose proof (alap_greatest (instruction (set_cycle forward_scheduling sc)) (s sc)
                (set_cycle_forward_honoured sc W Hok Hwf Hfit)
                ltac:(rewrite (wf_s sc Hwf); lia) ltac:(eauto)) as H2.
  rewrite alap_cycles_sink in H1.
  assert (cyc (instruction (set_cycle forward_scheduling sc)) (s sc) = 0) as Hs0.
  { destruct (set_cycle_forward_inv sc W Hok Hwf Hfit) as (_ & Hb & _ & _).
    specialize (Hb (s sc) ltac:(rewrite (wf_s sc Hwf); lia)).
    rewrite (wf_s sc Hwf) in Hb at 3. lia. }
  lia.
Qed.
End extremal.

(** ** The uniforming pass *)

Lemma sort_by_cycle_fields `{Decls} sc :
  arcs (sort_by_cycle sc) = arcs sc ∧ instruction (sort_by_cycle sc) = instruction sc ∧
  circp (sort_by_cycle sc) ≡ₚ circp sc ∧
  s (sort_by_cycle sc) = s sc ∧ t (sort_by_cycle sc) = t sc.
Proof. split_and!; try done. apply stable_sort_Permutation. Qed.

Section uniform_proofs.
Context `{Decls}.
Variables (sc : Scheduler) (cycle_count : Z).

(** The candidate the scan returns is in the bundle and passed the
    test. *)
Lemma best_predgp_Some curr_cycle ins l p :
  best_predgp sc cycle_count curr_cycle ins l = Some p →
  p ∈ l ∧ forward_predgp sc cycle_count curr_cycle ins p = true.
Proof.
  unfold best_predgp.
  set (step := λ (acc : Z * option nat) predgp,
         if forward_predgp sc cycle_count curr_cycle ins predgp
            && (rem (remaining sc) predgp <? fst acc)
         then (rem (remaining sc) predgp, Some predgp) else acc).
  assert (∀ l acc, snd (foldl step acc l) = snd acc ∨
            ∃ q, q ∈ l ∧ forward_predgp sc cycle_count curr_cycle ins q = true ∧
                 snd (foldl step acc l) = Some q) as Hgen.
  { clear. induction l as [|x l IH]; intros acc; simpl; [by left|].
    destruct (IH (step acc x)) as [Heq|(q & Hq & Hf & Heq)].
    - rewrite Heq. unfold step.
      destruct (forward_predgp sc cycle_count curr_cycle ins x) eqn:Hf; simpl; [|by left].
      destruct (rem (remaining sc) x <? fst acc); [|by left].
      right. exists x. split_and!; [by left|done|done].
    - right. exists q. split_and!; [by right|done|done]. }
  intros Hp. destruct (Hgen l (MAX_CYCLE, None)) as [Heq|(q & Hq & Hf & Heq)].
  - rewrite Hp in Heq. done.
  - rewrite Hp in Heq. by simplify_eq.
Qed.

(** An invariant of the moves is an invariant of the loop that fills a
    bundle, and of the backward scan. *)
Lemma fill_bundle_inv (I : uniform_state → Prop) curr_cycle pred st :
  (∀ st pc predgp,
     (1 ≤ pc ≤ pred)%nat → I st →
     best_predgp sc cycle_count curr_cycle (u_ins st)
       (bundle (gates_per_cycle st) (Z.of_nat pc)) = Some predgp →
     I (move_gate (Z.of_nat pc) curr_cycle predgp st)) →
  I st → I (fill_bundle sc cycle_count curr_cycle pred st).
Proof.
  revert st. induction pred as [|pred IH]; intros st Hmove HI; simpl; [done|].
  generalize (length (bundle (gates_per_cycle st) (Z.of_nat (Datatypes.S pred)))).
  intros k. revert st HI. induction k as [|k IHk]; intros st HI.
  - case_match; [|done]. case_match eqn:Hbest.
    + case_match; by apply (Hmove st (Datatypes.S pred)); [lia|..].
    + apply IH; [|done]. intros ??? ?. apply Hmove. lia.
  - case_match; [|done]. case_match eqn:Hbest.
    + case_match; [by apply (Hmove st (Datatypes.S pred)); [lia|..]|].
      apply IHk. by apply (Hmove st (Datatypes.S pred)); [lia|..].
    + apply IH; [|done]. intros ??? ?. apply Hmove. lia.
Qed.

Lemma backward_scan_inv (I : uniform_state → Prop) curr st :
  (∀ st ne gc, I st → I (mkUniform (u_ins st) (gates_per_cycle st) ne gc)) →
  (∀ st cc pc predgp,
     (1 ≤ pc < cc)%nat → (cc ≤ curr)%nat → I st →
     best_predgp sc cycle_count (Z.of_nat cc) (u_ins st)
       (bundle (gates_per_cycle st) (Z.of_nat pc)) = Some predgp →
     I (move_gate (Z.of_nat pc) (Z.of_nat cc) predgp st)) →
  I st → I (backward_scan sc cycle_count curr st).
Proof.
  intros Hcount. revert st. induction curr as [|curr IH]; intros st Hmove HI; simpl; [done|].
  case_match; [done|].
  apply IH.
  - intros ???? ? ?. apply Hmove; lia.
  - apply Hcount. apply fill_bundle_inv; [|done].
    intros ??? ?. apply Hmove; lia.
Qed.

(** The pass writes cycles only. *)
Lemma move_gate_frame pc cc predgp st :
  frame <$> u_ins (move_gate pc cc predgp st) = frame <$> u_ins st.
Proof. unfold move_gate. cbn [u_ins]. apply frame_set_cyc. Qed.

Lemma backward_scan_frame curr st :
  frame <$> u_ins (backward_scan sc cycle_count curr st) = frame <$> u_ins st.
Proof.
  apply (backward_scan_inv (λ st', frame <$> u_ins st' = frame <$> u_ins st)); [done| |done].
  intros st' cc pc predgp _ _ HI _. by rewrite move_gate_frame.
Qed.
End uniform_proofs.

Lemma frame_set_cycle `{Decls} dir sc :
  frame <$> instruction (set_cycle dir sc) = frame <$> instruction sc.
Proof.
  assert (∀ d l ins,
            frame <$> foldl (λ ins gp, set_cycle_gate (arcs sc) gp d ins) ins l
            = frame <$> ins) as Hfold.
  { intros d l. induction l as [|v l IH]; intros ins; simpl; [done|].
    by rewrite IH, frame_set_cycle_gate. }
  destruct dir; unfold set_cycle; cbn [instruction with_instruction].
  - by rewrite frame_set_cycle_gate, Hfold, frame_set_cyc.
  - unfold readjust.
    rewrite frame_set_cyc, (frame_foldl_set_cyc (λ ins gp, wrap64 (cyc ins gp - _))),
      frame_set_cyc, frame_set_cycle_gate, Hfold, frame_set_cyc. done.
Qed.

(** C10.  The uniforming pass leaves the graph alone, rearranges the
    circuit, and writes no field of a gate other than its cycle: the
    circuit after the pass holds the gates it held before, each with
    the fields it had. *)
Theorem uniform_frame `{Decls} (sc : Scheduler) :
  let sc' := schedule_alap_uniform sc in
  circp sc' ≡ₚ circp sc ∧
  frame <$> instruction sc' = frame <$> instruction sc ∧
  arcs sc' = arcs sc ∧ s sc' = s sc ∧ t sc' = t sc ∧
  cycle_time sc' = cycle_time sc ∧
  qubit_count sc' = qubit_count sc ∧ creg_count sc' = creg_count sc ∧
  ∀ kernel,
    frame <$> c (with_circuit_of sc' kernel) ≡ₚ frame <$> c (with_circuit_of sc kernel).
Proof.
  intros sc'.
  assert (circp sc' ≡ₚ circp sc) as Hp by apply stable_sort_Permutation.
  assert (frame <$> instruction sc' = frame <$> instruction sc) as Hf.
  { unfold sc', schedule_alap_uniform. cbn [instruction sort_by_cycle with_circp with_instruction].
    rewrite backward_scan_frame. cbn [u_ins]. apply frame_set_cycle. }
  split_and!; try done.
  intros kernel. unfold with_circuit_of. cbn [c].
  rewrite <- !list_fmap_compose.
  assert (∀ n, (frame ∘ (λ n, instruction sc' !!! n)) n
               = (frame ∘ (λ n, instruction sc !!! n)) n) as Heq.
  { intros n. unfold compose.
    assert (frame <$> (instruction sc' !! n) = frame <$> (instruction sc !! n)) as Hn
      by by rewrite <- !list_lookup_fmap, Hf.
    rewrite !list_lookup_total_alt. revert Hn.
    generalize (instruction sc' !! n) (instruction sc !! n).
    intros [g1|] [g2|] Hn; simpl in *; congruence. }
  rewrite (list_fmap_ext _ _ (circp sc') (λ _ x _, Heq x)).
  by rewrite Hp.
Qed.

Lemma bundle_insert `{Decls} (gpc : gmap Z (list nat)) k l k' :
  bundle (<[k := l]> gpc) k' = if decide (k = k') then l else bundle gpc k'.
Proof.
  unfold bundle. case_decide as Hk.
  - subst. by rewrite lookup_insert_eq.
  - by rewrite lookup_insert_ne.
Qed.

Section uniform_honoured.
Context `{Decls}.
Variables (sc : Scheduler) (W : Z).
Hypothesis Hok : decls_ok.
Hypothesis Hwf : wf_sched sc.
Hypothesis Hfit : weights_fit sc W.

#[local] Abbreviation sc1 := (set_cycle forward_scheduling sc).
#[local] Abbreviation sc2 := (set_remaining forward_scheduling sc1).
#[local] Abbreviation T := (circuit_depth sc).

Lemma circuit_depth_le : 0 ≤ T ≤ Z.of_nat (t sc) * W.
Proof.
  destruct (set_cycle_forward_inv sc W Hok Hwf Hfit) as (_ & Hb & _ & _).
  apply (Hb (t sc)). done.
Qed.

(** A move keeps the invariant. *)
Lemma move_gate_inv st cc pc predgp :
  (1 ≤ pc < cc)%nat → (cc ≤ Z.to_nat (wrap64 (T - 1)))%nat →
  uniform_inv sc T st →
  best_predgp sc2 (wrap64 (T - 1)) (Z.of_nat cc) (u_ins st)
    (bundle (gates_per_cycle st) (Z.of_nat pc)) = Some predgp →
  uniform_inv sc T (move_gate (Z.of_nat pc) (Z.of_nat cc) predgp st).
Proof.
  intros Hpc Hcc (Hlen & Hdur & Hh & Hb & Ht) [Hp Hf]%best_predgp_Some.
  destruct (Hb _ _ Hp) as (Hpc' & Hcp & (a0 & Ha0 & Hs0)); [lia|].
  destruct Hok as (HA0 & HAM & HM). pose proof circuit_depth_le as HT.
  pose proof Hfit as (HWa & HW0 & HtW).
  (* SINK is above cycle 0 *)
  assert (Z.of_nat pc ≤ T) as HpcT.
  { destruct (honoured_to_sink sc Hwf (u_ins st) a0 Hh Ha0) as [Hle _].
    rewrite Hs0, Hcp, Ht in Hle. done. }
  assert (wrap64 (T - 1) = T - 1) as HTw by (apply wrap64_small; nia).
  rewrite HTw in *.
  assert (Z.of_nat cc ≤ T - 1) as HccT by lia.
  (* the completion cycle of the candidate *)
  set (dic := duration_in_cycles (dur (u_ins st) predgp) (cycle_time sc)).
  assert (∀ a, a ∈ arcs sc → a_src a = predgp → weight a = dic) as Hw.
  { intros a Ha Hs. rewrite (wf_weight sc Hwf a Ha), Hs. unfold dic. by rewrite Hdur. }
  assert (0 ≤ dic ≤ W) as Hdic.
  { rewrite <- (Hw a0 Ha0 Hs0). by apply (fit_weight sc W Hwf Hfit). }
  unfold forward_predgp in Hf. cbn [cycle_time set_remaining with_remaining set_cycle
    with_instruction arcs] in Hf. fold dic in Hf.
  rewrite (wrap64_small (Z.of_nat cc + dic)) in Hf by nia.
  case_match; [done|].
  rewrite forallb_forall in Hf.
  assert (∀ a, a ∈ arcs sc → a_src a = predgp →
            Z.of_nat cc + weight a ≤ cyc (u_ins st) (a_tgt a)) as Hout.
  { intros a Ha Hs. rewrite (Hw a Ha Hs).
    specialize (Hf a). rewrite <- list_elem_of_In, elem_of_out_arcs in Hf.
    specialize (Hf (conj Ha Hs)). apply negb_true_iff, Z.ltb_ge in Hf. done. }
  assert (predgp < length (u_ins st))%nat as Hpl.
  { rewrite Hlen. apply (wf_nodes_lt sc Hwf). unfold nodes. set_solver. }
  assert (predgp ≠ t sc) as Hpt by (intros ->; by apply (wf_t_not_circp sc Hwf)).
  unfold move_gate, uniform_inv. cbn [u_ins gates_per_cycle].
  split_and!.
  - by rewrite length_set_cyc.
  - intros x. by rewrite dur_set_cyc.
  - intros a Ha. unfold honours. pose proof (wf_arcs sc Hwf a Ha) as Hlt.
    destruct (decide (a_src a = predgp)) as [Hs|Hs].
    + rewrite Hs, cyc_set_cyc_eq, cyc_set_cyc_ne by (done || lia). by apply Hout.
    + rewrite (cyc_set_cyc_ne _ (a_src a)) by done.
      destruct (decide (a_tgt a = predgp)) as [Htg|Htg].
      * rewrite Htg, cyc_set_cyc_eq by done.
        specialize (Hh a Ha). unfold honours in Hh. rewrite Htg, Hcp in Hh. lia.
      * rewrite cyc_set_cyc_ne by done. by apply Hh.
  - intros cy x. rewrite !bundle_insert.
    destruct (decide (Z.of_nat cc = cy)) as [<-|Hne1].
    + rewrite decide_False by lia.
      intros [Hx| ->%list_elem_of_singleton]%elem_of_app.
      * destruct (Hb _ _ Hx) as (Hxc & Hxy & Hxa). split_and!; [done| |done].
        destruct (decide (x = predgp)) as [->|Hxp]; [by apply cyc_set_cyc_eq|].
        by rewrite cyc_set_cyc_ne.
      * split_and!; [done|by apply cyc_set_cyc_eq|eauto].
    + destruct (decide (Z.of_nat pc = cy)) as [<-|Hne2].
      * intros [Hxp Hx]%list_elem_of_filter.
        destruct (Hb _ _ Hx) as (Hxc & Hxy & Hxa). split_and!; [done| |done].
        by rewrite cyc_set_cyc_ne.
      * intros Hx. destruct (Hb _ _ Hx) as (Hxc & Hxy & Hxa). split_and!; [done| |done].
        rewrite cyc_set_cyc_ne; [done|]. intros <-. lia.
  - by rewrite cyc_set_cyc_ne.
Qed.

(** The bundles the pass starts from. *)
Lemma initial_bundles (ins : list gate) l cy x :
  x ∈ bundle (foldl (λ gpc gp, <[cyc ins gp := bundle gpc (cyc ins gp) ++ [gp]]> gpc)
                (∅ : gmap Z (list nat)) l) cy →
  x ∈ l ∧ cyc ins x = cy.
Proof.
  assert (∀ gpc,
            x ∈ bundle (foldl (λ gpc gp, <[cyc ins gp := bundle gpc (cyc ins gp) ++ [gp]]> gpc)
                          gpc l) cy →
            x ∈ bundle gpc cy ∨ (x ∈ l ∧ cyc ins x = cy)) as Hgen.
  { induction l as [|v l IH]; intros gpc; simpl; [by left|].
    intros [Hx|[Hx Hc]]%IH.
    - rewrite bundle_insert in Hx. case_decide as Hv; [|by left].
      apply elem_of_app in Hx as [Hx| ->%list_elem_of_singleton].
      + left. by rewrite <- Hv.
      + right. split; [by left|done].
    - right. split; [by right|done]. }
  intros [Hx|?]%Hgen; [|done].
  unfold bundle in Hx. rewrite lookup_empty in Hx. by apply elem_of_nil in Hx.
Qed.

Lemma uniform_inv_final :
  ∃ st, instruction (schedule_alap_uniform sc) = u_ins st ∧ uniform_inv sc T st.
Proof.
  unfold schedule_alap_uniform.
  cbn [instruction sort_by_cycle with_circp with_instruction set_remaining with_remaining
       t circp].
  change (t sc1) with (t sc). change (circp sc1) with (circp sc).
  fold T.
  eexists; split; [reflexivity|].
  destruct (set_cycle_forward_inv sc W Hok Hwf Hfit) as (Hl & Hb & Hh & Htight).
  apply backward_scan_inv.
  - intros st ne gc HI. exact HI.
  - intros st cc pc predgp Hpc Hcc HI Hbest. by apply move_gate_inv.
  - unfold uniform_inv. cbn [u_ins gates_per_cycle]. split_and!.
    + done.
    + intros x. unfold dur.
      assert (frame <$> (instruction sc1 !! x) = frame <$> (instruction sc !! x)) as Hx
        by by rewrite <- !list_lookup_fmap, frame_set_cycle.
      revert Hx. generalize (instruction sc1 !! x) (instruction sc !! x).
      intros [[]|] [[]|] Hx; unfold frame, with_cycle in Hx; simpl in *; congruence.
    + intros a Ha. apply Hh; [done|]. by apply (wf_arcs sc Hwf).
    + intros cy x [Hx Hc]%initial_bundles. split_and!; [done..|].
      intros Hcy. assert (x ≤ t sc)%nat as Hxt.
      { apply (wf_elem_of_nodes sc Hwf). unfold nodes. set_solver. }
      destruct (Htight x Hxt) as [?|(a & Ha & Hat & _)]; [lia|].
      destruct (wf_out sc Hwf a Ha) as (a' & Ha' & Hs').
      { rewrite Hat. intros ->. by apply (wf_t_not_circp sc Hwf). }
      exists a'. by rewrite <- Hat.
    + done.
Qed.
End uniform_honoured.

(** C5.  The uniforming pass does not extend the schedule: SINK keeps
    the cycle the forward pass gave it, which is the depth of the
    circuit, and after the pass every dependence is honoured; a gate is
    moved to [curr_cycle] only when the test [forward_predgp] on its
    completion cycle has passed. *)
Theorem uniform_keeps_sink_cycle `{Decls} (sc : Scheduler) (W : Z) :
  decls_ok → wf_sched sc → weights_fit sc W →
  cyc (instruction (schedule_alap_uniform sc)) (t sc)
  = cyc (instruction (set_cycle forward_scheduling sc)) (t sc) ∧
  honoured (schedule_alap_uniform sc) ∧
  ∀ st curr_cycle pred_cycle predgp,
    best_predgp sc (wrap64 (circuit_depth sc - 1)) curr_cycle (u_ins st)
      (bundle (gates_per_cycle st) pred_cycle) = Some predgp →
    forward_predgp sc (wrap64 (circuit_depth sc - 1)) curr_cycle (u_ins st) predgp = true.
Proof.
  intros Hok Hwf Hfit.
  destruct (uniform_inv_final sc W Hok Hwf Hfit) as (st & Hst & (_ & _ & Hh & _ & Ht)).
  split_and!.
  - by rewrite Hst, Ht.
  - intros a Ha. rewrite Hst. by apply Hh.
  - intros st' cc pc predgp Hbest. by apply best_predgp_Some in Hbest as [_ ?].
Qed.

(** ** The list scheduler *)

Lemma elem_of_wait_arcs g dir n a :
  a ∈ wait_arcs g dir n ↔ a ∈ g ∧ depending dir a = n.
Proof. destruct dir; simpl; [apply elem_of_in_arcs|apply elem_of_out_arcs]. Qed.

Lemma is_scheduled_insert scheduled n x :
  is_scheduled (<[n := true]> scheduled) x
  = if decide (n = x) then true else is_scheduled scheduled x.
Proof.
  unfold is_scheduled. case_decide as Hn.
  - subst. by rewrite lookup_insert_eq.
  - by rewrite lookup_insert_ne.
Qed.

Section list_scheduler_proofs.
Context `{Decls} {R : Type} `{resource_manager_t R}.
Variables (sc : Scheduler) (W : Z) (dir : scheduling_direction_t).
Hypothesis Hok : decls_ok.
Hypothesis Hwf : wf_sched sc.
Hypothesis Hfit : weights_fit sc W.

(** An arc leads from the node waited for to the node that waits, which
    is another node. *)
Lemma wf_depending_ne a : a ∈ arcs sc → depending dir a ≠ depended dir a.
Proof. intros Ha. pose proof (wf_arcs sc Hwf a Ha). destruct dir; simpl; lia. Qed.

Lemma wf_depending_le a :
  a ∈ arcs sc → (depending dir a ≤ t sc)%nat ∧ (depended dir a ≤ t sc)%nat.
Proof. intros Ha. pose proof (wf_arcs sc Hwf a Ha). destruct dir; simpl; lia. Qed.

(** The cycle [set_cycle_gate] gives a node honours the arcs over which
    it waits, when the cycles of the nodes it waits for leave room for
    the weights. *)
Lemma set_cycle_gate_wait_honours m ins :
  (m < length ins)%nat →
  (∀ a, a ∈ arcs sc → depending dir a = m →
        match dir with
        | forward_scheduling => 0 ≤ cyc ins (a_src a) + weight a < 2 ^ 64
        | backward_scheduling => 0 ≤ cyc ins (a_tgt a) - weight a < 2 ^ 64
        end) →
  ∀ a, a ∈ arcs sc → depending dir a = m →
       honours (set_cycle_gate (arcs sc) m dir ins) a.
Proof.
  intros Hm Hroom a Ha Hdep. unfold honours.
  pose proof (wf_depending_ne a Ha) as Hne. rewrite Hdep in Hne.
  destruct dir; simpl in *.
  - rewrite set_cycle_gate_forward.
    destruct (foldl_max_spec (λ a, wrap64 (cyc ins (a_src a) + weight a))
                (in_arcs (arcs sc) m) 0) as (_ & Hge & _).
    cbv beta in Hge.
    rewrite Hdep, cyc_set_cyc_eq, cyc_set_cyc_ne by done.
    specialize (Hge a ltac:(by apply elem_of_in_arcs)).
    rewrite wrap64_small in Hge by by apply Hroom. done.
  - rewrite set_cycle_gate_backward.
    destruct (foldl_min_spec (λ a, wrap64 (cyc ins (a_tgt a) - weight a))
                (out_arcs (arcs sc) m) MAX_CYCLE) as (_ & Hle & _).
    cbv beta in Hle.
    rewrite Hdep, cyc_set_cyc_eq, cyc_set_cyc_ne by done.
    specialize (Hle a ltac:(by apply elem_of_out_arcs)).
    rewrite wrap64_small in Hle by by apply Hroom. lia.
Qed.

(** The cycles of scheduled nodes leave that room. *)
Lemma cycle_within_room k curr_cycle a ins :
  a ∈ arcs sc → k + W ≤ ALAP_SINK_CYCLE →
  curr_within dir k curr_cycle →
  cycle_within dir curr_cycle (cyc ins (depended dir a)) →
  match dir with
  | forward_scheduling => 0 ≤ cyc ins (a_src a) + weight a < 2 ^ 64
  | backward_scheduling => 0 ≤ cyc ins (a_tgt a) - weight a < 2 ^ 64
  end.
Proof.
  intros Ha Hk Hc Hx. pose proof (fit_weight sc W Hwf Hfit a Ha).
  destruct Hok as (HA0 & HAM & HM).
  destruct dir; simpl in *; lia.
Qed.
End list_scheduler_proofs.

Lemma cyc_lookup_total (ins : list gate) n :
  (n < length ins)%nat → cycle (ins !!! n) = cyc ins n.
Proof.
  intros Hn. unfold cyc. destruct (lookup_lt_is_Some_2 ins n Hn) as [g Hg].
  by rewrite (list_lookup_total_correct _ _ _ Hg), Hg.
Qed.

Section take_available.
Context `{Decls}.
Variables (sc : Scheduler) (W : Z) (dir : scheduling_direction_t).
Hypothesis Hok : decls_ok.
Hypothesis Hwf : wf_sched sc.
Hypothesis Hfit : weights_fit sc W.
Variables (scheduled : gmap nat bool) (ins0 : list gate) (k curr_cycle : Z).
Hypothesis Hlen0 : length ins0 = length (instruction sc).
Hypothesis Hk : k + W ≤ ALAP_SINK_CYCLE.
Hypothesis Hcurr : curr_within dir k curr_cycle.
Hypothesis Hsched : ∀ x, is_scheduled scheduled x = true →
                         cycle_within dir curr_cycle (cyc ins0 x).

(** [MakeAvailable] on a node that waits for scheduled nodes only. *)
Lemma MakeAvailable_take_inv m st :
  take_inv sc dir scheduled ins0 st →
  (m ≤ t sc)%nat → is_scheduled scheduled m = false →
  (∀ a, a ∈ arcs sc → depending dir a = m → is_scheduled scheduled (depended dir a) = true) →
  take_inv sc dir scheduled ins0 (MakeAvailable sc m dir st) ∧
  m ∈ (MakeAvailable sc m dir st).2 ∧
  (∀ x, x ∈ st.2 → x ∈ (MakeAvailable sc m dir st).2).
Proof.
  destruct st as [ins avl]. unfold take_inv.
  intros (Hlen & Hcyc & Hav) Hm Hms Hwait. cbn [fst snd] in *.
  destruct (MakeAvailable_avlist sc m dir ins avl) as [[Hin ->]|(Hin & avl' & -> & Hp)].
  { cbn [fst snd]. split_and!; done. }
  cbn [fst snd].
  assert (m < length ins)%nat as Hml.
  { rewrite Hlen, Hlen0. apply (wf_nodes_lt sc Hwf), (wf_elem_of_nodes sc Hwf). done. }
  split_and!.
  - by rewrite length_set_cycle_gate.
  - intros x Hx. rewrite cyc_set_cycle_gate_ne; [by apply Hcyc|]. intros ->. congruence.
  - intros x Hx. rewrite Hp in Hx. apply elem_of_cons in Hx as [->|Hx].
    + split_and!; [done..|]. intros a Ha Hd. split; [by apply Hwait|].
      apply (set_cycle_gate_wait_honours sc dir Hwf); [done| |done..].
      intros a' Ha' Hd'.
      apply (cycle_within_room sc W dir Hok Hwf Hfit k curr_cycle a'); [done..|].
      rewrite Hcyc by by apply Hwait. by apply Hsched, Hwait.
    + destruct (Hav x Hx) as (Hxs & Hxt & Hxa). split_and!; [done..|].
      intros a Ha Hd. destruct (Hxa a Ha Hd) as [Hds Hh]. split; [done|].
      unfold honours in *.
      assert (m ≠ x) by (intros ->; done).
      assert (m ≠ depended dir a) by (intros ->; congruence).
      rewrite <- Hd in *. clear Hd.
      destruct dir; simpl in *; by rewrite !cyc_set_cycle_gate_ne.
  - rewrite Hp. by left.
  - intros x Hx. rewrite Hp. by right.
Qed.

(** The loop of [TakeAvailable]. *)
Lemma TakeAvailable_fold l st :
  take_inv sc dir scheduled ins0 st →
  (∀ a, a ∈ l → a ∈ arcs sc ∧ is_scheduled scheduled (depending dir a) = false) →
  let st' :=
    foldl (λ st a,
             if forallb (λ a', is_scheduled scheduled (depended dir a'))
                  (wait_arcs (arcs sc) dir (depending dir a))
             then MakeAvailable sc (depending dir a) dir st else st) st l in
  take_inv sc dir scheduled ins0 st' ∧
  (∀ x, x ∈ st.2 → x ∈ st'.2) ∧
  (∀ a, a ∈ l →
        (∀ a', a' ∈ arcs sc → depending dir a' = depending dir a →
               is_scheduled scheduled (depended dir a') = true) →
        depending dir a ∈ st'.2).
Proof.
  revert st. induction l as [|a l IH]; intros st Hst Hl; simpl.
  - split_and!; [done|done|]. intros a []%elem_of_nil.
  - destruct (Hl a ltac:(by left)) as [Ha Has].
    set (st1 := if forallb _ _ then _ else _).
    assert (take_inv sc dir scheduled ins0 st1 ∧ (∀ x, x ∈ st.2 → x ∈ st1.2) ∧
            ((∀ a', a' ∈ arcs sc → depending dir a' = depending dir a →
                    is_scheduled scheduled (depended dir a') = true) →
             depending dir a ∈ st1.2)) as (Hst1 & Hsub1 & Hin1).
    { unfold st1. destruct (forallb _ _) eqn:Hall.
      - rewrite forallb_forall in Hall.
        assert (∀ a', a' ∈ arcs sc → depending dir a' = depending dir a →
                      is_scheduled scheduled (depended dir a') = true) as Hwait.
        { intros a' Ha' Hd'. apply Hall. apply list_elem_of_In, elem_of_wait_arcs. done. }
        destruct (MakeAvailable_take_inv (depending dir a) st Hst) as (? & ? & ?);
          [by apply (wf_depending_le sc dir Hwf)|done|done|]. done.
      - split_and!; [done|done|]. intros Hwait.
        apply not_true_iff_false in Hall. exfalso. apply Hall.
        apply forallb_forall. intros a' [Ha' Hd']%list_elem_of_In%elem_of_wait_arcs.
        by apply Hwait. }
    destruct (IH st1 Hst1) as (Hst' & Hsub & Hin).
    { intros a' Ha'. apply Hl. by right. }
    split_and!; [done|by auto|].
    intros a' [->|Ha']%elem_of_cons Hwait; [|by apply Hin].
    by apply Hsub, Hin1.
Qed.
End take_available.

Section schedule_loop_proofs.
Context `{Decls} {R : Type} `{resource_manager_t R}.
Variables (sc : Scheduler) (W : Z) (dir : scheduling_direction_t)
  (platform : quantum_platform).
Hypothesis Hok : decls_ok.
Hypothesis Hwf : wf_sched sc.
Hypothesis Hfit : weights_fit sc W.

Lemma SelectAvailable_Some avlist curr_cycle (rm : R) ins n :
  SelectAvailable sc avlist dir curr_cycle platform rm ins = Some n →
  n ∈ avlist ∧ immediately_schedulable sc n dir curr_cycle platform rm ins = true.
Proof.
  unfold SelectAvailable.
  destruct (list_find _ avlist) as [[i x]|] eqn:Hfind; [|done].
  simpl. intros [= ->]. apply list_find_Some in Hfind as (Hi & Hx & _).
  split; [by eapply list_elem_of_lookup_2|done].
Qed.

Lemma immediately_schedulable_cycle n curr_cycle (rm : R) ins :
  (n < length ins)%nat →
  immediately_schedulable sc n dir curr_cycle platform rm ins = true →
  match dir with
  | forward_scheduling => cyc ins n ≤ curr_cycle
  | backward_scheduling => curr_cycle ≤ cyc ins n
  end.
Proof.
  intros Hn. unfold immediately_schedulable. rewrite cyc_lookup_total by done.
  destruct dir.
  - destruct (Z.leb_spec (cyc ins n) curr_cycle); done.
  - destruct (Z.leb_spec curr_cycle (cyc ins n)); done.
Qed.

Lemma curr_within_mono k k' curr_cycle :
  k ≤ k' → curr_within dir k curr_cycle → curr_within dir k' curr_cycle.
Proof. destruct dir; simpl; lia. Qed.

(** A round of the loop keeps the invariant. *)
Lemma schedule_step_inv k (st : rc_state R) :
  0 ≤ k → k + 1 + W ≤ ALAP_SINK_CYCLE →
  rc_inv sc dir k st → rc_inv sc dir (k + 1) (schedule_step sc dir platform st).
Proof.
  intros Hk0 Hk [Hlen Hcurr Hsc Hsched Hav Hcomp].
  destruct Hok as (HA0 & HAM & HM). pose proof Hfit as (_ & HW0 & _).
  unfold schedule_step.
  destruct (SelectAvailable _ _ _ _ _ _ _) as [n|] eqn:Hsel.
  2:{ (* no node can start: the cycle advances *)
    assert (curr_within dir (k + 1) (AdvanceCurrCycle dir (rc_curr_cycle st)) ∧
            ∀ cy, cycle_within dir (rc_curr_cycle st) cy →
                  cycle_within dir (AdvanceCurrCycle dir (rc_curr_cycle st)) cy) as [Hc1 Hc2].
    { unfold AdvanceCurrCycle. destruct dir; simpl in *.
      - rewrite wrap64_small by lia. split; [lia|]. intros; lia.
      - rewrite wrap64_small by lia. split; [lia|]. intros; lia. }
    split; cbn [rc_ins rc_avlist rc_scheduled rc_curr_cycle]; try done.
    intros x Hx. destruct (Hsc x Hx). split; [done|]. by apply Hc2. }
  apply SelectAvailable_Some in Hsel as [Hn Himm].
  destruct (Hav n Hn) as (Hns & Hnt & Hnw).
  assert (n < length (rc_ins st))%nat as Hnl.
  { rewrite Hlen. apply (wf_nodes_lt sc Hwf), (wf_elem_of_nodes sc Hwf). done. }
  apply immediately_schedulable_cycle in Himm; [|done].
  set (curr := rc_curr_cycle st) in *.
  set (ins1 := set_cyc n curr (rc_ins st)).
  set (sch' := <[n := true]> (rc_scheduled st)).
  assert (Hsch' : ∀ x, is_scheduled sch' x = true ↔ x = n ∨ is_scheduled (rc_scheduled st) x = true).
  { intros x. unfold sch'. rewrite is_scheduled_insert. case_decide; naive_solver. }
  assert (Hsch'f : ∀ x, is_scheduled sch' x = false ↔
                        x ≠ n ∧ is_scheduled (rc_scheduled st) x = false).
  { intros x. unfold sch'. rewrite is_scheduled_insert. case_decide; naive_solver. }
  assert (Hcurr0 : cycle_within dir curr curr).
  { destruct dir; simpl in *; lia. }
  (* the arcs over which [n] waited are honoured by its cycle *)
  assert (Hnh : ∀ a, a ∈ arcs sc → depending dir a = n → honours ins1 a).
  { intros a Ha Hd. destruct (Hnw a Ha Hd) as [Hds Hh]. unfold honours in *.
    pose proof (wf_depending_ne sc dir Hwf a Ha) as Hne. rewrite Hd in Hne.
    unfold ins1. destruct dir; simpl in *.
    - rewrite Hd, cyc_set_cyc_eq, cyc_set_cyc_ne by done. rewrite Hd in Hh. lia.
    - rewrite Hd, cyc_set_cyc_eq, cyc_set_cyc_ne by done. rewrite Hd in Hh. lia. }
  (* the cycles of the other nodes are as they were *)
  assert (Hother : ∀ a, a ∈ arcs sc → depending dir a ≠ n → depended dir a ≠ n →
                        honours (rc_ins st) a → honours ins1 a).
  { intros a Ha H1 H2. unfold honours, ins1.
    destruct dir; simpl in *; by rewrite !cyc_set_cyc_ne. }
  pose proof (TakeAvailable_fold sc W dir Hok Hwf Hfit sch' ins1 k curr
                ltac:(by unfold ins1; rewrite length_set_cyc) ltac:(lia) Hcurr) as Hfold.
  unfold TakeAvailable. fold sch' ins1.
  specialize (Hfold ltac:(
    intros x [->|Hx]%Hsch';
      [unfold ins1; by rewrite cyc_set_cyc_eq
      |unfold ins1; rewrite cyc_set_cyc_ne by (intros ->; congruence); by apply Hsc])).
  specialize (Hfold (dep_arcs (arcs sc) dir n) (ins1, filter (λ x, x ≠ n) (rc_avlist st))).
  destruct Hfold as ((Hlen' & Hcyc' & Hav') & Hsub & Hnew).
  { unfold take_inv. cbn [fst snd]. split_and!; [done|done|].
    intros x [Hxn Hx]%list_elem_of_filter. destruct (Hav x Hx) as (Hxs & Hxt & Hxw).
    split_and!; [by apply Hsch'f|done|].
    intros a Ha Hd. destruct (Hxw a Ha Hd) as [Hds Hh].
    split; [apply Hsch'; by right|]. apply Hother; [done| | |done].
    - by rewrite Hd.
    - intros Heq. rewrite Heq in Hds. congruence. }
  { intros a [Ha Hd]%elem_of_dep_arcs. split; [done|]. apply Hsch'f. split.
    - rewrite <- Hd. by apply (wf_depending_ne sc).
    - destruct (is_scheduled (rc_scheduled st) (depending dir a)) eqn:Hs; [|done].
      destruct (Hsched a Ha Hs) as [Hds _]. rewrite Hd in Hds. congruence. }
  cbn zeta in *.
  set (st' := foldl _ _ _) in *. destruct st' as [ins' avl'] eqn:Hst'.
  cbn [fst snd] in *.
  assert (Hsame : ∀ a, a ∈ arcs sc → is_scheduled sch' (depending dir a) = true →
                       is_scheduled sch' (depended dir a) = true →
                       honours ins1 a → honours ins' a).
  { intros a Ha H1 H2. unfold honours.
    destruct dir; simpl in *; by rewrite !Hcyc'. }
  split; cbn [rc_ins rc_avlist rc_scheduled rc_curr_cycle].
  - rewrite Hlen'. unfold ins1. by rewrite length_set_cyc.
  - eapply curr_within_mono; [|done]. lia.
  - intros x Hx. rewrite Hcyc' by done. apply Hsch' in Hx as [->|Hx].
    + split; [done|]. unfold ins1. by rewrite cyc_set_cyc_eq.
    + destruct (Hsc x Hx). split; [done|].
      unfold ins1. rewrite cyc_set_cyc_ne; [done|]. intros ->. congruence.
  - intros a Ha Hd. pose proof Hd as Hd'. apply Hsch' in Hd as [Hd|Hd].
    + destruct (Hnw a Ha Hd) as [Hds _].
      assert (is_scheduled sch' (depended dir a) = true) by (apply Hsch'; by right).
      split; [done|]. apply Hsame; [done..|]. by apply Hnh.
    + destruct (Hsched a Ha Hd) as [Hds Hh].
      assert (is_scheduled sch' (depended dir a) = true) by (apply Hsch'; by right).
      split; [done|]. apply Hsame; [done..|]. apply Hother; [done| | |done].
      * intros Heq. rewrite Heq in Hd. congruence.
      * intros Heq. rewrite Heq in Hds. congruence.
  - done.
  - intros x Hxt [Hxn Hxs]%Hsch'f Hconn Hwait.
    destruct (decide (Exists (λ a, depending dir a = x ∧ depended dir a = n) (arcs sc)))
      as [(a & Ha & Hd & Hdn)%Exists_exists|Hno].
    + rewrite <- Hd. apply Hnew.
      * apply elem_of_dep_arcs. done.
      * intros a' Ha' Hd'. apply Hwait; [done|]. by rewrite Hd'.
    + apply Hsub, list_elem_of_filter. split; [done|].
      apply Hcomp; [done..|]. intros a Ha Hd.
      specialize (Hwait a Ha Hd). apply Hsch' in Hwait as [Hdn|?]; [|done].
      exfalso. apply Hno, Exists_exists. eauto.
Qed.
End schedule_loop_proofs.

Lemma is_scheduled_init len x :
  is_scheduled (list_to_map ((λ n, (n, false)) <$> seq 0 len)) x = false.
Proof.
  unfold is_scheduled.
  destruct (_ !! x) as [b|] eqn:Hl; [|done].
  apply elem_of_list_to_map_2 in Hl.
  apply list_elem_of_fmap in Hl as (y & [= -> ->] & _). done.
Qed.

Lemma set_remaining_fields dir sc :
  arcs (set_remaining dir sc) = arcs sc ∧
  instruction (set_remaining dir sc) = instruction sc ∧
  circp (set_remaining dir sc) = circp sc ∧
  s (set_remaining dir sc) = s sc ∧ t (set_remaining dir sc) = t sc ∧
  cycle_time (set_remaining dir sc) = cycle_time sc.
Proof. by destruct dir. Qed.

Lemma set_remaining_wf dir sc : wf_sched sc → wf_sched (set_remaining dir sc).
Proof. intros Hwf. destruct dir; destruct Hwf; by split. Qed.

Lemma set_remaining_fit `{Decls} dir sc W :
  weights_fit sc W → weights_fit (set_remaining dir sc) W.
Proof. by destruct dir. Qed.

Lemma schedule_init_set_remaining `{Decls} {R : Type} dir sc (rm : R) :
  schedule_init (set_remaining dir sc) dir rm = schedule_init sc dir rm.
Proof. by destruct dir. Qed.

Section schedule_run_proofs.
Context `{Decls} {R : Type} `{resource_manager_t R}.
Variables (sc : Scheduler) (W : Z) (dir : scheduling_direction_t)
  (platform : quantum_platform).
Hypothesis Hok : decls_ok.
Hypothesis Hwf : wf_sched sc.
Hypothesis Hfit : weights_fit sc W.

(** The loop starts in a state of the invariant. *)
Lemma schedule_init_inv (rm : R) : rc_inv sc dir 0 (schedule_init sc dir rm).
Proof.
  destruct Hok as (HA0 & HAM & HM).
  assert (Hnow : ∀ a, a ∈ arcs sc → depending dir a ≠ start_node sc dir).
  { intros a Ha. pose proof (wf_arcs sc Hwf a Ha). pose proof (wf_s sc Hwf).
    destruct dir; simpl; lia. }
  assert (Hst : (start_node sc dir ≤ t sc)%nat).
  { pose proof (wf_s sc Hwf). destruct dir; simpl; lia. }
  assert (rc_avlist (schedule_init sc dir rm) = [start_node sc dir]) as Hav
    by (by destruct dir).
  assert (∀ x, is_scheduled (rc_scheduled (schedule_init sc dir rm)) x = false) as Hsch.
  { intros x. destruct dir; apply is_scheduled_init. }
  split.
  - destruct dir; simpl; by rewrite length_set_cyc.
  - destruct dir; simpl; lia.
  - intros x Hx. by rewrite Hsch in Hx.
  - intros a _ Hx. by rewrite Hsch in Hx.
  - intros x Hx. rewrite Hav in Hx. apply list_elem_of_singleton in Hx as ->.
    split_and!; [done|done|]. intros a Ha Hd. by destruct (Hnow a Ha).
  - intros x Hx _ Hconn Hwait. rewrite Hav. apply list_elem_of_singleton.
    destruct Hconn as [->|(a & Ha & Hd)]; [done|].
    specialize (Hwait a Ha Hd). by rewrite Hsch in Hwait.
Qed.

(** When the loop ends, at most [fuel] rounds have passed and the
    available list is empty. *)
Lemma schedule_loop_inv fuel k (st st' : rc_state R) :
  0 ≤ k → k + Z.of_nat fuel + W ≤ ALAP_SINK_CYCLE →
  rc_inv sc dir k st →
  schedule_loop fuel sc dir platform st = Returns st' →
  ∃ k', 0 ≤ k' ≤ k + Z.of_nat fuel ∧ rc_inv sc dir k' st' ∧ rc_avlist st' = [].
Proof.
  revert k st. induction fuel as [|fuel IH]; intros k st Hk0 Hk Hinv; simpl.
  - destruct (rc_avlist st) eqn:Hav; [|done]. intros [= <-]. exists k.
    split_and!; [lia|lia|done|done].
  - destruct (rc_avlist st) eqn:Hav.
    + intros [= <-]. exists k. split_and!; [lia|lia|done|done].
    + intros Hrun. apply (IH (k + 1)) in Hrun as (k' & Hk' & Hinv' & Hav'); [|lia|lia|].
      * exists k'. split_and!; [lia|lia|done|done].
      * apply (schedule_step_inv sc W dir platform Hok Hwf Hfit); [done|lia|done].
Qed.

(** With nothing available, every node that arcs touch is scheduled. *)
Lemma rc_all_scheduled k (st : rc_state R) x :
  rc_inv sc dir k st → rc_avlist st = [] →
  (x ≤ t sc)%nat → (x = start_node sc dir ∨ ∃ a, a ∈ arcs sc ∧ depending dir a = x) →
  is_scheduled (rc_scheduled st) x = true.
Proof.
  intros Hinv Hav.
  remember (match dir with forward_scheduling => x | backward_scheduling => t sc - x end)%nat
    as r eqn:Hr.
  revert x Hr. induction r as [r IH] using lt_wf_ind. intros x Hr Hx Hconn.
  destruct (is_scheduled (rc_scheduled st) x) eqn:Hs; [done|]. exfalso.
  assert (x ∈ rc_avlist st) as Hin; [|rewrite Hav in Hin; by apply elem_of_nil in Hin].
  apply (rc_complete sc dir k st Hinv); [done..|].
  intros a Ha Hd. pose proof (wf_arcs sc Hwf a Ha) as Hlt.
  eapply IH; [|done| |].
  - subst r. destruct dir; simpl in *; lia.
  - destruct dir; simpl in *; lia.
  - destruct dir; simpl in *.
    + destruct (decide (a_src a = s sc)) as [?|Hne]; [by left|right].
      destruct (wf_in sc Hwf a Ha Hne) as (a' & Ha' & Heq). eauto.
    + destruct (decide (a_tgt a = t sc)) as [?|Hne]; [by left|right].
      destruct (wf_out sc Hwf a Ha Hne) as (a' & Ha' & Heq). eauto.
Qed.

(** Hence every arc is honoured, and the cycles are cycles the run passed. *)
Lemma rc_final_honoured k (st : rc_state R) a :
  rc_inv sc dir k st → rc_avlist st = [] → a ∈ arcs sc → honours (rc_ins st) a.
Proof.
  intros Hinv Hav Ha.
  apply (rc_sched sc dir k st Hinv a Ha).
  apply (rc_all_scheduled k); [done..| |].
  - pose proof (wf_arcs sc Hwf a Ha). destruct dir; simpl; lia.
  - right. eauto.
Qed.

Lemma rc_final_cycle k (st : rc_state R) a :
  rc_inv sc dir k st → rc_avlist st = [] → a ∈ arcs sc →
  cycle_within dir (rc_curr_cycle st) (cyc (rc_ins st) (a_src a)) ∧
  cycle_within dir (rc_curr_cycle st) (cyc (rc_ins st) (a_tgt a)).
Proof.
  intros Hinv Hav Ha.
  assert (is_scheduled (rc_scheduled st) (depending dir a) = true) as Hs.
  { apply (rc_all_scheduled k); [done..| |].
    - pose proof (wf_arcs sc Hwf a Ha). destruct dir; simpl; lia.
    - right. eauto. }
  destruct (rc_sched sc dir k st Hinv a Ha Hs) as [Hs' _].
  apply (rc_sched_cycle sc dir k st Hinv) in Hs as [_ Hs].
  apply (rc_sched_cycle sc dir k st Hinv) in Hs' as [_ Hs'].
  destruct dir; simpl in *; done.
Qed.
End schedule_run_proofs.

(** ** The runs of the list scheduler *)

Section rc_schedule.
Context `{Decls} {R : Type} `{resource_manager_t R}.
Variables (sc : Scheduler) (W : Z) (platform : quantum_platform).
Hypothesis Hok : decls_ok.
Hypothesis Hwf : wf_sched sc.
Hypothesis Hfit : weights_fit sc W.

(** What a run that returns leaves in the scheduler. *)
Lemma schedule_returns fuel dir (rm : R) sc' rm' :
  schedule fuel sc dir platform rm = Returns (sc', rm') →
  (∃ st, schedule_loop fuel (set_remaining dir sc) dir platform (schedule_init sc dir rm)
         = Returns st) ∧
  arcs sc' = arcs sc ∧ s sc' = s sc ∧ t sc' = t sc ∧ circp sc' ≡ₚ circp sc ∧
  instruction sc' = match dir with
                    | forward_scheduling => rc_cycles fuel sc dir platform rm
                    | backward_scheduling =>
                        readjust sc' (rc_cycles fuel sc dir platform rm)
                    end.
Proof.
  unfold schedule, rc_cycles.
  destruct (schedule_loop _ _ _ _ _) as [st|] eqn:Hloop; [|done].
  intros [= <- <-]. split; [by exists st|].
  destruct (set_remaining_fields dir sc) as (Ha & Hi & Hc & Hs & Ht & _).
  destruct dir; cbn -[stable_sort]; split_and!; try done; apply stable_sort_Permutation.
Qed.

(** The cycles at the end of the loop honour every arc, and lie between
    the cycle the run started at and the cycle it ended at. *)
Lemma rc_cycles_spec fuel dir (rm : R) sc' rm' :
  Z.of_nat fuel + W ≤ ALAP_SINK_CYCLE →
  schedule fuel sc dir platform rm = Returns (sc', rm') →
  length (rc_cycles fuel sc dir platform rm) = length (instruction sc) ∧
  ∀ a, a ∈ arcs sc →
    honours (rc_cycles fuel sc dir platform rm) a ∧
    0 ≤ cyc (rc_cycles fuel sc dir platform rm) (a_src a) ≤ ALAP_SINK_CYCLE ∧
    0 ≤ cyc (rc_cycles fuel sc dir platform rm) (a_tgt a) ≤ ALAP_SINK_CYCLE.
Proof.
  intros Hfuel Hrun. apply schedule_returns in Hrun as ((st & Hloop) & _).
  unfold rc_cycles. rewrite Hloop.
  pose proof (set_remaining_wf dir sc Hwf) as Hwf'.
  pose proof (set_remaining_fit dir sc W Hfit) as Hfit'.
  rewrite <- (schedule_init_set_remaining dir sc rm) in Hloop.
  destruct (schedule_loop_inv _ W dir platform Hok Hwf' Hfit' fuel 0 _ st
              ltac:(done) ltac:(lia) (schedule_init_inv _ dir Hok Hwf' rm) Hloop)
    as (k' & Hk' & Hinv & Hav).
  destruct (set_remaining_fields dir sc) as (Ha & Hi & _).
  split; [rewrite (rc_len _ dir k' st Hinv); by rewrite Hi|].
  intros a Hin. rewrite <- Ha in Hin.
  split; [by apply (rc_final_honoured _ dir Hwf' k')|].
  destruct (rc_final_cycle _ dir Hwf' k' st a Hinv Hav Hin) as [H1 H2].
  pose proof (rc_curr _ dir k' st Hinv) as Hc.
  destruct Hfit as (_ & HW0 & _). destruct Hok as (HA0 & HAM & HM).
  destruct dir; simpl in *; lia.
Qed.

(** The forward list scheduler honours the dependences. *)
Lemma schedule_asap_rc_honoured fuel (rm : R) sc' rm' :
  Z.of_nat fuel + W ≤ ALAP_SINK_CYCLE →
  schedule_asap_rc fuel sc rm platform = Returns (sc', rm') → honoured sc'.
Proof.
  intros Hfuel Hrun. unfold schedule_asap_rc in Hrun.
  destruct (rc_cycles_spec fuel _ rm sc' rm' Hfuel Hrun) as [_ Hspec].
  apply schedule_returns in Hrun as (_ & Ha & _ & _ & _ & Hi).
  intros a Hin. rewrite Hi. rewrite Ha in Hin. by apply Hspec.
Qed.

(** The backward list scheduler moves the cycles down by SOURCE's. *)
Lemma schedule_alap_rc_shift fuel (rm : R) sc' rm' x :
  Z.of_nat fuel + W ≤ ALAP_SINK_CYCLE →
  schedule_alap_rc fuel sc rm platform = Returns (sc', rm') →
  (x ≤ t sc)%nat →
  cyc (instruction sc') x
  = wrap64 (cyc (rc_cycles fuel sc backward_scheduling platform rm) x
            - cyc (rc_cycles fuel sc backward_scheduling platform rm) (s sc)).
Proof.
  intros Hfuel Hrun Hx. unfold schedule_alap_rc in Hrun.
  destruct (rc_cycles_spec fuel _ rm sc' rm' Hfuel Hrun) as [Hlen _].
  apply schedule_returns in Hrun as (_ & Ha & Hs & Ht & Hc & Hi).
  rewrite Hi, <- Hs.
  set (pre := rc_cycles _ _ _ _ _) in *.
  assert (∀ y, y ∈ nodes sc' ↔ y ∈ nodes sc) as Hnodes.
  { intros y. unfold nodes. rewrite Hs, Ht. by rewrite !elem_of_cons, !elem_of_app, Hc. }
  destruct (readjust_nodes sc' pre) as (_ & _ & Hn & _).
  - rewrite Hc. apply (wf_NoDup_circp sc Hwf).
  - rewrite Hc, Hs. apply (wf_s_not_circp sc Hwf).
  - rewrite Hc, Ht. apply (wf_t_not_circp sc Hwf).
  - rewrite Hs, Ht. apply (wf_s_ne_t sc Hwf).
  - intros y Hy%Hnodes. rewrite Hlen. by apply (wf_nodes_lt sc Hwf).
  - apply Hn, Hnodes, (wf_elem_of_nodes sc Hwf), Hx.
Qed.

(** It honours the dependences. *)
Lemma schedule_alap_rc_honoured fuel (rm : R) sc' rm' :
  Z.of_nat fuel + W ≤ ALAP_SINK_CYCLE →
  schedule_alap_rc fuel sc rm platform = Returns (sc', rm') → honoured sc'.
Proof.
  intros Hfuel Hrun a Hin. unfold honours.
  pose proof (wf_s sc Hwf) as Hs0.
  assert (arcs sc' = arcs sc) as Ha
    by (unfold schedule_alap_rc in Hrun; by apply schedule_returns in Hrun as (_ & ? & _)).
  rewrite Ha in Hin. pose proof (wf_arcs sc Hwf a Hin) as Hlt.
  rewrite !(schedule_alap_rc_shift fuel rm sc' rm') by (done || lia).
  destruct (rc_cycles_spec fuel _ rm sc' rm' Hfuel Hrun) as [_ Hspec].
  set (pre := rc_cycles _ _ _ _ _) in *.
  destruct (honoured_from_source sc Hwf pre a (λ a Ha, proj1 (Hspec a Ha)) Hin) as [H1 H2].
  destruct (Hspec a Hin) as (Hh & Hr1 & Hr2). unfold honours in Hh.
  destruct Hok as (HA0 & HAM & HM).
  assert (0 ≤ cyc pre (s sc) ≤ ALAP_SINK_CYCLE) as Hsr.
  { destruct (wf_source_left sc Hwf) as (a' & Ha' & Hsrc).
    - intros Hnil. rewrite Hnil in Hin. by apply elem_of_nil in Hin.
    - destruct (Hspec a' Ha') as (_ & Hr & _). by rewrite Hsrc in Hr. }
  rewrite !wrap64_small by lia. lia.
Qed.
End rc_schedule.

(** ** Every pass honours the dependences *)

(** C1.  Whatever pass produces the schedule, ASAP, ALAP, the uniform
    pass, or the list scheduler with resource constraints in either
    direction, the cycles it leaves in the gates honour every arc of the
    dependence graph: [u.cycle + w <= v.cycle] for an arc from [u] to
    [v] of weight [w].  For the list scheduler this holds of every run
    that returns within the cycles available below SINK's ALAP start
    cycle. *)
Theorem dependences_honoured `{Decls} {R : Type} `{resource_manager_t R}
    (sc : Scheduler) (W : Z) (platform : quantum_platform) (rm : R) (fuel : nat) :
  decls_ok → wf_sched sc → weights_fit sc W →
  Z.of_nat fuel + W ≤ ALAP_SINK_CYCLE →
  let honoured_by sc' := ∀ a, a ∈ arcs sc → honours (instruction sc') a in
  honoured_by (schedule_asap sc) ∧
  honoured_by (schedule_alap sc) ∧
  honoured_by (schedule_alap_uniform sc) ∧
  (∀ sc' rm', schedule_asap_rc fuel sc rm platform = Returns (sc', rm') → honoured_by sc') ∧
  (∀ sc' rm', schedule_alap_rc fuel sc rm platform = Returns (sc', rm') → honoured_by sc').
Proof.
  intros Hok Hwf Hfit Hfuel honoured_by. unfold honoured_by. split_and!.
  - intros a Ha. by apply (set_cycle_forward_honoured sc W Hok Hwf Hfit).
  - intros a Ha. by apply (set_cycle_backward_honoured sc W Hok Hwf Hfit).
  - intros a Ha.
    destruct (uniform_inv_final sc W Hok Hwf Hfit) as (st & -> & (_ & _ & Hh & _)).
    by apply Hh.
  - intros sc' rm' Hrun a Ha.
    apply (schedule_asap_rc_honoured sc W platform Hok Hwf Hfit fuel rm sc' rm' Hfuel Hrun).
    unfold schedule_asap_rc in Hrun.
    apply schedule_returns in Hrun as (_ & -> & _). done.
  - intros sc' rm' Hrun a Ha.
    apply (schedule_alap_rc_honoured sc W platform Hok Hwf Hfit fuel rm sc' rm' Hfuel Hrun).
    unfold schedule_alap_rc in Hrun.
    apply schedule_returns in Hrun as (_ & -> & _). done.
Qed.

(** ** The cycles of ALAP are moved down to SOURCE's *)

Section alap_shift.
Context `{Decls}.
Variables (sc : Scheduler) (W : Z).
Hypothesis Hok : decls_ok.
Hypothesis Hwf : wf_sched sc.
Hypothesis Hfit : weights_fit sc W.
Hypothesis Hne : arcs sc ≠ [].

(** Before the cycles are moved down, SOURCE has the least cycle. *)
Lemma alap_cycles_source_least x :
  (x ≤ t sc)%nat → cyc (alap_cycles sc) (s sc) ≤ cyc (alap_cycles sc) x.
Proof.
  intros Hx.
  destruct (alap_cycles_inv sc W Hok Hwf Hfit) as (_ & Hb & Hh & Htight).
  destruct Hok as (HA0 & HAM & HM).
  destruct (wf_source_left sc Hwf Hne) as (a0 & Ha0 & Hs0).
  assert (cyc (alap_cycles sc) (s sc) ≤ ALAP_SINK_CYCLE) as Hs.
  { destruct (honoured_to_sink sc Hwf (alap_cycles sc) a0
                (alap_cycles_honoured sc W Hok Hwf Hfit) Ha0) as [H1 _].
    rewrite Hs0 in H1. by rewrite (alap_cycles_sink sc Hwf) in H1. }
  destruct (Htight x Hx) as [->|[->|(a & Ha & <- & _)]].
  - by rewrite (alap_cycles_sink sc Hwf).
  - lia.
  - by apply (honoured_from_source sc Hwf (alap_cycles sc) a
                (alap_cycles_honoured sc W Hok Hwf Hfit)).
Qed.

(** The backward pass of [set_cycle] takes SOURCE's cycle off every
    node's, and no subtraction wraps around. *)
Lemma set_cycle_backward_shift x :
  (x ≤ t sc)%nat →
  cyc (instruction (set_cycle backward_scheduling sc)) x
  = cyc (alap_cycles sc) x - cyc (alap_cycles sc) (s sc) ∧
  0 ≤ cyc (instruction (set_cycle backward_scheduling sc)) x.
Proof.
  intros Hx. rewrite (set_cycle_backward_eq sc).
  destruct (readjust_spec sc Hwf (alap_cycles sc)) as (_ & _ & Hn & _).
  { by destruct (alap_cycles_inv sc W Hok Hwf Hfit) as (? & _). }
  rewrite Hn by by apply (wf_elem_of_nodes sc Hwf).
  pose proof (alap_cycles_source_least x Hx).
  pose proof (alap_cycles_range sc W Hok Hwf Hfit x Hx).
  pose proof (alap_cycles_range sc W Hok Hwf Hfit (s sc)
                ltac:(rewrite (wf_s sc Hwf); lia)).
  destruct Hok as (HA0 & HAM & HM).
  rewrite wrap64_small by lia. lia.
Qed.

(** SINK ends at the depth of the circuit. *)
Lemma set_cycle_backward_sink :
  cyc (instruction (set_cycle backward_scheduling sc)) (t sc) = circuit_depth sc.
Proof.
  destruct (set_cycle_backward_shift (t sc) ltac:(done)) as [-> _].
  rewrite (alap_cycles_sink sc Hwf). by apply (alap_depth sc W).
Qed.
End alap_shift.

Section alap_rc_shift.
Context `{Decls} {R : Type} `{resource_manager_t R}.
Variables (sc : Scheduler) (W : Z) (platform : quantum_platform).
Hypothesis Hok : decls_ok.
Hypothesis Hwf : wf_sched sc.
Hypothesis Hfit : weights_fit sc W.
Hypothesis Hne : arcs sc ≠ [].

(** The backward list scheduler: the nodes that arcs touch lie between
    SOURCE and SINK, no subtraction wraps around for them, and the
    schedule is no shorter than the depth of the circuit. *)
Lemma schedule_alap_rc_readjusted fuel (rm : R) sc' rm' :
  Z.of_nat fuel + W ≤ ALAP_SINK_CYCLE →
  schedule_alap_rc fuel sc rm platform = Returns (sc', rm') →
  let pre := rc_cycles fuel sc backward_scheduling platform rm in
  let post := instruction sc' in
  cyc post (s sc) = 0 ∧
  (∀ a x, a ∈ arcs sc → x = a_src a ∨ x = a_tgt a →
          cyc post x = cyc pre x - cyc pre (s sc) ∧ 0 ≤ cyc post x ≤ cyc post (t sc)) ∧
  cyc post (t sc) = cyc pre (t sc) - cyc pre (s sc) ∧
  circuit_depth sc ≤ cyc post (t sc).
Proof.
  intros Hfuel Hrun pre post.
  pose proof (schedule_alap_rc_shift sc W platform Hok Hwf Hfit fuel rm sc' rm') as Hshift.
  destruct (rc_cycles_spec sc W platform Hok Hwf Hfit fuel _ rm sc' rm' Hfuel Hrun)
    as [_ Hspec].
  fold pre in Hspec, Hshift. fold post in Hshift.
  pose proof (wf_s sc Hwf) as Hs0.
  assert (Hh : ∀ a, a ∈ arcs sc → honours pre a) by (intros a Ha; by apply Hspec).
  destruct (wf_source_left sc Hwf Hne) as (a0 & Ha0 & Hsrc0).
  destruct (wf_sink_reached sc Hwf Hne) as (a1 & Ha1 & Htgt1).
  destruct Hok as (HA0 & HAM & HM).
  assert (0 ≤ cyc pre (s sc) ≤ ALAP_SINK_CYCLE) as Hsr.
  { destruct (Hspec a0 Ha0) as (_ & Hr & _). by rewrite Hsrc0 in Hr. }
  assert (0 ≤ cyc pre (t sc) ≤ ALAP_SINK_CYCLE) as Htr.
  { destruct (Hspec a1 Ha1) as (_ & _ & Hr). by rewrite Htgt1 in Hr. }
  assert (cyc pre (s sc) ≤ cyc pre (t sc)) as Hst.
  { destruct (honoured_from_source sc Hwf pre a1 Hh Ha1) as [_ H1]. by rewrite Htgt1 in H1. }
  assert (Ht : cyc post (t sc) = cyc pre (t sc) - cyc pre (s sc)).
  { rewrite Hshift by done. rewrite wrap64_small; lia. }
  split_and!.
  - rewrite Hshift by (done || lia). by rewrite Z.sub_diag.
  - intros a x Ha Hx. pose proof (wf_arcs sc Hwf a Ha) as Hlt.
    destruct (honoured_from_source sc Hwf pre a Hh Ha) as [H1 H2].
    destruct (honoured_to_sink sc Hwf pre a Hh Ha) as [H3 H4].
    destruct (Hspec a Ha) as (_ & Hr1 & Hr2).
    rewrite Ht.
    destruct Hx as [-> | ->]; (rewrite Hshift by (done || lia));
      rewrite wrap64_small by lia; lia.
  - done.
  - rewrite Ht.
    apply (asap_least sc W (conj HA0 (conj HAM HM)) Hwf Hfit pre (t sc) Hh); [done|].
    right. eauto.
Qed.
End alap_rc_shift.

(** C4.  After ALAP cycle assignment the cycle SOURCE had has been taken
    off every node's cycle.  For the backward pass of [set_cycle]: no
    subtraction wraps around, SOURCE ends at cycle 0, no cycle is
    negative, and SINK ends at the depth of the circuit, the length of
    its longest chain of dependences.  For the backward list scheduler
    with resource constraints, of every run that returns within the
    cycles available: the subtraction is the one of [size_t], SOURCE ends
    at 0, the nodes that arcs touch have their cycle moved down exactly
    and end between 0 and SINK's cycle, and SINK's cycle, the depth of
    the circuit as scheduled, is the distance the run left between
    SOURCE and SINK, never less than the length of the longest chain. *)
Theorem alap_readjusted `{Decls} {R : Type} `{resource_manager_t R}
    (sc : Scheduler) (W : Z) (platform : quantum_platform) (rm : R) (fuel : nat) :
  decls_ok → wf_sched sc → weights_fit sc W → arcs sc ≠ [] →
  Z.of_nat fuel + W ≤ ALAP_SINK_CYCLE →
  (let pre := alap_cycles sc in
   let post := instruction (set_cycle backward_scheduling sc) in
   (∀ x, (x ≤ t sc)%nat → cyc post x = cyc pre x - cyc pre (s sc) ∧ 0 ≤ cyc post x) ∧
   cyc post (s sc) = 0 ∧
   cyc post (t sc) = circuit_depth sc) ∧
  (∀ sc' rm', schedule_alap_rc fuel sc rm platform = Returns (sc', rm') →
     let pre := rc_cycles fuel sc backward_scheduling platform rm in
     let post := instruction sc' in
     (∀ x, (x ≤ t sc)%nat →
           cyc post x = wrap64 (cyc pre x - cyc pre (s sc)) ∧ 0 ≤ cyc post x) ∧
     cyc post (s sc) = 0 ∧
     (∀ a x, a ∈ arcs sc → x = a_src a ∨ x = a_tgt a →
             cyc post x = cyc pre x - cyc pre (s sc) ∧ 0 ≤ cyc post x ≤ cyc post (t sc)) ∧
     cyc post (t sc) = cyc pre (t sc) - cyc pre (s sc) ∧
     circuit_depth sc ≤ cyc post (t sc)).
Proof.
  intros Hok Hwf Hfit Hne Hfuel. split.
  - intros pre post. split_and!.
    + intros x Hx. by apply (set_cycle_backward_shift sc W).
    + destruct (set_cycle_backward_shift sc W Hok Hwf Hfit Hne (s sc)) as [Hs _].
      { rewrite (wf_s sc Hwf). lia. }
      unfold post. rewrite Hs. lia.
    + by apply (set_cycle_backward_sink sc W).
  - intros sc' rm' Hrun pre post.
    destruct (schedule_alap_rc_readjusted sc W platform Hok Hwf Hfit Hne fuel rm sc' rm'
                Hfuel Hrun) as (H1 & H2 & H3 & H4).
    split_and!; [|done..].
    intros x Hx.
    pose proof (schedule_alap_rc_shift sc W platform Hok Hwf Hfit fuel rm sc' rm' x
                  Hfuel Hrun Hx) as Hshift.
    split; [done|]. unfold post. rewrite Hshift. apply wrap64_range.
Qed.

(** ** What [init] builds *)

(** A loop whose body preserves an invariant and establishes, for the
    element it handles, a property that later iterations keep. *)
Lemma for_each_post {A S} (P : S → Prop) (Q : A → S → Prop)
    (f : A → S → result S) l st st' :
  (∀ x st st', P st → f x st = Ok st' → P st' ∧ Q x st') →
  (∀ x y st st', P st → Q x st → f y st = Ok st' → Q x st') →
  P st → for_each f l st = Ok st' → P st' ∧ ∀ x, x ∈ l → Q x st'.
Proof.
  intros Hf Hstable. revert st. induction l as [|x l IH]; intros st HP Hr; simpl in *.
  - simplify_eq. split; [done|]. intros x []%elem_of_nil.
  - apply bind_Ok_inv in Hr as (st1 & H1 & H2).
    destruct (Hf x st st1 HP H1) as [HP1 HQ1].
    destruct (IH st1 HP1 H2) as [HP' HQ']. split; [done|].
    intros y [->|Hy]%elem_of_cons; [|by apply HQ'].
    clear IH HQ' H1 HP. revert st1 HP1 HQ1 H2.
    induction l as [|z l IH]; intros st1 HP1 HQ1 H2; simpl in *.
    + by simplify_eq.
    + apply bind_Ok_inv in H2 as (st2 & H2 & H3).
      destruct (Hf z st1 st2 HP1 H2) as [HP2 _].
      apply (IH st2); [done| |done].
      exact (Hstable x z st1 st2 HP1 HQ1 H2).
Qed.

Lemma for_each_fmap {A B S} (f : B → S → result S) (g : A → B) l st :
  for_each f (g <$> l) st = for_each (λ x, f (g x)) l st.
Proof.
  revert st. induction l as [|x l IH]; intros st; simpl; [done|].
  destruct (f (g x) st); simpl; auto.
Qed.

Lemma result_bind_assoc {A B C} (m : result A) (f : A → result B) (g : B → result C) :
  (m ≫= f) ≫= g = m ≫= (λ a, f a ≫= g).
Proof. by destruct m. Qed.

Section builder.
Context `{Decls}.
Variables (ins : list gate) (ct : Z) (commute : string) (consID : nat).

Lemma elem_of_slots b q x :
  x ∈ slots b q ↔ x ∈ slotW b q ∨ x ∈ slotR b q ∨ x ∈ slotD b q.
Proof. unfold slots. by rewrite !elem_of_app. Qed.

(** The dependences of one access: arcs to the new node from nodes the
    bookkeeping of the operand holds, at least one, and one from every
    node the update for this access will drop. *)
Lemma dep_of_spec k q b b' :
  dep_of ins ct commute consID k q b = Ok b' →
  LastWriter b' = LastWriter b ∧ LastReaders b' = LastReaders b ∧ LastDs b' = LastDs b ∧
  (q < length (LastWriter b))%nat ∧
  (∀ a, a ∈ b_arcs b → a ∈ b_arcs b') ∧
  (∀ a, a ∈ b_arcs b' →
        a ∈ b_arcs b ∨
        (a_tgt a = consID ∧ a_src a ∈ slots b q ∧
         weight a = duration_in_cycles (dur ins (a_src a)) ct)) ∧
  (∃ a, a ∈ b_arcs b' ∧ a_tgt a = consID) ∧
  (∀ x, x ∈ removed k b q → ∃ a, a ∈ b_arcs b' ∧ a_src a = x ∧ a_tgt a = consID).
Proof.
  intros Hdep.
  assert (∃ w, LastWriter b !! q = Some w) as [w Hw].
  { destruct k; simpl in Hdep; unfold dep_W, dep_W_creg_measure, dep_R_cnot, dep_D_cnot,
      dep_R_cz, vec_get in Hdep; destruct (LastWriter b !! q); eauto; done. }
  assert (∃ rs, LastReaders b !! q = Some rs) as [rs Hrs].
  { destruct k; simpl in Hdep; unfold dep_W, dep_W_creg_measure, dep_R_cnot, dep_D_cnot,
      dep_R_cz, vec_get in Hdep; rewrite Hw in Hdep; simpl in Hdep;
      destruct (LastReaders b !! q); eauto; done. }
  assert (Hsw : slotW b q = [w]) by (unfold slotW; by rewrite Hw).
  assert (Hsr : slotR b q = rs) by (unfold slotR; by rewrite Hrs).
  assert (Hlt : (q < length (LastWriter b))%nat) by (by eapply lookup_lt_Some).
  assert (Hslots : ∀ x, x ∈ slots b q ↔ x = w ∨ x ∈ rs ∨ x ∈ slotD b q).
  { intros x. rewrite elem_of_slots, Hsw, Hsr, list_elem_of_singleton. done. }
  destruct k; simpl in Hdep; simpl removed;
    unfold dep_W, dep_W_creg_measure, dep_R_cnot, dep_D_cnot, dep_R_cz, vec_get in Hdep;
    rewrite Hw, Hrs in Hdep; simpl in Hdep;
    try (destruct (LastDs b !! q) as [ds|] eqn:Hds; [|done]; simpl in Hdep;
         assert (Hsd : slotD b q = ds) by (unfold slotD; by rewrite Hds);
         rewrite Hsd in *);
    injection Hdep as <-; simpl;
    (split_and!; [done|done|done|done|..]).
  all: destruct (String.eqb commute "no").
  all: unfold add_dep.
  all: try (intros a Ha; repeat first [rewrite elem_of_add_deps|rewrite elem_of_cons]; tauto).
  all: try (intros a; repeat first [rewrite elem_of_add_deps|rewrite elem_of_cons];
            rewrite Hslots; simpl;
            intros Ha; decompose [or ex and] Ha; subst; simpl; tauto).
  all: try (eexists; repeat first [rewrite elem_of_add_deps|rewrite elem_of_cons];
            split; [first [left; left; left; reflexivity
                          |left; left; reflexivity
                          |left; reflexivity
                          |right; left; reflexivity
                          |left; right; left; reflexivity]|done]).
  all: intros x; rewrite ?Hslots, ?elem_of_app, ?Hsw, ?Hsr, ?list_elem_of_singleton;
       intros Hx; decompose [or] Hx; subst;
       eexists; repeat first [rewrite elem_of_add_deps|rewrite elem_of_cons];
       (split; [|shelve]); eauto 8.
  Unshelve. all: done.
Qed.

(** The update for one access: the bookkeeping of the operand now holds
    the new node, and has dropped nothing else than [removed] says. *)
Lemma upd_of_spec k q b :
  (q < length (LastWriter b))%nat →
  length (LastReaders b) = length (LastWriter b) →
  length (LastDs b) = length (LastWriter b) →
  let b' := upd_of consID k q b in
  b_arcs b' = b_arcs b ∧
  length (LastWriter b') = length (LastWriter b) ∧
  length (LastReaders b') = length (LastReaders b) ∧
  length (LastDs b') = length (LastDs b) ∧
  (∀ q', q' ≠ q →
         slotW b' q' = slotW b q' ∧ slotR b' q' = slotR b q' ∧ slotD b' q' = slotD b q') ∧
  (∀ x, x ∈ slotW b' q → x = consID ∨ x ∈ slotW b q) ∧
  (∀ x, x ∈ slotR b' q → x = consID ∨ x ∈ slotR b q) ∧
  (∀ x, x ∈ slotD b' q → x = consID ∨ x ∈ slotD b q) ∧
  consID ∈ slots b' q ∧
  (∀ x, x ∈ slots b q → x ∈ slots b' q ∨ x ∈ removed k b q).
Proof.
  intros Hq Hlr Hld b'.
  assert (Hqr : (q < length (LastReaders b))%nat) by lia.
  assert (Hqd : (q < length (LastDs b))%nat) by lia.
  subst b'. destruct k; simpl; unfold upd_W, upd_W_creg_measure, upd_R, upd_D, upd_R_cz;
    unfold slots, slotW, slotR, slotD; simpl;
    rewrite ?length_insert, ?list_lookup_insert_eq by done; simpl;
    (split_and!; [done|done|done|done|..]).
  all: try (intros q' Hq'; by rewrite ?list_lookup_insert_ne by done).
  all: try (intros x; rewrite ?elem_of_app, ?elem_of_nil, ?list_elem_of_singleton; tauto).
  all: try intros x; rewrite ?elem_of_app, ?elem_of_cons, ?list_elem_of_singleton; tauto.
Qed.

Lemma elem_of_removed k b q x : x ∈ removed k b q → x ∈ slots b q.
Proof. destruct k; simpl; rewrite elem_of_slots, ?elem_of_app; tauto. Qed.

(** What the updates of the accesses of [l] make of the bookkeeping, the
    nodes they drop being the new node or the source of an arc. *)
Lemma upd_phase n l b1 b' :
  length (LastWriter b1) = n ∧ length (LastReaders b1) = n ∧ length (LastDs b1) = n →
  (∀ kq, kq ∈ l →
         (kq.2 < n)%nat ∧
         ∀ x, x ∈ removed kq.1 b1 kq.2 → x = consID ∨ ∃ a, a ∈ b_arcs b1 ∧ a_src a = x) →
  for_each (λ kq b, Ok (upd_of consID kq.1 kq.2 b)) l b1 = Ok b' →
  b_arcs b' = b_arcs b1 ∧
  (length (LastWriter b') = n ∧ length (LastReaders b') = n ∧ length (LastDs b') = n) ∧
  (∀ x, held b' x → x = consID ∨ held b1 x) ∧
  (∀ x, held b1 x → held b' x ∨ ∃ a, a ∈ b_arcs b1 ∧ a_src a = x) ∧
  (l ≠ [] → held b' consID).
Proof.
  revert b1. induction l as [|[k q] l IH]; intros b1 (Hlw & Hlr & Hld) Hl Hrun; simpl in Hrun.
  - simplify_eq. split_and!; try done; auto.
  - destruct (Hl (k, q) ltac:(by left)) as [Hq Hrem]. cbn [fst snd] in *.
    destruct (upd_of_spec k q b1) as (Ha & Hlw' & Hlr' & Hld' & Hother & HW & HR & HD & Hnew & Hold);
      [lia..|].
    set (b2 := upd_of consID k q b1) in *.
    assert (Hsub : ∀ q' x, x ∈ slots b2 q' → x = consID ∨ x ∈ slots b1 q').
    { intros q' x. destruct (decide (q' = q)) as [->|Hne].
      - rewrite !elem_of_slots. intros [?%HW|[?%HR|?%HD]]; tauto.
      - destruct (Hother q' Hne) as (HW' & HR' & HD'). unfold slots.
        rewrite HW', HR', HD'. auto. }
    assert (Hsubr : ∀ k' q' x, x ∈ removed k' b2 q' → x = consID ∨ x ∈ removed k' b1 q').
    { intros k' q' x. destruct (decide (q' = q)) as [->|Hne].
      - destruct k'; simpl; rewrite ?elem_of_slots, ?elem_of_app;
          intros Hx; decompose [or] Hx;
          repeat match goal with
                 | H : _ ∈ slotW b2 q |- _ => apply HW in H
                 | H : _ ∈ slotR b2 q |- _ => apply HR in H
                 | H : _ ∈ slotD b2 q |- _ => apply HD in H
                 end; tauto.
      - destruct (Hother q' Hne) as (HW' & HR' & HD').
        destruct k'; simpl; unfold slots; rewrite ?HW', ?HR', ?HD'; auto. }
    destruct (IH b2) as (Ha' & Hlen' & Hheld' & Hkeep' & _); [lia| |done|].
    { intros [k' q'] Hin. destruct (Hl (k', q') ltac:(by right)) as [Hq' Hrem'].
      cbn [fst snd] in *. split; [done|]. intros x [->|Hx]%Hsubr; [by left|].
      rewrite Ha. by apply Hrem'. }
    assert (held b' consID) as Hc.
    { destruct (Hkeep' consID) as [?|(a & Ha1 & Ha2)]; [by exists q|done|].
      destruct l as [|kq l]; [simpl in Hrun; simplify_eq; by exists q|].
      destruct (IH b2) as (_ & _ & _ & _ & Hc); [lia| |done|by apply Hc].
      intros [k' q'] Hin. destruct (Hl (k', q') ltac:(by right)) as [Hq' Hrem'].
      cbn [fst snd] in *. split; [done|]. intros x [->|Hx]%Hsubr; [by left|].
      rewrite Ha. by apply Hrem'. }
    split; [by rewrite Ha'|]. split; [done|]. split_and!.
    + intros x [->|(q' & Hx)]%Hheld'; [by left|].
      apply Hsub in Hx as [->|Hx]; [by left|]. right. by exists q'.
    + intros x (q' & Hx).
      destruct (decide (q' = q)) as [->|Hne].
      * apply Hold in Hx as [Hx|Hx].
        -- rewrite <- Ha, <- Ha'. rewrite Ha'. apply Hkeep'. by exists q.
        -- apply Hrem in Hx as [->|?]; [by left|by right].
      * rewrite <- Ha. apply Hkeep'. exists q'.
        destruct (Hother q' Hne) as (HW' & HR' & HD'). unfold slots.
        by rewrite HW', HR', HD'.
    + done.
Qed.

Lemma binv_mono n N N' b : (N ≤ N')%nat → binv ins ct n N b → binv ins ct n N' b.
Proof.
  intros HN [Hl Ha Hi Ho Hh]. split; try done.
  - intros a Hin. destruct (Ha a Hin). split; [lia|done].
  - intros x Hx. destruct (Hh x Hx). split; [lia|done].
Qed.

(** The two loops for the accesses of a gate keep the invariant. *)
Lemma phase_binv n l b b' :
  binv ins ct n (Datatypes.S consID) b →
  phase ins ct commute consID l b = Ok b' →
  binv ins ct n (Datatypes.S consID) b'.
Proof.
  intros [Hlen Harcs Hin Hout Hheld] Hph. unfold phase in Hph.
  apply bind_Ok_inv in Hph as (b1 & Hdep & Hupd).
  destruct l as [|kq0 l0] eqn:Hl0.
  { simpl in *. simplify_eq. by split. }
  rewrite <- Hl0 in *. assert (kq0 ∈ l) as Hkq0 by (rewrite Hl0; by left).
  assert (l ≠ []) as Hlne by (by rewrite Hl0). clear Hl0 l0.
  pose (P := λ b1 : builder,
         LastWriter b1 = LastWriter b ∧ LastReaders b1 = LastReaders b ∧
         LastDs b1 = LastDs b ∧
         (∀ a, a ∈ b_arcs b → a ∈ b_arcs b1) ∧
         (∀ a, a ∈ b_arcs b1 →
               a ∈ b_arcs b ∨
               (a_tgt a = consID ∧ held b (a_src a) ∧
                weight a = duration_in_cycles (dur ins (a_src a)) ct))).
  pose (Q := λ (kq : access * nat) (b1 : builder),
         (kq.2 < length (LastWriter b))%nat ∧
         (∃ a, a ∈ b_arcs b1 ∧ a_tgt a = consID) ∧
         (∀ x, x ∈ removed kq.1 b kq.2 →
               ∃ a, a ∈ b_arcs b1 ∧ a_src a = x ∧ a_tgt a = consID)).
  assert (Hsame : ∀ st, LastWriter st = LastWriter b → LastReaders st = LastReaders b →
                        LastDs st = LastDs b →
                        ∀ k q, removed k st q = removed k b q ∧ slots st q = slots b q).
  { intros st HW HR HD k q.
    destruct k; simpl; unfold slots, slotW, slotR, slotD; by rewrite ?HW, ?HR, ?HD. }
  destruct (for_each_post P Q (λ kq, dep_of ins ct commute consID kq.1 kq.2) l b b1) as [(HW & HR & HD & Hold & Hnew) HQ]; [| | |done|].
  { intros [k q] st st' (HW & HR & HD & Hold & Hnew) Hd. cbn [fst snd] in Hd.
    apply dep_of_spec in Hd as (HW' & HR' & HD' & Hq & Hold' & Hnew' & Hex & Hcov).
    destruct (Hsame st HW HR HD k q) as [Hrem Hslots].
    split.
    - unfold P. split_and!; [congruence..|by auto|].
      intros a [Ha|(Ht & Hs & Hw)]%Hnew'; [by apply Hnew|].
      right. split_and!; [done| |done]. exists q. by rewrite <- Hslots.
    - unfold Q. cbn [fst snd]. split_and!; [by rewrite <- HW|done|].
      intros x Hx. apply Hcov. by rewrite Hrem. }
  { intros [k q] [k' q'] st st' _ (Hq & (a & Ha & Ht) & Hcov) Hd. cbn [fst snd] in *.
    apply dep_of_spec in Hd as (_ & _ & _ & _ & Hold' & _).
    unfold Q. cbn [fst snd]. split_and!; [done|by eauto|].
    intros x Hx. destruct (Hcov x Hx) as (a' & Ha' & ?). eauto. }
  { unfold P. split_and!; auto. }
  destruct Hlen as (Hlw & Hlr & Hld).
  destruct (upd_phase n l b1 b') as (Ha' & Hlen' & Hheld' & Hkeep' & Hc); [| |done|].
  { rewrite HW, HR, HD. done. }
  { intros [k q] Hkq. destruct (HQ _ Hkq) as (Hq & _ & Hcov). cbn [fst snd] in *.
    split; [lia|]. intros x Hx. right.
    destruct (Hsame b1 HW HR HD k q) as [Hrem _]. rewrite Hrem in Hx.
    destruct (Hcov x Hx) as (a & ? & ? & _). eauto. }
  specialize (Hc Hlne).
  destruct (HQ _ Hkq0) as (_ & (ac & Hac & Htc) & _).
  assert (Hh1 : ∀ x, held b1 x ↔ held b x).
  { intros x. unfold held. by setoid_rewrite (proj2 (Hsame b1 HW HR HD acc_W _)). }
  split.
  - done.
  - intros a. rewrite Ha'. intros [Ha|(Ht & Hs & Hw)]%Hnew; [by apply Harcs|].
    split; [|done]. destruct (Hheld _ Hs). lia.
  - intros a. rewrite Ha'. intros [Ha|(Ht & Hs & Hw)]%Hnew.
    + destruct (Hin a Ha) as [?|(a0 & ? & ?)]; [by left|right]. eauto.
    + destruct (Hheld _ Hs) as [_ [?|(a0 & ? & ?)]]; [by left|right]. eauto.
  - intros a. rewrite Ha'. intros [Ha|(Ht & Hs & Hw)]%Hnew.
    + destruct (Hout a Ha) as [(a0 & ? & ?)|Hh]; [left; by eauto|].
      apply Hh1, Hkeep' in Hh as [?|(a0 & ? & ?)]; [by right|left; eauto].
    + right. by rewrite Ht.
  - intros x. rewrite Ha'. intros [->|Hx%Hh1]%Hheld'.
    + split; [lia|]. right. eauto.
    + destruct (Hheld x Hx) as [? [?|(a0 & ? & ?)]]; (split; [done|]); [by left|right].
      eauto.
Qed.

Lemma phase_app l1 l2 b :
  phase ins ct commute consID (l1 ++ l2) b
  = (b ← for_each (λ kq, dep_of ins ct commute consID kq.1 kq.2) l1 b;
     b ← for_each (λ kq, dep_of ins ct commute consID kq.1 kq.2) l2 b;
     b ← for_each (λ kq b, Ok (upd_of consID kq.1 kq.2 b)) l1 b;
     for_each (λ kq b, Ok (upd_of consID kq.1 kq.2 b)) l2 b).
Proof.
  unfold phase. rewrite for_each_app, result_bind_assoc.
  destruct (for_each _ l1 b) as [b1| |]; simpl; [|done..].
  destruct (for_each _ l2 b1) as [b2| |]; simpl; [|done..].
  apply for_each_app.
Qed.

Lemma phase_fmap k l b :
  phase ins ct commute consID (pair k <$> l) b
  = (b ← for_each (dep_of ins ct commute consID k) l b;
     for_each (pure (upd_of consID k)) l b).
Proof.
  unfold phase.
  assert (for_each (λ kq, dep_of ins ct commute consID kq.1 kq.2) (pair k <$> l) b
          = for_each (dep_of ins ct commute consID k) l b) as ->
    by apply (for_each_fmap (λ kq, dep_of ins ct commute consID kq.1 kq.2) (pair k)).
  destruct (for_each _ l b) as [b1| |]; simpl; [|done..].
  apply (for_each_fmap (λ kq b, Ok (upd_of consID kq.1 kq.2 b)) (pair k)).
Qed.

Lemma phase_app_fmap k1 k2 l1 l2 b :
  phase ins ct commute consID ((pair k1 <$> l1) ++ (pair k2 <$> l2)) b
  = (b ← for_each (dep_of ins ct commute consID k1) l1 b;
     b ← for_each (dep_of ins ct commute consID k2) l2 b;
     b ← for_each (pure (upd_of consID k1)) l1 b;
     for_each (pure (upd_of consID k2)) l2 b).
Proof.
  rewrite phase_app.
  rewrite (for_each_fmap (λ kq, dep_of ins ct commute consID kq.1 kq.2) (pair k1)).
  cbn [fst snd].
  destruct (for_each _ l1 b) as [b1| |]; simpl; [|done..].
  rewrite (for_each_fmap (λ kq, dep_of ins ct commute consID kq.1 kq.2) (pair k2)).
  cbn [fst snd].
  destruct (for_each _ l2 b1) as [b2| |]; simpl; [|done..].
  rewrite (for_each_fmap (λ kq b, Ok (upd_of consID kq.1 kq.2 b)) (pair k1)).
  cbn [fst snd]. unfold pure.
  destruct (for_each _ l1 b2) as [b3| |]; simpl; [|done..].
  apply (for_each_fmap (λ kq b, Ok (upd_of consID kq.1 kq.2 b)) (pair k2)).
Qed.

Lemma for_each_no_cnot_dep i l b :
  for_each_no
    (λ operandNo operand b,
       if decide (operandNo = 0%nat)
       then dep_R_cnot ins ct commute consID operand b
       else dep_D_cnot ins ct commute consID operand b) i l b
  = for_each (λ kq, dep_of ins ct commute consID kq.1 kq.2) (cnot_accesses i l) b.
Proof.
  revert i b. induction l as [|q l IH]; intros i b; simpl; [done|].
  destruct (decide (i = 0%nat)); simpl.
  - destruct (dep_R_cnot _ _ _ _ _ _); simpl; auto.
  - destruct (dep_D_cnot _ _ _ _ _ _); simpl; auto.
Qed.

Lemma for_each_no_cnot_upd i l b :
  for_each_no
    (λ operandNo operand b,
       Ok (if decide (operandNo = 0%nat)
           then upd_R consID operand b else upd_D consID operand b)) i l b
  = for_each (λ kq b, Ok (upd_of consID kq.1 kq.2 b)) (cnot_accesses i l) b.
Proof.
  revert i b. induction l as [|q l IH]; intros i b; simpl; [done|].
  destruct (decide (i = 0%nat)); simpl; auto.
Qed.

(** The dependences and updates of one gate keep the invariant. *)
Lemma add_gate_deps_binv n qubit_count qubit_creg_count g b b' :
  binv ins ct n consID b →
  add_gate_deps ins ct commute qubit_count qubit_creg_count consID g b = Ok b' →
  binv ins ct n (Datatypes.S consID) b'.
Proof.
  intros Hb%(binv_mono n consID (Datatypes.S consID)); [|lia].
  unfold add_gate_deps.
  set (cregs := (λ c, (qubit_count + c)%nat) <$> creg_operands g).
  destruct (String.eqb (stripname (name g)) "measure").
  { intros Hrun.
    apply (phase_binv n ((pair acc_W <$> operands g) ++ (pair acc_W_creg <$> cregs)) b);
      [done|].
    rewrite phase_app_fmap. exact Hrun. }
  destruct (String.eqb (stripname (name g)) "display").
  { intros Hrun. apply (phase_binv n (pair acc_W <$> seq 0 qubit_creg_count) b); [done|].
    rewrite phase_fmap. exact Hrun. }
  destruct (decide (type g = classical_gate)).
  { intros Hrun. apply (phase_binv n (pair acc_W <$> cregs) b); [done|].
    rewrite phase_fmap. exact Hrun. }
  destruct (String.eqb (stripname (name g)) "cnot").
  { intros Hrun. apply (phase_binv n (cnot_accesses 0 (operands g)) b); [done|].
    unfold phase. rewrite <- for_each_no_cnot_dep.
    destruct (for_each_no _ 0 (operands g) b) as [b1| |]; simpl in *; [|done..].
    by rewrite <- for_each_no_cnot_upd. }
  destruct (String.eqb (stripname (name g)) "cz" || String.eqb (stripname (name g)) "cphase").
  { intros Hrun. apply (phase_binv n (pair acc_R_cz <$> operands g) b); [done|].
    rewrite phase_fmap. exact Hrun. }
  intros Hrun. apply bind_Ok_inv in Hrun as (b1 & H1 & H2).
  assert (Hstep : ∀ q st st', q ∈ operands g ++ cregs →
            binv ins ct n (Datatypes.S consID) st →
            (b ← dep_W ins ct consID q st; Ok (upd_W consID q b)) = Ok st' →
            binv ins ct n (Datatypes.S consID) st').
  { intros q st st' _ Hst Hq. apply (phase_binv n [(acc_W, q)] st); [done|].
    unfold phase. simpl. destruct (dep_W ins ct consID q st); simpl in *; done. }
  eapply (for_each_inv _ _ cregs b1); [|eapply (for_each_inv _ _ (operands g) b)|];
    [| |done| |done].
  - intros q st st' Hq. apply Hstep. rewrite elem_of_app. by right.
  - intros q st st' Hq. apply Hstep. rewrite elem_of_app. by left.
  - done.
Qed.
End builder.

Lemma add_gates_binv `{Decls} ins ct commute n qubit_count qubit_creg_count ckt consID b b' :
  binv ins ct n consID b →
  add_gates ins ct commute qubit_count qubit_creg_count consID ckt b = Ok b' →
  binv ins ct n (consID + length ckt) b'.
Proof.
  revert consID b. induction ckt as [|g ckt IH]; intros consID b Hb Hrun; simpl in *.
  - simplify_eq. by rewrite Nat.add_0_r.
  - apply bind_Ok_inv in Hrun as (b1 & H1 & H2).
    replace (consID + Datatypes.S (length ckt))%nat
      with (Datatypes.S consID + length ckt)%nat by lia.
    apply (IH _ b1); [|done]. by eapply add_gate_deps_binv.
Qed.

Lemma seq_split j n P v Q :
  seq j n = P ++ v :: Q →
  (∀ x, x ∈ P → (x < v)%nat) ∧ (∀ x, x ∈ Q → (v < x)%nat).
Proof.
  intros Heq.
  assert (v = (j + length P)%nat) as Hv.
  { assert (seq j n !! length P = Some v) as Hl
      by (rewrite Heq, lookup_app_r, Nat.sub_diag by lia; done).
    by apply lookup_seq in Hl as [? _]. }
  split.
  - intros x (i & Hi)%list_elem_of_lookup_1.
    pose proof (lookup_lt_Some _ _ _ Hi).
    assert (seq j n !! i = Some x) as Hl by (rewrite Heq, lookup_app_l by lia; done).
    apply lookup_seq in Hl as [? _]. lia.
  - intros x (i & Hi)%list_elem_of_lookup_1.
    assert (seq j n !! (length P + Datatypes.S i)%nat = Some x) as Hl.
    { rewrite Heq, lookup_app_r by lia.
      replace (length P + Datatypes.S i - length P)%nat with (Datatypes.S i) by lia. done. }
    apply lookup_seq in Hl as [? _]. lia.
Qed.

Lemma upd_W_all consID n l b :
  length (LastWriter b) = n ∧ length (LastReaders b) = n ∧ length (LastDs b) = n →
  let b' := foldl (λ b q, upd_W consID q b) b l in
  (length (LastWriter b') = n ∧ length (LastReaders b') = n ∧ length (LastDs b') = n) ∧
  (∀ q, q ∈ l → (q < n)%nat → slots b' q = [consID]) ∧
  (∀ q, q ∉ l → slots b' q = slots b q).
Proof.
  revert b. induction l as [|q0 l IH]; intros b (Hlw & Hlr & Hld); simpl.
  - split_and!; [done..| |done]. intros q []%elem_of_nil.
  - destruct (IH (upd_W consID q0 b)) as (Hlen & Hin & Hout).
    { unfold upd_W; simpl. by rewrite !length_insert. }
    split; [done|]. split.
    + intros q Hq Hqn. destruct (decide (q ∈ l)) as [?|Hnl]; [by apply Hin|].
      apply elem_of_cons in Hq as [->|?]; [|done].
      rewrite Hout by done. unfold slots, slotW, slotR, slotD, upd_W; simpl.
      by rewrite !list_lookup_insert_eq by lia.
    + intros q [Hne Hnl]%not_elem_of_cons. rewrite Hout by done.
      unfold slots, slotW, slotR, slotD, upd_W; simpl.
      by rewrite !list_lookup_insert_ne by done.
Qed.

Lemma dur_nonneg (ins : list gate) x :
  (∀ g, g ∈ ins → 0 ≤ duration g) → 0 ≤ dur ins x.
Proof.
  intros Hd. unfold dur. destruct (ins !! x) as [g|] eqn:Hg; simpl; [|done].
  by apply Hd, (list_elem_of_lookup_2 _ x).
Qed.

(** The builder [init] starts from. *)
Lemma binv_init `{Decls} ins ct N :
  binv ins ct N 1 (mkBuilder [] (replicate N 0%nat) (replicate N []) (replicate N [])).
Proof.
  split; simpl.
  - by rewrite !length_replicate.
  - intros a []%elem_of_nil.
  - intros a []%elem_of_nil.
  - intros a []%elem_of_nil.
  - intros x (q & Hx). revert Hx. unfold slots, slotW, slotR, slotD; simpl.
    destruct (decide (q < N)%nat).
    + rewrite !lookup_replicate_2 by done. simpl.
      rewrite list_elem_of_singleton. intros ->. split; [lia|by left].
    + rewrite !(proj1 (lookup_replicate_None _ _ _)) by lia. simpl.
      intros []%elem_of_nil.
Qed.

Lemma b_arcs_foldl_upd_W consID l b :
  b_arcs (foldl (λ b q, upd_W consID q b) b l) = b_arcs b.
Proof. revert b. induction l as [|q l IH]; intros b; simpl; [done|]. by rewrite IH. Qed.

(** The scheduler object [init] returns is well formed. *)
Lemma init_wf `{Decls} opts ckt platform qcount ccount sc :
  0 < pf_cycle_time platform → 0 ≤ SOURCE_duration → 0 ≤ SINK_duration →
  (∀ g, g ∈ ckt → 0 ≤ duration g) →
  init opts ckt platform qcount ccount = Ok sc →
  wf_sched sc ∧ instruction sc = SOURCE :: ckt ++ [SINK] ∧
  circp sc = seq 1 (length ckt) ∧ cycle_time sc = pf_cycle_time platform.
Proof.
  intros Hct HdS HdT Hdur. unfold init.
  set (N := (qcount + ccount)%nat). set (ct := pf_cycle_time platform).
  set (ins := SOURCE :: ckt ++ [SINK]).
  set (b0 := mkBuilder _ _ _ _).
  set (consID := Datatypes.S (length ckt)).
  intros Hrun.
  apply bind_Ok_inv in Hrun as (b1 & Hgates & Hrun).
  apply bind_Ok_inv in Hrun as (b2 & Hdep & Hrun).
  apply bind_Ok_inv in Hrun as (b3 & Hupd & Hrun).
  destruct (dag (b_arcs b3) (length ins)) eqn:Hdag; [|done].
  injection Hrun as <-.
  assert (binv ins ct N 1 b0) as Hb0 by apply binv_init.
  apply add_gates_binv with (n := N) in Hgates; [|done].
  replace (1 + length ckt)%nat with consID in Hgates by done.
  assert (phase ins ct (opt_scheduler_commute opts) consID (pair acc_W <$> seq 0 N) b1
          = Ok b3) as Hph.
  { rewrite phase_fmap. simpl dep_of. rewrite Hdep. simpl. exact Hupd. }
  apply phase_binv with (n := N) in Hph;
    [|by apply (binv_mono ins ct N consID (Datatypes.S consID)); [lia|]].
  assert (length (LastWriter b2) = N ∧ length (LastReaders b2) = N ∧
          length (LastDs b2) = N) as Hlen2.
  { eapply (for_each_inv
              (λ b, length (LastWriter b) = N ∧ length (LastReaders b) = N ∧
                    length (LastDs b) = N)); [|apply Hgates|apply Hdep].
    intros q st st' _ Hst Hq.
    apply (dep_of_spec ins ct (opt_scheduler_commute opts) consID acc_W)
      in Hq as (-> & -> & -> & _). done. }
  rewrite for_each_pure in Hupd. injection Hupd as Hupd.
  destruct (upd_W_all consID N (seq 0 N) b2 Hlen2) as (Hlen3 & Hall & _).
  rewrite Hupd in Hlen3, Hall.
  assert (Hheld3 : ∀ x, held b3 x → x = consID).
  { intros x (q & Hx). destruct (decide (q < N)%nat) as [Hq|Hq].
    - rewrite Hall in Hx; [|apply elem_of_seq; lia|done].
      by apply list_elem_of_singleton in Hx.
    - destruct Hlen3 as (Hlw & Hlr & Hld).
      unfold slots, slotW, slotR, slotD in Hx.
      rewrite !lookup_ge_None_2 in Hx by lia. by apply elem_of_nil in Hx. }
  destruct Hph as [_ Harcs Hin Hout _].
  assert (Hlt : ∀ a, a ∈ b_arcs b3 → (a_src a < a_tgt a ≤ consID)%nat).
  { intros a Ha. destruct (Harcs a Ha) as [Hle _].
    assert (a_src a ≠ a_tgt a); [|lia].
    apply (dag_no_self_loop (b_arcs b3) (length ins)); [done..|].
    unfold ins. rewrite length_cons, length_app. simpl. unfold consID in Hle. lia. }
  split_and!; [|done..]. split; simpl.
  - done.
  - by rewrite length_seq.
  - rewrite length_app, length_seq. simpl. lia.
  - by rewrite length_seq.
  - done.
  - intros P v Q a Hsplit Ha.
    destruct (seq_split _ _ _ _ _ Hsplit) as [HP HQ].
    assert (Hmem : ∀ x, (1 ≤ x ≤ length ckt)%nat → x ∈ P ∨ x = v ∨ x ∈ Q).
    { intros x Hx. rewrite <- elem_of_cons, <- elem_of_app, <- Hsplit. apply elem_of_seq. lia. }
    assert (v ∈ seq 1 (length ckt)) as Hv%elem_of_seq by (rewrite Hsplit; set_solver).
    specialize (Hlt a Ha). unfold consID in Hlt. split.
    + intros Ht. destruct (decide (a_src a = 0%nat)) as [?|Hne]; [by left|right].
      destruct (Hmem (a_src a)) as [?|[?|?%HQ]]; [lia|done|lia|lia].
    + intros Hs. destruct (decide (a_tgt a = Datatypes.S (length ckt))) as [?|Hne];
        [by left|right].
      destruct (Hmem (a_tgt a)) as [?%HP|[?|?]]; [lia|lia|lia|done].
  - intros a Ha. by destruct (Harcs a Ha).
  - intros a Ha. destruct (Harcs a Ha) as [_ ->].
    apply duration_in_cycles_nonneg; [|done].
    apply dur_nonneg. intros g. unfold ins. rewrite elem_of_cons, elem_of_app.
    intros [->|[?| ->%list_elem_of_singleton]]; [done|by apply Hdur|done].
  - intros a Ha Hne. destruct (Hin a Ha) as [?|?]; done.
  - intros a Ha Hne. destruct (Hout a Ha) as [?|Hh%Hheld3]; done.
Qed.

(** ** The kinds of the arcs *)

Section arc_kinds.
Context `{Decls}.
Variables (ins : list gate) (ct : Z) (commute : string).

(** What [init] does for a gate is a sequence of phases. *)
Lemma add_gate_deps_phases qubit_count qubit_creg_count consID g b b' :
  add_gate_deps ins ct commute qubit_count qubit_creg_count consID g b = Ok b' →
  ∃ ls, for_each (phase ins ct commute consID) ls b = Ok b'.
Proof.
  unfold add_gate_deps.
  set (cregs := (λ c, (qubit_count + c)%nat) <$> creg_operands g).
  destruct (String.eqb (stripname (name g)) "measure").
  { intros Hrun. exists [(pair acc_W <$> operands g) ++ (pair acc_W_creg <$> cregs)].
    simpl. rewrite phase_app_fmap. simpl dep_of. simpl upd_of. rewrite Hrun. done. }
  destruct (String.eqb (stripname (name g)) "display").
  { intros Hrun. exists [pair acc_W <$> seq 0 qubit_creg_count].
    simpl. rewrite phase_fmap. simpl dep_of. simpl upd_of. rewrite Hrun. done. }
  destruct (decide (type g = classical_gate)).
  { intros Hrun. exists [pair acc_W <$> cregs].
    simpl. rewrite phase_fmap. simpl dep_of. simpl upd_of. rewrite Hrun. done. }
  destruct (String.eqb (stripname (name g)) "cnot").
  { intros Hrun. exists [cnot_accesses 0 (operands g)].
    simpl. unfold phase. rewrite <- for_each_no_cnot_dep.
    destruct (for_each_no _ 0 (operands g) b) as [b1| |]; simpl in *; [|done..].
    rewrite <- for_each_no_cnot_upd, Hrun. done. }
  destruct (String.eqb (stripname (name g)) "cz" || String.eqb (stripname (name g)) "cphase").
  { intros Hrun. exists [pair acc_R_cz <$> operands g].
    simpl. rewrite phase_fmap. simpl dep_of. simpl upd_of. rewrite Hrun. done. }
  intros Hrun. exists ((λ q, [(acc_W, q)]) <$> (operands g ++ cregs)).
  rewrite for_each_fmap, for_each_app.
  assert (Heq : ∀ l st,
            for_each (λ q, phase ins ct commute consID [(acc_W, q)]) l st
            = for_each (λ q b, b ← dep_W ins ct consID q b; Ok (upd_W consID q b)) l st).
  { assert (Hone : ∀ q st, phase ins ct commute consID [(acc_W, q)] st
                            = (b ← dep_W ins ct consID q st; Ok (upd_W consID q b))).
    { intros q st. unfold phase. simpl. by destruct (dep_W ins ct consID q st). }
    induction l as [|q l IH]; intros st; simpl; [done|].
    rewrite Hone. destruct (dep_W ins ct consID q st); simpl; auto. }
  rewrite Heq. apply bind_Ok_inv in Hrun as (b1 & -> & H2). simpl. by rewrite Heq.
Qed.

(** A property of the arcs that the dependences of an access keep is
    kept by the construction for a circuit. *)
Lemma phase_arcs (P : Arc → Prop) consID l b b' :
  (∀ k q b b', dep_of ins ct commute consID k q b = Ok b' →
               (∀ a, a ∈ b_arcs b → P a) → ∀ a, a ∈ b_arcs b' → P a) →
  phase ins ct commute consID l b = Ok b' →
  (∀ a, a ∈ b_arcs b → P a) → ∀ a, a ∈ b_arcs b' → P a.
Proof.
  intros Hdep Hph HP. unfold phase in Hph. apply bind_Ok_inv in Hph as (b1 & H1 & H2).
  assert (∀ a, a ∈ b_arcs b1 → P a) as HP1.
  { eapply (for_each_inv (λ b, ∀ a, a ∈ b_arcs b → P a)); [|apply HP|apply H1].
    intros [k q] st st' _ Hst Hq. by eapply Hdep. }
  eapply (for_each_inv (λ b, ∀ a, a ∈ b_arcs b → P a)); [|apply HP1|apply H2].
  intros [k q] st st' _ Hst [= <-]. by destruct k.
Qed.

Lemma add_gates_arcs (P : Arc → Prop) qubit_count qubit_creg_count ckt consID b b' :
  (∀ consID k q b b', dep_of ins ct commute consID k q b = Ok b' →
                      (∀ a, a ∈ b_arcs b → P a) → ∀ a, a ∈ b_arcs b' → P a) →
  add_gates ins ct commute qubit_count qubit_creg_count consID ckt b = Ok b' →
  (∀ a, a ∈ b_arcs b → P a) → ∀ a, a ∈ b_arcs b' → P a.
Proof.
  intros Hdep. revert consID b. induction ckt as [|g ckt IH]; intros consID b Hrun HP;
    simpl in Hrun.
  - by simplify_eq.
  - apply bind_Ok_inv in Hrun as (b1 & H1 & H2).
    apply (IH _ b1 H2).
    apply add_gate_deps_phases in H1 as [ls Hls].
    eapply (for_each_inv (λ b, ∀ a, a ∈ b_arcs b → P a)); [|apply HP|apply Hls].
    intros l st st' _ Hst Hl. eapply phase_arcs; [apply Hdep|apply Hl|apply Hst].
Qed.
End arc_kinds.

Lemma init_arcs `{Decls} (P : Arc → Prop) opts ckt platform qcount ccount sc :
  (∀ ins consID k q b b',
     dep_of ins (pf_cycle_time platform) (opt_scheduler_commute opts) consID k q b = Ok b' →
     (∀ a, a ∈ b_arcs b → P a) → ∀ a, a ∈ b_arcs b' → P a) →
  init opts ckt platform qcount ccount = Ok sc →
  ∀ a, a ∈ arcs sc → P a.
Proof.
  intros Hdep. unfold init.
  set (N := (qcount + ccount)%nat). set (ct := pf_cycle_time platform).
  set (ins := SOURCE :: ckt ++ [SINK]).
  set (b0 := mkBuilder _ _ _ _).
  set (consID := Datatypes.S (length ckt)).
  intros Hrun.
  apply bind_Ok_inv in Hrun as (b1 & Hgates & Hrun).
  apply bind_Ok_inv in Hrun as (b2 & Hd & Hrun).
  apply bind_Ok_inv in Hrun as (b3 & Hupd & Hrun).
  destruct (dag (b_arcs b3) (length ins)) eqn:Hdag; [|done].
  injection Hrun as <-. simpl.
  apply (phase_arcs ins ct (opt_scheduler_commute opts) P consID (pair acc_W <$> seq 0 N) b1);
    [by apply Hdep| |].
  - rewrite phase_fmap. simpl dep_of. rewrite Hd. simpl. exact Hupd.
  - apply (add_gates_arcs ins ct (opt_scheduler_commute opts) P qcount N ckt 1 b0);
      [by apply Hdep|done|]. intros a []%elem_of_nil.
Qed.

(** Unless the option is [no], no access adds an arc of kind RAR or
    DAD. *)
Lemma dep_of_commute `{Decls} ins ct commute consID k q b b' :
  commute ≠ "no" →
  dep_of ins ct commute consID k q b = Ok b' →
  (∀ a, a ∈ b_arcs b → depType a ≠ RAR ∧ depType a ≠ DAD) →
  ∀ a, a ∈ b_arcs b' → depType a ≠ RAR ∧ depType a ≠ DAD.
Proof.
  intros Hc%String.eqb_neq Hdep HP.
  destruct k; simpl in Hdep;
    unfold dep_W, dep_W_creg_measure, dep_R_cnot, dep_D_cnot, dep_R_cz, vec_get in Hdep;
    rewrite ?Hc in Hdep;
    destruct (LastWriter b !! q); simpl in Hdep; try done;
    destruct (LastReaders b !! q); simpl in Hdep; try done;
    try (destruct (LastDs b !! q); simpl in Hdep; try done);
    injection Hdep as <-; simpl; unfold add_dep;
    intros a; repeat first [rewrite elem_of_add_deps|rewrite elem_of_cons];
    intros Ha; decompose [or ex and] Ha; subst; simpl; auto.
Qed.

(** ** Two CNOTs with the same control *)

(** When the option is [no], the accesses of CNOT, CZ and CPHASE add an
    arc of kind RAR from every earlier reader and one of kind DAD from
    every earlier target. *)
Lemma dep_of_emits `{Decls} ins ct consID q b b' :
  (dep_R_cnot ins ct "no" consID q b = Ok b' →
   ∀ r, r ∈ slotR b q →
        mkArc r consID (duration_in_cycles (dur ins r) ct) q RAR ∈ b_arcs b') ∧
  (dep_D_cnot ins ct "no" consID q b = Ok b' →
   ∀ d, d ∈ slotD b q →
        mkArc d consID (duration_in_cycles (dur ins d) ct) q DAD ∈ b_arcs b') ∧
  (dep_R_cz ins ct "no" consID q b = Ok b' →
   ∀ r, r ∈ slotR b q →
        mkArc r consID (duration_in_cycles (dur ins r) ct) q RAR ∈ b_arcs b').
Proof.
  unfold dep_R_cnot, dep_D_cnot, dep_R_cz, vec_get, slotR, slotD.
  destruct (LastWriter b !! q); simpl; [|done].
  destruct (LastReaders b !! q); simpl; [|done].
  destruct (LastDs b !! q); simpl; [|done].
  split_and!; intros [= <-] r Hr; simpl; unfold add_dep;
    repeat first [rewrite elem_of_add_deps|rewrite elem_of_cons]; eauto 6.
Qed.

Section cnot_gate.
Context `{Decls}.
Variables (ins : list gate) (ct : Z) (commute : string).

(** The branch of [init] for a CNOT on a control and a target. *)
Lemma add_gate_deps_cnot qubit_count qubit_creg_count consID g c t b :
  stripname (name g) = "cnot" → type g ≠ classical_gate → operands g = [c; t] →
  add_gate_deps ins ct commute qubit_count qubit_creg_count consID g b
  = (b ← dep_R_cnot ins ct commute consID c b;
     b ← dep_D_cnot ins ct commute consID t b;
     Ok (upd_D consID t (upd_R consID c b))).
Proof.
  intros Hname Htype Hops. unfold add_gate_deps. rewrite Hname, Hops.
  change (String.eqb "cnot" "measure") with false.
  change (String.eqb "cnot" "display") with false.
  change (String.eqb "cnot" "cnot") with true.
  cbv iota. destruct (decide (type g = classical_gate)); [done|]. simpl.
  destruct (dep_R_cnot ins ct commute consID c b); simpl; [|done..].
  destruct (dep_D_cnot ins ct commute consID t _); simpl; done.
Qed.
End cnot_gate.

Section two_cnots.
Context `{Decls}.
Variables (opts : Options) (platform : quantum_platform) (qcount ccount : nat).
Variables (g1 g2 : gate) (c t1 t2 : nat).
Hypothesis Hname1 : stripname (name g1) = "cnot".
Hypothesis Hname2 : stripname (name g2) = "cnot".
Hypothesis Htype1 : type g1 ≠ classical_gate.
Hypothesis Htype2 : type g2 ≠ classical_gate.
Hypothesis Hops1 : operands g1 = [c; t1].
Hypothesis Hops2 : operands g2 = [c; t2].
Hypothesis Hct1 : c ≠ t1.
Hypothesis Hct2 : c ≠ t2.
Hypothesis Ht12 : t1 ≠ t2.
Hypothesis Hc : (c < qcount)%nat.
Hypothesis Ht1 : (t1 < qcount)%nat.
Hypothesis Ht2 : (t2 < qcount)%nat.

(** The arcs [init] has added when the two CNOTs are done. *)
Lemma two_cnots_gates :
  let N := (qcount + ccount)%nat in
  let ct := pf_cycle_time platform in
  let ins := SOURCE :: [g1; g2] ++ [SINK] in
  let w := λ x, duration_in_cycles (dur ins x) ct in
  ∃ b2,
    add_gates ins ct (opt_scheduler_commute opts) qcount N 1 [g1; g2]
      (mkBuilder [] (replicate N 0%nat) (replicate N []) (replicate N [])) = Ok b2 ∧
    b_arcs b2 =
      mkArc 0 2 (w 0%nat) t2 DAW ::
      (if String.eqb (opt_scheduler_commute opts) "no"
       then [mkArc 1 2 (w 1%nat) c RAR] else []) ++
      [mkArc 0 2 (w 0%nat) c RAW; mkArc 0 1 (w 0%nat) t1 DAW; mkArc 0 1 (w 0%nat) c RAW].
Proof.
  intros N ct ins w. simpl add_gates.
  rewrite (add_gate_deps_cnot ins ct _ qcount N 1 g1 c t1) by done.
  assert (c < N)%nat as HcN by (unfold N; lia).
  assert (t1 < N)%nat as Ht1N by (unfold N; lia).
  assert (t2 < N)%nat as Ht2N by (unfold N; lia).
  destruct (String.eqb (opt_scheduler_commute opts) "no") eqn:Hno.
  all: unfold dep_R_cnot at 1, dep_D_cnot at 1, vec_get, with_arcs; simpl.
  all: rewrite ?Hno, !lookup_replicate_2 by done; simpl.
  all: rewrite !lookup_replicate_2 by done; simpl.
  all: rewrite (add_gate_deps_cnot ins ct _ qcount N 2 g2 c t2) by done.
  all: unfold dep_R_cnot at 1, vec_get, upd_D, upd_R; simpl.
  all: repeat (first [rewrite Hno
                     |rewrite list_lookup_insert_ne by lia
                     |rewrite list_lookup_insert_eq
                        by (rewrite ?length_insert, ?length_replicate; lia)
                     |rewrite lookup_replicate_2 by lia]; simpl).
  all: unfold dep_D_cnot at 1, vec_get, with_arcs; simpl.
  all: repeat (first [rewrite Hno
                     |rewrite list_lookup_insert_ne by lia
                     |rewrite list_lookup_insert_eq
                        by (rewrite ?length_insert, ?length_replicate; lia)
                     |rewrite lookup_replicate_2 by lia]; simpl).
  all: eexists; split; [reflexivity|]; simpl; reflexivity.
Qed.

(** [init] returns for the two CNOTs, with these arcs and arcs to
    SINK. *)
Lemma two_cnots_init :
  let ct := pf_cycle_time platform in
  let ins := SOURCE :: [g1; g2] ++ [SINK] in
  let w := λ x, duration_in_cycles (dur ins x) ct in
  let arcs2 :=
    mkArc 0 2 (w 0%nat) t2 DAW ::
    (if String.eqb (opt_scheduler_commute opts) "no"
     then [mkArc 1 2 (w 1%nat) c RAR] else []) ++
    [mkArc 0 2 (w 0%nat) c RAW; mkArc 0 1 (w 0%nat) t1 DAW; mkArc 0 1 (w 0%nat) c RAW] in
  ∃ sc, init opts [g1; g2] platform qcount ccount = Ok sc ∧
        (∀ a, a ∈ arcs2 → a ∈ arcs sc) ∧
        (∀ a, a ∈ arcs sc → a ∈ arcs2 ∨ a_tgt a = 3%nat).
Proof.
  intros ct ins w arcs2.
  destruct two_cnots_gates as (b2 & Hg & Harcs2'). cbv zeta in Hg.
  assert (b_arcs b2 = arcs2) as Harcs2 by exact Harcs2'. clear Harcs2'.
  fold ct ins in Hg.
  set (N := (qcount + ccount)%nat) in *.
  pose proof (add_gates_binv ins ct _ N qcount N [g1; g2] 1 _ b2 (binv_init ins ct N) Hg)
    as Hb2.
  change (1 + length [g1; g2])%nat with 3%nat in Hb2.
  destruct Hb2 as [(Hlw & Hlr & Hld) Hba _ _ Hheld].
  unfold init. fold N ct ins. rewrite Hg. simpl mbind at 1.
  change (Datatypes.S (length [g1; g2])) with 3%nat.
  pose (P := λ b : builder,
         LastWriter b = LastWriter b2 ∧ LastReaders b = LastReaders b2 ∧
         LastDs b = LastDs b2 ∧
         (∀ a, a ∈ b_arcs b2 → a ∈ b_arcs b) ∧
         (∀ a, a ∈ b_arcs b → a ∈ b_arcs b2 ∨ (a_tgt a = 3%nat ∧ held b2 (a_src a)))).
  destruct (for_each_total P (dep_W ins ct 3) (seq 0 N) b2) as (b3 & -> & HP3).
  { intros q b Hq%elem_of_seq (HW & HR & HD & Hold & Hnew).
    destruct (lookup_lt_is_Some_2 (LastWriter b) q) as [x Hx]; [rewrite HW; lia|].
    destruct (lookup_lt_is_Some_2 (LastReaders b) q) as [rs Hrs]; [rewrite HR; lia|].
    destruct (lookup_lt_is_Some_2 (LastDs b) q) as [ds Hds]; [rewrite HD; lia|].
    assert (∃ b', dep_W ins ct 3 q b = Ok b') as [b' Hb'].
    { unfold dep_W, vec_get. rewrite Hx, Hrs, Hds. simpl. eauto. }
    exists b'. split; [done|].
    apply (dep_of_spec ins ct (opt_scheduler_commute opts) 3 acc_W) in Hb'
      as (HW' & HR' & HD' & _ & Hold' & Hnew' & _).
    unfold P. split_and!; [congruence..|by auto|].
    intros a [Ha|(Ht & Hs & _)]%Hnew'; [by apply Hnew|].
    right. split; [done|]. exists q. revert Hs.
    unfold slots, slotW, slotR, slotD. by rewrite HW, HR, HD. }
  { unfold P. split_and!; auto. }
  destruct HP3 as (_ & _ & _ & Hold & Hnew).
  simpl mbind. rewrite for_each_pure. simpl mbind.
  rewrite b_arcs_foldl_upd_W.
  assert (Hinc2 : ∀ a, a ∈ arcs2 → (a_src a < a_tgt a)%nat).
  { unfold arcs2. intros a.
    destruct (String.eqb (opt_scheduler_commute opts) "no"); simpl;
      rewrite !elem_of_cons, elem_of_nil; intros Ha; decompose [or] Ha; subst; simpl; lia. }
  rewrite dag_increasing.
  - eexists. split; [reflexivity|]. cbn [arcs]. rewrite <- Harcs2. split; [done|].
    intros a [?|[? _]]%Hnew; auto.
  - intros a [Ha|[Ht Hs]]%Hnew.
    + rewrite Harcs2 in Ha. by apply Hinc2.
    + destruct (Hheld _ Hs). lia.
Qed.

(** The cycles ASAP gives the two CNOTs. *)
Lemma two_cnots_asap :
  let ct := pf_cycle_time platform in
  let w0 := duration_in_cycles SOURCE_duration ct in
  let w1 := duration_in_cycles (duration g1) ct in
  let w2 := duration_in_cycles (duration g2) ct in
  decls_ok → 0 ≤ SOURCE_duration → 0 ≤ SINK_duration → 0 < ct →
  0 ≤ duration g1 → 0 ≤ duration g2 →
  4 * Z.max w0 (Z.max w1 w2) ≤ ALAP_SINK_CYCLE →
  ∃ sc, init opts [g1; g2] platform qcount ccount = Ok sc ∧
        cyc (instruction (schedule_asap sc)) 1 = w0 ∧
        cyc (instruction (schedule_asap sc)) 2
        = if String.eqb (opt_scheduler_commute opts) "no" then w0 + w1 else w0.
Proof.
  intros ct w0 w1 w2 Hok HdS HdT Hct Hd1 Hd2 Hfit.
  destruct two_cnots_init as (sc & Hinit & Hin & Hout). cbv zeta in Hin, Hout.
  exists sc. split; [done|].
  destruct (init_wf opts [g1; g2] platform qcount ccount sc) as (Hwf & Hins & Hcirc & Hctime);
    [done..| |done|].
  { intros g. rewrite !elem_of_cons, elem_of_nil. intros [->|[->|[]]]; done. }
  assert (t sc = 3%nat) as Ht by (by rewrite (wf_t sc Hwf), Hcirc).
  assert (0 ≤ w0) as Hw0 by (by apply duration_in_cycles_nonneg).
  assert (0 ≤ w1) as Hw1 by (by apply duration_in_cycles_nonneg).
  assert (0 ≤ w2) as Hw2 by (by apply duration_in_cycles_nonneg).
  set (W := Z.max w0 (Z.max w1 w2)) in *.
  assert (weights_fit sc W) as HfitW.
  { split_and!; [|lia|rewrite Ht; lia].
    intros a Ha. pose proof (wf_arcs sc Hwf a Ha) as Hlt.
    rewrite (wf_weight sc Hwf a Ha), Hins, Hctime. fold ct.
    destruct (a_src a) as [|[|[|n]]]; [..|lia]; unfold dur; simpl; fold w0 w1 w2; lia. }
  destruct (set_cycle_forward_inv sc W Hok Hwf HfitW) as (_ & Hb & Hh & Htight).
  change (instruction (schedule_asap sc)) with (instruction (set_cycle forward_scheduling sc)).
  set (asap := instruction (set_cycle forward_scheduling sc)) in *.
  assert (cyc asap 0 = 0) as Hs0 by (specialize (Hb 0%nat ltac:(lia)); lia).
  assert (Hw : ∀ a, a ∈ arcs sc → a_src a = 0%nat → weight a = w0).
  { intros a Ha Hs. by rewrite (wf_weight sc Hwf a Ha), Hins, Hctime, Hs. }
  assert (Hw' : ∀ a, a ∈ arcs sc → a_src a = 1%nat → weight a = w1).
  { intros a Ha Hs. by rewrite (wf_weight sc Hwf a Ha), Hins, Hctime, Hs. }
  set (a01 := mkArc 0 1 (duration_in_cycles (dur (SOURCE :: [g1; g2] ++ [SINK]) 0) ct) c RAW).
  set (a02 := mkArc 0 2 (duration_in_cycles (dur (SOURCE :: [g1; g2] ++ [SINK]) 0) ct) c RAW).
  assert (a01 ∈ arcs sc) as H01.
  { apply Hin. rewrite elem_of_cons, elem_of_app, !elem_of_cons. tauto. }
  assert (a02 ∈ arcs sc) as H02.
  { apply Hin. rewrite elem_of_cons, elem_of_app, !elem_of_cons. tauto. }
  pose proof (Hh a01 H01 ltac:(simpl; lia)) as Hh01. unfold honours in Hh01.
  pose proof (Hh a02 H02 ltac:(simpl; lia)) as Hh02. unfold honours in Hh02.
  rewrite (Hw a01 H01 eq_refl) in Hh01. rewrite (Hw a02 H02 eq_refl) in Hh02.
  simpl in Hh01, Hh02. rewrite Hs0 in Hh01, Hh02.
  split.
  - destruct (Htight 1%nat ltac:(lia)) as [Hz|(a & Ha & Hat & Hc1)]; [lia|].
    destruct (Hout a Ha) as [Ha2|?]; [|lia].
    assert (a_src a = 0%nat) as Hsrc.
    { revert Ha2. destruct (String.eqb (opt_scheduler_commute opts) "no"); simpl;
        rewrite !elem_of_cons, elem_of_nil; intros Hx; decompose [or] Hx; subst;
        simpl in *; done. }
    rewrite Hc1, Hsrc, Hs0, (Hw a Ha Hsrc). lia.
  - destruct (String.eqb (opt_scheduler_commute opts) "no") eqn:Hno.
    + set (a12 := mkArc 1 2 (duration_in_cycles (dur (SOURCE :: [g1; g2] ++ [SINK]) 1) ct)
                    c RAR).
      assert (a12 ∈ arcs sc) as H12.
      { apply Hin. rewrite elem_of_cons, elem_of_app, !elem_of_cons. tauto. }
      pose proof (Hh a12 H12 ltac:(simpl; lia)) as Hh12. unfold honours in Hh12.
      rewrite (Hw' a12 H12 eq_refl) in Hh12. simpl in Hh12.
      assert (cyc asap 1 = w0) as Hc1.
      { destruct (Htight 1%nat ltac:(lia)) as [Hz|(a & Ha & Hat & Hc1)]; [lia|].
        destruct (Hout a Ha) as [Ha2|?]; [|lia].
        assert (a_src a = 0%nat) as Hsrc.
        { revert Ha2. simpl.
          rewrite !elem_of_cons, elem_of_nil; intros Hx; decompose [or] Hx; subst;
            simpl in *; done. }
        rewrite Hc1, Hsrc, Hs0, (Hw a Ha Hsrc). lia. }
      destruct (Htight 2%nat ltac:(lia)) as [Hz|(a & Ha & Hat & Hc2)]; [lia|].
      destruct (Hout a Ha) as [Ha2|?]; [|lia].
      assert (a_src a = 0%nat ∨ a_src a = 1%nat) as [Hsrc|Hsrc].
      { revert Ha2. simpl.
        rewrite !elem_of_cons, elem_of_nil; intros Hx; decompose [or] Hx; subst;
          simpl in *; first [done|auto]. }
      * rewrite Hsrc, Hs0, (Hw a Ha Hsrc) in Hc2. lia.
      * rewrite Hsrc, (Hw' a Ha Hsrc) in Hc2. lia.
    + destruct (Htight 2%nat ltac:(lia)) as [Hz|(a & Ha & Hat & Hc2)]; [lia|].
      destruct (Hout a Ha) as [Ha2|?]; [|lia].
      assert (a_src a = 0%nat) as Hsrc.
      { revert Ha2. simpl.
        rewrite !elem_of_cons, elem_of_nil; intros Hx; decompose [or] Hx; subst;
          simpl in *; done. }
      rewrite Hc2, Hsrc, Hs0, (Hw a Ha Hsrc). lia.
Qed.
End two_cnots.

(** ** The effect of the commute option *)

(** C3.  When the option [scheduler_commute] is [no], the accesses of
    CNOT, CZ and CPHASE add an arc of kind RAR from every earlier reader
    of the operand and one of kind DAD from every earlier target; with
    any other value, [yes] among them, the graph [init] builds has no arc
    of kind RAR or DAD.  So for two CNOTs with the same control qubit and
    different target qubits, [init] returns a graph in which ASAP gives
    both the same cycle unless the option is [no], and with [no] gives
    the second a cycle later by the duration of the first in cycles,
    because of the RAR arc between them. *)
Theorem commute_flag_effect `{Decls} (opts : Options) (platform : quantum_platform)
    (qcount ccount : nat) (g1 g2 : gate) (c t1 t2 : nat) :
  let ct := pf_cycle_time platform in
  let w0 := duration_in_cycles SOURCE_duration ct in
  let w1 := duration_in_cycles (duration g1) ct in
  let w2 := duration_in_cycles (duration g2) ct in
  decls_ok → 0 ≤ SOURCE_duration → 0 ≤ SINK_duration → 0 < ct →
  stripname (name g1) = "cnot" → stripname (name g2) = "cnot" →
  type g1 ≠ classical_gate → type g2 ≠ classical_gate →
  operands g1 = [c; t1] → operands g2 = [c; t2] →
  c ≠ t1 → c ≠ t2 → t1 ≠ t2 →
  (c < qcount)%nat → (t1 < qcount)%nat → (t2 < qcount)%nat →
  0 < duration g1 → 0 ≤ duration g2 →
  4 * Z.max w0 (Z.max w1 w2) ≤ ALAP_SINK_CYCLE →
  (∀ ins consID q b b',
     (dep_R_cnot ins ct "no" consID q b = Ok b' →
      ∀ r, r ∈ slotR b q →
           mkArc r consID (duration_in_cycles (dur ins r) ct) q RAR ∈ b_arcs b') ∧
     (dep_D_cnot ins ct "no" consID q b = Ok b' →
      ∀ d, d ∈ slotD b q →
           mkArc d consID (duration_in_cycles (dur ins d) ct) q DAD ∈ b_arcs b') ∧
     (dep_R_cz ins ct "no" consID q b = Ok b' →
      ∀ r, r ∈ slotR b q →
           mkArc r consID (duration_in_cycles (dur ins r) ct) q RAR ∈ b_arcs b')) ∧
  (opt_scheduler_commute opts ≠ "no" →
   ∀ ckt sc, init opts ckt platform qcount ccount = Ok sc →
             ∀ a, a ∈ arcs sc → depType a ≠ RAR ∧ depType a ≠ DAD) ∧
  ∃ sc, init opts [g1; g2] platform qcount ccount = Ok sc ∧
        (opt_scheduler_commute opts = "no" →
         (∃ a, a ∈ arcs sc ∧ a_src a = 1%nat ∧ a_tgt a = 2%nat ∧ depType a = RAR) ∧
         cyc (instruction (schedule_asap sc)) 1 = w0 ∧
         cyc (instruction (schedule_asap sc)) 2 = w0 + w1 ∧
         cyc (instruction (schedule_asap sc)) 1 ≠ cyc (instruction (schedule_asap sc)) 2) ∧
        (opt_scheduler_commute opts ≠ "no" →
         cyc (instruction (schedule_asap sc)) 1 = cyc (instruction (schedule_asap sc)) 2).
Proof.
  intros ct w0 w1 w2 Hok HdS HdT Hct Hn1 Hn2 Hty1 Hty2 Ho1 Ho2 Hc1 Hc2 H12 Hc Ht1 Ht2
    Hd1 Hd2 Hfit.
  split_and!.
  - intros ins consID q b b'. apply dep_of_emits.
  - intros Hyes ckt sc Hinit.
    apply (init_arcs (λ a, depType a ≠ RAR ∧ depType a ≠ DAD) opts ckt platform
             qcount ccount sc); [|done].
    intros ins consID k q b b'. by apply dep_of_commute.
  - pose proof (two_cnots_asap opts platform qcount ccount g1 g2 c t1 t2
                  Hn1 Hn2 Hty1 Hty2 Ho1 Ho2 Hc1 Hc2 H12 Hc Ht1 Ht2
                  Hok HdS HdT Hct (Z.lt_le_incl _ _ Hd1) Hd2 Hfit)
      as (sc & Hinit & Hcyc1 & Hcyc2).
    pose proof (two_cnots_init opts platform qcount ccount g1 g2 c t1 t2
                  Hn1 Hn2 Hty1 Hty2 Ho1 Ho2 Hc1 Hc2 H12 Hc Ht1 Ht2)
      as (sc' & Hinit' & Hin & _).
    rewrite Hinit in Hinit'. injection Hinit' as <-. cbv zeta in Hin.
    fold ct w0 w1 in Hcyc1, Hcyc2.
    exists sc. split; [done|]. split.
    + intros Hno%String.eqb_eq. rewrite Hno in Hcyc2, Hin. split_and!; [|done|done|].
      * exists (mkArc 1 2 (duration_in_cycles (dur (SOURCE :: [g1; g2] ++ [SINK]) 1) ct)
                  c RAR).
        split; [|done]. apply Hin. rewrite elem_of_cons, elem_of_app, !elem_of_cons.
        right. left. left. reflexivity.
      * rewrite Hcyc1, Hcyc2.
        pose proof (duration_in_cycles_pos (duration g1) ct Hd1 Hct). fold w1 in H0. lia.
    + intros Hyes%String.eqb_neq. rewrite Hyes in Hcyc2. by rewrite Hcyc1, Hcyc2.
Qed.

(** ** What [set_remaining] computes *)

Lemma rem_insert_eq r n c' : rem (<[n := c']> r) n = c'.
Proof. unfold rem. by rewrite lookup_insert_eq. Qed.

Lemma rem_insert_ne r n m c' : n ≠ m → rem (<[n := c']> r) m = rem r m.
Proof. intros Hn. unfold rem. by rewrite lookup_insert_ne. Qed.

Lemma foldl_ext_in {A B} (f g : B → A → B) (l : list A) (b : B) :
  (∀ a b, a ∈ l → f b a = g b a) → foldl f b l = foldl g b l.
Proof.
  revert b. induction l as [|x l IH]; intros b Hfg; simpl; [done|].
  rewrite Hfg by by left. apply IH. intros a b' Ha. apply Hfg. by right.
Qed.

Lemma length_foldl_set_cycle_gate `{Decls} g dir l ins :
  length (foldl (λ ins gp, set_cycle_gate g gp dir ins) ins l) = length ins.
Proof.
  revert ins. induction l as [|v l IH]; intros ins; simpl; [done|].
  by rewrite IH, length_set_cycle_gate.
Qed.

Section remaining_backward.
Context `{Decls}.
Variable sc : Scheduler.
Hypothesis Hwf : wf_sched sc.

(** Backward, [set_remaining_gate] and forward [set_cycle_gate] compute
    the same value from the same values. *)
Lemma remaining_backward_step (D : nat → Prop) v r ins :
  (∀ x, D x → rem r x = cyc ins x) →
  (v < length ins)%nat → ¬ D v →
  (∀ a, a ∈ arcs sc → a_tgt a = v → D (a_src a)) →
  ∀ x, D x ∨ x = v →
       rem (set_remaining_gate (arcs sc) v backward_scheduling r) x
       = cyc (set_cycle_gate (arcs sc) v forward_scheduling ins) x.
Proof.
  intros Hagree Hv HDv Hin x Hx.
  rewrite set_cycle_gate_forward. unfold set_remaining_gate.
  destruct Hx as [Hx| ->].
  - assert (v ≠ x) by (intros ->; done).
    rewrite rem_insert_ne, cyc_set_cyc_ne by done. by apply Hagree.
  - rewrite rem_insert_eq, cyc_set_cyc_eq by done.
    apply foldl_ext_in. intros a b [Ha Ht]%elem_of_in_arcs.
    by rewrite (Hagree _ (Hin a Ha Ht)).
Qed.

Lemma remaining_backward_loop P Q r ins :
  circp sc = P ++ Q →
  length ins = length (instruction sc) →
  (∀ x, x = s sc ∨ x ∈ P → rem r x = cyc ins x) →
  ∀ x, x = s sc ∨ x ∈ circp sc →
       rem (foldl (λ r gp, set_remaining_gate (arcs sc) gp backward_scheduling r) r Q) x
       = cyc (foldl (λ ins gp, set_cycle_gate (arcs sc) gp forward_scheduling ins) ins Q) x.
Proof.
  revert P r ins. induction Q as [|v Q IH]; intros P r ins HPQ Hlen Hagree; simpl.
  - rewrite app_nil_r in HPQ. by rewrite HPQ.
  - pose proof (wf_NoDup_circp sc Hwf) as Hnd. rewrite HPQ in Hnd.
    apply NoDup_app in Hnd as (HndP & HPv & [HvQ HndQ]%NoDup_cons).
    assert (v ∈ circp sc) as Hvc by (rewrite HPQ; set_solver).
    apply (IH (P ++ [v])); [by rewrite <- app_assoc|by rewrite length_set_cycle_gate|].
    intros x Hx.
    apply (remaining_backward_step (λ x, x = s sc ∨ x ∈ P)); [exact Hagree| | | |].
    + rewrite Hlen. apply (wf_nodes_lt sc Hwf). unfold nodes. set_solver.
    + intros [->|HvP]; [by apply (wf_s_not_circp sc Hwf)|].
      apply (HPv v HvP). by left.
    + intros a Ha Ht. by apply (wf_topo sc Hwf P v Q a HPQ Ha).
    + rewrite elem_of_app, list_elem_of_singleton in Hx. tauto.
Qed.

(** For ALAP scheduling, the remaining cycles of a node are the cycle
    ASAP gives it. *)
Lemma remaining_backward_asap x :
  (x ≤ t sc)%nat →
  rem (remaining (set_remaining backward_scheduling sc)) x
  = cyc (instruction (set_cycle forward_scheduling sc)) x.
Proof.
  intros Hx. unfold set_remaining, set_cycle.
  cbn [remaining with_remaining instruction with_instruction].
  set (r0 := <[s sc := 0]> ∅). set (ins0 := set_cyc (s sc) 0 (instruction sc)).
  assert (Hs : (s sc < length (instruction sc))%nat).
  { apply (wf_nodes_lt sc Hwf). unfold nodes. set_solver. }
  pose proof (remaining_backward_loop [] (circp sc) r0 ins0 eq_refl) as Hloop.
  specialize (Hloop ltac:(by unfold ins0; rewrite length_set_cyc)).
  specialize (Hloop ltac:(intros y [->|[]%elem_of_nil]; unfold r0, ins0;
                          by rewrite rem_insert_eq, cyc_set_cyc_eq)).
  set (r1 := foldl _ r0 _) in *. set (ins1 := foldl _ ins0 _) in *.
  apply (remaining_backward_step (λ x, x = s sc ∨ x ∈ circp sc)); [exact Hloop| | | |].
  - unfold ins1, ins0. rewrite length_foldl_set_cycle_gate, length_set_cyc.
    apply (wf_nodes_lt sc Hwf). unfold nodes. set_solver.
  - intros [Hst|Ht]; [by apply (wf_s_ne_t sc Hwf)|by apply (wf_t_not_circp sc Hwf)].
  - intros a Ha _. by apply (wf_arc_src sc Hwf).
  - apply (wf_elem_of_nodes sc Hwf) in Hx. unfold nodes in Hx. set_solver.
Qed.
End remaining_backward.

Section remaining_forward.
Context `{Decls}.
Variables (sc : Scheduler) (W : Z).
Hypothesis Hok : decls_ok.
Hypothesis Hwf : wf_sched sc.
Hypothesis Hfit : weights_fit sc W.

(** The nodes whose remaining cycles are the distance of their ALAP
    cycle to SINK's: SINK and the nodes that an arc leaves. *)
Lemma remaining_forward_step (D : nat → Prop) v r ins :
  backward_inv sc W D ins →
  (∀ x, D x → x = t sc ∨ (∃ a, a ∈ arcs sc ∧ a_src a = x) →
        rem r x = ALAP_SINK_CYCLE - cyc ins x ∧ cyc ins x ≤ ALAP_SINK_CYCLE) →
  (v ≤ t sc)%nat → v ≠ t sc → ¬ D v →
  (∀ a, a ∈ arcs sc → a_src a = v → D (a_tgt a)) →
  ∀ x, D x ∨ x = v → x = t sc ∨ (∃ a, a ∈ arcs sc ∧ a_src a = x) →
       rem (set_remaining_gate (arcs sc) v forward_scheduling r) x
       = ALAP_SINK_CYCLE - cyc (set_cycle_gate (arcs sc) v backward_scheduling ins) x ∧
       cyc (set_cycle_gate (arcs sc) v backward_scheduling ins) x ≤ ALAP_SINK_CYCLE.
Proof.
  intros (Hlen & Hb & Hh & Htight) Hagree Hv Hvt HDv Hout x Hx Hconn.
  destruct Hok as (HA0 & HAM & HM). destruct Hfit as (HWa & HW0 & HtW).
  rewrite set_cycle_gate_backward. unfold set_remaining_gate.
  destruct Hx as [Hx| ->].
  { assert (v ≠ x) by (intros ->; done).
    rewrite rem_insert_ne, cyc_set_cyc_ne by done. by apply Hagree. }
  assert (v < length ins)%nat as Hvl.
  { rewrite Hlen, (wf_instruction sc Hwf). rewrite (wf_t sc Hwf) in Hv. lia. }
  rewrite rem_insert_eq, cyc_set_cyc_eq by done.
  destruct Hconn as [?|(a0 & Ha0 & Hs0)]; [done|].
  set (f := λ a, wrap64 (cyc ins (a_tgt a) - weight a)).
  set (g := λ a, wrap64 (rem r (a_tgt a) + weight a)).
  destruct (foldl_min_spec f (out_arcs (arcs sc) v) MAX_CYCLE) as (Hc0 & Hcle & Hceq).
  destruct (foldl_max_spec g (out_arcs (arcs sc) v) 0) as (Hr0 & Hrge & Hreq).
  cbv beta in *. fold f in Hc0, Hcle, Hceq. fold g in Hr0, Hrge, Hreq.
  set (mc := foldl _ MAX_CYCLE _) in *. set (mr := foldl _ 0 _) in *.
  assert (Hfg : ∀ a, a ∈ out_arcs (arcs sc) v →
            g a = ALAP_SINK_CYCLE - f a ∧ 0 ≤ f a ≤ ALAP_SINK_CYCLE).
  { intros a [Ha Hs]%elem_of_out_arcs. unfold f, g.
    pose proof (Hout a Ha Hs) as HD.
    pose proof (Hb _ HD) as Hbt. pose proof (fit_weight sc W Hwf Hfit a Ha).
    pose proof (wf_arcs sc Hwf a Ha).
    destruct (Hagree _ HD) as [Hr Hle].
    { destruct (decide (a_tgt a = t sc)) as [?|Hne]; [by left|right].
      destruct (wf_out sc Hwf a Ha Hne) as (a' & ? & ?). eauto. }
    assert (ALAP_SINK_CYCLE - (Z.of_nat (t sc) - Z.of_nat v) * W
            ≤ cyc ins (a_tgt a) - weight a) by nia.
    assert (0 ≤ ALAP_SINK_CYCLE - (Z.of_nat (t sc) - Z.of_nat v) * W) by nia.
    rewrite Hr. rewrite !wrap64_small by lia. lia. }
  assert (a0 ∈ out_arcs (arcs sc) v) as Hin0 by (by apply elem_of_out_arcs).
  pose proof (Hcle a0 Hin0). pose proof (Hrge a0 Hin0). pose proof (Hfg a0 Hin0).
  assert (∃ a1, a1 ∈ out_arcs (arcs sc) v ∧ mc = f a1) as (a1 & Hin1 & Hmc).
  { destruct Hceq as [Heq|?]; [|done]. exists a0. split; [done|]. lia. }
  pose proof (Hrge a1 Hin1). pose proof (Hfg a1 Hin1).
  destruct Hreq as [Hz|(a2 & Hin2 & Hmr)].
  - lia.
  - pose proof (Hcle a2 Hin2). pose proof (Hfg a2 Hin2). lia.
Qed.

Lemma remaining_forward_loop P Q r ins :
  circp sc = P ++ Q →
  backward_inv sc W (λ x, x = t sc ∨ x ∈ Q) ins →
  (∀ x, x = t sc ∨ x ∈ Q → x = t sc ∨ (∃ a, a ∈ arcs sc ∧ a_src a = x) →
        rem r x = ALAP_SINK_CYCLE - cyc ins x ∧ cyc ins x ≤ ALAP_SINK_CYCLE) →
  let r' := foldl (λ r gp, set_remaining_gate (arcs sc) gp forward_scheduling r) r
              (reverse P) in
  let ins' := foldl (λ ins gp, set_cycle_gate (arcs sc) gp backward_scheduling ins) ins
                (reverse P) in
  backward_inv sc W (λ x, x = t sc ∨ x ∈ circp sc) ins' ∧
  ∀ x, x = t sc ∨ x ∈ circp sc → x = t sc ∨ (∃ a, a ∈ arcs sc ∧ a_src a = x) →
       rem r' x = ALAP_SINK_CYCLE - cyc ins' x ∧ cyc ins' x ≤ ALAP_SINK_CYCLE.
Proof.
  revert Q r ins. induction P as [|v P IH] using rev_ind; intros Q r ins HPQ Hinv Hagree.
  - simpl in *. rewrite HPQ. done.
  - rewrite reverse_snoc. simpl.
    rewrite <- app_assoc in HPQ. simpl in HPQ.
    pose proof (wf_NoDup_circp sc Hwf) as Hnd. rewrite HPQ in Hnd.
    apply NoDup_app in Hnd as (HndP & HPv & [HvQ HndQ]%NoDup_cons).
    assert (v ∈ circp sc) as Hvc by (rewrite HPQ; set_solver).
    assert (Hvt : (v ≤ t sc)%nat).
    { apply (wf_elem_of_circp sc Hwf) in Hvc. rewrite (wf_t sc Hwf). lia. }
    assert (Hnot : ¬ (v = t sc ∨ v ∈ Q)).
    { intros [->|HvP]; [by apply (wf_t_not_circp sc Hwf)|done]. }
    assert (Hout : ∀ a, a ∈ arcs sc → a_src a = v → a_tgt a = t sc ∨ a_tgt a ∈ Q).
    { intros a Ha Hs. by apply (wf_topo sc Hwf P v Q a HPQ Ha). }
    apply (IH (v :: Q)); [done| |].
    + eapply backward_inv_ext; [|apply (backward_step sc W Hok Hwf Hfit _ v ins Hinv); try done].
      * intros x. rewrite elem_of_cons. tauto.
      * intros a Ha [Hs|Hs] Ht.
        -- pose proof (wf_arcs sc Hwf a Ha). lia.
        -- destruct (proj1 (wf_topo sc Hwf P v Q a HPQ Ha) Ht) as [Hs'|Hs'].
           ++ rewrite Hs' in Hs. apply (wf_s_not_circp sc Hwf). rewrite HPQ. set_solver.
           ++ apply (HPv _ Hs'). by right.
    + intros x Hx Hconn.
      apply (remaining_forward_step (λ x, x = t sc ∨ x ∈ Q)); try done.
      * intros ->. by apply (wf_t_not_circp sc Hwf).
      * rewrite elem_of_cons in Hx. tauto.
Qed.

(** For ASAP scheduling, the remaining cycles of a node that an arc
    leaves are the distance of its ALAP cycle to SINK's. *)
Lemma remaining_forward_alap x :
  (x ≤ t sc)%nat → x = t sc ∨ (∃ a, a ∈ arcs sc ∧ a_src a = x) →
  rem (remaining (set_remaining forward_scheduling sc)) x
  = ALAP_SINK_CYCLE - cyc (alap_cycles sc) x.
Proof.
  intros Hx Hconn. unfold set_remaining, alap_cycles.
  cbn [remaining with_remaining].
  set (r0 := <[t sc := 0]> ∅). set (ins0 := set_cyc (t sc) ALAP_SINK_CYCLE (instruction sc)).
  destruct Hok as (HA0 & HAM & HM).
  assert (Ht : (t sc < length (instruction sc))%nat).
  { apply (wf_nodes_lt sc Hwf). unfold nodes. set_solver. }
  assert (backward_inv sc W (λ x, x = t sc ∨ x ∈ []) ins0) as H0.
  { split_and!.
    - apply length_set_cyc.
    - intros y [->|[]%elem_of_nil]. unfold ins0. rewrite cyc_set_cyc_eq; [lia|done].
    - intros a Ha [Hs|[]%elem_of_nil]. pose proof (wf_arcs sc Hwf a Ha). lia.
    - intros y [->|[]%elem_of_nil]. by left. }
  destruct (remaining_forward_loop (circp sc) [] r0 ins0) as [Hinv Hagree];
    [by rewrite app_nil_r|done| |].
  { intros y [->|[]%elem_of_nil] _. unfold r0, ins0.
    rewrite rem_insert_eq, cyc_set_cyc_eq by done. lia. }
  cbv zeta in Hinv, Hagree.
  set (r1 := foldl _ r0 _) in *. set (ins1 := foldl _ ins0 _) in *.
  apply (remaining_forward_step (λ x, x = t sc ∨ x ∈ circp sc)); try done.
  - rewrite (wf_s sc Hwf). lia.
  - apply (wf_s_ne_t sc Hwf).
  - intros [Hst|Hs]; [by apply (wf_s_ne_t sc Hwf)|by apply (wf_s_not_circp sc Hwf)].
  - intros a Ha _. by apply (wf_arc_tgt sc Hwf).
  - apply (wf_elem_of_nodes sc Hwf) in Hx. unfold nodes in Hx. set_solver.
Qed.

(** So the remaining cycles of SOURCE are the depth of the circuit. *)
Lemma remaining_forward_source :
  arcs sc ≠ [] →
  rem (remaining (set_remaining forward_scheduling sc)) (s sc) = circuit_depth sc.
Proof.
  intros Hne. rewrite remaining_forward_alap.
  - by apply (alap_depth sc W).
  - rewrite (wf_s sc Hwf). lia.
  - right. destruct (wf_source_left sc Hwf Hne) as (a & ? & ?). eauto.
Qed.
End remaining_forward.

(** ** Sorting on the cycle *)

Section stable_sort.
Context {A : Type} (f : A → Z).
Let lt : A → A → bool := λ x y, f x <? f y.

Lemma nondecreasing_app_inv (l1 l2 : list A) v :
  nondecreasing f (l1 ++ v :: l2) → Forall (λ y, f v ≤ f y) l2.
Proof. induction l1 as [|x l1 IH]; simpl; intros [H1 H2]; auto. Qed.

Lemma insert_sorted_sorted x l :
  nondecreasing f l → nondecreasing f (insert_sorted lt x l).
Proof.
  induction l as [|y l IH]; simpl.
  - intros _. split; [constructor|done].
  - intros [Hy Hl]. unfold lt at 1. destruct (Z.ltb_spec (f y) (f x)); simpl.
    + split; [|by apply IH]. rewrite insert_sorted_Permutation.
      constructor; [lia|done].
    + split; [|done]. constructor; [done|].
      eapply Forall_impl; [done|]. intros; simpl in *. lia.
Qed.

(** The sorted list is in non-decreasing order. *)
Lemma stable_sort_sorted l : nondecreasing f (stable_sort lt l).
Proof.
  induction l as [|x l IH]; simpl; [done|].
  by apply insert_sorted_sorted.
Qed.

Lemma insert_sorted_filter (c : Z) x l :
  filter (λ z, f z = c) (insert_sorted lt x l) = filter (λ z, f z = c) (x :: l).
Proof.
  induction l as [|y l IH]; simpl; [done|].
  unfold lt at 1. destruct (Z.ltb_spec (f y) (f x)); [|done].
  rewrite filter_cons, IH, !filter_cons.
  destruct (decide (f y = c)), (decide (f x = c)); try done. lia.
Qed.

(** It is stable: the elements of one key keep their order. *)
Lemma stable_sort_stable (c : Z) l :
  filter (λ z, f z = c) (stable_sort lt l) = filter (λ z, f z = c) l.
Proof.
  induction l as [|x l IH]; simpl; [done|].
  fold (stable_sort lt l). rewrite insert_sorted_filter, !filter_cons, IH. done.
Qed.

(** A list in non-decreasing order is left as it is. *)
Lemma stable_sort_id l : nondecreasing f l → stable_sort lt l = l.
Proof.
  induction l as [|x l IH]; simpl; [done|]. intros [Hx Hl].
  fold (stable_sort lt l). rewrite IH by done.
  destruct l as [|y l]; simpl; [done|].
  apply Forall_cons in Hx as [Hxy _]. unfold lt.
  destruct (Z.ltb_spec (f y) (f x)); [lia|done].
Qed.
End stable_sort.

Lemma app_cons_NoDup_inj {A} (l1 l2 l1' l2' : list A) v :
  NoDup (l1 ++ v :: l2) → l1 ++ v :: l2 = l1' ++ v :: l2' → l1 = l1' ∧ l2 = l2'.
Proof.
  revert l1'. induction l1 as [|a l1 IH]; intros l1' Hnd Heq.
  - destruct l1' as [|a' l1']; simpl in *.
    + by simplify_eq.
    + simplify_eq. apply NoDup_cons in Hnd as [Hn _]. exfalso. apply Hn. set_solver.
  - destruct l1' as [|a' l1']; simpl in *.
    + simplify_eq. apply NoDup_cons in Hnd as [Hn _]. exfalso. apply Hn. set_solver.
    + simplify_eq. apply NoDup_cons in Hnd as [_ Hnd].
      destruct (IH l1' Hnd) as [-> ->]; done.
Qed.

(** Sorting keeps an element before another of a key that is not
    smaller. *)
Lemma stable_sort_before {A} (f : A → Z) (l P Q P' Q' : list A) (u v : A) :
  NoDup l → l = P ++ v :: Q → u ∈ P → f u ≤ f v →
  stable_sort (λ x y, f x <? f y) l = P' ++ v :: Q' → u ∈ P'.
Proof.
  intros Hnd Hl Hu Hle Hs.
  assert (u ≠ v) as Hne.
  { intros ->. rewrite Hl in Hnd. apply NoDup_app in Hnd as (_ & Hd & _).
    apply (Hd v Hu). by left. }
  assert (u ∈ P' ++ v :: Q') as Hin.
  { rewrite <- Hs, stable_sort_Permutation, Hl. set_solver. }
  apply elem_of_app in Hin as [?|[?|HQ]%elem_of_cons]; [done|done|]. exfalso.
  pose proof (stable_sort_sorted f l) as Hsorted. cbv zeta in Hsorted. rewrite Hs in Hsorted.
  apply nondecreasing_app_inv in Hsorted.
  rewrite Forall_forall in Hsorted. pose proof (Hsorted u HQ) as Hall. simpl in Hall.
  assert (f u = f v) as Heq by lia.
  pose proof (stable_sort_stable f (f v) l) as Hst. cbv zeta in Hst.
  rewrite Hs, Hl, !filter_app, !filter_cons in Hst.
  rewrite !decide_True in Hst by done.
  apply app_cons_NoDup_inj in Hst as [HP HQ'].
  - assert (u ∈ filter (λ z, f z = f v) Q') as H1 by (by apply list_elem_of_filter).
    assert (u ∈ filter (λ z, f z = f v) P) as H2 by (by apply list_elem_of_filter).
    rewrite HQ' in H1. apply list_elem_of_filter in H1 as [_ H1].
    rewrite Hl in Hnd. apply NoDup_app in Hnd as (_ & Hd & _).
    apply (Hd u Hu). by right.
  - assert (NoDup (P' ++ v :: Q')) as Hnd' by (by rewrite <- Hs, stable_sort_Permutation).
    apply NoDup_app in Hnd' as (H1 & H2 & [H3 H4]%NoDup_cons).
    apply NoDup_app. split_and!.
    + by apply NoDup_filter.
    + intros x [_ Hx]%list_elem_of_filter [->|[_ Hx']%list_elem_of_filter]%elem_of_cons.
      * by apply (H2 v Hx); left.
      * by apply (H2 x Hx); right.
    + apply NoDup_cons. split; [|by apply NoDup_filter].
      by intros [_ ?]%list_elem_of_filter.
Qed.

(** ** The circuit stays in topological order *)

Lemma dur_frame (ins ins' : list gate) x :
  frame <$> ins' = frame <$> ins → dur ins' x = dur ins x.
Proof.
  intros Hf. unfold dur.
  assert (frame <$> (ins' !! x) = frame <$> (ins !! x)) as Hx
    by by rewrite <- !list_lookup_fmap, Hf.
  revert Hx. generalize (ins' !! x) (ins !! x).
  intros [[]|] [[]|] Hx; unfold frame, with_cycle in Hx; simpl in *; congruence.
Qed.

Lemma gate_eq (g1 g2 : gate) : frame g1 = frame g2 → cycle g1 = cycle g2 → g1 = g2.
Proof. destruct g1, g2. unfold frame, with_cycle. simpl. congruence. Qed.

(** Lists of gates that agree but for the cycles, and on the cycles. *)
Lemma instruction_eq (ins1 ins2 : list gate) :
  frame <$> ins1 = frame <$> ins2 →
  (∀ x, (x < length ins1)%nat → cyc ins1 x = cyc ins2 x) → ins1 = ins2.
Proof.
  intros Hf Hc. apply list_eq. intros i.
  assert (frame <$> (ins1 !! i) = frame <$> (ins2 !! i)) as Hi
    by by rewrite <- !list_lookup_fmap, Hf.
  destruct (ins1 !! i) as [g1|] eqn:H1, (ins2 !! i) as [g2|] eqn:H2; simpl in Hi;
    try done.
  f_equal. apply gate_eq; [congruence|].
  specialize (Hc i (lookup_lt_Some _ _ _ H1)). unfold cyc in Hc.
  by rewrite H1, H2 in Hc.
Qed.

(** A scheduler object that differs from a well-formed one in the
    cycles and in the order of the circuit is well formed when its
    circuit is in topological order. *)
Lemma wf_sched_ext (sc sc' : Scheduler) :
  wf_sched sc →
  arcs sc' = arcs sc → s sc' = s sc → t sc' = t sc → cycle_time sc' = cycle_time sc →
  circp sc' ≡ₚ circp sc →
  frame <$> instruction sc' = frame <$> instruction sc →
  (∀ P v Q a, circp sc' = P ++ v :: Q → a ∈ arcs sc →
              (a_tgt a = v → a_src a = s sc ∨ a_src a ∈ P) ∧
              (a_src a = v → a_tgt a = t sc ∨ a_tgt a ∈ Q)) →
  wf_sched sc'.
Proof.
  intros Hwf Ha Hs Ht Hct Hc Hf Htopo.
  assert (length (circp sc') = length (circp sc)) as Hlc by by rewrite Hc.
  split; rewrite ?Ha, ?Hs, ?Ht, ?Hct, ?Hlc.
  - apply Hwf.
  - apply Hwf.
  - rewrite <- (wf_instruction sc Hwf), <- (length_fmap frame), Hf. apply length_fmap.
  - rewrite Hc. apply Hwf.
  - apply Hwf.
  - exact Htopo.
  - intros a Hin. rewrite (dur_frame _ _ _ Hf). by apply Hwf.
  - apply Hwf.
  - apply Hwf.
  - apply Hwf.
Qed.

Lemma wf_set_cycle `{Decls} dir sc : wf_sched sc → wf_sched (set_cycle dir sc).
Proof.
  intros Hwf. destruct (set_cycle_fields sc dir) as (Ha & Hc & Hs & Ht & Hct & _).
  apply (wf_sched_ext sc); try done.
  - by rewrite Hc.
  - apply frame_set_cycle.
  - rewrite Hc. apply Hwf.
Qed.

(** Sorting a circuit on cycles that do not decrease along the arcs
    leaves it in topological order. *)
Lemma wf_sort_by_cycle sc :
  wf_sched sc →
  (∀ a, a ∈ arcs sc →
        cyc (instruction sc) (a_src a) ≤ cyc (instruction sc) (a_tgt a)) →
  wf_sched (sort_by_cycle sc).
Proof.
  intros Hwf Hle. apply (wf_sched_ext sc); try done.
  { apply stable_sort_Permutation. }
  pose proof (wf_NoDup_circp sc Hwf) as Hnd.
  intros P' v Q' a Hsplit Ha. cbn [circp sort_by_cycle with_circp] in Hsplit.
  unfold cycle_lessthan in Hsplit.
  assert (v ∈ circp sc) as Hv.
  { rewrite <- (stable_sort_Permutation (λ x y, cyc (instruction sc) x <? cyc (instruction sc) y)),
      Hsplit. set_solver. }
  apply list_elem_of_split in Hv as (P & Q & HPQ).
  assert (NoDup (P' ++ v :: Q')) as Hnd'
    by (by rewrite <- Hsplit, stable_sort_Permutation).
  split.
  - intros Ht. destruct (proj1 (wf_topo sc Hwf P v Q a HPQ Ha) Ht) as [?|Hs]; [by left|right].
    apply (stable_sort_before (cyc (instruction sc)) (circp sc) P Q P' Q' (a_src a) v);
      [done..| |done].
    rewrite <- Ht. by apply Hle.
  - intros Hs. destruct (proj2 (wf_topo sc Hwf P v Q a HPQ Ha) Hs) as [?|Ht]; [by left|right].
    (* the target comes after [v] in the sorted circuit, since [v] comes
       before the target there *)
    assert (a_tgt a ∈ P' ++ v :: Q') as Hin.
    { rewrite <- Hsplit, stable_sort_Permutation, HPQ. set_solver. }
    apply list_elem_of_split in Hin as (P2 & Q2 & Hsplit2).
    assert (a_tgt a ∈ circp sc) as Htc by (rewrite HPQ; set_solver).
    apply list_elem_of_split in Htc as (P1 & Q1 & HPQ1).
    assert (v ∈ P1) as Hv1.
    { by destruct (proj1 (wf_topo sc Hwf P1 (a_tgt a) Q1 a HPQ1 Ha) eq_refl) as [Hss|Hss];
        [pose proof (wf_s_not_circp sc Hwf) as Hn; rewrite <- Hss, Hs, HPQ in Hn;
         exfalso; apply Hn; set_solver|by rewrite <- Hs]. }
    assert (v ∈ P2) as Hv2.
    { apply (stable_sort_before (cyc (instruction sc)) (circp sc) P1 Q1 P2 Q2 v (a_tgt a));
        [done..| |by rewrite Hsplit].
      rewrite <- Hs. by apply Hle. }
    apply list_elem_of_split in Hv2 as (P3 & Q3 & ->).
    rewrite <- app_assoc in Hsplit2. simpl in Hsplit2.
    apply app_cons_NoDup_inj in Hsplit2 as [_ ->]; [|done]. set_solver.
Qed.

Lemma frame_foldl_set_cycle_gate `{Decls} g d l ins :
  frame <$> foldl (λ ins gp, set_cycle_gate g gp d ins) ins l = frame <$> ins.
Proof.
  revert ins. induction l as [|v l IH]; intros ins; simpl; [done|].
  by rewrite IH, frame_set_cycle_gate.
Qed.

Lemma frame_alap_cycles `{Decls} sc : frame <$> alap_cycles sc = frame <$> instruction sc.
Proof.
  unfold alap_cycles.
  by rewrite frame_set_cycle_gate, frame_foldl_set_cycle_gate, frame_set_cyc.
Qed.

Section passes_wf.
Context `{Decls}.
Variables (sc : Scheduler) (W : Z).
Hypothesis Hok : decls_ok.
Hypothesis Hwf : wf_sched sc.
Hypothesis Hfit : weights_fit sc W.

(** The schedulers without resource constraints return a well-formed
    scheduler object; so does [get_dot]. *)
Lemma wf_schedule_asap : wf_sched (schedule_asap sc).
Proof.
  apply wf_sort_by_cycle; [by apply wf_set_cycle|].
  intros a Ha. pose proof (set_cycle_forward_honoured sc W Hok Hwf Hfit a Ha) as Hh.
  unfold honours in Hh. pose proof (wf_weight_nonneg sc Hwf a Ha). lia.
Qed.

Lemma wf_schedule_alap : wf_sched (schedule_alap sc).
Proof.
  apply wf_sort_by_cycle; [by apply wf_set_cycle|].
  intros a Ha. pose proof (set_cycle_backward_honoured sc W Hok Hwf Hfit a Ha) as Hh.
  unfold honours in Hh. pose proof (wf_weight_nonneg sc Hwf a Ha). lia.
Qed.

Lemma wf_get_dot : wf_sched (get_dot sc).
Proof. apply wf_schedule_asap. Qed.

Lemma weights_fit_ext sc' :
  arcs sc' = arcs sc → t sc' = t sc → weights_fit sc' W.
Proof. intros Ha Ht. unfold weights_fit. rewrite Ha, Ht. exact Hfit. Qed.
End passes_wf.

(** ** The cycles do not depend on the order of the circuit *)

Section order_independence.
Context `{Decls}.
Variables (sc sc' : Scheduler) (W : Z).
Hypothesis Hok : decls_ok.
Hypothesis Hwf : wf_sched sc.
Hypothesis Hwf' : wf_sched sc'.
Hypothesis Hfit : weights_fit sc W.
Hypothesis Harcs : arcs sc' = arcs sc.
Hypothesis Hframe : frame <$> instruction sc' = frame <$> instruction sc.

Lemma order_t : t sc' = t sc.
Proof.
  assert (length (instruction sc') = length (instruction sc)) as Hl
    by (by rewrite <- (length_fmap frame), Hframe, length_fmap).
  rewrite (wf_instruction sc Hwf), (wf_instruction sc' Hwf') in Hl.
  rewrite (wf_t sc Hwf), (wf_t sc' Hwf'). lia.
Qed.

Lemma order_fit : weights_fit sc' W.
Proof. unfold weights_fit. rewrite Harcs, order_t. exact Hfit. Qed.

(** The forward pass. *)
Lemma asap_order_independent :
  instruction (set_cycle forward_scheduling sc')
  = instruction (set_cycle forward_scheduling sc).
Proof.
  destruct (set_cycle_forward_inv sc W Hok Hwf Hfit) as (Hl & Hb & Hh & Ht).
  destruct (set_cycle_forward_inv sc' W Hok Hwf' order_fit) as (Hl' & Hb' & Hh' & Ht').
  rewrite Harcs in Hh', Ht'. rewrite order_t in Hb', Hh', Ht'.
  set (i1 := instruction (set_cycle forward_scheduling sc)) in *.
  set (i2 := instruction (set_cycle forward_scheduling sc')) in *.
  assert (Hle : ∀ j1 j2 : list gate,
            (∀ x, (x ≤ t sc)%nat → 0 ≤ cyc j2 x) →
            (∀ a, a ∈ arcs sc → (a_tgt a ≤ t sc)%nat → honours j2 a) →
            (∀ x, (x ≤ t sc)%nat → cyc j1 x = 0 ∨
                  ∃ a, a ∈ arcs sc ∧ a_tgt a = x ∧ cyc j1 x = cyc j1 (a_src a) + weight a) →
            ∀ x, (x ≤ t sc)%nat → cyc j1 x ≤ cyc j2 x).
  { intros j1 j2 H0 Hhon Htight x. induction x as [x IH] using lt_wf_ind. intros Hx.
    destruct (Htight x Hx) as [->|(a & Ha & <- & ->)]; [by apply H0|].
    pose proof (wf_arcs sc Hwf a Ha). specialize (Hhon a Ha Hx). unfold honours in Hhon.
    specialize (IH (a_src a) ltac:(lia) ltac:(lia)). lia. }
  apply instruction_eq.
  - unfold i1, i2. by rewrite !frame_set_cycle.
  - intros x Hx. rewrite Hl', (wf_instruction sc' Hwf') in Hx.
    assert (x ≤ t sc)%nat as Hxt by (rewrite <- order_t, (wf_t sc' Hwf'); lia).
    apply Z.le_antisymm; apply Hle; try done.
    + intros y Hy. by apply Hb.
    + intros y Hy. by apply Hb'.
Qed.

(** The backward pass, before the cycles are moved down. *)
Lemma alap_cycles_order_independent x :
  (x ≤ t sc)%nat → cyc (alap_cycles sc') x = cyc (alap_cycles sc) x.
Proof.
  destruct (alap_cycles_inv sc W Hok Hwf Hfit) as (Hl & Hb & Hh & Ht).
  destruct (alap_cycles_inv sc' W Hok Hwf' order_fit) as (Hl' & Hb' & Hh' & Ht').
  rewrite Harcs in Hh', Ht'. rewrite order_t in Hb', Hh', Ht'.
  pose proof (alap_cycles_sink sc Hwf) as Hs1.
  pose proof (alap_cycles_sink sc' Hwf') as Hs2. rewrite order_t in Hs2.
  set (i1 := alap_cycles sc) in *. set (i2 := alap_cycles sc') in *.
  assert (Hle : ∀ j1 j2 : list gate,
            cyc j1 (t sc) = cyc j2 (t sc) →
            (∀ x, (x ≤ t sc)%nat → cyc j2 x ≤ MAX_CYCLE) →
            (∀ a, a ∈ arcs sc → (a_src a ≤ t sc)%nat → honours j2 a) →
            (∀ x, (x ≤ t sc)%nat → x = t sc ∨ cyc j1 x = MAX_CYCLE ∨
                  ∃ a, a ∈ arcs sc ∧ a_src a = x ∧ cyc j1 x = cyc j1 (a_tgt a) - weight a) →
            ∀ x, (x ≤ t sc)%nat → cyc j2 x ≤ cyc j1 x).
  { intros j1 j2 Hsink HM Hhon Htight y.
    remember (t sc - y)%nat as k eqn:Hk. revert y Hk.
    induction k as [k IH] using lt_wf_ind. intros y Hk Hy.
    destruct (Htight y Hy) as [->|[->|(a & Ha & <- & ->)]]; [lia|by apply HM|].
    pose proof (wf_arcs sc Hwf a Ha). specialize (Hhon a Ha Hy). unfold honours in Hhon.
    specialize (IH (t sc - a_tgt a)%nat ltac:(lia) (a_tgt a) eq_refl ltac:(lia)). lia. }
  intros Hx. apply Z.le_antisymm; apply Hle; try done; try congruence.
  - intros y Hy. pose proof (Hb' y Hy). lia.
  - intros y Hy. pose proof (Hb y Hy). lia.
Qed.

Hypothesis Hs : s sc' = s sc.

Lemma alap_order_independent :
  instruction (set_cycle backward_scheduling sc')
  = instruction (set_cycle backward_scheduling sc).
Proof.
  rewrite (set_cycle_backward_eq sc), (set_cycle_backward_eq sc').
  destruct (alap_cycles_inv sc W Hok Hwf Hfit) as (Hl & _).
  destruct (alap_cycles_inv sc' W Hok Hwf' order_fit) as (Hl' & _).
  destruct (readjust_spec sc Hwf (alap_cycles sc) Hl) as (Hlen & Hfr & Hn & _).
  destruct (readjust_spec sc' Hwf' (alap_cycles sc') Hl') as (Hlen' & Hfr' & Hn' & _).
  apply instruction_eq.
  - by rewrite Hfr, Hfr', !frame_alap_cycles.
  - intros x Hx. rewrite Hlen', Hl', (wf_instruction sc' Hwf') in Hx.
    assert (x ≤ t sc)%nat as Hxt by (rewrite <- order_t, (wf_t sc' Hwf'); lia).
    rewrite Hn' by (apply (wf_elem_of_nodes sc' Hwf'); by rewrite order_t).
    rewrite Hn by by apply (wf_elem_of_nodes sc Hwf).
    rewrite Hs, !alap_cycles_order_independent; [done| |done].
    rewrite (wf_s sc Hwf). lia.
Qed.
End order_independence.

Section get_dot.
Context `{Decls}.
Variables (sc : Scheduler) (W : Z).
Hypothesis Hok : decls_ok.
Hypothesis Hwf : wf_sched sc.
Hypothesis Hfit : weights_fit sc W.

Lemma get_dot_asap_cycles :
  instruction (set_cycle forward_scheduling (get_dot sc))
  = instruction (set_cycle forward_scheduling sc).
Proof.
  apply (asap_order_independent sc (get_dot sc) W); try done.
  - by apply (wf_get_dot sc W).
  - apply frame_set_cycle.
Qed.

(** After [get_dot], ASAP scheduling gives what it gives without. *)
Lemma get_dot_schedule_asap : schedule_asap (get_dot sc) = schedule_asap sc.
Proof.
  unfold schedule_asap at 1. unfold sort_by_cycle at 1.
  rewrite get_dot_asap_cycles.
  destruct (set_cycle_fields (get_dot sc) forward_scheduling)
    as (Ha & Hc & Hs & Ht & Hct & Hr).
  assert (stable_sort (cycle_lessthan (instruction (set_cycle forward_scheduling sc)))
            (circp (set_cycle forward_scheduling (get_dot sc)))
          = circp (schedule_asap sc)) as Hcirc.
  { rewrite Hc. unfold get_dot, schedule_asap, sort_by_cycle. cbn [circp with_circp].
    cbn [instruction with_circp].
    apply (stable_sort_id (cyc (instruction (set_cycle forward_scheduling sc)))).
    apply (stable_sort_sorted (cyc (instruction (set_cycle forward_scheduling sc)))). }
  unfold with_circp. rewrite Hcirc, get_dot_asap_cycles, Ha, Hs, Ht, Hct, Hr.
  unfold get_dot, schedule_asap, sort_by_cycle, with_circp. cbn. done.
Qed.

(** ALAP scheduling gives the same cycles; the gates of one cycle may
    come in another order. *)
Lemma get_dot_schedule_alap :
  instruction (schedule_alap (get_dot sc)) = instruction (schedule_alap sc) ∧
  circp (schedule_alap (get_dot sc)) ≡ₚ circp (schedule_alap sc).
Proof.
  split.
  - change (instruction (set_cycle backward_scheduling (get_dot sc))
            = instruction (set_cycle backward_scheduling sc)).
    apply (alap_order_independent sc (get_dot sc) W); try done.
    + by apply (wf_get_dot sc W).
    + apply frame_set_cycle.
  - unfold schedule_alap, sort_by_cycle. cbn [circp with_circp].
    rewrite !stable_sort_Permutation.
    destruct (set_cycle_fields (get_dot sc) backward_scheduling) as (_ & -> & _).
    destruct (set_cycle_fields sc backward_scheduling) as (_ & -> & _).
    unfold get_dot, sort_by_cycle. cbn [circp with_circp].
    rewrite stable_sort_Permutation.
    by destruct (set_cycle_fields sc forward_scheduling) as (_ & -> & _).
Qed.
End get_dot.

(** ** The most critical gate *)

Lemma find_mostcritical_fold (r : gmap nat Z) (lg : list nat) :
  let st := foldl (λ '(mostCriticalGate, maxRemain) gp,
                     let gr := rem r gp in
                     if maxRemain <? gr then (Some gp, gr)
                     else (mostCriticalGate, maxRemain))
              (None, 0) lg in
  0 ≤ st.2 ∧ (∀ x, x ∈ lg → rem r x ≤ st.2) ∧
  match st.1 with
  | None => st.2 = 0
  | Some g => rem r g = st.2 ∧ 0 < st.2 ∧
              ∃ l1 l2, lg = l1 ++ g :: l2 ∧ ∀ x, x ∈ l1 → rem r x < st.2
  end.
Proof.
  induction lg as [|x lg IH] using rev_ind; simpl.
  - split_and!; [done| |done]. intros x []%elem_of_nil.
  - rewrite foldl_app. simpl. cbv zeta in IH.
    destruct (foldl _ _ lg) as [res M]. cbn [fst snd] in *.
    destruct IH as (HM & Hle & Hres).
    destruct (Z.ltb_spec M (rem r x)); cbn [fst snd].
    + split_and!; [lia| |done|lia|].
      * intros y [Hy| ->%list_elem_of_singleton]%elem_of_app; [|done].
        specialize (Hle y Hy). lia.
      * exists lg, []. split; [done|]. intros y Hy. specialize (Hle y Hy). lia.
    + split; [done|]. split.
      * intros y [Hy| ->%list_elem_of_singleton]%elem_of_app; [by apply Hle|done].
      * destruct res as [g|]; [|done].
        destruct Hres as (Hg & HM0 & l1 & l2 & -> & Hl1).
        split_and!; [done..|]. exists l1, (l2 ++ [x]).
        split; [by rewrite <- app_assoc|done].
Qed.

(** ** The dependence matrix *)

Lemma Matrix_entry_spec g srcID dstID :
  Matrix_entry g srcID dstID = true ↔ ∃ a, a ∈ g ∧ a_src a = srcID ∧ a_tgt a = dstID.
Proof.
  unfold Matrix_entry. rewrite bool_decide_eq_true, Exists_exists. done.
Qed.

(** ** Matrices *)

Section Matrix_facts.
Context {T : Type}.

Lemma Matrix_at_in_range (m : Matrix T) row col :
  0 ≤ m_ncols m → 0 ≤ m_nrows m →
  m_nrows m * m_ncols m = Z.of_nat (length (m_data m)) →
  Z.of_nat (length (m_data m)) < 2 ^ 64 →
  1 ≤ row ≤ m_nrows m → 1 ≤ col ≤ m_ncols m →
  ∃ x, Matrix_at m row col = Ok x ∧
       m_data m !! Z.to_nat ((row - 1) * m_ncols m + col - 1) = Some x.
Proof.
  intros Hc Hr Hsize Hlen Hrow Hcol. unfold Matrix_at.
  destruct (Z.ltb_spec row 1); [lia|]. destruct (Z.ltb_spec (m_nrows m) row); [lia|].
  destruct (Z.ltb_spec col 1); [lia|]. destruct (Z.ltb_spec (m_ncols m) col); [lia|].
  simpl.
  assert (0 ≤ (row - 1) * m_ncols m) as Hmul by (apply Z.mul_nonneg_nonneg; lia).
  assert (row * m_ncols m ≤ m_nrows m * m_ncols m) as Hrows
    by (apply Z.mul_le_mono_nonneg_r; lia).
  assert (0 ≤ (row - 1) * m_ncols m + col - 1 < Z.of_nat (length (m_data m))) as Hidx by lia.
  assert (m_nrows m * 1 ≤ m_nrows m * m_ncols m) as Hn1
    by (apply Z.mul_le_mono_nonneg_l; lia).
  rewrite (wrap64_small (row - 1)) by lia.
  rewrite (wrap64_small ((row - 1) * m_ncols m)) by lia.
  rewrite wrap64_small by lia.
  destruct (lookup_lt_is_Some_2 (m_data m) (Z.to_nat ((row - 1) * m_ncols m + col - 1)))
    as [x Hx]; [lia|].
  exists x. unfold vec_get. by rewrite Hx.
Qed.

Lemma Matrix_at_out_of_range (m : Matrix T) row col :
  row < 1 ∨ m_nrows m < row ∨ col < 1 ∨ m_ncols m < col →
  Matrix_at m row col = Fatal "matrix index out of range".
Proof.
  intros Hout. unfold Matrix_at.
  destruct (Z.ltb_spec row 1); [done|]. destruct (Z.ltb_spec (m_nrows m) row); [done|].
  destruct (Z.ltb_spec col 1); [done|]. destruct (Z.ltb_spec (m_ncols m) col); [done|].
  lia.
Qed.
End Matrix_facts.

(** ** The gate name *)

Lemma stripname_no_blank nm : ¬ In " "%char (String.list_ascii_of_string (stripname nm)).
Proof.
  induction nm as [|c nm IH]; simpl; [tauto|].
  destruct (Ascii.eqb_spec c " "%char) as [->|Hne]; simpl; [tauto|].
  intros [?|?]; [done|by apply IH].
Qed.

Lemma stripname_prefix nm :
  ∃ rest, nm = (stripname nm +:+ rest)%string ∧
          (rest = EmptyString ∨ ∃ r, rest = String " "%char r).
Proof.
  induction nm as [|c nm IH]; simpl.
  - exists EmptyString. split; [done|by left].
  - destruct (Ascii.eqb_spec c " "%char) as [->|Hne]; simpl.
    + exists (String " "%char nm). split; [done|right; eauto].
    + destruct IH as (rest & Heq & Hrest). exists rest. split; [|done].
      change (String c nm = String c (stripname nm +:+ rest)). by f_equal.
Qed.

Lemma stripname_id nm :
  ¬ In " "%char (String.list_ascii_of_string nm) → stripname nm = nm.
Proof.
  induction nm as [|c nm IH]; simpl; [done|]. intros Hn.
  destruct (Ascii.eqb_spec c " "%char) as [->|Hne]; [tauto|].
  rewrite IH; [done|tauto].
Qed.

(** ** When [init] returns *)

Lemma result_bind_Ok {A} (m : result A) : (m ≫= Ok) = m.
Proof. by destruct m. Qed.

Section gate_phases.
Context `{Decls}.
Variables (ins : list gate) (ct : Z) (commute : string).

Lemma add_gate_deps_eq qubit_count qubit_creg_count consID g b :
  add_gate_deps ins ct commute qubit_count qubit_creg_count consID g b
  = for_each (phase ins ct commute consID) (gate_phases qubit_count qubit_creg_count g) b.
Proof.
  unfold add_gate_deps, gate_phases.
  set (cregs := (λ c, (qubit_count + c)%nat) <$> creg_operands g).
  destruct (String.eqb (stripname (name g)) "measure").
  { simpl. by rewrite result_bind_Ok, phase_app_fmap. }
  destruct (String.eqb (stripname (name g)) "display").
  { simpl. by rewrite result_bind_Ok, phase_fmap. }
  destruct (decide (type g = classical_gate)).
  { simpl. by rewrite result_bind_Ok, phase_fmap. }
  destruct (String.eqb (stripname (name g)) "cnot").
  { simpl. rewrite result_bind_Ok. unfold phase. rewrite <- for_each_no_cnot_dep.
    destruct (for_each_no _ 0 (operands g) b) as [b1| |]; simpl; [|done..].
    by rewrite <- for_each_no_cnot_upd. }
  destruct (String.eqb (stripname (name g)) "cz" || String.eqb (stripname (name g)) "cphase").
  { simpl. by rewrite result_bind_Ok, phase_fmap. }
  rewrite for_each_fmap, for_each_app.
  assert (Heq : ∀ l st,
            for_each (λ q b, b ← dep_W ins ct consID q b; Ok (upd_W consID q b)) l st
            = for_each (λ q, phase ins ct commute consID [(acc_W, q)]) l st).
  { assert (Hone : ∀ q st, phase ins ct commute consID [(acc_W, q)] st
                            = (b ← dep_W ins ct consID q st; Ok (upd_W consID q b))).
    { intros q st. unfold phase. simpl. by destruct (dep_W ins ct consID q st). }
    induction l as [|q l IH]; intros st; simpl; [done|].
    rewrite Hone. destruct (dep_W ins ct consID q st); simpl; auto. }
  rewrite Heq. destruct (for_each _ (operands g) b); simpl; [|done..]. by rewrite Heq.
Qed.
End gate_phases.

Section runs.
Context `{Decls}.
Variables (ins : list gate) (ct : Z) (commute : string) (consID : nat).

Lemma dep_of_total n k q b :
  lens n b → (q < n)%nat → ∃ b', dep_of ins ct commute consID k q b = Ok b'.
Proof.
  intros (Hw & Hr & Hd) Hq.
  destruct (lookup_lt_is_Some_2 (LastWriter b) q) as [w Hlw]; [lia|].
  destruct (lookup_lt_is_Some_2 (LastReaders b) q) as [rs Hlr]; [lia|].
  destruct (lookup_lt_is_Some_2 (LastDs b) q) as [ds Hld]; [lia|].
  destruct k; simpl; unfold dep_W, dep_W_creg_measure, dep_R_cnot, dep_D_cnot, dep_R_cz, vec_get;
    rewrite ?Hlw, ?Hlr, ?Hld; simpl; rewrite ?Hlw, ?Hlr, ?Hld; simpl; eauto.
Qed.

(** The dependences of the accesses of [l]: the loop returns, leaves the
    bookkeeping as it is, and adds arcs to the new node only, from nodes
    the bookkeeping holds for an operand of [l]. *)
Lemma dep_phase_run n l b :
  lens n b → (∀ kq, kq ∈ l → (kq.2 < n)%nat) →
  ∃ b', for_each (λ kq, dep_of ins ct commute consID kq.1 kq.2) l b = Ok b' ∧
        LastWriter b' = LastWriter b ∧ LastReaders b' = LastReaders b ∧
        LastDs b' = LastDs b ∧
        (∀ a, a ∈ b_arcs b → a ∈ b_arcs b') ∧
        (∀ a, a ∈ b_arcs b' →
              a ∈ b_arcs b ∨
              (a_tgt a = consID ∧ ∃ kq, kq ∈ l ∧ a_src a ∈ slots b kq.2)) ∧
        (∀ kq x, kq ∈ l → x ∈ removed kq.1 b kq.2 →
                 ∃ a, a ∈ b_arcs b' ∧ a_src a = x ∧ a_tgt a = consID).
Proof.
  revert b. induction l as [|[k q] l IH]; intros b Hlen Hl; simpl.
  - exists b. split_and!; auto. intros kq x []%elem_of_nil.
  - destruct (dep_of_total n k q b Hlen) as [b1 Hb1]; [apply (Hl (k, q)); by left|].
    rewrite Hb1. simpl.
    destruct (dep_of_spec ins ct commute consID k q b b1 Hb1)
      as (HW & HR & HD & _ & Hmono & Hnew & _ & Hrem).
    assert (Hs : ∀ q', slots b1 q' = slots b q').
    { intros q'. unfold slots, slotW, slotR, slotD. by rewrite HW, HR, HD. }
    assert (Hr : ∀ k' q', removed k' b1 q' = removed k' b q').
    { intros k' q'. destruct k'; simpl; unfold slots, slotW, slotR, slotD;
        by rewrite ?HW, ?HR, ?HD. }
    destruct (IH b1) as (b' & Hrun & HW' & HR' & HD' & Hmono' & Hnew' & Hrem').
    { unfold lens. by rewrite HW, HR, HD. }
    { intros kq Hkq. apply Hl. by right. }
    exists b'. split; [done|]. split_and!; try congruence.
    + auto.
    + intros a [Ha|(Ht & kq & Hkq & Hsrc)]%Hnew'.
      * apply Hnew in Ha as [Ha|(Ht & Hsrc & _)]; [by left|right].
        split; [done|]. exists (k, q). split; [by left|done].
      * right. split; [done|]. exists kq. split; [by right|]. by rewrite <- Hs.
    + intros kq x [->|Hkq]%elem_of_cons Hx.
      * destruct (Hrem x Hx) as (a & Ha & ? & ?). exists a. auto.
      * apply (Hrem' kq x Hkq). by rewrite Hr.
Qed.

(** The updates of the accesses of [l]: the loop returns, adds no arc,
    touches the bookkeeping of the operands of [l] only, and what it
    holds afterwards is the new node or was held before. *)
Lemma upd_phase_run n l b :
  lens n b → (∀ kq, kq ∈ l → (kq.2 < n)%nat) →
  ∃ b', for_each (λ kq b, Ok (upd_of consID kq.1 kq.2 b)) l b = Ok b' ∧
        lens n b' ∧ b_arcs b' = b_arcs b ∧
        (∀ q, q ∉ l.*2 → slots b' q = slots b q) ∧
        (∀ q x, x ∈ slots b' q → x = consID ∨ x ∈ slots b q) ∧
        (∀ kq, kq ∈ l → consID ∈ slots b' kq.2).
Proof.
  revert b. induction l as [|[k q] l IH]; intros b Hlen Hl; simpl.
  - exists b. split_and!; auto. intros kq []%elem_of_nil.
  - destruct Hlen as (Hw & Hr & Hd).
    destruct (upd_of_spec consID k q b)
      as (Ha & Hlw' & Hlr' & Hld' & Hother & HW & HR & HD & Hnew & _);
      [specialize (Hl (k, q) ltac:(by left)); simpl in Hl; lia|lia..|].
    set (b1 := upd_of consID k q b) in *.
    assert (Hsub : ∀ q' x, x ∈ slots b1 q' → x = consID ∨ x ∈ slots b q').
    { intros q' x. destruct (decide (q' = q)) as [->|Hne].
      - rewrite !elem_of_slots. intros [?%HW|[?%HR|?%HD]]; tauto.
      - destruct (Hother q' Hne) as (HW' & HR' & HD'). unfold slots.
        rewrite HW', HR', HD'. auto. }
    destruct (IH b1) as (b' & Hrun & Hlen' & Harcs' & Hkeep' & Hsub' & Hnew').
    { unfold lens. lia. }
    { intros kq Hkq. apply Hl. by right. }
    exists b'. split; [done|]. split_and!; [done|congruence|..].
    + intros q' Hq'. simpl in Hq'. rewrite not_elem_of_cons in Hq'. destruct Hq' as [Hne Hq'].
      rewrite Hkeep' by done. destruct (Hother q' Hne) as (HW' & HR' & HD'). unfold slots.
      by rewrite HW', HR', HD'.
    + intros q' x [->|Hx]%Hsub'; [by left|]. by apply Hsub.
    + intros kq [->|Hkq]%elem_of_cons; [|by apply Hnew'].
      simpl. destruct (decide (q ∈ l.*2)) as [Hin|Hin].
      * apply list_elem_of_fmap in Hin as (kq & -> & Hkq). by apply Hnew'.
      * by rewrite Hkeep'.
Qed.

Lemma phase_run n l b :
  lens n b → (∀ kq, kq ∈ l → (kq.2 < n)%nat) →
  ∃ b', phase ins ct commute consID l b = Ok b' ∧ lens n b' ∧
        (∀ a, a ∈ b_arcs b → a ∈ b_arcs b') ∧
        (∀ a, a ∈ b_arcs b' →
              a ∈ b_arcs b ∨
              (a_tgt a = consID ∧ ∃ kq, kq ∈ l ∧ a_src a ∈ slots b kq.2)) ∧
        (∀ kq x, kq ∈ l → x ∈ removed kq.1 b kq.2 →
                 ∃ a, a ∈ b_arcs b' ∧ a_src a = x ∧ a_tgt a = consID) ∧
        (∀ q, q ∉ l.*2 → slots b' q = slots b q) ∧
        (∀ q x, x ∈ slots b' q → x = consID ∨ x ∈ slots b q) ∧
        (∀ kq, kq ∈ l → consID ∈ slots b' kq.2).
Proof.
  intros Hlen Hl.
  destruct (dep_phase_run n l b Hlen Hl) as (b1 & Hrun1 & HW & HR & HD & Hmono & Hnew & Hrem).
  assert (Hs : ∀ q', slots b1 q' = slots b q').
  { intros q'. unfold slots, slotW, slotR, slotD. by rewrite HW, HR, HD. }
  destruct (upd_phase_run n l b1) as (b' & Hrun2 & Hlen' & Harcs & Hkeep & Hsub & Hc);
    [unfold lens; by rewrite HW, HR, HD|done|].
  exists b'. unfold phase. rewrite Hrun1. simpl. split; [done|]. split; [done|].
  rewrite Harcs. split_and!; try done.
  - intros q Hq. by rewrite Hkeep, Hs.
  - intros q x Hx. apply Hsub in Hx. by rewrite Hs in Hx.
Qed.

(** The phases of a gate, no operand in two of them: the loops return,
    and the arcs they add lead to the new node from nodes the
    bookkeeping held when the gate was reached. *)
Lemma phases_run n ls b :
  lens n b → (∀ l kq, l ∈ ls → kq ∈ l → (kq.2 < n)%nat) →
  (∀ i j l l' kq kq', (i < j)%nat → ls !! i = Some l → ls !! j = Some l' →
                      kq ∈ l → kq' ∈ l' → kq.2 ≠ kq'.2) →
  ∃ b', for_each (phase ins ct commute consID) ls b = Ok b' ∧ lens n b' ∧
        (∀ a, a ∈ b_arcs b → a ∈ b_arcs b') ∧
        (∀ a, a ∈ b_arcs b' →
              a ∈ b_arcs b ∨ (a_tgt a = consID ∧ ∃ q, a_src a ∈ slots b q)) ∧
        (∀ q x, x ∈ slots b' q → x = consID ∨ x ∈ slots b q).
Proof.
  intros Hlen Hl Hdis.
  assert (∃ b', for_each (phase ins ct commute consID) ls b = Ok b' ∧ lens n b' ∧
        (∀ a, a ∈ b_arcs b → a ∈ b_arcs b') ∧
        (∀ a, a ∈ b_arcs b' →
              a ∈ b_arcs b ∨ (a_tgt a = consID ∧ ∃ l kq, l ∈ ls ∧ kq ∈ l ∧ a_src a ∈ slots b kq.2)) ∧
        (∀ q x, x ∈ slots b' q → x = consID ∨ x ∈ slots b q)) as (b' & ? & ? & ? & Hnew & ?).
  2:{ exists b'. split_and!; try done. intros a [?|(? & l & kq & _ & _ & ?)]%Hnew; eauto. }
  revert b Hlen. induction ls as [|l ls IH]; intros b Hlen; simpl.
  - exists b. split_and!; auto.
  - destruct (phase_run n l b Hlen) as (b1 & Hrun & Hlen1 & Hmono & Hnew & _ & Hkeep & Hsub & _).
    { intros kq Hkq. apply (Hl l); [by left|done]. }
    rewrite Hrun. simpl.
    destruct IH with (b := b1) as (b' & Hrun' & Hlen' & Hmono' & Hnew' & Hsub').
    { intros l' kq Hl' Hkq. apply (Hl l'); [by right|done]. }
    { intros i j l1 l2 kq kq' Hij Hi Hj. by apply (Hdis (Datatypes.S i) (Datatypes.S j)); [lia|..]. }
    { done. }
    exists b'. split; [done|]. split; [done|]. split_and!.
    + auto.
    + intros a [Ha|(Ht & l' & kq & Hl' & Hkq & Hsrc)]%Hnew'.
      * apply Hnew in Ha as [?|(Ht & kq & Hkq & Hsrc)]; [by left|right].
        split; [done|]. exists l, kq. split; [by left|done].
      * right. split; [done|]. exists l', kq. split; [by right|]. split; [done|].
        rewrite <- Hkeep; [done|].
        intros (kq0 & Heq & Hkq0)%list_elem_of_fmap.
        apply list_elem_of_lookup in Hl' as [j Hj].
        by apply (Hdis 0%nat (Datatypes.S j) l l' kq0 kq); [lia|..].
    + intros q x [->|Hx]%Hsub'; [by left|]. by apply Hsub.
Qed.
End runs.

Lemma cnot_accesses_snd i l : (cnot_accesses i l).*2 = l.
Proof. revert i; induction l as [|q l IH]; intros i; simpl; [done|]. by rewrite IH. Qed.

Lemma gate_phases_range qcount ccount g l kq :
  operands_in_range qcount ccount g →
  l ∈ gate_phases qcount (qcount + ccount) g → kq ∈ l → (kq.2 < qcount + ccount)%nat.
Proof.
  intros [Hq Hc]. unfold gate_phases.
  assert (Hops : ∀ k, kq ∈ pair k <$> operands g → (kq.2 < qcount + ccount)%nat).
  { intros k (q & -> & Hin)%list_elem_of_fmap. simpl. apply Hq in Hin. lia. }
  assert (Hcregs : ∀ k, kq ∈ pair k <$> ((λ c, (qcount + c)%nat) <$> creg_operands g) →
                        (kq.2 < qcount + ccount)%nat).
  { intros k (q & -> & (c & -> & Hin)%list_elem_of_fmap)%list_elem_of_fmap.
    simpl. apply Hc in Hin. lia. }
  repeat case_match; intros Hl Hkq.
  - apply list_elem_of_singleton in Hl as ->. apply elem_of_app in Hkq as [?|?]; eauto.
  - apply list_elem_of_singleton in Hl as ->.
    apply list_elem_of_fmap in Hkq as (q & -> & Hin%elem_of_seq). simpl. lia.
  - apply list_elem_of_singleton in Hl as ->. eauto.
  - apply list_elem_of_singleton in Hl as ->.
    assert (kq.2 ∈ (cnot_accesses 0 (operands g)).*2) as Hin
      by (apply list_elem_of_fmap; eauto).
    rewrite cnot_accesses_snd in Hin. apply Hq in Hin. lia.
  - apply list_elem_of_singleton in Hl as ->. eauto.
  - apply list_elem_of_fmap in Hl as (q & -> & Hin).
    apply list_elem_of_singleton in Hkq as ->. simpl.
    apply elem_of_app in Hin as [Hin|(c & -> & Hin)%list_elem_of_fmap].
    + apply Hq in Hin. lia.
    + apply Hc in Hin. lia.
Qed.

Lemma gate_phases_catch_all qubit_count qubit_creg_count g :
  catch_all g ∨ ∃ l, gate_phases qubit_count qubit_creg_count g = [l].
Proof.
  unfold gate_phases, catch_all.
  destruct (String.eqb (stripname (name g)) "measure"); [right; eauto|].
  destruct (String.eqb (stripname (name g)) "display"); [right; eauto|].
  destruct (decide (type g = classical_gate)); [right; eauto|].
  destruct (String.eqb (stripname (name g)) "cnot"); [right; eauto|].
  destruct (String.eqb (stripname (name g)) "cz"); [right; eauto|].
  destruct (String.eqb (stripname (name g)) "cphase"); [right; eauto|].
  by left.
Qed.

Lemma gate_phases_of_catch_all qubit_count qubit_creg_count g :
  catch_all g →
  gate_phases qubit_count qubit_creg_count g
  = (λ q, [(acc_W, q)]) <$> (operands g ++ ((λ c, (qubit_count + c)%nat) <$> creg_operands g)).
Proof.
  intros (H1 & H2 & H3 & H4 & H5 & H6). unfold gate_phases.
  rewrite H1, H2, H4, H5, H6. simpl. by destruct (decide (type g = classical_gate)).
Qed.

Lemma gate_phases_disjoint qcount ccount g i j l l' kq kq' :
  operands_in_range qcount ccount g →
  (catch_all g → NoDup (operands g) ∧ NoDup (creg_operands g)) →
  (i < j)%nat →
  gate_phases qcount (qcount + ccount) g !! i = Some l →
  gate_phases qcount (qcount + ccount) g !! j = Some l' →
  kq ∈ l → kq' ∈ l' → kq.2 ≠ kq'.2.
Proof.
  intros [Hq Hc] Hnd Hij Hi Hj Hkq Hkq'.
  destruct (gate_phases_catch_all qcount (qcount + ccount) g) as [Hca|[l0 Heq]].
  2:{ rewrite Heq in Hj. destruct j; [lia|]. by destruct j. }
  rewrite gate_phases_of_catch_all in Hi, Hj by done.
  destruct (Hnd Hca) as [Hnd1 Hnd2].
  rewrite list_lookup_fmap in Hi, Hj.
  destruct (_ !! i) as [q|] eqn:Hqi; [|done].
  destruct (_ !! j) as [q'|] eqn:Hqj; [|done].
  simpl in Hi, Hj. simplify_eq.
  apply list_elem_of_singleton in Hkq as ->. apply list_elem_of_singleton in Hkq' as ->.
  simpl. intros <-.
  assert (NoDup (operands g ++ ((λ c, (qcount + c)%nat) <$> creg_operands g))) as Hnd3.
  { apply NoDup_app. split; [done|]. split.
    - intros x Hx (c & -> & Hin)%list_elem_of_fmap. apply Hq in Hx. lia.
    - apply NoDup_fmap; [|done]. intros x y. lia. }
  assert (i = j); [|lia]. by eapply NoDup_lookup.
Qed.

Section gates_run.
Context `{Decls}.
Variables (ins : list gate) (ct : Z) (commute : string).

(** A gate whose operands are in range, without a repeated operand if
    the catch-all rules handle it: its dependences are added, and only
    arcs to a higher node. *)
Lemma add_gate_deps_run qcount ccount consID g b :
  strict_inv (qcount + ccount) consID b →
  operands_in_range qcount ccount g →
  (catch_all g → NoDup (operands g) ∧ NoDup (creg_operands g)) →
  ∃ b', add_gate_deps ins ct commute qcount (qcount + ccount) consID g b = Ok b' ∧
        strict_inv (qcount + ccount) (Datatypes.S consID) b'.
Proof.
  intros (Hlen & Hstrict & Hheld) Hrange Hnd.
  rewrite add_gate_deps_eq.
  destruct (phases_run ins ct commute consID (qcount + ccount)
              (gate_phases qcount (qcount + ccount) g) b Hlen)
    as (b' & Hrun & Hlen' & _ & Hnew & Hsub).
  { intros l kq Hl Hkq. by eapply gate_phases_range. }
  { intros i j l l' kq kq'. by apply gate_phases_disjoint. }
  exists b'. split; [done|]. split; [done|]. split.
  - intros a [Ha|(-> & q & Hsrc)]%Hnew; [by apply Hstrict|]. by eapply Hheld.
  - intros q x [->|Hx]%Hsub; [lia|]. apply Hheld in Hx. lia.
Qed.

Lemma add_gates_run qcount ccount ckt consID b :
  strict_inv (qcount + ccount) consID b →
  (∀ g, g ∈ ckt → operands_in_range qcount ccount g) →
  (∀ g, g ∈ ckt → catch_all g → NoDup (operands g) ∧ NoDup (creg_operands g)) →
  ∃ b', add_gates ins ct commute qcount (qcount + ccount) consID ckt b = Ok b' ∧
        strict_inv (qcount + ccount) (consID + length ckt) b'.
Proof.
  revert consID b. induction ckt as [|g ckt IH]; intros consID b Hb Hrange Hnd; simpl.
  - exists b. by rewrite Nat.add_0_r.
  - destruct (add_gate_deps_run qcount ccount consID g b Hb) as (b1 & Hrun & Hb1).
    { apply Hrange. by left. }
    { apply Hnd. by left. }
    rewrite Hrun. simpl.
    destruct (IH (Datatypes.S consID) b1 Hb1) as (b' & Hrun' & Hb').
    { intros g' Hg'. apply Hrange. by right. }
    { intros g' Hg'. apply Hnd. by right. }
    exists b'. split; [done|]. by replace (consID + Datatypes.S (length ckt))%nat
      with (Datatypes.S consID + length ckt)%nat by lia.
Qed.
End gates_run.

(** [init] returns a scheduler for every circuit whose gates have their
    operands in range and, where the catch-all rules apply, no operand
    twice. *)
Lemma init_returns `{Decls} opts ckt platform qcount ccount :
  (∀ g, g ∈ ckt → operands_in_range qcount ccount g) →
  (∀ g, g ∈ ckt → catch_all g → NoDup (operands g) ∧ NoDup (creg_operands g)) →
  ∃ sc, init opts ckt platform qcount ccount = Ok sc.
Proof.
  intros Hrange Hnd. unfold init.
  set (N := (qcount + ccount)%nat). set (ct := pf_cycle_time platform).
  set (ins := SOURCE :: ckt ++ [SINK]).
  set (b0 := mkBuilder _ _ _ _).
  set (consID := Datatypes.S (length ckt)).
  assert (strict_inv N 1 b0) as Hb0.
  { split; [|split].
    - unfold lens, b0. simpl. by rewrite !length_replicate.
    - intros a []%elem_of_nil.
    - intros q x. unfold slots, slotW, slotR, slotD, b0. simpl.
      rewrite !elem_of_app. intros [Hx|[Hx|Hx]].
      + destruct (replicate N 0%nat !! q) as [w|] eqn:Hw; simpl in Hx; [|by apply elem_of_nil in Hx].
        apply lookup_replicate in Hw as [-> _]. apply list_elem_of_singleton in Hx as ->. lia.
      + destruct (replicate N [] !! q) as [w|] eqn:Hw; simpl in Hx; [|by apply elem_of_nil in Hx].
        apply lookup_replicate in Hw as [-> _]. by apply elem_of_nil in Hx.
      + destruct (replicate N [] !! q) as [w|] eqn:Hw; simpl in Hx; [|by apply elem_of_nil in Hx].
        apply lookup_replicate in Hw as [-> _]. by apply elem_of_nil in Hx. }
  destruct (add_gates_run ins ct (opt_scheduler_commute opts) qcount ccount ckt 1 b0 Hb0 Hrange Hnd)
    as (b1 & Hrun1 & Hlen1 & Hstrict1 & Hheld1).
  fold N in Hrun1. rewrite Hrun1. simpl.
  destruct (phase_run ins ct (opt_scheduler_commute opts) consID N (pair acc_W <$> seq 0 N) b1 Hlen1)
    as (b3 & Hrun3 & _ & _ & Hnew & _).
  { intros kq (q & -> & Hin%elem_of_seq)%list_elem_of_fmap. simpl. lia. }
  rewrite phase_fmap in Hrun3. simpl dep_of in Hrun3. simpl upd_of in Hrun3.
  destruct (for_each (dep_W ins ct consID) (seq 0 N) b1) as [b2| |]; [|done..].
  simpl in *. rewrite Hrun3. simpl.
  change (Datatypes.S (length (ckt ++ [SINK]))) with (length ins).
  rewrite dag_increasing; [eauto|].
  intros a [Ha|(-> & kq & _ & Hsrc)]%Hnew; [by apply Hstrict1|].
  apply Hheld1 in Hsrc. unfold consID. lia.
Qed.

(** ** When [init] fails the acyclicity check *)

Section fails.
Context `{Decls}.
Variables (ins : list gate) (ct : Z) (commute : string).

Lemma dep_phase_range consID n l b b' :
  lens n b → for_each (λ kq, dep_of ins ct commute consID kq.1 kq.2) l b = Ok b' →
  ∀ kq, kq ∈ l → (kq.2 < n)%nat.
Proof.
  revert b. induction l as [|[k q] l IH]; intros b Hlen Hrun kq Hkq; simpl in *.
  - by apply elem_of_nil in Hkq.
  - apply bind_Ok_inv in Hrun as (b1 & Hb1 & Hrun).
    destruct (dep_of_spec ins ct commute consID k q b b1 Hb1) as (HW & HR & HD & Hq & _).
    apply elem_of_cons in Hkq as [->|Hkq].
    + simpl. destruct Hlen as (<- & _). done.
    + apply (IH b1); [|done..]. unfold lens. by rewrite HW, HR, HD.
Qed.

Lemma phase_range consID n l b b' :
  lens n b → phase ins ct commute consID l b = Ok b' → ∀ kq, kq ∈ l → (kq.2 < n)%nat.
Proof.
  intros Hlen Hrun. apply bind_Ok_inv in Hrun as (b1 & Hb1 & _).
  by eapply dep_phase_range.
Qed.

Lemma phases_total consID n ls b :
  lens n b → (∀ l kq, l ∈ ls → kq ∈ l → (kq.2 < n)%nat) →
  ∃ b', for_each (phase ins ct commute consID) ls b = Ok b' ∧ lens n b'.
Proof.
  revert b. induction ls as [|l ls IH]; intros b Hlen Hl; simpl; [eauto|].
  destruct (phase_run ins ct commute consID n l b Hlen) as (b1 & Hrun & Hlen1 & _).
  { intros kq Hkq. apply (Hl l); [by left|done]. }
  rewrite Hrun. simpl. apply IH; [done|].
  intros l' kq Hl' Hkq. apply (Hl l'); [by right|done].
Qed.

Lemma phases_mono consID n ls b b' :
  lens n b → for_each (phase ins ct commute consID) ls b = Ok b' →
  lens n b' ∧ ∀ a, a ∈ b_arcs b → a ∈ b_arcs b'.
Proof.
  intros Hlen Hrun.
  apply (for_each_inv (λ st, lens n st ∧ ∀ a, a ∈ b_arcs b → a ∈ b_arcs st)
           (phase ins ct commute consID) ls b b'); [|by auto|done].
  intros l st st' _ [Hst Hmono] Hl.
  destruct (phase_run ins ct commute consID n l st Hst) as (st1 & Hrun1 & Hlen1 & Hmono1 & _).
  { by eapply phase_range. }
  rewrite Hl in Hrun1. injection Hrun1 as <-. auto.
Qed.

Lemma add_gates_app qubit_count qubit_creg_count consID c1 c2 b :
  add_gates ins ct commute qubit_count qubit_creg_count consID (c1 ++ c2) b
  = add_gates ins ct commute qubit_count qubit_creg_count consID c1 b
    ≫= add_gates ins ct commute qubit_count qubit_creg_count (consID + length c1) c2.
Proof.
  revert consID b. induction c1 as [|g c1 IH]; intros consID b; simpl.
  - by rewrite Nat.add_0_r.
  - destruct (add_gate_deps _ _ _ _ _ _ _ _); simpl; [|done..].
    rewrite IH. by replace (consID + Datatypes.S (length c1))%nat
      with (Datatypes.S consID + length c1)%nat by lia.
Qed.

Lemma add_gates_total qcount ccount ckt consID b :
  lens (qcount + ccount) b →
  (∀ g, g ∈ ckt → operands_in_range qcount ccount g) →
  ∃ b', add_gates ins ct commute qcount (qcount + ccount) consID ckt b = Ok b' ∧
        lens (qcount + ccount) b'.
Proof.
  revert consID b. induction ckt as [|g ckt IH]; intros consID b Hlen Hrange; simpl; [eauto|].
  rewrite add_gate_deps_eq.
  destruct (phases_total consID (qcount + ccount) (gate_phases qcount (qcount + ccount) g) b Hlen)
    as (b1 & Hrun & Hlen1).
  { intros l kq Hl Hkq. eapply gate_phases_range; [|done..]. apply Hrange. by left. }
  rewrite Hrun. simpl. apply IH; [done|].
  intros g' Hg'. apply Hrange. by right.
Qed.

Lemma add_gates_mono qubit_count qubit_creg_count ckt consID n b b' :
  lens n b →
  add_gates ins ct commute qubit_count qubit_creg_count consID ckt b = Ok b' →
  lens n b' ∧ ∀ a, a ∈ b_arcs b → a ∈ b_arcs b'.
Proof.
  revert consID b. induction ckt as [|g ckt IH]; intros consID b Hlen Hrun; simpl in *.
  - by simplify_eq.
  - apply bind_Ok_inv in Hrun as (b1 & Hb1 & Hrun).
    rewrite add_gate_deps_eq in Hb1.
    destruct (phases_mono consID n _ b b1 Hlen Hb1) as [Hlen1 Hmono1].
    destruct (IH _ b1 Hlen1 Hrun) as [Hlen' Hmono']. auto.
Qed.

(** The catch-all rules on operands of which one comes twice add an
    arc from the new node to itself. *)
Lemma catch_all_self_loop consID n ops b b' :
  lens n b →
  for_each (phase ins ct commute consID) ((λ q, [(acc_W, q)]) <$> ops) b = Ok b' →
  (∀ a, a ∈ b_arcs b' → ¬ (a_src a = consID ∧ a_tgt a = consID)) →
  NoDup ops ∧ ∀ q, q ∈ ops → consID ∉ slots b q.
Proof.
  revert b. induction ops as [|q ops IH]; intros b Hlen Hrun Hno; simpl in *.
  - split; [constructor|]. intros q []%elem_of_nil.
  - apply bind_Ok_inv in Hrun as (b1 & Hb1 & Hrun).
    destruct (phase_run ins ct commute consID n [(acc_W, q)] b Hlen)
      as (b1' & Hrun1 & Hlen1 & Hmono1 & _ & Hrem & Hkeep & _ & Hc).
    { by eapply phase_range. }
    rewrite Hb1 in Hrun1. injection Hrun1 as <-.
    destruct (phases_mono consID n _ b1 b' Hlen1 Hrun) as [_ Hmono'].
    destruct (IH b1 Hlen1 Hrun Hno) as [Hnd Hfree].
    assert (Hq : q ∉ ops).
    { intros Hin. apply (Hfree q Hin). apply (Hc (acc_W, q)). by left. }
    assert (Hb : consID ∉ slots b q).
    { intros Hin. destruct (Hrem (acc_W, q) consID) as (a & Ha & Hs & Ht); [by left|done|].
      apply (Hno a); auto. }
    split; [by constructor|].
    intros q' [->|Hq']%elem_of_cons; [done|].
    rewrite <- Hkeep; [by apply Hfree|].
    simpl. intros ->%list_elem_of_singleton. done.
Qed.
End fails.

(** A gate the catch-all rules handle with an operand that comes twice
    makes [init] stop with the error of the acyclicity check. *)
Lemma init_repeated_operand `{Decls} opts ckt platform qcount ccount g :
  (∀ g, g ∈ ckt → operands_in_range qcount ccount g) →
  g ∈ ckt → catch_all g → ¬ NoDup (operands g) →
  init opts ckt platform qcount ccount = Fatal "The dependence graph is not a DAG.".
Proof.
  intros Hrange Hg Hca Hdup. unfold init.
  set (N := (qcount + ccount)%nat). set (ct := pf_cycle_time platform).
  set (ins := SOURCE :: ckt ++ [SINK]).
  set (b0 := mkBuilder _ _ _ _).
  set (consID := Datatypes.S (length ckt)).
  set (commute := opt_scheduler_commute opts).
  assert (lens N b0) as Hb0 by (unfold lens, b0; simpl; by rewrite !length_replicate).
  destruct (add_gates_total ins ct commute qcount ccount ckt 1 b0 Hb0 Hrange)
    as (b1 & Hrun1 & Hlen1).
  fold N in Hrun1. rewrite Hrun1. simpl.
  destruct (phase_run ins ct commute consID N (pair acc_W <$> seq 0 N) b1 Hlen1)
    as (b3 & Hrun3 & _ & Hmono3 & _).
  { intros kq (q & -> & Hin%elem_of_seq)%list_elem_of_fmap. simpl. lia. }
  rewrite phase_fmap in Hrun3. simpl dep_of in Hrun3. simpl upd_of in Hrun3.
  destruct (for_each (dep_W ins ct consID) (seq 0 N) b1) as [b2| |]; [|done..].
  simpl in *. rewrite Hrun3. simpl.
  change (Datatypes.S (length (ckt ++ [SINK]))) with (length ins).
  destruct (dag (b_arcs b3) (length ins)) eqn:Hdag; [|done].
  exfalso. apply Hdup.
  apply list_elem_of_split in Hg as (c1 & c2 & ->).
  rewrite add_gates_app in Hrun1.
  apply bind_Ok_inv in Hrun1 as (ba & Hruna & Hrun1). simpl in Hrun1.
  apply bind_Ok_inv in Hrun1 as (bg & Hrung & Hrun1).
  destruct (add_gates_mono ins ct commute qcount N c1 1 N b0 ba Hb0 Hruna) as [Hlena _].
  rewrite add_gate_deps_eq, gate_phases_of_catch_all in Hrung by done.
  destruct (phases_mono ins ct commute _ N _ ba bg Hlena Hrung) as [Hleng _].
  destruct (add_gates_mono ins ct commute qcount N c2 _ N bg b1 Hleng Hrun1) as [_ Hmono1].
  destruct (catch_all_self_loop ins ct commute _ N _ ba bg Hlena Hrung) as [Hnd _].
  - intros a Ha [Hs Ht].
    apply (dag_no_self_loop (b_arcs b3) (length ins) a Hdag); [auto| |congruence].
    rewrite Hs. unfold ins. rewrite length_cons, !length_app. simpl. lia.
  - by apply NoDup_app in Hnd as (? & _).
Qed.

(** ** The sample circuit *)

Lemma openql_decls_ok : decls_ok (H := openql_decls).
Proof. unfold decls_ok. simpl. lia. Qed.

Lemma sample_init :
  init (H := openql_decls) (sample_options "ASAP" "no" "yes") sample_circuit
    sample_platform 3 0 = Ok sample_sched.
Proof.
  unfold sample_sched.
  destruct (init _ _ _ _ _) as [sc|msg|] eqn:Hinit; [done|exfalso..];
    vm_compute in Hinit; discriminate.
Qed.

Lemma sample_wf : wf_sched sample_sched.
Proof.
  destruct (init_wf (H := openql_decls) (sample_options "ASAP" "no" "yes") sample_circuit
              sample_platform 3 0 sample_sched) as (Hwf & _); [done..| |apply sample_init|done].
  intros g. unfold sample_circuit. rewrite !elem_of_cons, elem_of_nil.
  intros [->|[->|[->|[]]]]; simpl; lia.
Qed.

Lemma sample_arcs :
  arcs sample_sched =
  [mkArc 3 4 1 2 WAW; mkArc 2 4 2 1 WAD; mkArc 0 4 1 1 WAW; mkArc 2 4 2 0 WAR;
   mkArc 1 4 1 0 WAW; mkArc 0 3 1 2 WAW; mkArc 0 2 1 1 DAW; mkArc 1 2 1 0 RAW;
   mkArc 0 1 1 0 WAW].
Proof. by vm_compute. Qed.

Lemma sample_t : t sample_sched = 4%nat.
Proof. by vm_compute. Qed.

Lemma sample_fit : weights_fit (H := openql_decls) sample_sched 2.
Proof.
  split_and!.
  - rewrite sample_arcs. apply Forall_forall. repeat constructor; simpl; lia.
  - lia.
  - rewrite sample_t. simpl. lia.
Qed.

Lemma sample_in_range g : g ∈ sample_circuit → operands_in_range 3 0 g.
Proof.
  unfold sample_circuit. rewrite !elem_of_cons, elem_of_nil.
  intros [->|[->|[->|[]]]]; split; simpl; intros q;
    rewrite ?elem_of_cons, ?elem_of_nil; intros Hq; decompose [or] Hq; subst; try done; lia.
Qed.

Lemma sample_no_repeat g :
  g ∈ sample_circuit → NoDup (operands g) ∧ NoDup (creg_operands g).
Proof.
  unfold sample_circuit. rewrite !elem_of_cons, elem_of_nil.
  intros [->|[->|[->|[]]]]; split; simpl; repeat constructor; set_solver.
Qed.

Lemma sample_durations g : g ∈ sample_circuit → 0 < duration g.
Proof.
  unfold sample_circuit. rewrite !elem_of_cons, elem_of_nil.
  intros [->|[->|[->|[]]]]; simpl; lia.
Qed.

(** ** The empty circuit *)

Lemma dep_W_fresh `{Decls} ins ct consID N l g :
  (∀ q, q ∈ l → (q < N)%nat) →
  for_each (dep_W ins ct consID) l
    (mkBuilder g (replicate N 0%nat) (replicate N []) (replicate N []))
  = Ok (mkBuilder
          (((λ q, mkArc 0 consID (duration_in_cycles (dur ins 0) ct) q WAW) <$> reverse l) ++ g)
          (replicate N 0%nat) (replicate N []) (replicate N [])).
Proof.
  assert (Hstep : ∀ q g', (q < N)%nat →
            dep_W ins ct consID q
              (mkBuilder g' (replicate N 0%nat) (replicate N []) (replicate N []))
            = Ok (mkBuilder (mkArc 0 consID (duration_in_cycles (dur ins 0) ct) q WAW :: g')
                    (replicate N 0%nat) (replicate N []) (replicate N []))).
  { intros q g' Hq. unfold dep_W, vec_get. simpl.
    by rewrite !lookup_replicate_2 by done. }
  revert g. induction l as [|q l IH]; intros g Hl; [done|].
  cbn [for_each]. rewrite Hstep by (apply Hl; by left).
  cbn [mbind result_bind]. rewrite IH by (intros q' Hq'; apply Hl; by right).
  rewrite reverse_cons, fmap_app, <- app_assoc. done.
Qed.

(** ** The weights of the graph [init] builds *)

Lemma init_weights_fit `{Decls} opts ckt platform qcount ccount sc W :
  0 < pf_cycle_time platform → 0 ≤ SOURCE_duration → 0 ≤ SINK_duration →
  (∀ g, g ∈ ckt → 0 ≤ duration g) →
  init opts ckt platform qcount ccount = Ok sc →
  duration_in_cycles SOURCE_duration (pf_cycle_time platform) ≤ W →
  (∀ g, g ∈ ckt → duration_in_cycles (duration g) (pf_cycle_time platform) ≤ W) →
  (Z.of_nat (length ckt) + 2) * W ≤ ALAP_SINK_CYCLE →
  weights_fit sc W.
Proof.
  intros Hct HdS HdT Hdur Hinit HWS HWg HW.
  destruct (init_wf opts ckt platform qcount ccount sc Hct HdS HdT Hdur Hinit)
    as (Hwf & Hins & Hcirc & Hctime).
  assert (0 ≤ W) as HW0.
  { pose proof (duration_in_cycles_nonneg SOURCE_duration (pf_cycle_time platform) HdS Hct). lia. }
  split_and!; [|done|].
  - intros a Ha. pose proof (wf_arcs sc Hwf a Ha) as Hlt.
    rewrite (wf_weight sc Hwf a Ha), Hins, Hctime. unfold dur.
    destruct (a_src a) as [|x]; [done|]. simpl.
    rewrite (wf_t sc Hwf), Hcirc, length_seq in Hlt.
    rewrite lookup_app_l by lia.
    destruct (ckt !! x) as [g|] eqn:Hg; simpl.
    + apply HWg. by eapply list_elem_of_lookup_2.
    + by rewrite duration_in_cycles_0.
  - rewrite (wf_t sc Hwf), Hcirc, length_seq.
    replace (Z.of_nat (Datatypes.S (length ckt)) + 1) with (Z.of_nat (length ckt) + 2) by lia.
    done.
Qed.

Lemma sample_asap_le a :
  let sc := set_cycle (H := openql_decls) forward_scheduling sample_sched in
  a ∈ arcs sc → cyc (instruction sc) (a_src a) ≤ cyc (instruction sc) (a_tgt a).
Proof.
  intros sc Ha.
  pose proof (set_cycle_forward_honoured (H := openql_decls) sample_sched 2
                openql_decls_ok sample_wf sample_fit a Ha) as Hh.
  pose proof (wf_weight_nonneg sample_sched sample_wf a Ha). unfold honours in Hh.
  unfold sc. lia.
Qed.

(** ** The passes return well-formed scheduler objects *)

Lemma wf_schedule_alap_uniform `{Decls} sc W :
  decls_ok → wf_sched sc → weights_fit sc W → wf_sched (schedule_alap_uniform sc).
Proof.
  intros Hok Hwf Hfit.
  destruct (uniform_inv_final sc W Hok Hwf Hfit) as (st & Hst & (_ & _ & Hh & _)).
  pose proof (uniform_frame sc) as (Hp & Hf & Ha & Hs & Ht & Hct & _).
  unfold schedule_alap_uniform in *.
  set (sc1 := set_cycle forward_scheduling sc) in *.
  set (sc2 := set_remaining forward_scheduling sc1) in *.
  set (ins := u_ins _) in *.
  apply wf_sort_by_cycle.
  - apply (wf_sched_ext sc); try done.
    cbn [circp with_instruction]. apply Hwf.
  - cbn [arcs instruction with_instruction]. intros a Ha'.
    cbn [instruction sort_by_cycle with_circp with_instruction] in Hst.
    change (arcs sc2) with (arcs sc) in Ha'.
    pose proof (Hh a Ha') as Hha. rewrite <- Hst in Hha. unfold honours in Hha.
    pose proof (wf_weight_nonneg sc Hwf a Ha'). lia.
Qed.

Lemma sample_rc_returns dir :
  ∃ sc' rm', schedule (H := openql_decls) (H0 := rm_one) 20 sample_sched dir
               sample_platform [] = Returns (sc', rm').
Proof.
  destruct dir.
  - destruct (schedule _ _ _ _ _) as [[sc' rm']|] eqn:Hrun; [eauto|].
    vm_compute in Hrun. discriminate.
  - destruct (schedule _ _ _ _ _) as [[sc' rm']|] eqn:Hrun; [eauto|].
    vm_compute in Hrun. discriminate.
Qed.

(** ** The circuit of a kernel *)

Lemma cyc_total (ins : list gate) n : cyc ins n = cycle (ins !!! n).
Proof.
  unfold cyc. rewrite list_lookup_total_alt. by destruct (ins !! n).
Qed.

Lemma nondecreasing_fmap {A B} (f : B → Z) (g : A → B) (l : list A) :
  nondecreasing (λ x, f (g x)) l → nondecreasing f (g <$> l).
Proof.
  induction l as [|x l IH]; simpl; [done|]. intros [Hx Hl]. split; [|by apply IH].
  by apply Forall_fmap.
Qed.

Lemma nondecreasing_ext {A} (f g : A → Z) (l : list A) :
  (∀ x, f x = g x) → nondecreasing f l → nondecreasing g l.
Proof.
  intros Hfg. induction l as [|x l IH]; simpl; [done|]. intros [Hx Hl].
  split; [|by apply IH]. eapply Forall_impl; [done|]. intros y. simpl. by rewrite !Hfg.
Qed.

Lemma with_circuit_of_frame (sc sc' : Scheduler) kernel :
  circp sc' ≡ₚ circp sc →
  frame <$> instruction sc' = frame <$> instruction sc →
  frame <$> c (with_circuit_of sc' kernel) ≡ₚ frame <$> c (with_circuit_of sc kernel).
Proof.
  intros Hp Hf. unfold with_circuit_of. cbn [c].
  rewrite <- !list_fmap_compose.
  assert (∀ n, (frame ∘ (λ n, instruction sc' !!! n)) n
               = (frame ∘ (λ n, instruction sc !!! n)) n) as Heq.
  { intros n. unfold compose.
    assert (frame <$> (instruction sc' !! n) = frame <$> (instruction sc !! n)) as Hn
      by by rewrite <- !list_lookup_fmap, Hf.
    rewrite !list_lookup_total_alt. revert Hn.
    generalize (instruction sc' !! n) (instruction sc !! n).
    intros [g1|] [g2|] Hn; simpl in *; congruence. }
  rewrite (list_fmap_ext _ _ (circp sc') (λ _ x _, Heq x)).
  by rewrite Hp.
Qed.

Lemma with_circuit_of_sorted (sc : Scheduler) kernel :
  nondecreasing (cyc (instruction sc)) (circp sc) →
  nondecreasing cycle (c (with_circuit_of sc kernel)).
Proof.
  intros Hs. unfold with_circuit_of. cbn [c]. apply nondecreasing_fmap.
  eapply nondecreasing_ext; [|done]. intros x. apply cyc_total.
Qed.

(** * Further properties of the code *)

(** ** The construction of the dependence graph *)

(** X1.  [Scheduler::init] returns, without an error of a vector access
    and without the error of the acyclicity check, for every circuit
    whose gates name qubits and classical registers of the kernel, when
    no gate that the catch-all rules handle names an operand twice. *)
Theorem init_returns_on_valid_operands `{Decls} (opts : Options) (ckt : list gate)
    (platform : quantum_platform) (qcount ccount : nat) :
  (∀ g, g ∈ ckt → operands_in_range qcount ccount g) →
  (∀ g, g ∈ ckt → catch_all g → NoDup (operands g) ∧ NoDup (creg_operands g)) →
  ∃ sc, init opts ckt platform qcount ccount = Ok sc.
Proof. apply init_returns. Qed.

Lemma init_returns_on_valid_operands_witness :
  ∃ sc, init (H := openql_decls) (sample_options "ASAP" "no" "yes") sample_circuit
          sample_platform 3 0 = Ok sc.
Proof.
  apply (init_returns_on_valid_operands (H := openql_decls)).
  - exact sample_in_range.
  - intros g Hg _. exact (sample_no_repeat g Hg).
Defined.

(** X2.  A gate that the catch-all rules handle and that names a qubit
    twice makes [Scheduler::init] throw the error of the acyclicity
    check: the second access to the qubit finds the gate itself as the
    last writer and adds an arc from the gate to itself. *)
Theorem init_repeated_operand_not_a_dag `{Decls} (opts : Options) (ckt : list gate)
    (platform : quantum_platform) (qcount ccount : nat) (g : gate) :
  (∀ g, g ∈ ckt → operands_in_range qcount ccount g) →
  g ∈ ckt → catch_all g → ¬ NoDup (operands g) →
  init opts ckt platform qcount ccount = Fatal "The dependence graph is not a DAG.".
Proof. apply init_repeated_operand. Qed.

Lemma init_repeated_operand_not_a_dag_witness :
  init (H := openql_decls) (sample_options "ASAP" "no" "yes")
    [sample_gate "h" [0%nat] 20; sample_gate "swap" [1%nat; 1%nat] 40] sample_platform 3 0
  = Fatal "The dependence graph is not a DAG.".
Proof.
  apply (init_repeated_operand_not_a_dag (H := openql_decls) _ _ _ _ _
           (sample_gate "swap" [1%nat; 1%nat] 40)).
  - intros g. rewrite !elem_of_cons, elem_of_nil.
    intros [->|[->|[]]]; split; simpl; intros q;
      rewrite ?elem_of_cons, ?elem_of_nil; intros Hq; decompose [or] Hq; subst; try done; lia.
  - rewrite !elem_of_cons. right. by left.
  - repeat split; done.
  - simpl. intros Hnd. apply NoDup_cons in Hnd as [Hnd _]. apply Hnd. by left.
Defined.




(** X5.  Unless the option [scheduler_commute] is [no], the graph
    [Scheduler::init] returns has no arc of kind RAR and none of kind
    DAD: two reads of a qubit, and two uses of it as a target, are not
    ordered. *)
Theorem init_commute_no_RAR_DAD `{Decls} (opts : Options) (ckt : list gate)
    (platform : quantum_platform) (qcount ccount : nat) (sc : Scheduler) :
  opt_scheduler_commute opts ≠ "no" →
  init opts ckt platform qcount ccount = Ok sc →
  ∀ a, a ∈ arcs sc → depType a ≠ RAR ∧ depType a ≠ DAD.
Proof.
  intros Hyes Hinit.
  apply (init_arcs (λ a, depType a ≠ RAR ∧ depType a ≠ DAD) opts ckt platform
           qcount ccount sc); [|done].
  intros ins consID k q b b'. by apply dep_of_commute.
Qed.

Lemma init_commute_no_RAR_DAD_witness :
  Forall (λ a, depType a ≠ RAR ∧ depType a ≠ DAD) (arcs sample_sched).
Proof.
  apply Forall_forall.
  apply (init_commute_no_RAR_DAD (H := openql_decls) (sample_options "ASAP" "no" "yes")
           sample_circuit sample_platform 3 0 sample_sched).
  - simpl. discriminate.
  - exact sample_init.
Defined.

(** X6.  Two CNOTs with the same control qubit and different target
    qubits: [Scheduler::init] returns a graph with an arc from the first
    to the second exactly when the option [scheduler_commute] is [no];
    ASAP then gives the second a cycle later by the duration of the
    first in cycles, and with any other value of the option it gives
    both the cycle after SOURCE. *)
Theorem two_cnots_sharing_control `{Decls} (opts : Options) (platform : quantum_platform)
    (qcount ccount : nat) (g1 g2 : gate) (c t1 t2 : nat) :
  let ct := pf_cycle_time platform in
  let w0 := duration_in_cycles SOURCE_duration ct in
  let w1 := duration_in_cycles (duration g1) ct in
  let w2 := duration_in_cycles (duration g2) ct in
  decls_ok → 0 ≤ SOURCE_duration → 0 ≤ SINK_duration → 0 < ct →
  stripname (name g1) = "cnot" → stripname (name g2) = "cnot" →
  type g1 ≠ classical_gate → type g2 ≠ classical_gate →
  operands g1 = [c; t1] → operands g2 = [c; t2] →
  c ≠ t1 → c ≠ t2 → t1 ≠ t2 →
  (c < qcount)%nat → (t1 < qcount)%nat → (t2 < qcount)%nat →
  0 ≤ duration g1 → 0 ≤ duration g2 →
  4 * Z.max w0 (Z.max w1 w2) ≤ ALAP_SINK_CYCLE →
  ∃ sc, init opts [g1; g2] platform qcount ccount = Ok sc ∧
        ((∃ a, a ∈ arcs sc ∧ a_src a = 1%nat ∧ a_tgt a = 2%nat)
         ↔ opt_scheduler_commute opts = "no") ∧
        cyc (instruction (schedule_asap sc)) 1 = w0 ∧
        cyc (instruction (schedule_asap sc)) 2
        = if String.eqb (opt_scheduler_commute opts) "no" then w0 + w1 else w0.
Proof.
  intros ct w0 w1 w2 Hok HdS HdT Hct Hn1 Hn2 Hty1 Hty2 Ho1 Ho2 Hc1 Hc2 H12 Hc Ht1 Ht2
    Hd1 Hd2 Hfit.
  pose proof (two_cnots_asap opts platform qcount ccount g1 g2 c t1 t2
                Hn1 Hn2 Hty1 Hty2 Ho1 Ho2 Hc1 Hc2 H12 Hc Ht1 Ht2
                Hok HdS HdT Hct Hd1 Hd2 Hfit)
    as (sc & Hinit & Hcyc1 & Hcyc2).
  pose proof (two_cnots_init opts platform qcount ccount g1 g2 c t1 t2
                Hn1 Hn2 Hty1 Hty2 Ho1 Ho2 Hc1 Hc2 H12 Hc Ht1 Ht2)
    as (sc' & Hinit' & Hin & Hout).
  rewrite Hinit in Hinit'. injection Hinit' as <-. cbv zeta in Hin, Hout.
  exists sc. split; [done|]. split; [|by split]. split.
  - intros (a & Ha & Hs & Ht).
    destruct (String.eqb_spec (opt_scheduler_commute opts) "no") as [?|Hne]; [done|].
    exfalso. apply Hout in Ha as [Ha|Ha]; [|lia].
    rewrite elem_of_cons, elem_of_app, !elem_of_cons, !elem_of_nil in Ha.
    decompose [or] Ha; subst; simpl in *; done.
  - intros Hno%String.eqb_eq. rewrite Hno in Hin.
    exists (mkArc 1 2 (duration_in_cycles (dur (SOURCE :: [g1; g2] ++ [SINK]) 1) ct) c RAR).
    split; [|done]. apply Hin. rewrite elem_of_cons, elem_of_app, !elem_of_cons.
    right. left. left. reflexivity.
Qed.

Lemma two_cnots_sharing_control_witness :
  ∃ sc, init (H := openql_decls) (sample_options "ASAP" "no" "no")
          [sample_gate "cnot" [0; 1]%nat 40; sample_gate "cnot" [0; 2]%nat 40]
          sample_platform 3 0 = Ok sc ∧
        cyc (instruction (schedule_asap (H := openql_decls) sc)) 1 = 1 ∧
        cyc (instruction (schedule_asap (H := openql_decls) sc)) 2 = 3.
Proof.
  pose proof (two_cnots_sharing_control (H := openql_decls) (sample_options "ASAP" "no" "no")
                sample_platform 3 0
                (sample_gate "cnot" [0; 1]%nat 40) (sample_gate "cnot" [0; 2]%nat 40)
                0%nat 1%nat 2%nat
                openql_decls_ok ltac:(simpl; lia) ltac:(simpl; lia) ltac:(simpl; lia)
                eq_refl eq_refl ltac:(discriminate) ltac:(discriminate) eq_refl eq_refl
                ltac:(lia) ltac:(lia) ltac:(lia) ltac:(lia) ltac:(lia) ltac:(lia)
                ltac:(simpl; lia) ltac:(simpl; lia) ltac:(vm_compute; discriminate))
    as (sc & Hinit & _ & H1 & H2).
  exists sc. split; [exact Hinit|]. split; [exact H1|exact H2].
Defined.



(** ** Scheduling without resource constraints *)





(** X10.  [sort_by_cycle] rearranges the circuit and nothing else: the
    gates come in non-decreasing order of their cycles, those of one
    cycle in the order they had; and when no arc leads to a node of a
    lower cycle, the sorted circuit is again a topological order of the
    dependence graph. *)
Theorem sort_by_cycle_stable_topological (sc : Scheduler) :
  wf_sched sc →
  (∀ a, a ∈ arcs sc → cyc (instruction sc) (a_src a) ≤ cyc (instruction sc) (a_tgt a)) →
  let sc' := sort_by_cycle sc in
  circp sc' ≡ₚ circp sc ∧
  nondecreasing (cyc (instruction sc)) (circp sc') ∧
  (∀ c, filter (λ x, cyc (instruction sc) x = c) (circp sc')
        = filter (λ x, cyc (instruction sc) x = c) (circp sc)) ∧
  instruction sc' = instruction sc ∧ arcs sc' = arcs sc ∧
  wf_sched sc' ∧
  (∀ P v Q a, circp sc' = P ++ v :: Q → a ∈ arcs sc →
              (a_tgt a = v → a_src a ∉ Q) ∧ (a_src a = v → a_tgt a ∉ P)).
Proof.
  intros Hwf Hle sc'.
  pose proof (wf_sort_by_cycle sc Hwf Hle) as Hwf'. fold sc' in Hwf'.
  split_and!; try done.
  - apply stable_sort_Permutation.
  - apply (stable_sort_sorted (cyc (instruction sc))).
  - intros c. apply (stable_sort_stable (cyc (instruction sc))).
  - intros P v Q a Hsplit Ha.
    pose proof (wf_NoDup_circp sc' Hwf') as Hnd. rewrite Hsplit in Hnd.
    apply NoDup_app in Hnd as (_ & HPv & HvQ%NoDup_cons).
    destruct HvQ as [HvQ _].
    destruct (wf_topo sc' Hwf' P v Q a Hsplit Ha) as [Hin Hout].
    pose proof (wf_s_not_circp sc' Hwf') as Hs. pose proof (wf_t_not_circp sc' Hwf') as Ht.
    rewrite Hsplit in Hs, Ht. split.
    + intros Hv HQ. destruct (Hin Hv) as [Heq|HP].
      * apply Hs. rewrite <- Heq. set_solver.
      * apply (HPv _ HP). set_solver.
    + intros Hv HP. destruct (Hout Hv) as [Heq|HQ].
      * apply Ht. rewrite <- Heq. set_solver.
      * apply (HPv _ HP). set_solver.
Qed.

Lemma sort_by_cycle_stable_topological_witness :
  let sc := set_cycle (H := openql_decls) forward_scheduling sample_sched in
  circp (sort_by_cycle sc) ≡ₚ circp sc ∧
  nondecreasing (cyc (instruction sc)) (circp (sort_by_cycle sc)) ∧
  wf_sched (sort_by_cycle sc).
Proof.
  intros sc.
  pose proof (sort_by_cycle_stable_topological sc
                (wf_set_cycle (H := openql_decls) forward_scheduling sample_sched sample_wf)
                sample_asap_le)
    as (H1 & H2 & _ & _ & _ & H6 & _).
  split; [exact H1|]. split; [exact H2|exact H6].
Defined.



(** ** Criticality *)

(** X12.  [set_remaining] for backward scheduling computes, as its
    comment says, the ASAP value: the remaining cycles of a node until
    SOURCE are the cycle [schedule_asap] gives the node. *)
Theorem remaining_backward_is_asap_cycle `{Decls} (sc : Scheduler) (x : nat) :
  wf_sched sc → (x ≤ t sc)%nat →
  rem (remaining (set_remaining backward_scheduling sc)) x
  = cyc (instruction (schedule_asap sc)) x.
Proof. intros Hwf Hx. by apply remaining_backward_asap. Qed.

Lemma remaining_backward_is_asap_cycle_witness :
  rem (remaining (set_remaining backward_scheduling sample_sched)) 2
  = cyc (instruction (schedule_asap (H := openql_decls) sample_sched)) 2.
Proof.
  apply (remaining_backward_is_asap_cycle (H := openql_decls) sample_sched 2 sample_wf).
  rewrite sample_t. lia.
Defined.



(** X14.  [find_mostcritical] returns the first gate of the list with
    the most remaining cycles: the gates before it have fewer, those
    after it no more.  It returns the null pointer when no gate of the
    list has remaining cycles, as for the empty list. *)
Theorem find_mostcritical_first_maximum (r : gmap nat Z) (lg : list nat) :
  match find_mostcritical r lg with
  | Some g =>
      0 < rem r g ∧
      ∃ l1 l2, lg = l1 ++ g :: l2 ∧
               (∀ x, x ∈ l1 → rem r x < rem r g) ∧ (∀ x, x ∈ l2 → rem r x ≤ rem r g)
  | None => ∀ x, x ∈ lg → rem r x ≤ 0
  end.
Proof.
  pose proof (find_mostcritical_fold r lg) as Hfold. cbv zeta in Hfold.
  unfold find_mostcritical.
  destruct (foldl _ _ lg) as [res M]. cbn [fst snd] in *.
  destruct Hfold as (HM & Hle & Hres).
  destruct res as [g|].
  - destruct Hres as (Hg & HM0 & l1 & l2 & -> & Hl1).
    split; [lia|]. exists l1, l2. split; [done|]. split.
    + intros x Hx. specialize (Hl1 x Hx). lia.
    + intros x Hx. rewrite Hg. apply Hle. set_solver.
  - intros x Hx. specialize (Hle x Hx). lia.
Qed.

(** ** Scheduling with resource constraints *)





(** ** The uniforming pass *)



(** ** Matrices *)

(** X18.  A matrix made from a vector of data and a number of columns
    that divides its size holds the data row by row: it has the size
    divided by the columns as its rows, [at] returns for every row and
    column within these bounds, counted from 1, the element of the data
    at [(row - 1) * ncols + col - 1], and throws for every other
    position. *)
Theorem Matrix_of_data_at {T : Type} (data : list T) (ncols : Z) (m : Matrix T) :
  0 < ncols → Z.of_nat (length data) < 2 ^ 64 →
  Matrix_of_data data ncols = Ok m →
  get_data m = data ∧ size_cols m = ncols ∧
  size_rows m * ncols = Z.of_nat (length data) ∧
  ∀ row col,
    (1 ≤ row ≤ size_rows m → 1 ≤ col ≤ size_cols m →
     ∃ x, Matrix_at m row col = Ok x ∧
          data !! Z.to_nat ((row - 1) * ncols + col - 1) = Some x) ∧
    (row < 1 ∨ size_rows m < row ∨ col < 1 ∨ size_cols m < col →
     Matrix_at m row col = Fatal "matrix index out of range").
Proof.
  intros Hc Hlen. unfold Matrix_of_data.
  destruct (decide (ncols = 0)); [lia|].
  destruct (decide (Z.of_nat (length data) mod ncols ≠ 0)) as [|Hmod]; [done|].
  intros [= <-]. unfold get_data, size_cols, size_rows. cbn [m_data m_nrows m_ncols].
  assert (Z.of_nat (length data) mod ncols = 0) as Hmod' by lia.
  assert (Z.of_nat (length data) / ncols * ncols = Z.of_nat (length data)) as Hsize.
  { pose proof (Z.div_mod (Z.of_nat (length data)) ncols ltac:(lia)). lia. }
  split_and!; [done..|]. intros row col. split.
  - intros Hrow Hcol.
    apply (Matrix_at_in_range (mkMatrix data (Z.of_nat (length data) / ncols) ncols));
      cbn [m_data m_nrows m_ncols]; try done; try lia.
  - apply (Matrix_at_out_of_range (mkMatrix data (Z.of_nat (length data) / ncols) ncols)).
Qed.

Lemma Matrix_of_data_at_witness :
  ∃ m, Matrix_of_data [10; 20; 30; 40; 50; 60] 3 = Ok m ∧
       size_rows m * 3 = 6 ∧ Matrix_at m 2 1 = Ok 40.
Proof.
  exists (mkMatrix [10; 20; 30; 40; 50; 60] 2 3).
  pose proof (Matrix_of_data_at [10; 20; 30; 40; 50; 60] 3
                (mkMatrix [10; 20; 30; 40; 50; 60] 2 3)
                ltac:(lia) ltac:(simpl; lia) eq_refl) as (_ & _ & H3 & _).
  split; [reflexivity|]. split; [exact H3|reflexivity].
Defined.

(** X19.  The zero-initialized matrix of [nrows] rows and [ncols]
    columns, when their product is within the 64-bit integers: [at]
    returns the default element for every position within the bounds. *)
Theorem Matrix_zero_at {T : Type} (zero : T) (nrows ncols row col : Z) :
  0 ≤ nrows → 0 ≤ ncols → nrows * ncols < 2 ^ 64 →
  1 ≤ row ≤ nrows → 1 ≤ col ≤ ncols →
  Matrix_at (Matrix_zero zero nrows ncols) row col = Ok zero.
Proof.
  intros Hr Hc Hsize Hrow Hcol.
  assert (0 ≤ nrows * ncols) as Hnn by (apply Z.mul_nonneg_nonneg; lia).
  destruct (Matrix_at_in_range (Matrix_zero zero nrows ncols) row col) as (x & -> & Hx);
    unfold Matrix_zero in *; cbn [m_data m_nrows m_ncols] in *;
    rewrite ?length_replicate, ?wrap64_small by lia; try lia.
  apply lookup_replicate in Hx as [-> _]. done.
Qed.

Lemma Matrix_zero_at_witness : Matrix_at (Matrix_zero 0 2 3) 2 3 = Ok 0.
Proof. apply Matrix_zero_at; lia. Defined.

(** ** The dependence matrix and the gate name *)

(** X20.  For the graph of a circuit of [n] gates,
    [write_dependence_matrix] writes [n] rows of [n] entries, SOURCE and
    SINK left out: the entry [j] of row [i], both counted from 0, is set
    exactly when an arc leads from gate [j + 1] to gate [i + 1], so that
    row [i] marks the gates that gate [i + 1] depends on, and only
    entries below the diagonal are set. *)
Theorem write_dependence_matrix_entries (sc : Scheduler) :
  wf_sched sc →
  ∃ M, write_dependence_matrix true sc = Ok (Some M) ∧
       length M = length (circp sc) ∧
       ∀ i j, (i < length (circp sc))%nat → (j < length (circp sc))%nat →
         ∃ row b, M !! i = Some row ∧ length row = length (circp sc) ∧
                  row !! j = Some b ∧
                  (b = true ↔ ∃ a, a ∈ arcs sc ∧ a_src a = Datatypes.S j ∧
                                   a_tgt a = Datatypes.S i) ∧
                  (b = true → (j < i)%nat).
Proof.
  intros Hwf. unfold write_dependence_matrix. cbn [negb].
  rewrite (wf_instruction sc Hwf).
  replace (Datatypes.S (Datatypes.S (length (circp sc))) - 2)%nat
    with (length (circp sc)) by lia.
  eexists. split; [reflexivity|]. split; [by rewrite length_fmap, length_seq|].
  intros i j Hi Hj.
  exists ((λ j, Matrix_entry (arcs sc) j (1 + i)) <$> seq 1 (length (circp sc))),
         (Matrix_entry (arcs sc) (1 + j) (1 + i)).
  split_and!.
  - by rewrite list_lookup_fmap, lookup_seq_lt.
  - by rewrite length_fmap, length_seq.
  - by rewrite list_lookup_fmap, lookup_seq_lt.
  - apply Matrix_entry_spec.
  - intros (a & Ha & Hs & Ht)%Matrix_entry_spec.
    pose proof (wf_arcs sc Hwf a Ha). lia.
Qed.

Lemma write_dependence_matrix_entries_witness :
  write_dependence_matrix true sample_sched
  = Ok (Some [[false; false; false]; [true; false; false]; [false; false; false]]) ∧
  ∃ M, write_dependence_matrix true sample_sched = Ok (Some M) ∧
       length M = length (circp sample_sched).
Proof.
  split; [by vm_compute|].
  destruct (write_dependence_matrix_entries sample_sched sample_wf) as (M & H1 & H2 & _).
  exists M. split; [exact H1|exact H2].
Defined.

(** X21.  [stripname] keeps of a gate name what comes before its first
    blank: the result has no blank, the name is the result followed by
    nothing or by a blank and the parameters, and a name without a blank
    is returned as it is. *)
Theorem stripname_up_to_first_blank (nm : string) :
  ¬ In " "%char (String.list_ascii_of_string (stripname nm)) ∧
  (∃ rest, nm = (stripname nm +:+ rest)%string ∧
           (rest = EmptyString ∨ ∃ r, rest = String " "%char r)) ∧
  (¬ In " "%char (String.list_ascii_of_string nm) → stripname nm = nm) ∧
  stripname (stripname nm) = stripname nm.
Proof.
  split_and!.
  - apply stripname_no_blank.
  - apply stripname_prefix.
  - apply stripname_id.
  - apply stripname_id, stripname_no_blank.
Qed.

(** ** The entry point *)



(** ** The order of the available list *)

Section high_to_low.
Context (lt : nat → nat → bool).
Hypothesis lt_asym : ∀ x y, lt x y = true → lt y x = false.
Hypothesis lt_trans : ∀ x y z, lt x y = true → lt y z = true → lt x z = true.

Lemma high_to_low_filter (P : nat → Prop) `{∀ x, Decision (P x)} l :
  high_to_low lt l → high_to_low lt (filter P l).
Proof.
  induction l as [|x l IH]; simpl; [done|]. intros [Hx Hl].
  rewrite filter_cons. destruct (decide (P x)); [|by apply IH].
  split; [|by apply IH]. apply Forall_forall. intros y [_ Hy]%list_elem_of_filter.
  by apply (proj1 (Forall_forall _ _) Hx).
Qed.

(** Insertion before the first lower element keeps the order. *)
Lemma insert_before_lower_high_to_low n l :
  high_to_low lt l → high_to_low lt (insert_before_lower (λ inp, lt inp n) n l).
Proof.
  induction l as [|x l IH]; simpl.
  - intros _. split; [constructor|done].
  - intros [Hx Hl]. destruct (lt x n) eqn:Hxn; simpl.
    + split; [|done]. constructor.
      * destruct (lt n x) eqn:Hnx; [|done]. apply lt_asym in Hnx. congruence.
      * apply Forall_forall. intros y Hy.
        destruct (lt n y) eqn:Hny; [|done].
        pose proof (lt_trans x n y Hxn Hny) as Hxy.
        rewrite (proj1 (Forall_forall _ _) Hx y Hy) in Hxy. done.
    + split; [|by apply IH]. rewrite insert_before_lower_Permutation.
      by constructor.
Qed.
End high_to_low.

Section avlist_order.
Context `{Decls} {R : Type} `{resource_manager_t R}.
Variables (sc : Scheduler) (dir : scheduling_direction_t) (platform : quantum_platform).

Lemma less_critical_true n1 n2 :
  less_critical sc dir n1 n2 = true ↔
  criticality_lessthan (length (instruction sc)) (arcs sc) (remaining sc) n1 n2 dir = Some true.
Proof.
  unfold less_critical. destruct (criticality_lessthan _ _ _ _ _ _) as [[]|]; simpl;
    split; congruence.
Qed.

Lemma less_critical_asym x y :
  less_critical sc dir x y = true → less_critical sc dir y x = false.
Proof.
  rewrite less_critical_true. intros Hxy%criticality_lessthan_asym.
  unfold less_critical. by rewrite Hxy.
Qed.

Lemma less_critical_trans x y z :
  less_critical sc dir x y = true → less_critical sc dir y z = true →
  less_critical sc dir x z = true.
Proof. rewrite !less_critical_true. apply criticality_lessthan_trans. Qed.

Lemma MakeAvailable_high_to_low n st :
  high_to_low (less_critical sc dir) st.2 →
  high_to_low (less_critical sc dir) (MakeAvailable sc n dir st).2.
Proof.
  destruct st as [ins avlist]. unfold MakeAvailable. cbn [snd].
  case_bool_decide; cbn [snd]; [done|].
  apply insert_before_lower_high_to_low; [apply less_critical_asym|apply less_critical_trans].
Qed.

Lemma TakeAvailable_high_to_low n ins avlist scheduled :
  high_to_low (less_critical sc dir) avlist →
  high_to_low (less_critical sc dir) (TakeAvailable sc n dir ins avlist scheduled).1.2.
Proof.
  intros Hs. unfold TakeAvailable; cbn [fst snd].
  assert (high_to_low (less_critical sc dir) (ins, filter (λ x, x ≠ n) avlist).2) as Hst
    by by apply high_to_low_filter.
  revert Hst. generalize (ins, filter (λ x, x ≠ n) avlist).
  induction (dep_arcs (arcs sc) dir n) as [|a l IH]; intros st Hst; simpl; [done|].
  apply IH. case_match; [by apply MakeAvailable_high_to_low|done].
Qed.

Lemma schedule_step_high_to_low st :
  high_to_low (less_critical sc dir) (rc_avlist st) →
  high_to_low (less_critical sc dir) (rc_avlist (schedule_step sc dir platform st)).
Proof.
  intros Hs. unfold schedule_step.
  destruct (SelectAvailable _ _ _ _ _ _ _) as [n|]; [|done].
  pose proof (TakeAvailable_high_to_low n
                (set_cyc n (rc_curr_cycle st) (rc_ins st)) (rc_avlist st)
                (rc_scheduled st) Hs) as Ht.
  by destruct (TakeAvailable _ _ _ _ _ _) as [[??]?].
Qed.

Lemma high_to_low_lookup {A} (lt : A → A → bool) (l : list A) i j x y :
  high_to_low lt l → (i < j)%nat → l !! i = Some x → l !! j = Some y → lt x y = false.
Proof.
  revert i j. induction l as [|z l IH]; intros i j Hs Hij Hi Hj; [done|].
  destruct Hs as [Hz Hl]. destruct j as [|j]; [lia|]. simpl in Hj.
  destruct i as [|i]; simpl in Hi.
  - simplify_eq. apply (proj1 (Forall_forall _ _) Hz). by eapply list_elem_of_lookup_2.
  - apply (IH i j); [done|lia|done..].
Qed.

(** The node [SelectAvailable] returns is immediately schedulable, and
    of the immediately schedulable nodes of an ordered list none is
    more critical. *)
Lemma SelectAvailable_most_critical avlist curr_cycle (rm : R) ins n :
  high_to_low (less_critical sc dir) avlist →
  SelectAvailable sc avlist dir curr_cycle platform rm ins = Some n →
  n ∈ avlist ∧ immediately_schedulable sc n dir curr_cycle platform rm ins = true ∧
  ∀ y, y ∈ avlist → immediately_schedulable sc y dir curr_cycle platform rm ins = true →
       less_critical sc dir n y = false.
Proof.
  intros Hs. unfold SelectAvailable.
  destruct (list_find _ avlist) as [[i x]|] eqn:Hfind; [|done].
  simpl. intros [= ->]. apply list_find_Some in Hfind as (Hi & Hx & Hfirst).
  split; [by eapply list_elem_of_lookup_2|]. split; [done|].
  intros y [j Hj]%list_elem_of_lookup Hy.
  destruct (decide (j < i)%nat) as [Hlt|Hge].
  - by destruct (Hfirst j y Hj Hlt).
  - destruct (decide (j = i)) as [->|Hne].
    + simplify_eq. destruct (less_critical sc dir n n) eqn:Hnn; [|done].
      pose proof (less_critical_asym _ _ Hnn). congruence.
    + apply (high_to_low_lookup _ avlist i j); [done|lia|done..].
Qed.
End avlist_order.

(** ** The available list of the list scheduler *)

(** X23.  The available list of [Scheduler::schedule] is ordered from
    high to low criticality, as the comments of [MakeAvailable] and
    [SelectAvailable] say: after any number of rounds of the loop no
    node of the list is less critical than a node behind it, by the
    comparison [MakeAvailable] inserts with.  So the node
    [SelectAvailable] returns is a most critical one of the nodes of the
    list that are immediately schedulable. *)
Theorem avlist_ordered_by_criticality `{Decls} {R : Type} `{resource_manager_t R}
    (sc : Scheduler) (dir : scheduling_direction_t) (platform : quantum_platform)
    (rm : R) (rounds : nat) :
  let st := Nat.iter rounds (schedule_step sc dir platform) (schedule_init sc dir rm) in
  high_to_low (less_critical sc dir) (rc_avlist st) ∧
  (∀ i j x y, (i < j)%nat → rc_avlist st !! i = Some x → rc_avlist st !! j = Some y →
              less_critical sc dir x y = false) ∧
  (∀ n, SelectAvailable sc (rc_avlist st) dir (rc_curr_cycle st) platform (rc_rm st)
          (rc_ins st) = Some n →
        n ∈ rc_avlist st ∧
        immediately_schedulable sc n dir (rc_curr_cycle st) platform (rc_rm st) (rc_ins st)
        = true ∧
        ∀ y, y ∈ rc_avlist st →
             immediately_schedulable sc y dir (rc_curr_cycle st) platform (rc_rm st)
               (rc_ins st) = true →
             less_critical sc dir n y = false).
Proof.
  intros st.
  assert (high_to_low (less_critical sc dir) (rc_avlist st)) as Hs.
  { unfold st. induction rounds as [|k IH]; simpl.
    - unfold schedule_init. destruct dir; simpl; (split; [constructor|done]).
    - by apply schedule_step_high_to_low. }
  split; [done|]. split.
  - intros i j x y. by apply high_to_low_lookup.
  - intros n. by apply SelectAvailable_most_critical.
Qed.

(** X24.  [get_depending_nodes] appends to the list it is given the
    nodes that depend directly on the node, each once, also when
    several arcs lead to one of them: a list without duplicates stays
    without duplicates, it keeps its elements in front, and the nodes
    added are the targets of the arcs leaving the node, for backward
    scheduling the sources of the arcs reaching it. *)
Theorem get_depending_nodes_no_duplicates (g : list Arc) (n : nat)
    (dir : scheduling_direction_t) (ln : list nat) :
  NoDup ln →
  NoDup (get_depending_nodes g n dir ln) ∧
  (∃ added, get_depending_nodes g n dir ln = ln ++ added) ∧
  ∀ d, d ∈ get_depending_nodes g n dir ln ↔
       d ∈ ln ∨ ∃ a, a ∈ g ∧ depended dir a = n ∧ depending dir a = d.
Proof.
  intros Hnd. split_and!.
  - unfold get_depending_nodes. revert ln Hnd.
    induction (dep_arcs g dir n) as [|a l IH]; intros ln Hnd; simpl; [done|].
    apply IH. case_decide; [done|].
    apply NoDup_app. split; [done|]. split; [|apply NoDup_singleton].
    intros x Hx ->%list_elem_of_singleton. done.
  - unfold get_depending_nodes. clear Hnd. revert ln.
    induction (dep_arcs g dir n) as [|a l IH]; intros ln; simpl.
    + exists []. by rewrite app_nil_r.
    + case_decide; [apply IH|].
      destruct (IH (ln ++ [depending dir a])) as [added ->].
      exists (depending dir a :: added). by rewrite <- app_assoc.
  - intros d. rewrite elem_of_get_depending_nodes.
    setoid_rewrite elem_of_dep_arcs. naive_solver.
Qed.

Lemma get_depending_nodes_no_duplicates_witness :
  get_depending_nodes (arcs sample_sched) 2 forward_scheduling [] = [4%nat] ∧
  NoDup (get_depending_nodes (arcs sample_sched) 2 forward_scheduling []).
Proof.
  split; [by vm_compute|].
  apply (get_depending_nodes_no_duplicates (arcs sample_sched) 2 forward_scheduling []).
  apply NoDup_nil_2.
Defined.

(** ** Arc weights of durations below 2^24 *)

Lemma rne_le n d k : 0 < d → n ≤ k * d → rne n d ≤ k.
Proof.
  intros Hd Hk. unfold rne.
  pose proof (Z.div_mod n d ltac:(lia)) as Hdm.
  pose proof (Z.mod_pos_bound n d Hd) as Hr.
  assert (n / d ≤ k) as Hq by (apply Z.div_le_upper_bound; lia).
  destruct (decide (n / d = k)) as [Heq|Hne].
  - assert (n mod d = 0) as -> by nia.
    destruct (Z.ltb_spec (2 * 0) d); lia.
  - repeat case_match; lia.
Qed.

Lemma rne_exact q d : 0 < d → rne (q * d) d = q.
Proof.
  intros Hd. unfold rne. rewrite Z.div_mul, Z.mod_mul by lia.
  destruct (Z.ltb_spec (2 * 0) d); lia.
Qed.

Lemma rne_above n d k : 0 < d → k * d ≤ n → d < 2 * (n - k * d) → k + 1 ≤ rne n d.
Proof.
  intros Hd Hk Hhalf. unfold rne.
  pose proof (Z.div_mod n d ltac:(lia)) as Hdm.
  pose proof (Z.mod_pos_bound n d Hd) as Hr.
  assert (k ≤ n / d) as Hq by (apply Z.div_le_lower_bound; lia).
  destruct (decide (n / d = k)) as [Heq|Hne].
  - assert (n mod d = n - k * d) as Hmod by nia.
    rewrite Hmod.
    destruct (Z.ltb_spec (2 * (n - k * d)) d); [lia|].
    destruct (Z.ltb_spec d (2 * (n - k * d))); lia.
  - repeat case_match; lia.
Qed.

Lemma rne_scale n d c : 0 < d → 0 < c → rne (n * c) (d * c) = rne n d.
Proof.
  intros Hd Hc. unfold rne.
  rewrite Z.div_mul_cancel_r, Z.mul_mod_distr_r by lia.
  replace (2 * (n mod d * c)) with (2 * (n mod d) * c) by lia.
  destruct (Z.ltb_spec (2 * (n mod d) * c) (d * c)),
           (Z.ltb_spec (2 * (n mod d)) d); try nia.
  destruct (Z.ltb_spec (d * c) (2 * (n mod d) * c)),
           (Z.ltb_spec d (2 * (n mod d))); try nia; done.
Qed.

Lemma mul_swap (a b c : Z) : a * b * c = a * c * b.
Proof. lia. Qed.

Lemma log2_mul_pow2 a j : 0 < a → 0 ≤ j → Z.log2 (a * 2 ^ j) = Z.log2 a + j.
Proof. intros Ha Hj. rewrite Z.log2_mul_pow2 by lia. lia. Qed.

(** Rounding a quotient does not depend on a common power of two in
    numerator and denominator. *)
Lemma f32_round_scale n d j :
  0 < n → 0 < d → 0 ≤ j → f32_round (n * 2 ^ j) (d * 2 ^ j) = f32_round n d.
Proof.
  intros Hn Hd Hj. unfold f32_round.
  assert (0 < 2 ^ j) as Hc by (apply Z.pow_pos_nonneg; lia).
  destruct (Z.leb_spec (n * 2 ^ j) 0); [nia|]. destruct (Z.leb_spec n 0); [lia|].
  rewrite !log2_mul_pow2 by lia.
  replace (Z.log2 n + j - (Z.log2 d + j)) with (Z.log2 n - Z.log2 d) by lia.
  set (l := Z.log2 n - Z.log2 d).
  assert ((if 0 <=? l then d * 2 ^ j * 2 ^ l <=? n * 2 ^ j else d * 2 ^ j <=? n * 2 ^ j * 2 ^ (- l))
          = (if 0 <=? l then d * 2 ^ l <=? n else d <=? n * 2 ^ (- l))) as ->.
  { destruct (Z.leb_spec 0 l).
    - assert (0 < 2 ^ l) by (apply Z.pow_pos_nonneg; lia).
      destruct (Z.leb_spec (d * 2 ^ j * 2 ^ l) (n * 2 ^ j)),
               (Z.leb_spec (d * 2 ^ l) n); try done; nia.
    - assert (0 < 2 ^ (- l)) by (apply Z.pow_pos_nonneg; lia).
      destruct (Z.leb_spec (d * 2 ^ j) (n * 2 ^ j * 2 ^ (- l))),
               (Z.leb_spec d (n * 2 ^ (- l))); try done; nia. }
  set (p := if (if 0 <=? l then d * 2 ^ l <=? n else d <=? n * 2 ^ (- l))
            then l - 23 else l - 24).
  destruct (Z.leb_spec 0 p).
  - f_equal. assert (0 < 2 ^ p) by (apply Z.pow_pos_nonneg; lia).
    rewrite (mul_swap d (2 ^ j) (2 ^ p)).
    apply rne_scale; nia.
  - f_equal. assert (0 < 2 ^ (- p)) by (apply Z.pow_pos_nonneg; lia).
    rewrite (mul_swap n (2 ^ j) (2 ^ (- p))).
    apply rne_scale; nia.
Qed.

(** An integer below 2^24 has a float of its own. *)
Lemma f32_of_Z_small d :
  0 < d < 2 ^ 24 →
  ∃ s, 0 ≤ s ∧ f32_num (f32_of_Z d) = d * 2 ^ s ∧ f32_den (f32_of_Z d) = 2 ^ s.
Proof.
  intros [Hd0 Hd]. unfold f32_of_Z, f32_round.
  destruct (Z.leb_spec d 0); [lia|].
  change (Z.log2 1) with 0. rewrite Z.sub_0_r.
  pose proof (Z.log2_spec d Hd0) as [Hl1 Hl2].
  pose proof (Z.log2_nonneg d) as Hl0.
  assert (Z.log2 d < 24) as Hl24 by (apply Z.log2_lt_pow2; lia).
  set (l := Z.log2 d) in *.
  destruct (Z.leb_spec 0 l); [|lia].
  destruct (Z.leb_spec (1 * 2 ^ l) d); [|lia].
  destruct (Z.leb_spec 0 (l - 23)) as [Hp|Hp].
  - assert (l - 23 = 0) as -> by lia. exists 0. split; [done|].
    change (1 * 2 ^ 0) with 1.
    replace d with (d * 1) at 1 by lia. rewrite rne_exact by lia.
    unfold f32_num, f32_den. simpl. split; [lia|done].
  - exists (- (l - 23)). split; [lia|].
    replace (d * 2 ^ (- (l - 23))) with (d * 2 ^ (- (l - 23)) * 1) at 1 by lia.
    rewrite rne_exact by lia.
    unfold f32_num, f32_den. cbn [f_m f_e].
    destruct (Z.leb_spec 0 (l - 23)); [lia|]. done.
Qed.

(** The float of an integer from 2^24 on is an integer no lower than
    2^24. *)
Lemma f32_of_Z_big c :
  2 ^ 24 ≤ c → f32_den (f32_of_Z c) = 1 ∧ 2 ^ 24 ≤ f32_num (f32_of_Z c).
Proof.
  intros Hc. unfold f32_of_Z, f32_round.
  destruct (Z.leb_spec c 0); [lia|].
  change (Z.log2 1) with 0. rewrite Z.sub_0_r.
  pose proof (Z.log2_spec c ltac:(lia)) as [Hl1 Hl2].
  assert (24 ≤ Z.log2 c) as Hl24 by (apply Z.log2_le_pow2; lia).
  set (l := Z.log2 c) in *.
  destruct (Z.leb_spec 0 l); [|lia].
  destruct (Z.leb_spec (1 * 2 ^ l) c); [|lia].
  destruct (Z.leb_spec 0 (l - 23)) as [Hp|Hp]; [|lia].
  unfold f32_num, f32_den. cbn [f_m f_e].
  destruct (Z.leb_spec 0 (l - 23)); [|lia]. split; [done|].
  assert (0 < 2 ^ (l - 23)) as Hpos by (apply Z.pow_pos_nonneg; lia).
  assert (2 ^ 23 * 2 ^ (l - 23) = 2 ^ l) as Hpow.
  { rewrite <- Z.pow_add_r by lia. f_equal. lia. }
  assert (2 ^ 23 ≤ rne c (1 * 2 ^ (l - 23))) as Hm.
  { apply rne_ge; [lia|]. rewrite Z.mul_1_l, Hpow. done. }
  assert (2 ^ 1 ≤ 2 ^ (l - 23)) as Htwo by (apply Z.pow_le_mono_r; lia).
  change (2 ^ 1) with 2 in Htwo. change (2 ^ 24) with (2 ^ 23 * 2). nia.
Qed.

Lemma ceil_neg_div m X k : 0 < X → k * X < m ≤ (k + 1) * X → - (- m / X) = k + 1.
Proof.
  intros HX Hm. assert (- m / X = - (k + 1)) as ->; [|lia].
  symmetry. apply (Z.div_unique_pos (- m) X (- (k + 1)) ((k + 1) * X - m)); lia.
Qed.

(** A quotient of at most 1 is rounded to at most 1, and up to 1. *)
Lemma f32_ceil_round_le1 n d : 0 < n ≤ d → f32_ceil (f32_round n d) = 1.
Proof.
  intros [Hn Hnd].
  pose proof (f32_round_pos n d Hn ltac:(lia)) as Hm.
  unfold f32_round in *.
  destruct (Z.leb_spec n 0); [lia|].
  assert (Z.log2 n - Z.log2 d ≤ 0) as Hl by (pose proof (Z.log2_le_mono n d); lia).
  set (l := Z.log2 n - Z.log2 d) in *.
  set (p := if (if 0 <=? l then d * 2 ^ l <=? n else d <=? n * 2 ^ (- l))
            then l - 23 else l - 24) in *.
  assert (p < 0) as Hp by (unfold p; repeat case_match; lia).
  destruct (Z.leb_spec 0 p); [lia|].
  cbn [f_m] in Hm. unfold f32_ceil, f32_num, f32_den. cbn [f_m f_e].
  destruct (Z.leb_spec 0 p); [lia|].
  assert (0 < 2 ^ (- p)) as HX by (apply Z.pow_pos_nonneg; lia).
  assert (rne (n * 2 ^ (- p)) d ≤ 2 ^ (- p)) as Hle by (apply rne_le; nia).
  apply (ceil_neg_div _ _ 0); lia.
Qed.

(** A quotient of integers below 2^24 that is at least 1 is rounded to
    a float with the same ceiling. *)
Lemma f32_ceil_round_ge1 n d :
  0 < d ≤ n → n < 2 ^ 24 → f32_ceil (f32_round n d) = div_ceil n d.
Proof.
  intros [Hd Hdn] Hn24.
  assert (∃ E, 0 ≤ E ≤ 23 ∧ d * 2 ^ E ≤ n < d * 2 ^ (E + 1) ∧
               f32_round n d
               = if 0 <=? E - 23 then F32 (rne n (d * 2 ^ (E - 23))) (E - 23)
                 else F32 (rne (n * 2 ^ (- (E - 23))) d) (E - 23))
    as (E & HE & HEn & ->).
  { unfold f32_round. destruct (Z.leb_spec n 0); [lia|].
    pose proof (Z.log2_spec n ltac:(lia)) as [Hn1 Hn2].
    pose proof (Z.log2_spec d Hd) as [Hd1 Hd2].
    pose proof (Z.log2_nonneg d) as Hld.
    assert (Z.log2 d ≤ Z.log2 n) as Hmono by (apply Z.log2_le_mono; lia).
    set (ln := Z.log2 n) in *. set (ld := Z.log2 d) in *.
    assert (0 < 2 ^ ld) as Hpd by (apply Z.pow_pos_nonneg; lia).
    assert (∀ E, 0 ≤ E → d * 2 ^ E ≤ n → E ≤ 23) as H23.
    { intros E HE0 HE. assert (0 < 2 ^ E) by (apply Z.pow_pos_nonneg; lia).
      assert (2 ^ E < 2 ^ 24) as Hlt by nia.
      apply Z.pow_lt_mono_r_iff in Hlt; lia. }
    destruct (Z.leb_spec 0 (ln - ld)) as [Hl|]; [|lia].
    destruct (Z.leb_spec (d * 2 ^ (ln - ld)) n) as [Hge|Hlt].
    - exists (ln - ld). split; [split; [done|by apply H23]|]. split; [|done].
      split; [done|].
      assert (2 ^ (ln + 1) = 2 ^ (ln - ld + 1) * 2 ^ ld) as Hpow.
      { rewrite <- Z.pow_add_r by lia. f_equal. lia. }
      assert (0 < 2 ^ (ln - ld + 1)) by (apply Z.pow_pos_nonneg; lia).
      unfold Z.succ in Hn2. rewrite Hpow in Hn2. nia.
    - assert (1 ≤ ln - ld) as Hl1.
      { destruct (decide (ln - ld = 0)) as [H0|]; [|lia].
        rewrite H0 in Hlt. simpl in Hlt. lia. }
      assert (d * 2 ^ (ln - ld - 1) ≤ n) as Hlow.
      { assert (2 ^ ln = 2 ^ (ln - ld - 1) * 2 ^ (ld + 1)) as Hpow.
        { rewrite <- Z.pow_add_r by lia. f_equal. lia. }
        assert (0 < 2 ^ (ln - ld - 1)) by (apply Z.pow_pos_nonneg; lia).
        unfold Z.succ in Hd2. rewrite Hpow in Hn1. nia. }
      exists (ln - ld - 1). split; [split; [lia|apply H23; [lia|done]]|].
      split; [|by replace (ln - ld - 1 - 23) with (ln - ld - 24) by lia].
      split; [done|]. by replace (ln - ld - 1 + 1) with (ln - ld) by lia. }
  set (s := 23 - E).
  assert (0 < 2 ^ s) as HX by (apply Z.pow_pos_nonneg; lia).
  assert (d < 2 * 2 ^ s) as Hd2.
  { assert (2 ^ 24 = 2 * 2 ^ s * 2 ^ E) as Hpow.
    { rewrite <- Z.pow_succ_r, <- Z.pow_add_r by lia. f_equal. lia. }
    assert (0 < 2 ^ E) by (apply Z.pow_pos_nonneg; lia). nia. }
  assert (f32_ceil (if 0 <=? E - 23 then F32 (rne n (d * 2 ^ (E - 23))) (E - 23)
                    else F32 (rne (n * 2 ^ (- (E - 23))) d) (E - 23))
          = - (- rne (n * 2 ^ s) d / 2 ^ s)) as ->.
  { unfold f32_ceil, f32_num, f32_den.
    destruct (Z.leb_spec 0 (E - 23)) as [Hp|Hp]; cbn [f_m f_e].
    - assert (E = 23) as -> by lia. unfold s. simpl (23 - 23). simpl (2 ^ 0).
      rewrite !Z.mul_1_r. done.
    - destruct (Z.leb_spec 0 (E - 23)); [lia|].
      by replace (- (E - 23)) with s by (unfold s; lia). }
  unfold div_ceil.
  pose proof (Z.div_mod n d ltac:(lia)) as Hdm.
  pose proof (Z.mod_pos_bound n d Hd) as Hr.
  set (k := n / d) in *. set (r := n mod d) in *.
  destruct (decide (r = 0)) as [Hr0|Hr0].
  - assert (n * 2 ^ s = k * 2 ^ s * d) as -> by nia.
    rewrite rne_exact by lia.
    replace (- (k * 2 ^ s)) with (- k * 2 ^ s) by lia.
    rewrite Z.div_mul, Z.opp_involutive by lia.
    apply (Z.div_unique_pos _ d k (d - 1)); lia.
  - assert (k * 2 ^ s + 1 ≤ rne (n * 2 ^ s) d) as Hlow by (apply rne_above; nia).
    assert (rne (n * 2 ^ s) d ≤ (k + 1) * 2 ^ s) as Hup by (apply rne_le; nia).
    rewrite (ceil_neg_div _ _ k) by lia.
    apply (Z.div_unique_pos _ d (k + 1) (r - 1)); lia.
Qed.

(** For a duration below 2^24 the weight [add_dep] computes in single
    precision is the exact ceiling of the quotient. *)
Lemma duration_in_cycles_small d ct :
  0 ≤ d < 2 ^ 24 → 0 < ct → duration_in_cycles d ct = div_ceil d ct.
Proof.
  intros [Hd0 Hd] Hct.
  destruct (decide (d = 0)) as [->|Hne].
  { rewrite duration_in_cycles_0. unfold div_ceil.
    apply (Z.div_unique_pos _ ct 0 (ct - 1)); lia. }
  unfold duration_in_cycles, f32_div.
  destruct (f32_of_Z_small d ltac:(lia)) as (sd & Hsd & -> & ->).
  assert (0 < 2 ^ sd) as Hpd by (apply Z.pow_pos_nonneg; lia).
  destruct (decide (ct < 2 ^ 24)) as [Hsmall|Hbig].
  - destruct (f32_of_Z_small ct ltac:(lia)) as (sc & Hsc & -> & ->).
    assert (0 < 2 ^ sc) as Hpc by (apply Z.pow_pos_nonneg; lia).
    replace (d * 2 ^ sd * 2 ^ sc) with (d * 2 ^ (sd + sc))
      by (rewrite Z.pow_add_r by lia; lia).
    replace (2 ^ sd * (ct * 2 ^ sc)) with (ct * 2 ^ (sd + sc))
      by (rewrite Z.pow_add_r by lia; lia).
    rewrite f32_round_scale by lia.
    destruct (decide (ct ≤ d)) as [Hle|Hgt].
    + by apply f32_ceil_round_ge1.
    + rewrite f32_ceil_round_le1 by lia. unfold div_ceil.
      apply (Z.div_unique_pos _ ct 1 (d - 1)); lia.
  - destruct (f32_of_Z_big ct ltac:(lia)) as [-> Hnum].
    set (C := f32_num (f32_of_Z ct)) in *.
    rewrite Z.mul_1_r, (Z.mul_comm (2 ^ sd) C).
    rewrite f32_round_scale by lia.
    rewrite f32_ceil_round_le1 by lia. unfold div_ceil.
    apply (Z.div_unique_pos _ ct 1 (d - 1)); lia.
Qed.

(** ** The list scheduler when no gate is refused *)

Section ref_cycles.
Context `{Decls}.
Variables (sc : Scheduler) (W : Z).
Hypothesis Hok : decls_ok.
Hypothesis Hwf : wf_sched sc.
Hypothesis Hfit : weights_fit sc W.

Lemma ref_start dir :
  cyc (ref_cycles sc dir) (start_node sc dir)
  = match dir with forward_scheduling => 0 | backward_scheduling => ALAP_SINK_CYCLE end.
Proof.
  destruct dir; cbn [ref_cycles start_node].
  - destruct (set_cycle_forward_inv sc W Hok Hwf Hfit) as (_ & Hb & _ & _).
    assert (s sc ≤ t sc)%nat as Hst by (rewrite (wf_s sc Hwf); lia).
    specialize (Hb (s sc) Hst).
    assert (Z.of_nat (s sc) = 0) as Hs0 by (rewrite (wf_s sc Hwf); lia).
    rewrite Hs0 in Hb. lia.
  - apply (alap_cycles_sink sc Hwf).
Qed.

Lemma ref_honoured dir a : a ∈ arcs sc → honours (ref_cycles sc dir) a.
Proof.
  intros Ha. destruct dir; cbn [ref_cycles].
  - by apply (set_cycle_forward_honoured sc W Hok Hwf Hfit).
  - by apply (alap_cycles_honoured sc W Hok Hwf Hfit).
Qed.

Lemma ref_ahead dir a :
  a ∈ arcs sc →
  ahead dir (cyc (ref_cycles sc dir) (depended dir a)) (cyc (ref_cycles sc dir) (depending dir a)).
Proof.
  intros Ha. pose proof (ref_honoured dir a Ha) as Hh. unfold honours in Hh.
  pose proof (wf_weight_nonneg sc Hwf a Ha).
  destruct dir; cbn [ref_cycles ahead depended depending] in *; lia.
Qed.

(** The cycle [set_cycle_gate] gives a node that waits for nodes at
    their cycles is its cycle. *)
Lemma ref_recurrence dir m ins :
  (m < length ins)%nat →
  (∃ a, a ∈ arcs sc ∧ depending dir a = m) →
  (∀ a, a ∈ arcs sc → depending dir a = m →
        cyc ins (depended dir a) = cyc (ref_cycles sc dir) (depended dir a)) →
  cyc (set_cycle_gate (arcs sc) m dir ins) m = cyc (ref_cycles sc dir) m.
Proof.
  intros Hm (a0 & Ha0 & Hd0) Hdep.
  destruct Hok as (HA0 & HAM & HM). pose proof Hfit as (_ & HW0 & HtW).
  destruct dir; cbn [ref_cycles depended depending] in *.
  - rewrite set_cycle_gate_forward, cyc_set_cyc_eq by done.
    destruct (set_cycle_forward_inv sc W (conj HA0 (conj HAM HM)) Hwf Hfit)
      as (_ & Hb & Hh & Htight).
    set (asap := instruction (set_cycle forward_scheduling sc)) in *.
    assert (m ≤ t sc)%nat as Hmt by (pose proof (wf_arcs sc Hwf a0 Ha0); lia).
    assert (Hf : ∀ a, a ∈ in_arcs (arcs sc) m →
                      wrap64 (cyc ins (a_src a) + weight a) = cyc asap (a_src a) + weight a).
    { intros a [Ha Ht]%elem_of_in_arcs. rewrite (Hdep a Ha Ht).
      pose proof (wf_arcs sc Hwf a Ha) as Hlt.
      pose proof (Hb (a_src a) ltac:(lia)) as Hbs.
      pose proof (fit_weight sc W Hwf Hfit a Ha) as Hw.
      apply wrap64_small. split; [lia|].
      assert (Z.of_nat (a_src a) * W ≤ Z.of_nat (t sc) * W) by nia. lia. }
    destruct (foldl_max_spec (λ a, wrap64 (cyc ins (a_src a) + weight a))
                (in_arcs (arcs sc) m) 0) as (H0 & Hge & Hex).
    cbv beta zeta in *. set (M := foldl _ _ _) in *.
    apply Z.le_antisymm.
    + destruct Hex as [->|(a & Ha & ->)]; [by apply (Hb m)|].
      rewrite Hf by done. apply elem_of_in_arcs in Ha as [Ha <-].
      apply Hh; [done|]. pose proof (wf_arcs sc Hwf a Ha). lia.
    + destruct (Htight m Hmt) as [->|(a & Ha & Ht & ->)]; [done|].
      rewrite <- Hf by by apply elem_of_in_arcs. apply Hge. by apply elem_of_in_arcs.
  - rewrite set_cycle_gate_backward, cyc_set_cyc_eq by done.
    destruct (alap_cycles_inv sc W (conj HA0 (conj HAM HM)) Hwf Hfit)
      as (_ & Hb & Hh & Htight).
    set (alap := alap_cycles sc) in *.
    assert (m < t sc)%nat as Hmt by (pose proof (wf_arcs sc Hwf a0 Ha0); lia).
    assert (Hf : ∀ a, a ∈ out_arcs (arcs sc) m →
                      wrap64 (cyc ins (a_tgt a) - weight a) = cyc alap (a_tgt a) - weight a).
    { intros a [Ha Hs]%elem_of_out_arcs. rewrite (Hdep a Ha Hs).
      pose proof (wf_arcs sc Hwf a Ha) as Hlt.
      pose proof (Hb (a_tgt a) ltac:(lia)) as Hbt.
      pose proof (fit_weight sc W Hwf Hfit a Ha) as Hw.
      apply wrap64_small. split; [|lia].
      assert ((Z.of_nat (t sc) - Z.of_nat (a_tgt a)) * W + W ≤ (Z.of_nat (t sc) + 1) * W)
        by nia. lia. }
    destruct (foldl_min_spec (λ a, wrap64 (cyc ins (a_tgt a) - weight a))
                (out_arcs (arcs sc) m) MAX_CYCLE) as (H0 & Hle & Hex).
    cbv beta zeta in *. set (M := foldl _ _ _) in *.
    apply Z.le_antisymm.
    + assert (m ≤ t sc)%nat as Hmt' by lia.
      destruct (Htight m Hmt') as [?|[->|(a & Ha & Hs & ->)]]; [lia|done|].
      rewrite <- Hf by by apply elem_of_out_arcs. apply Hle. by apply elem_of_out_arcs.
    + destruct Hex as [->|(a & Ha & ->)].
      { assert (m ≤ t sc)%nat as Hmt' by lia. by apply (Hb m). }
      rewrite Hf by done. apply elem_of_out_arcs in Ha as [Ha <-].
      assert (a_src a ≤ t sc)%nat as Hst by (pose proof (wf_arcs sc Hwf a Ha); lia).
      pose proof (Hh a Ha Hst) as Hha. unfold honours in Hha. lia.
Qed.

(** A node that arcs touch has its cycle within the cycles of the
    circuit. *)
Lemma ref_slack dir x :
  arcs sc ≠ [] →
  (x = start_node sc dir ∨ ∃ a, a ∈ arcs sc ∧ depending dir a = x) →
  0 ≤ slack sc dir (cyc (ref_cycles sc dir) x).
Proof.
  intros Hne Hx. destruct dir; cbn [ref_cycles slack start_node depending] in *.
  - unfold circuit_depth. destruct Hx as [->|(a & Ha & <-)].
    + pose proof (ref_start forward_scheduling) as Hs.
      cbn [ref_cycles start_node] in Hs. rewrite Hs.
      pose proof (circuit_depth_bounds sc W Hok Hwf Hfit). unfold circuit_depth in *. lia.
    + destruct (honoured_to_sink sc Hwf (instruction (set_cycle forward_scheduling sc)) a
                  (ref_honoured forward_scheduling) Ha) as [_ Ht]. lia.
  - rewrite <- (alap_depth sc W Hok Hwf Hfit Hne).
    assert (x ≤ t sc)%nat as Hxt.
    { destruct Hx as [->|(a & Ha & <-)]; [done|]. pose proof (wf_arcs sc Hwf a Ha). lia. }
    pose proof (alap_cycles_source_least sc W Hok Hwf Hfit Hne x Hxt). lia.
Qed.
End ref_cycles.

Section free_take.
Context `{Decls}.
Variables (sc : Scheduler) (W : Z) (dir : scheduling_direction_t).
Hypothesis Hok : decls_ok.
Hypothesis Hwf : wf_sched sc.
Hypothesis Hfit : weights_fit sc W.
Variables (scheduled : gmap nat bool) (curr_cycle : Z).

#[local] Abbreviation exact := (take_exact sc dir scheduled curr_cycle).

Lemma MakeAvailable_exact m st :
  exact st →
  is_scheduled scheduled m = false →
  (∃ a, a ∈ arcs sc ∧ depending dir a = m) →
  (∀ a, a ∈ arcs sc → depending dir a = m → is_scheduled scheduled (depended dir a) = true) →
  ahead dir curr_cycle (cyc (ref_cycles sc dir) m) →
  exact (MakeAvailable sc m dir st).
Proof.
  destruct st as [ins avl]. unfold exact. cbn [fst snd].
  intros (Hlen & Hcyc & Hahead & Htouched) Hms Harc Hwait Hm.
  destruct (MakeAvailable_avlist sc m dir ins avl) as [[Hin ->]|(Hin & avl' & -> & Hp)].
  { cbn [fst snd]. done. }
  cbn [fst snd].
  assert (m < length ins)%nat as Hml.
  { rewrite Hlen. destruct Harc as (a & Ha & <-).
    apply (wf_nodes_lt sc Hwf), (wf_elem_of_nodes sc Hwf).
    by apply (wf_depending_le sc dir Hwf). }
  assert (cyc (set_cycle_gate (arcs sc) m dir ins) m = cyc (ref_cycles sc dir) m) as Hmc.
  { apply (ref_recurrence sc W Hok Hwf Hfit); [done..|].
    intros a Ha Hd. apply Hcyc. left. by apply Hwait. }
  split_and!.
  - by rewrite length_set_cycle_gate.
  - intros x Hx. destruct (decide (x = m)) as [->|Hne]; [done|].
    rewrite cyc_set_cycle_gate_ne by done. apply Hcyc.
    destruct Hx as [?|Hx]; [by left|right].
    rewrite Hp in Hx. apply elem_of_cons in Hx as [?|?]; done.
  - intros x Hx. rewrite Hp in Hx. apply elem_of_cons in Hx as [->|Hx].
    + by rewrite Hmc.
    + rewrite cyc_set_cycle_gate_ne by (intros ->; done). by apply Hahead.
  - intros x Hx. rewrite Hp in Hx. apply elem_of_cons in Hx as [->|Hx]; [by right|].
    by apply Htouched.
Qed.

Lemma TakeAvailable_exact n l st :
  exact st →
  cyc (ref_cycles sc dir) n = curr_cycle →
  (∀ a, a ∈ l → a ∈ arcs sc ∧ depended dir a = n ∧
                is_scheduled scheduled (depending dir a) = false) →
  exact (foldl (λ st a,
                  if forallb (λ a', is_scheduled scheduled (depended dir a'))
                       (wait_arcs (arcs sc) dir (depending dir a))
                  then MakeAvailable sc (depending dir a) dir st else st) st l).
Proof.
  intros Hst Hn. revert st Hst. induction l as [|a l IH]; intros st Hst Hl; simpl; [done|].
  destruct (Hl a ltac:(by left)) as (Ha & Hd & Hs).
  apply IH; [|intros a' Ha'; apply Hl; by right].
  destruct (forallb _ _) eqn:Hall; [|done].
  rewrite forallb_forall in Hall.
  apply MakeAvailable_exact; [done|done|by eauto| |].
  - intros a' Ha' Hd'. apply Hall. apply list_elem_of_In, elem_of_wait_arcs. done.
  - rewrite <- Hn, <- Hd. by apply (ref_ahead sc W).
Qed.
End free_take.

Lemma filter_ext_in (P Q : nat → Prop) `{∀ x, Decision (P x)} `{∀ x, Decision (Q x)}
    (l : list nat) :
  (∀ x, x ∈ l → (Q x ↔ P x)) → filter Q l = filter P l.
Proof.
  induction l as [|x l IH]; intros HPQ; [done|]. rewrite !filter_cons.
  rewrite IH by (intros y Hy; apply HPQ; by right).
  destruct (decide (P x)) as [HP|HP].
  - by rewrite (decide_True (P := Q x)) by (apply HPQ; [by left|done]).
  - rewrite (decide_False (P := Q x)); [done|].
    intros HQ. apply HP, HPQ; [by left|done].
Qed.

Lemma length_filter_remove (P Q : nat → Prop) `{∀ x, Decision (P x)} `{∀ x, Decision (Q x)}
    (l : list nat) n :
  NoDup l → n ∈ l → P n → ¬ Q n → (∀ x, x ≠ n → (Q x ↔ P x)) →
  Datatypes.S (length (filter Q l)) = length (filter P l).
Proof.
  intros Hnd Hn HPn HQn HPQ. induction l as [|x l IH]; [by apply elem_of_nil in Hn|].
  apply NoDup_cons in Hnd as [Hx Hnd]. rewrite !filter_cons.
  destruct (decide (x = n)) as [->|Hne].
  - rewrite (decide_False (P := Q n)), (decide_True (P := P n)) by done. simpl.
    do 2 f_equal. apply filter_ext_in. intros y Hy. apply HPQ. intros ->. done.
  - apply elem_of_cons in Hn as [?|Hn]; [done|].
    destruct (decide (P x)) as [HP|HP].
    + rewrite (decide_True (P := Q x)) by by apply HPQ. simpl. f_equal. by apply IH.
    + rewrite (decide_False (P := Q x)) by (intros HQ; by apply HP, HPQ). by apply IH.
Qed.

Section free_loop.
Context `{Decls} {R : Type} `{resource_manager_t R}.
Variables (sc : Scheduler) (W : Z) (dir : scheduling_direction_t)
  (platform : quantum_platform).
Hypothesis Hok : decls_ok.
Hypothesis Hwf : wf_sched sc.
Hypothesis Hfit : weights_fit sc W.
Hypothesis Hne : arcs sc ≠ [].
Hypothesis Hfree : never_refuses.

Lemma immediately_schedulable_free n curr_cycle (rm : R) ins :
  (n < length ins)%nat →
  immediately_schedulable sc n dir curr_cycle platform rm ins
  = match dir with
    | forward_scheduling => cyc ins n <=? curr_cycle
    | backward_scheduling => curr_cycle <=? cyc ins n
    end.
Proof.
  intros Hn. unfold immediately_schedulable. rewrite cyc_lookup_total by done.
  rewrite Hfree. destruct dir; repeat case_match; done.
Qed.

Lemma SelectAvailable_None avlist curr_cycle (rm : R) ins x :
  SelectAvailable sc avlist dir curr_cycle platform rm ins = None →
  x ∈ avlist → immediately_schedulable sc x dir curr_cycle platform rm ins = false.
Proof.
  unfold SelectAvailable.
  destruct (list_find _ avlist) as [[i y]|] eqn:Hfind; [done|]. intros _ Hx.
  apply list_find_None in Hfind. apply (proj1 (Forall_forall _ _) Hfind) in Hx.
  by apply not_true_is_false.
Qed.

(** A round of the loop keeps the nodes at their cycles, and either
    schedules a node or advances to a cycle of the circuit. *)
Lemma schedule_step_exact k (st : rc_state R) :
  0 ≤ k → k + 1 + W ≤ ALAP_SINK_CYCLE →
  rc_inv sc dir k st → exact_inv sc dir st → rc_avlist st ≠ [] →
  let st' := schedule_step sc dir platform st in
  exact_inv sc dir st' ∧
  (unscheduled sc (rc_scheduled st') + Z.to_nat (slack sc dir (rc_curr_cycle st'))
   < unscheduled sc (rc_scheduled st) + Z.to_nat (slack sc dir (rc_curr_cycle st)))%nat.
Proof.
  intros Hk0 Hk Hinv [Hcyc Hahead Htouched] Hav st'. unfold st', schedule_step. clear st'.
  pose proof Hinv as [Hlen Hcurr Hsc Hsched Havail Hcomp].
  pose proof Hok as (HA0 & HAM & HM). pose proof Hfit as (_ & HW0 & _).
  assert (Hlt : ∀ x, x ∈ rc_avlist st → (x < length (rc_ins st))%nat).
  { intros x Hx. destruct (Havail x Hx) as (_ & Hxt & _).
    rewrite Hlen. apply (wf_nodes_lt sc Hwf), (wf_elem_of_nodes sc Hwf). done. }
  set (curr := rc_curr_cycle st) in *.
  destruct (SelectAvailable _ _ _ _ _ _ _) as [n|] eqn:Hsel.
  2:{ (* no node can start: the cycle advances, towards the cycle of an
         available node *)
    cbn [rc_ins rc_avlist rc_scheduled rc_curr_cycle].
    assert (Hstrict : ∀ x, x ∈ rc_avlist st →
              match dir with
              | forward_scheduling => curr < cyc (rc_ins st) x
              | backward_scheduling => cyc (rc_ins st) x < curr
              end).
    { intros x Hx. pose proof (SelectAvailable_None _ _ _ _ x Hsel Hx) as Hns.
      rewrite immediately_schedulable_free in Hns by by apply Hlt.
      destruct dir; by apply Z.leb_gt in Hns. }
    assert (Hadv : AdvanceCurrCycle dir curr
                   = match dir with
                     | forward_scheduling => curr + 1
                     | backward_scheduling => curr - 1
                     end).
    { unfold AdvanceCurrCycle. destruct dir; simpl in Hcurr; apply wrap64_small; lia. }
    rewrite Hadv. split.
    - split; cbn [rc_ins rc_avlist rc_scheduled rc_curr_cycle]; [done| |done].
      intros x Hx. specialize (Hstrict x Hx). destruct dir; simpl; lia.
    - destruct (rc_avlist st) as [|x0 l0] eqn:Hl; [done|].
      assert (x0 ∈ x0 :: l0) as Hx0 by by left.
      pose proof (Hstrict x0 Hx0) as Hs0.
      pose proof (ref_slack sc W Hok Hwf Hfit dir x0 Hne (Htouched x0 Hx0)) as Hsl.
      rewrite <- (Hcyc x0 (or_intror Hx0)) in Hsl.
      destruct dir; simpl in *; lia. }
  apply SelectAvailable_Some in Hsel as [Hn Himm].
  rewrite immediately_schedulable_free in Himm by by apply Hlt.
  pose proof (Hahead n Hn) as Han. fold curr in Han.
  assert (cyc (rc_ins st) n = curr) as Hnc.
  { destruct dir; simpl in *; apply Z.leb_le in Himm; lia. }
  destruct (Havail n Hn) as (Hns & Hnt & Hnw).
  set (ins1 := set_cyc n curr (rc_ins st)).
  set (sch' := <[n := true]> (rc_scheduled st)).
  assert (Hins1 : ∀ x, cyc ins1 x = cyc (rc_ins st) x).
  { intros x. unfold ins1. destruct (decide (n = x)) as [<-|Hnx].
    - rewrite cyc_set_cyc_eq by by apply Hlt. done.
    - by rewrite cyc_set_cyc_ne. }
  assert (Hsch' : ∀ x, is_scheduled sch' x = true ↔ x = n ∨ is_scheduled (rc_scheduled st) x = true).
  { intros x. unfold sch'. rewrite is_scheduled_insert. case_decide; naive_solver. }
  assert (Hsch'f : ∀ x, is_scheduled sch' x = false ↔
                        x ≠ n ∧ is_scheduled (rc_scheduled st) x = false).
  { intros x. unfold sch'. rewrite is_scheduled_insert. case_decide; naive_solver. }
  pose proof (TakeAvailable_exact sc W dir Hok Hwf Hfit sch' curr n
                (dep_arcs (arcs sc) dir n) (ins1, filter (λ x, x ≠ n) (rc_avlist st)))
    as Hfold.
  unfold TakeAvailable. fold sch' ins1.
  destruct Hfold as (Hlen' & Hcyc' & Hahead' & Htouched').
  { unfold take_exact. cbn [fst snd]. split_and!.
    - unfold ins1. by rewrite length_set_cyc.
    - intros x Hx. rewrite Hins1. apply Hcyc.
      destruct Hx as [[->|Hx]%Hsch'|[_ Hx]%list_elem_of_filter]; auto.
    - intros x [_ Hx]%list_elem_of_filter. rewrite Hins1. by apply Hahead.
    - intros x [_ Hx]%list_elem_of_filter. by apply Htouched. }
  { rewrite <- (Hcyc n (or_intror Hn)). done. }
  { intros a [Ha Hd]%elem_of_dep_arcs. split; [done|]. split; [done|]. apply Hsch'f. split.
    - rewrite <- Hd. by apply (wf_depending_ne sc).
    - destruct (is_scheduled (rc_scheduled st) (depending dir a)) eqn:Hs; [|done].
      destruct (Hsched a Ha Hs) as [Hds _]. rewrite Hd in Hds. congruence. }
  set (st' := foldl _ _ _) in *. destruct st' as [ins' avl'] eqn:Hst'.
  cbn [fst snd] in *. cbn [rc_ins rc_avlist rc_scheduled rc_curr_cycle]. split.
  - split; cbn [rc_ins rc_avlist rc_scheduled rc_curr_cycle]; done.
  - assert (Datatypes.S (unscheduled sc sch') = unscheduled sc (rc_scheduled st)) as Hun.
    { unfold unscheduled. apply length_filter_remove with (n := n).
      - apply NoDup_seq.
      - apply elem_of_seq. lia.
      - done.
      - rewrite (proj2 (Hsch' n)) by by left. done.
      - intros x Hx. rewrite Hsch'f. naive_solver. }
    fold curr. lia.
Qed.
End free_loop.

Lemma ref_cycles_set_remaining `{Decls} dir' sc dir :
  ref_cycles (set_remaining dir' sc) dir = ref_cycles sc dir.
Proof. by destruct dir, dir'. Qed.

Lemma unscheduled_pos sc scheduled x :
  (x ≤ t sc)%nat → is_scheduled scheduled x = false → (0 < unscheduled sc scheduled)%nat.
Proof.
  intros Hx Hs. unfold unscheduled.
  assert (x ∈ filter (λ x, is_scheduled scheduled x = false) (seq 0 (Datatypes.S (t sc))))
    as Hin.
  { apply list_elem_of_filter. split; [done|]. apply elem_of_seq. lia. }
  destruct (filter _ _); [by apply elem_of_nil in Hin|simpl; lia].
Qed.

Lemma unscheduled_init sc len :
  unscheduled sc (list_to_map ((λ n, (n, false)) <$> seq 0 len)) = Datatypes.S (t sc).
Proof.
  unfold unscheduled.
  assert (filter (λ x, is_scheduled (list_to_map ((λ n, (n, false)) <$> seq 0 len)) x = false)
            (seq 0 (Datatypes.S (t sc))) = seq 0 (Datatypes.S (t sc))) as Hall.
  { induction (seq 0 (Datatypes.S (t sc))) as [|x l' IH]; [done|].
    rewrite filter_cons_True by apply is_scheduled_init. by rewrite IH. }
  by rewrite Hall, length_seq.
Qed.

Section free_run.
Context `{Decls} {R : Type} `{resource_manager_t R}.
Variables (sc : Scheduler) (W : Z) (dir : scheduling_direction_t)
  (platform : quantum_platform).
Hypothesis Hok : decls_ok.
Hypothesis Hwf : wf_sched sc.
Hypothesis Hfit : weights_fit sc W.
Hypothesis Hne : arcs sc ≠ [].
Hypothesis Hfree : never_refuses.

(** The loop starts with its one available node at its cycle. *)
Lemma schedule_init_exact (rm : R) : exact_inv sc dir (schedule_init sc dir rm).
Proof.
  assert (rc_avlist (schedule_init sc dir rm) = [start_node sc dir]) as Hav
    by (by destruct dir).
  assert (∀ x, is_scheduled (rc_scheduled (schedule_init sc dir rm)) x = false) as Hsch.
  { intros x. destruct dir; apply is_scheduled_init. }
  assert (start_node sc dir < length (instruction sc))%nat as Hlt.
  { apply (wf_nodes_lt sc Hwf), (wf_elem_of_nodes sc Hwf).
    pose proof (wf_s sc Hwf). destruct dir; simpl; lia. }
  assert (cyc (rc_ins (schedule_init sc dir rm)) (start_node sc dir)
          = rc_curr_cycle (schedule_init sc dir rm)
          ∧ rc_curr_cycle (schedule_init sc dir rm)
            = cyc (ref_cycles sc dir) (start_node sc dir)) as [Hc Hr].
  { rewrite (ref_start sc W Hok Hwf Hfit).
    destruct dir; simpl in *; by rewrite cyc_set_cyc_eq. }
  split.
  - intros x [Hx|Hx]; [by rewrite Hsch in Hx|].
    rewrite Hav in Hx. apply list_elem_of_singleton in Hx as ->. by rewrite Hc.
  - intros x Hx. rewrite Hav in Hx. apply list_elem_of_singleton in Hx as ->.
    rewrite Hc. destruct dir; simpl; lia.
  - intros x Hx. rewrite Hav in Hx. apply list_elem_of_singleton in Hx as ->. by left.
Qed.

(** When no gate is refused the loop ends within as many rounds as
    there are nodes and cycles in the circuit. *)
Lemma schedule_loop_free fuel k (st : rc_state R) :
  0 ≤ k → k + Z.of_nat fuel + W ≤ ALAP_SINK_CYCLE →
  rc_inv sc dir k st → exact_inv sc dir st →
  (unscheduled sc (rc_scheduled st) + Z.to_nat (slack sc dir (rc_curr_cycle st)) ≤ fuel)%nat →
  ∃ st', schedule_loop fuel sc dir platform st = Returns st' ∧ exact_inv sc dir st'.
Proof.
  revert k st. induction fuel as [|fuel IH]; intros k st Hk0 Hk Hinv Hex Hmu; simpl.
  - destruct (rc_avlist st) as [|x l] eqn:Hav; [by exists st|].
    destruct (rc_avail sc dir k st Hinv x) as (Hs & Hx & _); [rewrite Hav; by left|].
    pose proof (unscheduled_pos sc _ x Hx Hs). lia.
  - destruct (rc_avlist st) as [|x l] eqn:Hav; [by exists st|].
    destruct (schedule_step_exact sc W dir platform Hok Hwf Hfit Hne Hfree k st)
      as [Hex' Hlt]; [done|lia|done|done|by rewrite Hav|].
    apply (IH (k + 1)); [lia|lia| |done|lia].
    apply (schedule_step_inv sc W dir platform Hok Hwf Hfit); [done|lia|done].
Qed.
End free_run.

Section free_schedule.
Context `{Decls} {R : Type} `{resource_manager_t R}.
Variables (sc : Scheduler) (W : Z) (platform : quantum_platform).
Hypothesis Hok : decls_ok.
Hypothesis Hwf : wf_sched sc.
Hypothesis Hfit : weights_fit sc W.
Hypothesis Hne : arcs sc ≠ [].
Hypothesis Hfree : never_refuses.

(** When no gate is refused [schedule] returns, and the loop has given
    every node that arcs touch the cycle of the pass without resource
    constraints. *)
Lemma schedule_free fuel dir (rm : R) :
  (t sc + 1 + Z.to_nat (circuit_depth sc) ≤ fuel)%nat →
  Z.of_nat fuel + W ≤ ALAP_SINK_CYCLE →
  ∃ sc' rm', schedule fuel sc dir platform rm = Returns (sc', rm') ∧
    ∀ a, a ∈ arcs sc →
      cyc (rc_cycles fuel sc dir platform rm) (a_src a) = cyc (ref_cycles sc dir) (a_src a) ∧
      cyc (rc_cycles fuel sc dir platform rm) (a_tgt a) = cyc (ref_cycles sc dir) (a_tgt a).
Proof.
  intros Hfuel Hbound.
  pose proof (set_remaining_wf dir sc Hwf) as Hwf'.
  pose proof (set_remaining_fit dir sc W Hfit) as Hfit'.
  destruct (set_remaining_fields dir sc) as (Ha & Hi & Hc & Hs & Ht & _).
  assert (arcs (set_remaining dir sc) ≠ []) as Hne' by by rewrite Ha.
  pose proof (schedule_init_inv _ dir Hok Hwf' rm) as Hinv0.
  pose proof (schedule_init_exact _ W dir Hok Hwf' Hfit' rm) as Hex0.
  rewrite (schedule_init_set_remaining dir sc rm) in Hinv0, Hex0.
  destruct (schedule_loop_free _ W dir platform Hok Hwf' Hfit' Hne' Hfree fuel 0
              (schedule_init sc dir rm)) as (st & Hloop & Hex); [done|lia|done|done| |].
  { assert (unscheduled (set_remaining dir sc) (rc_scheduled (schedule_init sc dir rm))
            = Datatypes.S (t sc)) as ->.
    { rewrite <- Ht. destruct dir; apply unscheduled_init. }
    assert (slack (set_remaining dir sc) dir (rc_curr_cycle (schedule_init sc dir rm))
            = circuit_depth sc) as ->; [|lia].
    destruct dir; simpl; unfold circuit_depth; simpl; lia. }
  destruct (schedule_loop_inv _ W dir platform Hok Hwf' Hfit' fuel 0 _ st
              ltac:(done) ltac:(lia) Hinv0 Hloop) as (k' & Hk' & Hinv & Hav).
  unfold schedule, rc_cycles. rewrite Hloop. eexists _, _. split; [done|].
  intros a Hin. rewrite <- Ha in Hin. pose proof (wf_arcs _ Hwf' a Hin) as Hlt.
  rewrite <- !(ref_cycles_set_remaining dir sc dir).
  assert (is_scheduled (rc_scheduled st) (depending dir a) = true) as Hsd.
  { apply (rc_all_scheduled _ dir Hwf' k'); [done..| |].
    - destruct dir; simpl; lia.
    - right. eauto. }
  destruct (rc_sched _ dir k' st Hinv a Hin Hsd) as [Hsd' _].
  pose proof (ex_cyc _ dir st Hex _ (or_introl Hsd)) as H1.
  pose proof (ex_cyc _ dir st Hex _ (or_introl Hsd')) as H2.
  destruct dir; simpl in *; done.
Qed.
End free_schedule.

(** ** The weights in single precision, and the list scheduler without
    resource conflicts *)

(** X25.  [add_dep] computes the weight of an arc in single precision.
    For the graph [init] builds from gates with durations below 2^24 the
    weight of every arc is the exact ceiling of the duration of its
    source over the cycle time, the integer formula the source keeps in
    a comment, whatever the cycle time.  The bound is sharp: the
    duration 2^24 + 1 at cycle time 1 gives the weight 2^24. *)
Theorem arc_weights_exact_below_2_24 `{Decls} (opts : Options) (ckt : list gate)
    (platform : quantum_platform) (qcount ccount : nat) (sc : Scheduler) :
  0 < pf_cycle_time platform → 0 ≤ SOURCE_duration < 2 ^ 24 → 0 ≤ SINK_duration →
  (∀ g, g ∈ ckt → 0 ≤ duration g < 2 ^ 24) →
  init opts ckt platform qcount ccount = Ok sc →
  (∀ a, a ∈ arcs sc →
        weight a = div_ceil (dur (instruction sc) (a_src a)) (pf_cycle_time platform)) ∧
  duration_in_cycles (2 ^ 24 + 1) 1 = 2 ^ 24 ∧ div_ceil (2 ^ 24 + 1) 1 = 2 ^ 24 + 1.
Proof.
  intros Hct HdS HdT Hdur Hinit. split; [|by vm_compute].
  destruct (init_wf opts ckt platform qcount ccount sc Hct (proj1 HdS) HdT) as
    (Hwf & Hins & Hcirc & Hctime); [intros g Hg; by apply Hdur|done|].
  intros a Ha. rewrite (wf_weight sc Hwf a Ha), Hctime.
  apply duration_in_cycles_small; [|done].
  pose proof (wf_arcs sc Hwf a Ha) as Hlt.
  rewrite (wf_t sc Hwf), Hcirc, length_seq in Hlt.
  rewrite Hins. unfold dur. destruct (a_src a) as [|x]; [done|]. simpl.
  rewrite lookup_app_l by lia.
  destruct (ckt !! x) as [g|] eqn:Hg; simpl; [|done].
  apply Hdur. by eapply list_elem_of_lookup_2.
Qed.

Lemma arc_weights_exact_below_2_24_witness :
  Forall (λ a, weight a = div_ceil (dur (instruction sample_sched) (a_src a)) 20)
    (arcs sample_sched).
Proof.
  apply Forall_forall.
  pose proof (arc_weights_exact_below_2_24 (H := openql_decls)
                (sample_options "ASAP" "no" "yes") sample_circuit sample_platform 3 0
                sample_sched) as Hthm.
  destruct Hthm as [Hw _]; [by simpl|by simpl|by simpl| |apply sample_init|exact Hw].
  intros g. unfold sample_circuit. rewrite !elem_of_cons, elem_of_nil.
  intros [->|[->|[->|[]]]]; simpl; lia.
Defined.



